(** * JSON Path Expander

    A shallow embedding of the command of [src/extension.ts]: the path
    parser [parsePath], the value coercer [coerceValue], the formatting
    inference [detectFormattingOptions], the embedded-object locator
    [findJsonVariables] and the callback registered by [activate].  The
    JSON library the source imports is not part of it; the structural
    editor is modelled from the specification.

    JavaScript strings are sequences of UTF-16 code units; positions are
    indices into them. *)

From Stdlib Require Import String Ascii List Bool Arith NArith ZArith Lia.
From Stdlib Require DecimalFacts DecimalN.
Import ListNotations.

Set Warnings "-register-all".



(** ** JavaScript strings *)

Module JS.

(** A string value: its code units, in order. *)
Definition jsstring := list N.

(** The string written by an ASCII literal. *)
Definition js (s : string) : jsstring :=
  List.map N_of_ascii (list_ascii_of_string s).

(** The same, with a backquote in the literal standing for the double
    quote character. *)
Definition jq (s : string) : jsstring :=
  List.map (fun a => if Ascii.eqb a "`"%char then 34%N else N_of_ascii a)
           (list_ascii_of_string s).

Definition DOT : N := 46.
Definition LBRACKET : N := 91.
Definition RBRACKET : N := 93.
Definition DQUOTE : N := 34.
Definition SQUOTE : N := 39.

(** [s[i]]: [None] stands for [undefined]. *)
Definition charAt (s : jsstring) (i : nat) : option N := nth_error s i.

(** [s[i] === c] *)
Definition charIs (s : jsstring) (i : nat) (c : N) : bool :=
  match charAt s i with
  | Some x => N.eqb x c
  | None => false
  end.

(** WhiteSpace and LineTerminator code units, as used by [trim] and [\s]. *)
Definition isWhiteSpace (c : N) : bool :=
  ((9 <=? c) && (c <=? 13) || (c =? 32) || (c =? 160) || (c =? 5760)
   || (8192 <=? c) && (c <=? 8202) || (c =? 8232) || (c =? 8233)
   || (c =? 8239) || (c =? 8287) || (c =? 12288) || (c =? 65279))%N.

(** [\d] *)
Definition isDigit (c : N) : bool := ((48 <=? c) && (c <=? 57))%N.

(** [\w] *)
Definition isWordChar (c : N) : bool :=
  ((97 <=? c) && (c <=? 122) || (65 <=? c) && (c <=? 90)
   || isDigit c || (c =? 95))%N.

Fixpoint trimStart (s : jsstring) : jsstring :=
  match s with
  | c :: t => if isWhiteSpace c then trimStart t else s
  | [] => []
  end.

Definition trimEnd (s : jsstring) : jsstring := rev (trimStart (rev s)).

Definition trim (s : jsstring) : jsstring := trimEnd (trimStart s).

(** Relative index resolution of [slice]: negative counts from the end,
    the result is clamped to [0, length]. *)
Definition relIndex (len : nat) (k : Z) : nat :=
  if (k <? 0)%Z then Z.to_nat (Z.max (Z.of_nat len + k) 0)
  else Nat.min (Z.to_nat k) len.

(** [s.slice(a, b)] *)
Definition slice (s : jsstring) (a b : Z) : jsstring :=
  let from := relIndex (length s) a in
  let to := relIndex (length s) b in
  firstn (to - from) (skipn from s).

(** [s.slice(a)] *)
Definition sliceFrom (s : jsstring) (a : Z) : jsstring :=
  skipn (relIndex (length s) a) s.

Fixpoint isPrefix (p s : jsstring) : bool :=
  match p, s with
  | [], _ => true
  | x :: p', y :: s' => N.eqb x y && isPrefix p' s'
  | _ :: _, [] => false
  end.

(** [s.startsWith(p)] *)
Definition startsWith (s p : jsstring) : bool := isPrefix p s.

(** [s.endsWith(p)] *)
Definition endsWith (s p : jsstring) : bool := isPrefix (rev p) (rev s).

(** First position [>= k] at which [p] occurs, scanning the suffix [s]
    that starts at position [k]. *)
Fixpoint indexOfAux (p s : jsstring) (k : nat) : option nat :=
  if isPrefix p s then Some k
  else match s with
       | [] => None
       | _ :: t => indexOfAux p t (S k)
       end.

(** [s.indexOf(p, from)]; [None] stands for [-1]. *)
Definition indexOf (s p : jsstring) (from : nat) : option nat :=
  let from' := Nat.min from (length s) in
  indexOfAux p (skipn from' s) from'.

(** [/^\d+$/.test(s)] *)
Definition testDigits (s : jsstring) : bool :=
  match s with
  | [] => false
  | _ => forallb isDigit s
  end.

(** A Number value, as far as this program produces them from digit runs:
    a finite integer-valued double or [Infinity]. *)
Inductive number : Type :=
| Finite (z : Z)
| PosInfinity.

(** The mathematical value of a run of decimal digits. *)
Definition digitsValue (s : jsstring) : Z :=
  fold_left (fun acc c => (10 * acc + (Z.of_N c - 48))%Z) s 0%Z.

(** The double nearest to a non-negative integer (ties to even):
    53 significant bits, overflow to [Infinity] from [2^1024]. *)
Definition roundDouble (n : Z) : number :=
  let bits := (if n =? 0 then 0 else Z.log2 n + 1)%Z in
  if (bits <=? 53)%Z then Finite n
  else
    let sh := (bits - 53)%Z in
    let q := Z.shiftr n sh in
    let r := (n - Z.shiftl q sh)%Z in
    let half := Z.shiftl 1 (sh - 1) in
    let q' := (if (half <? r) || ((r =? half) && Z.odd q) then q + 1 else q)%Z in
    let v := Z.shiftl q' sh in
    if (Z.shiftl 1 1024 <=? v)%Z then PosInfinity else Finite v.

(** [Number(s)] for a string of decimal digits. *)
Definition Number (s : jsstring) : number := roundDouble (digitsValue s).

Fixpoint uintUnits (u : Decimal.uint) : jsstring :=
  match u with
  | Decimal.Nil => []
  | Decimal.D0 u' => 48%N :: uintUnits u'
  | Decimal.D1 u' => 49%N :: uintUnits u'
  | Decimal.D2 u' => 50%N :: uintUnits u'
  | Decimal.D3 u' => 51%N :: uintUnits u'
  | Decimal.D4 u' => 52%N :: uintUnits u'
  | Decimal.D5 u' => 53%N :: uintUnits u'
  | Decimal.D6 u' => 54%N :: uintUnits u'
  | Decimal.D7 u' => 55%N :: uintUnits u'
  | Decimal.D8 u' => 56%N :: uintUnits u'
  | Decimal.D9 u' => 57%N :: uintUnits u'
  end.

(** [String(n)] for a non-negative integer [n]. *)
Definition decimalOfN (n : N) : jsstring :=
  match uintUnits (N.to_uint n) with
  | [] => [48%N]
  | ds => ds
  end.

End JS.

Import JS.

(** ** Path parser *)

(** An element of the path handed to the editor: a string or a number. *)
Inductive accessor : Type :=
| Key (k : jsstring)
| Index (n : number).

(** The accessor pushed for the trimmed text between [[] and []]. *)
Definition bracketAccessor (inside : jsstring) : accessor :=
  if testDigits inside then Index (Number inside)
  else if (startsWith inside [DQUOTE] && endsWith inside [DQUOTE])
          || (startsWith inside [SQUOTE] && endsWith inside [SQUOTE])
       then Key (slice inside 1 (-1))
       else Key inside.

(** The inner loop [while (j < input.length && input[j] !== "." &&
    input[j] !== "[") j++], run for at most [fuel] iterations. *)
Fixpoint scanBare (fuel : nat) (input : jsstring) (j : nat) : nat :=
  match fuel with
  | 0 => j
  | S fuel' =>
      match charAt input j with
      | Some c =>
          if N.eqb c DOT || N.eqb c LBRACKET then j
          else scanBare fuel' input (S j)
      | None => j
      end
  end.

(** What one iteration of the outer loop does. *)
Inductive outcome : Type :=
| Continue (i : nat) (parts : list accessor)
| Return (parts : list accessor).

(** One iteration of the outer loop of [parsePath], entered with
    [i < input.length]. *)
Definition step (input : jsstring) (i : nat) (parts : list accessor) : outcome :=
  if charIs input i DOT then Continue (S i) parts
  else if charIs input i LBRACKET then
    match indexOf input [RBRACKET] (i + 1) with
    | None => Return []
    | Some close =>
        let inside := trim (slice input (Z.of_nat (i + 1)) (Z.of_nat close)) in
        let parts' := parts ++ [bracketAccessor inside] in
        let i' := close + 1 in
        if (i' <? length input) && charIs input i' DOT
        then Continue (S i') parts'
        else Continue i' parts'
    end
  else
    let j := scanBare (length input - i) input i in
    let token := trim (slice input (Z.of_nat i) (Z.of_nat j)) in
    Continue j (if 0 <? length token then parts ++ [Key token] else parts).

(** The outer loop, run for at most [fuel] iterations; [None] when the
    iterations are used up before the loop exits. *)
Fixpoint loop (fuel : nat) (input : jsstring) (i : nat) (parts : list accessor)
  : option (list accessor) :=
  if i <? length input then
    match fuel with
    | 0 => None
    | S fuel' =>
        match step input i parts with
        | Continue i' parts' => loop fuel' input i' parts'
        | Return r => Some r
        end
    end
  else Some parts.

Definition parsePath (input : jsstring) : list accessor :=
  match loop (length input) input 0 [] with
  | Some parts => parts
  | None => []
  end.


(** ** Reading the path grammar

    The three kinds of bracket content the grammar distinguishes, stated
    on the text itself rather than through the string primitives. *)

(** Entirely decimal digits (and at least one). *)
Definition AllDigits (t : jsstring) : Prop :=
  t <> [] /\ Forall (fun c => (48 <= c <= 57)%N) t.

(** First and last code unit are the same quote character. *)
Definition QuoteWrapped (t : jsstring) : Prop :=
  exists q, (q = DQUOTE \/ q = SQUOTE)
            /\ hd_error t = Some q /\ hd_error (rev t) = Some q.

(** The text with its first and last code unit removed. *)
Definition unquoted (t : jsstring) : jsstring := removelast (tl t).

(** A key accessor that carries some text. *)
Definition nonEmptyKey (a : accessor) : Prop :=
  exists t, a = Key t /\ t <> [].

(** ** JSON values and documents *)

Module Json.

(** Modelled from the spec: the Number case of a value (section 3),
    kept as the decimal it is written as: an integer, or [m * 10^-k]
    with [k > 0] and [m] not a multiple of ten.  The rounding of the
    platform to a double is not part of this model. *)
Inductive jnum : Type :=
| JInt (z : Z)
| JFrac (m : Z) (k : nat).

(** Modelled from the spec: a dynamically typed value (sections 3 and
    9): [null], a boolean, a number, a string, an array, or an object
    with its members in order. *)
Inductive value : Type :=
| VNull
| VBool (b : bool)
| VNumber (n : jnum)
| VString (s : jsstring)
| VArray (items : list value)
| VObject (members : list (jsstring * value)).

(** Modelled from the spec: a node of the concrete syntax tree of a
    document (section 4.4): its offset and length in the text, and what
    it holds.  A member of an object is its key and the node of its
    value. *)
Inductive node : Type :=
| NNull (offset length : nat)
| NBool (offset length : nat) (b : bool)
| NNumber (offset length : nat) (n : jnum)
| NString (offset length : nat) (s : jsstring)
| NArray (offset length : nat) (items : list node)
| NObject (offset length : nat) (members : list (jsstring * node)).

Definition nodeOffset (n : node) : nat :=
  match n with
  | NNull o _ | NBool o _ _ | NNumber o _ _ | NString o _ _
  | NArray o _ _ | NObject o _ _ => o
  end.

Definition nodeLength (n : node) : nat :=
  match n with
  | NNull _ l | NBool _ l _ | NNumber _ l _ | NString _ l _
  | NArray _ l _ | NObject _ l _ => l
  end.

Definition nodeEnd (n : node) : nat := nodeOffset n + nodeLength n.

(** Modelled from the spec: what the grammar admits beyond strict JSON;
    section 4.2 parses strictly, section 4.4 keeps comments and trailing
    commas. *)
Record parseOptions : Type := {
  allowComments : bool;
  allowTrailingComma : bool
}.

Definition strictJson : parseOptions :=
  {| allowComments := false; allowTrailingComma := false |}.

Definition jsonWithComments : parseOptions :=
  {| allowComments := true; allowTrailingComma := true |}.

Definition LBRACE : N := 123.
Definition RBRACE : N := 125.
Definition COMMA : N := 44.
Definition COLON : N := 58.
Definition SLASH : N := 47.
Definition STAR : N := 42.
Definition BACKSLASH : N := 92.
Definition MINUS : N := 45.
Definition PLUS : N := 43.
Definition ZERO : N := 48.
Definition LF : N := 10.
Definition CR : N := 13.
Definition SPACE : N := 32.
Definition TAB : N := 9.

Definition isNewline (c : N) : bool := N.eqb c LF || N.eqb c CR.

Definition isJsonWhiteSpace (c : N) : bool :=
  N.eqb c SPACE || N.eqb c TAB || N.eqb c LF || N.eqb c CR.

(** Skip a line comment: up to, not including, the line end. *)
Fixpoint skipLine (rest : jsstring) (pos : nat) : jsstring * nat :=
  match rest with
  | c :: t => if N.eqb c LF || N.eqb c CR then (rest, pos)
              else skipLine t (S pos)
  | [] => ([], pos)
  end.

(** Skip a block comment through its closing [*/]; [None] when it is
    not closed. *)
Fixpoint skipBlock (rest : jsstring) (pos : nat) : option (jsstring * nat) :=
  match rest with
  | c :: t =>
      match t with
      | d :: t' => if N.eqb c STAR && N.eqb d SLASH then Some (t', pos + 2)
                   else skipBlock t (S pos)
      | [] => None
      end
  | [] => None
  end.

(** Modelled from the spec: skip white space and, where admitted,
    comments, the non-semantic content of section 4.4. *)
Fixpoint skipTrivia (opts : parseOptions) (fuel : nat)
         (rest : jsstring) (pos : nat) : option (jsstring * nat) :=
  match fuel with
  | 0 => Some (rest, pos)
  | S fuel' =>
      match rest with
      | c :: t =>
          if isJsonWhiteSpace c then skipTrivia opts fuel' t (S pos)
          else if allowComments opts && N.eqb c SLASH then
            match t with
            | d :: t' =>
                if N.eqb d SLASH then
                  let '(r, p) := skipLine t' (pos + 2) in
                  skipTrivia opts fuel' r p
                else if N.eqb d STAR then
                  match skipBlock t' (pos + 2) with
                  | Some (r, p) => skipTrivia opts fuel' r p
                  | None => None
                  end
                else Some (rest, pos)
            | [] => Some (rest, pos)
            end
          else Some (rest, pos)
      | [] => Some (rest, pos)
      end
  end.

Definition trivia (opts : parseOptions) (rest : jsstring) (pos : nat)
  : option (jsstring * nat) :=
  skipTrivia opts (S (length rest)) rest pos.

Definition hexValue (c : N) : option N :=
  if isDigit c then Some (c - 48)%N
  else if ((97 <=? c) && (c <=? 102))%N then Some (c - 87)%N
  else if ((65 <=? c) && (c <=? 70))%N then Some (c - 55)%N
  else None.

Definition hex4 (a b c d : N) : option N :=
  match hexValue a, hexValue b, hexValue c, hexValue d with
  | Some x, Some y, Some z, Some w => Some (((x * 16 + y) * 16 + z) * 16 + w)%N
  | _, _, _, _ => None
  end.

(** The code unit a one-letter escape stands for. *)
Definition escapeChar (e : N) : option N :=
  if N.eqb e DQUOTE then Some DQUOTE
  else if N.eqb e BACKSLASH then Some BACKSLASH
  else if N.eqb e SLASH then Some SLASH
  else if N.eqb e 98 then Some 8%N
  else if N.eqb e 102 then Some 12%N
  else if N.eqb e 110 then Some 10%N
  else if N.eqb e 114 then Some 13%N
  else if N.eqb e 116 then Some 9%N
  else None.

(** Modelled from the spec: the rest of a JSON string literal after its
    opening quote: the string it denotes, and what follows the closing
    quote. *)
Fixpoint parseStringBody (rest : jsstring) (pos : nat) (acc : jsstring)
  : option (jsstring * jsstring * nat) :=
  match rest with
  | [] => None
  | c :: t =>
      if N.eqb c DQUOTE then Some (rev acc, t, S pos)
      else if N.eqb c BACKSLASH then
        match t with
        | e :: t2 =>
            if N.eqb e 117 then
              match t2 with
              | h1 :: h2 :: h3 :: h4 :: t3 =>
                  match hex4 h1 h2 h3 h4 with
                  | Some u => parseStringBody t3 (pos + 6) (u :: acc)
                  | None => None
                  end
              | _ => None
              end
            else
              match escapeChar e with
              | Some x => parseStringBody t2 (pos + 2) (x :: acc)
              | None => None
              end
        | [] => None
        end
      else if (c <? 32)%N then None
      else parseStringBody t (S pos) (c :: acc)
  end.

(** The longest run of digits at the head of [rest], and what follows. *)
Fixpoint spanDigits (rest : jsstring) : jsstring * jsstring :=
  match rest with
  | c :: t => if isDigit c
              then let '(d, r) := spanDigits t in (c :: d, r)
              else ([], rest)
  | [] => ([], [])
  end.

(** [m * 10^-k] for [k > 0], with trailing zeros of [m] cancelled. *)
Fixpoint cancelZeros (m : Z) (k : nat) : jnum :=
  match k with
  | 0 => JInt m
  | S k' => if (m mod 10 =? 0)%Z then cancelZeros (m / 10)%Z k'
            else JFrac m k
  end.

(** The number [m * 10^e]. *)
Definition mkNum (m e : Z) : jnum :=
  if (0 <=? e)%Z then JInt (m * 10 ^ e)
  else if (m =? 0)%Z then JInt 0
  else cancelZeros m (Z.to_nat (- e)).

(** Modelled from the spec: the fraction of a JSON number literal, a dot
    and digits, where there is one: its digits and what follows. *)
Definition fracPart (r1 : jsstring) : option (jsstring * jsstring) :=
  match r1 with
  | c :: t =>
      if N.eqb c DOT then
        let '(fp, r) := spanDigits t in
        match fp with
        | [] => None
        | _ => Some (fp, r)
        end
      else Some ([], r1)
  | [] => Some ([], r1)
  end.

(** Modelled from the spec: the exponent of a JSON number literal, [e]
    or [E], a sign and digits, where there is one: its value and what
    follows. *)
Definition expPart (r2 : jsstring) : option (Z * jsstring) :=
  match r2 with
  | c :: t =>
      if N.eqb c 101 || N.eqb c 69 then
        let '(eneg, t') :=
          match t with
          | s :: u => if N.eqb s MINUS then (true, u)
                      else if N.eqb s PLUS then (false, u)
                      else (false, t)
          | [] => (false, t)
          end in
        let '(ep, r) := spanDigits t' in
        match ep with
        | [] => None
        | _ => Some (if eneg then (- digitsValue ep)%Z else digitsValue ep, r)
        end
      else Some (0%Z, r2)
  | [] => Some (0%Z, r2)
  end.

(** Modelled from the spec: a JSON number literal,
    [-? int frac? exp?]. *)
Definition parseNumber (rest : jsstring)
  : option (jnum * jsstring) :=
  let '(neg, r0) :=
    match rest with
    | c :: t => if N.eqb c MINUS then (true, t) else (false, rest)
    | [] => (false, rest)
    end in
  let '(ip, r1) := spanDigits r0 in
  match ip with
  | [] => None
  | d :: ds =>
      if N.eqb d ZERO && negb (match ds with [] => true | _ => false end)
      then None
      else
        match fracPart r1 with
        | None => None
        | Some (fp, r2) =>
            match expPart r2 with
            | None => None
            | Some (e, r3) =>
                let m := digitsValue (ip ++ fp) in
                let m' := if neg then (- m)%Z else m in
                Some (mkNum m' (e - Z.of_nat (length fp)), r3)
            end
        end
  end.

(** How the scan of a container goes on: it is closed, or another
    element follows. *)
Inductive containerStep : Type :=
| Closed (rest : jsstring) (pos : nat)
| More (rest : jsstring) (pos : nat).

(** Modelled from the spec: after an opening bracket, the closing one or
    the first element. *)
Definition openStep (opts : parseOptions) (closing : N)
           (rest : jsstring) (pos : nat) : option containerStep :=
  match trivia opts rest pos with
  | Some (c :: r, p) =>
      if N.eqb c closing then Some (Closed r (S p)) else Some (More (c :: r) p)
  | _ => None
  end.

(** Modelled from the spec: after an element, the closing bracket, or a
    comma and then another element, or a comma and then the closing
    bracket where trailing commas are kept. *)
Definition tailStep (opts : parseOptions) (closing : N)
           (rest : jsstring) (pos : nat) : option containerStep :=
  match trivia opts rest pos with
  | Some (c :: r, p) =>
      if N.eqb c closing then Some (Closed r (S p))
      else if N.eqb c COMMA then
        match trivia opts r (S p) with
        | Some (d :: r', p') =>
            if N.eqb d closing
            then if allowTrailingComma opts then Some (Closed r' (S p'))
                 else None
            else Some (More (d :: r') p')
        | _ => None
        end
      else None
  | _ => None
  end.

(** Modelled from the spec: the key of a member and its colon; what
    follows is the value. *)
Definition memberKey (opts : parseOptions) (rest : jsstring) (pos : nat)
  : option (jsstring * jsstring * nat) :=
  match rest with
  | q :: t =>
      if N.eqb q DQUOTE then
        match parseStringBody t (S pos) [] with
        | Some (key, r0, p0) =>
            match trivia opts r0 p0 with
            | Some (c :: r1, p1) =>
                if N.eqb c COLON then
                  match trivia opts r1 (S p1) with
                  | Some (rv, pv) => Some (key, rv, pv)
                  | None => None
                  end
                else None
            | _ => None
            end
        | None => None
        end
      else None
  | [] => None
  end.

(** Modelled from the spec: the grammar of JSON values, for the parse of
    sections 4.2 and 4.4.  [parseValue] reads one value at the head of
    [rest]; [parseElements] and [parseMembers] read the rest of an array
    or object whose opening bracket is at [start], positioned at the
    first element or key.  As many levels of [fuel] as the value has code
    units are enough to read it. *)
Fixpoint parseValue (opts : parseOptions) (fuel : nat)
         (rest : jsstring) (pos : nat) : option (node * jsstring * nat) :=
  match fuel with
  | 0 => None
  | S fuel' =>
      match rest with
      | [] => None
      | c :: t =>
          if N.eqb c LBRACE then
            match openStep opts RBRACE t (S pos) with
            | Some (Closed r p) => Some (NObject pos (p - pos) [], r, p)
            | Some (More r p) => parseMembers opts fuel' pos [] r p
            | None => None
            end
          else if N.eqb c LBRACKET then
            match openStep opts RBRACKET t (S pos) with
            | Some (Closed r p) => Some (NArray pos (p - pos) [], r, p)
            | Some (More r p) => parseElements opts fuel' pos [] r p
            | None => None
            end
          else if N.eqb c DQUOTE then
            match parseStringBody t (S pos) [] with
            | Some (s, r, p) => Some (NString pos (p - pos) s, r, p)
            | None => None
            end
          else if isPrefix (js "true") rest
          then Some (NBool pos 4 true, skipn 4 rest, pos + 4)
          else if isPrefix (js "false") rest
          then Some (NBool pos 5 false, skipn 5 rest, pos + 5)
          else if isPrefix (js "null") rest
          then Some (NNull pos 4, skipn 4 rest, pos + 4)
          else
            match parseNumber rest with
            | Some (n, r) =>
                let len := length rest - length r in
                Some (NNumber pos len n, r, pos + len)
            | None => None
            end
      end
  end

with parseElements (opts : parseOptions) (fuel : nat) (start : nat)
       (acc : list node) (rest : jsstring) (pos : nat)
  : option (node * jsstring * nat) :=
  match fuel with
  | 0 => None
  | S fuel' =>
      match parseValue opts fuel' rest pos with
      | Some (v, r1, p1) =>
          match tailStep opts RBRACKET r1 p1 with
          | Some (Closed r p) =>
              Some (NArray start (p - start) (rev (v :: acc)), r, p)
          | Some (More r p) => parseElements opts fuel' start (v :: acc) r p
          | None => None
          end
      | None => None
      end
  end

with parseMembers (opts : parseOptions) (fuel : nat) (start : nat)
       (acc : list (jsstring * node)) (rest : jsstring) (pos : nat)
  : option (node * jsstring * nat) :=
  match fuel with
  | 0 => None
  | S fuel' =>
      match memberKey opts rest pos with
      | Some (key, rv, pv) =>
          match parseValue opts fuel' rv pv with
          | Some (v, r1, p1) =>
              match tailStep opts RBRACE r1 p1 with
              | Some (Closed r p) =>
                  Some (NObject start (p - start) (rev ((key, v) :: acc)), r, p)
              | Some (More r p) =>
                  parseMembers opts fuel' start ((key, v) :: acc) r p
              | None => None
              end
          | None => None
          end
      | None => None
      end
  end.

(** Modelled from the spec: the parse of a whole document: one value
    between trivia, and nothing else; [None] when the text is
    malformed. *)
Definition parseDocument (opts : parseOptions) (text : jsstring) : option node :=
  match trivia opts text 0 with
  | Some (r, p) =>
      match parseValue opts (S (length text)) r p with
      | Some (n, r1, p1) =>
          match trivia opts r1 p1 with
          | Some ([], _) => Some n
          | _ => None
          end
      | None => None
      end
  | None => None
  end.

(** Define member [k] of an object under construction: a repeated key
    keeps its place and takes the later value. *)
Fixpoint setMember (k : jsstring) (v : value) (ms : list (jsstring * value))
  : list (jsstring * value) :=
  match ms with
  | [] => [(k, v)]
  | (k', v') :: ms' =>
      if list_eq_dec N.eq_dec k k' then (k', v) :: ms'
      else (k', v') :: setMember k v ms'
  end.

(** Modelled from the spec: the value a syntax tree denotes. *)
Fixpoint nodeValue (n : node) : value :=
  match n with
  | NNull _ _ => VNull
  | NBool _ _ b => VBool b
  | NNumber _ _ x => VNumber x
  | NString _ _ s => VString s
  | NArray _ _ items => VArray (List.map nodeValue items)
  | NObject _ _ members =>
      VObject (fold_left (fun ms kv => setMember (fst kv) (nodeValue (snd kv)) ms)
                         members [])
  end.

(** A node with all its offsets moved forward by [d]. *)
Fixpoint shiftNode (d : nat) (n : node) : node :=
  match n with
  | NNull o l => NNull (d + o) l
  | NBool o l b => NBool (d + o) l b
  | NNumber o l x => NNumber (d + o) l x
  | NString o l s => NString (d + o) l s
  | NArray o l items => NArray (d + o) l (List.map (shiftNode d) items)
  | NObject o l members =>
      NObject (d + o) l
              (List.map (fun kv => (fst kv, shiftNode d (snd kv))) members)
  end.

Definition shiftMember (d : nat) (kv : jsstring * node) : jsstring * node :=
  (fst kv, shiftNode d (snd kv)).

(** ** The grammar of documents

    The texts the parser reads, with the tree of each: the grammar that
    [parseValue] implements, stated on the text of a value alone.  The
    offsets of a tree are relative to the start of its text. *)

Section Grammar.

Variable opts : parseOptions.

(** A text that is skipped as trivia whatever follows it. *)
Definition Trivia (tr : jsstring) : Prop :=
  forall rest pos,
    trivia opts (tr ++ rest) pos = trivia opts rest (pos + length tr).

(** A code unit at which the skipping of trivia stops. *)
Definition tokenStart (c : N) : bool :=
  negb (isJsonWhiteSpace c) && negb (N.eqb c SLASH).

(** The skipping of trivia stops at [c], whatever position it has. *)
Definition stopsAt (c : N) (r : jsstring) : Prop :=
  forall pos, trivia opts (c :: r) pos = Some (c :: r, pos).

(** The head of a text satisfies [p]. *)
Definition headIs (p : N -> bool) (rest : jsstring) : bool :=
  match rest with
  | [] => false
  | c :: _ => p c
  end.

Definition isDot (c : N) : bool := N.eqb c DOT.

Definition isExpMark (c : N) : bool := N.eqb c 101 || N.eqb c 69.

(** A text before which a number literal ends. *)
Definition numberEnd (rest : jsstring) : bool :=
  match rest with
  | [] => true
  | c :: _ => negb (isDigit c || N.eqb c DOT || N.eqb c 101 || N.eqb c 69)
  end.

(** The first code unit of a value. *)
Definition valueStart (c : N) : bool :=
  tokenStart c && negb (N.eqb c RBRACKET) && negb (N.eqb c RBRACE)
  && negb (N.eqb c COMMA).

(** The end of a container: trivia and the closing bracket, after a
    trailing comma where those are kept. *)
Inductive Closer (closing : N) : jsstring -> Prop :=
| Closer_plain tr :
    Trivia tr -> Closer closing (tr ++ [closing])
| Closer_trailing tr1 tr2 :
    allowTrailingComma opts = true -> Trivia tr1 -> Trivia tr2 ->
    Closer closing (tr1 ++ COMMA :: tr2 ++ [closing]).

(** What separates two elements: a comma between trivia. *)
Inductive Separator : jsstring -> Prop :=
| Separator_intro tr1 tr2 :
    Trivia tr1 -> Trivia tr2 -> Separator (tr1 ++ COMMA :: tr2).

(** The key of a member up to its value: a string literal, a colon,
    trivia around it. *)
Inductive KeyPart : jsstring -> jsstring -> Prop :=
| KeyPart_intro body k tr0 tr1 :
    parseStringBody body 0 [] = Some (k, [], length body) ->
    Trivia tr0 -> Trivia tr1 ->
    KeyPart (DQUOTE :: body ++ tr0 ++ COLON :: tr1) k.

(** [Val t n]: [t] is the text of one value, whose tree is [n].
    [Elems t ns] and [Mems t ms]: [t] is the text of a container from its
    first element through its closing bracket, relative to the first
    element. *)
Inductive Val : jsstring -> node -> Prop :=
| Val_null : Val (js "null") (NNull 0 4)
| Val_true : Val (js "true") (NBool 0 4 true)
| Val_false : Val (js "false") (NBool 0 5 false)
| Val_number t x :
    parseNumber t = Some (x, []) -> Val t (NNumber 0 (length t) x)
| Val_string body s :
    parseStringBody body 0 [] = Some (s, [], length body) ->
    Val (DQUOTE :: body) (NString 0 (S (length body)) s)
| Val_array_empty tr :
    Trivia tr ->
    Val (LBRACKET :: tr ++ [RBRACKET]) (NArray 0 (S (length tr + 1)) [])
| Val_array tr t items :
    Trivia tr -> Elems t items ->
    Val (LBRACKET :: tr ++ t)
        (NArray 0 (S (length tr + length t))
                (List.map (shiftNode (S (length tr))) items))
| Val_object_empty tr :
    Trivia tr ->
    Val (LBRACE :: tr ++ [RBRACE]) (NObject 0 (S (length tr + 1)) [])
| Val_object tr t members :
    Trivia tr -> Mems t members ->
    Val (LBRACE :: tr ++ t)
        (NObject 0 (S (length tr + length t))
                 (List.map (shiftMember (S (length tr))) members))

with Elems : jsstring -> list node -> Prop :=
| Elems_last t n c :
    Val t n -> Closer RBRACKET c -> Elems (t ++ c) [n]
| Elems_cons t n sp t' ns :
    Val t n -> Separator sp -> Elems t' ns ->
    Elems (t ++ sp ++ t')
          (n :: List.map (shiftNode (length t + length sp)) ns)

with Mems : jsstring -> list (jsstring * node) -> Prop :=
| Mems_last kp k t n c :
    KeyPart kp k -> Val t n -> Closer RBRACE c ->
    Mems (kp ++ t ++ c) [(k, shiftNode (length kp) n)]
| Mems_cons kp k t n sp t' ms :
    KeyPart kp k -> Val t n -> Separator sp -> Mems t' ms ->
    Mems (kp ++ t ++ sp ++ t')
         ((k, shiftNode (length kp) n)
          :: List.map (shiftMember (length kp + length t + length sp)) ms).

(** A whole document: a value between trivia; the trivia at the end may
    be a line comment that the end of the text closes. *)
Definition Document (text : jsstring) (n : node) : Prop :=
  exists tr t n0 post p,
    text = tr ++ t ++ post /\ Trivia tr /\ Val t n0
    /\ trivia opts post 0 = Some ([], p)
    /\ n = shiftNode (length tr) n0.

End Grammar.

(** Induction on a value of the grammar together with its elements and
    members. *)
Scheme Val_mind := Minimality for Val Sort Prop
  with Elems_mind := Minimality for Elems Sort Prop
  with Mems_mind := Minimality for Mems Sort Prop.

Combined Scheme Grammar_mind from Val_mind, Elems_mind, Mems_mind.

End Json.

Import Json.

(** ** Value coercer *)

(** Modelled from the spec: the platform's [JSON.parse], which the
    source calls and does not define, as the strict JSON parse of section
    4.2: the grammar of ECMA-404 without comments or trailing commas;
    [None] stands for the thrown [SyntaxError].  Numbers keep their
    decimal value. *)
Definition JSON_parse (raw : jsstring) : option value :=
  option_map nodeValue (parseDocument strictJson raw).

Definition coerceValue (raw : jsstring) : value :=
  match JSON_parse raw with
  | Some v => v
  | None => VString raw
  end.

(** ** Regular expressions

    A backtracking matcher for the part of the regular expression language
    that the pattern of [findJsonVariables] is written in.  Alternatives
    are tried left to right, greedy quantifiers take the longest run first,
    the lazy one the shortest. *)

Module RegExp.

Inductive regex : Type :=
| Chr (c : N)
| Lit (s : jsstring)
| Seq (r1 r2 : regex)
| Alt (r1 r2 : regex)
| Opt (r : regex)
| Star (cls : N -> bool)
| Plus (cls : N -> bool)
| LazyStar (cls : N -> bool)
| Group (n : nat) (r : regex)
| EndOfInput.

(** Start and end offsets of the capturing groups that took part, latest
    first. *)
Definition captures := list (nat * (nat * nat)).

Fixpoint capture (n : nat) (caps : captures) : option (nat * nat) :=
  match caps with
  | [] => None
  | (m, se) :: caps' => if Nat.eqb m n then Some se else capture n caps'
  end.

Section Matcher.

Variable A : Type.

(** [cls*] followed by [k]: the longest run first. *)
Fixpoint greedy (cls : N -> bool) (k : jsstring -> nat -> option A)
         (rest : jsstring) (pos : nat) : option A :=
  match rest with
  | c :: t =>
      if cls c then
        match greedy cls k t (S pos) with
        | Some x => Some x
        | None => k rest pos
        end
      else k rest pos
  | [] => k rest pos
  end.

(** [cls*?] followed by [k]: the shortest run first. *)
Fixpoint lazy (cls : N -> bool) (k : jsstring -> nat -> option A)
         (rest : jsstring) (pos : nat) : option A :=
  match k rest pos with
  | Some x => Some x
  | None =>
      match rest with
      | c :: t => if cls c then lazy cls k t (S pos) else None
      | [] => None
      end
  end.

(** Match [r] at the head of [rest], which starts at offset [pos], then
    continue with [k]. *)
Fixpoint rmatch (r : regex) (rest : jsstring) (pos : nat) (caps : captures)
         (k : jsstring -> nat -> captures -> option A) : option A :=
  match r with
  | Chr c =>
      match rest with
      | x :: t => if N.eqb x c then k t (S pos) caps else None
      | [] => None
      end
  | Lit s =>
      if isPrefix s rest
      then k (skipn (length s) rest) (pos + length s) caps
      else None
  | Seq r1 r2 =>
      rmatch r1 rest pos caps
             (fun rest' pos' caps' => rmatch r2 rest' pos' caps' k)
  | Alt r1 r2 =>
      match rmatch r1 rest pos caps k with
      | Some x => Some x
      | None => rmatch r2 rest pos caps k
      end
  | Opt r1 =>
      match rmatch r1 rest pos caps
                   (fun rest' pos' caps' =>
                      if Nat.eqb pos' pos then None else k rest' pos' caps') with
      | Some x => Some x
      | None => k rest pos caps
      end
  | Star cls => greedy cls (fun rest' pos' => k rest' pos' caps) rest pos
  | Plus cls =>
      match rest with
      | x :: t =>
          if cls x
          then greedy cls (fun rest' pos' => k rest' pos' caps) t (S pos)
          else None
      | [] => None
      end
  | LazyStar cls => lazy cls (fun rest' pos' => k rest' pos' caps) rest pos
  | Group n r1 =>
      rmatch r1 rest pos caps
             (fun rest' pos' caps' => k rest' pos' ((n, (pos, pos')) :: caps'))
  | EndOfInput =>
      match rest with
      | [] => k rest pos caps
      | _ :: _ => None
      end
  end.

End Matcher.

(** The least number of code units a match of [r] takes. *)
Fixpoint minLen (r : regex) : nat :=
  match r with
  | Chr _ => 1
  | Lit s => length s
  | Seq r1 r2 => minLen r1 + minLen r2
  | Alt r1 r2 => Nat.min (minLen r1) (minLen r2)
  | Opt _ | Star _ | LazyStar _ | EndOfInput => 0
  | Plus _ => 1
  | Group _ r1 => minLen r1
  end.

Arguments greedy {A} cls k rest pos.
Arguments lazy {A} cls k rest pos.
Arguments rmatch {A} r rest pos caps k.

(** A successful match: where it starts, where it ends, its groups. *)
Record matchResult : Type := {
  index : nat;
  matchEnd : nat;
  groups : captures
}.

(** The first offset, from [pos] on, at which [r] matches. *)
Fixpoint search (r : regex) (rest : jsstring) (pos : nat) : option matchResult :=
  match rmatch r rest pos []
               (fun _ e caps =>
                  Some {| index := pos; matchEnd := e; groups := caps |}) with
  | Some m => Some m
  | None =>
      match rest with
      | [] => None
      | _ :: t => search r t (S pos)
      end
  end.

(** [regex.exec(text)] of a global expression whose [lastIndex] is
    [lastIndex]; the new [lastIndex] is [matchEnd] of the result. *)
Definition exec (r : regex) (text : jsstring) (lastIndex : nat)
  : option matchResult :=
  if length text <? lastIndex then None
  else search r (skipn lastIndex text) lastIndex.

(** [match[n]]: [None] stands for [undefined]. *)
Definition group (text : jsstring) (m : matchResult) (n : nat)
  : option jsstring :=
  match n with
  | 0 => Some (slice text (Z.of_nat (index m)) (Z.of_nat (matchEnd m)))
  | _ =>
      match capture n (groups m) with
      | Some (s, e) => Some (slice text (Z.of_nat s) (Z.of_nat e))
      | None => None
      end
  end.

(** [a || b] on optional strings: the empty string is falsy. *)
Definition orElse (a b : option jsstring) : option jsstring :=
  match a with
  | Some (_ :: _) => a
  | _ => b
  end.

End RegExp.

Import RegExp.

(** ** Embedded-object locator *)

Definition anyUnit (c : N) : bool := true.

(** [{[\s\S]*?}] *)
Definition braces : regex :=
  Seq (Chr LBRACE) (Seq (LazyStar anyUnit) (Chr RBRACE)).

(** [(?:;|$)] *)
Definition terminator : regex := Alt (Chr 59) EndOfInput.

(** [/(?:export\s+)?(?:const|let|var\s+)?(\w+)?\s*=\s*({[\s\S]*?})(?:;|$)|({[\s\S]*?})(?:;|$)/g] *)
Definition jsonVariablePattern : regex :=
  Alt
    (Seq (Opt (Seq (Lit (js "export")) (Plus isWhiteSpace)))
    (Seq (Opt (Alt (Lit (js "const"))
              (Alt (Lit (js "let"))
                   (Seq (Lit (js "var")) (Plus isWhiteSpace)))))
    (Seq (Opt (Group 1 (Plus isWordChar)))
    (Seq (Star isWhiteSpace)
    (Seq (Chr 61)
    (Seq (Star isWhiteSpace)
    (Seq (Group 2 braces)
         terminator)))))))
    (Seq (Group 3 braces) terminator).

Record variable : Type := {
  name : jsstring;
  json : jsstring;
  jsonStart : Z;
  jsonEnd : Z
}.

Section Locator.

(** The [parseTree] of the JSON library, which the source imports: what
    it returns, or [None] when the call throws. *)
Variable tree : Type.
Variable parseTree : jsstring -> option tree.

(** The body of the loop for one match: the list of variables after it. *)
Definition recordMatch (text : jsstring) (m : matchResult)
           (variables : list variable) : list variable :=
  let name :=
    match orElse (group text m 1) None with
    | Some s => s
    | None => js "Object_" ++ decimalOfN (N.of_nat (length variables + 1))
    end in
  match orElse (group text m 2) (group text m 3) with
  | Some json =>
      match parseTree json with
      | Some _ =>
          let whole :=
            match group text m 0 with Some s => s | None => [] end in
          let jsonStart :=
            (Z.of_nat (index m)
             + match indexOf whole json 0 with
               | Some k => Z.of_nat k
               | None => -1
               end)%Z in
          let jsonEnd := (jsonStart + Z.of_nat (length json))%Z in
          variables ++ [{| name := name; json := json;
                           jsonStart := jsonStart; jsonEnd := jsonEnd |}]
      | None => variables
      end
  | None => variables
  end.

(** The loop [while ((match = regex.exec(text)) !== null)], run for at
    most [fuel] matches; [None] when they are used up. *)
Fixpoint findLoop (fuel : nat) (text : jsstring) (lastIndex : nat)
         (variables : list variable) : option (list variable) :=
  match exec jsonVariablePattern text lastIndex with
  | None => Some variables
  | Some m =>
      match fuel with
      | 0 => None
      | S fuel' =>
          findLoop fuel' text (matchEnd m) (recordMatch text m variables)
      end
  end.

Definition findJsonVariables (text : jsstring) : list variable :=
  match findLoop (S (length text)) text 0 [] with
  | Some variables => variables
  | None => []
  end.

(** The candidates of a list all carry a text on which [parseTree]
    returned. *)
Definition allParse (variables : list variable) : Prop :=
  Forall (fun v => exists t, parseTree (json v) = Some t) variables.

End Locator.

Arguments recordMatch {tree} parseTree text m variables.
Arguments findLoop {tree} parseTree fuel text lastIndex variables.
Arguments findJsonVariables {tree} parseTree text.
Arguments allParse {tree} parseTree variables.

(** ** Formatting inference *)

Record FormattingOptions : Type := {
  insertSpaces : bool;
  tabSize : nat
}.

(** The options of the active editor that the inference reads. *)
Record editorOptions : Type := {
  optInsertSpaces : bool;
  optTabSize : nat
}.

Definition detectFormattingOptions (editor : option editorOptions)
  : FormattingOptions :=
  let useTabs :=
    match editor with Some e => negb (optInsertSpaces e) | None => false end in
  let tabSize :=
    match editor with Some e => optTabSize e | None => 2 end in
  {| insertSpaces := negb useTabs; tabSize := tabSize |}.

(** ** Structural editor, edit applier and path locator

    The source takes [modify], [applyEdits], [parseTree] and
    [findNodeAtLocation] from a JSON library that is not part of it.  They
    are modelled here from sections 3, 4.4, 4.6 and 4.7 of the
    specification. *)

Module Editor.

(** Modelled from the spec: an edit replaces [edLength] code units of the
    original text at [edOffset] by [edContent] (section 3). *)
Record edit : Type := {
  edOffset : nat;
  edLength : nat;
  edContent : jsstring
}.

(** Modelled from the spec: the structural parse of a JSON-with-comments
    document into a tree that keeps offsets and lengths (section 4.4);
    [None] stands for the failure on a malformed document. *)
Definition parseTree (text : jsstring) : option node :=
  parseDocument jsonWithComments text.

Fixpoint findMember (k : jsstring) (members : list (jsstring * node))
  : option node :=
  match members with
  | [] => None
  | (k', n) :: members' =>
      if list_eq_dec N.eq_dec k k' then Some n else findMember k members'
  end.

Definition findItem (i : number) (items : list node) : option node :=
  match i with
  | Finite z => if (z <? 0)%Z then None else nth_error items (Z.to_nat z)
  | PosInfinity => None
  end.

(** Modelled from the spec: the read-only walk of section 4.7, one
    accessor at a time; a key resolves in an object, an index in an
    array. *)
Fixpoint findNodeAtLocation (root : node) (path : list accessor) : option node :=
  match path with
  | [] => Some root
  | Key k :: path' =>
      match root with
      | NObject _ _ members =>
          match findMember k members with
          | Some child => findNodeAtLocation child path'
          | None => None
          end
      | _ => None
      end
  | Index i :: path' =>
      match root with
      | NArray _ _ items =>
          match findItem i items with
          | Some child => findNodeAtLocation child path'
          | None => None
          end
      | _ => None
      end
  end.

(** ** Places in a document

    A place in a text where one value can stand for another: whatever
    value is written between [pre] and [post], the whole is a value (a run
    of elements, of members, a document) in which [path] leads to what
    was written. *)

Section Contexts.

Variable opts : parseOptions.

Definition ValContext (path : list accessor) (pre post : jsstring) : Prop :=
  forall s ns,
    Val opts s ns ->
    exists n',
      Val opts (pre ++ s ++ post) n'
      /\ findNodeAtLocation n' path = Some (shiftNode (length pre) ns).

Definition ElemsContext (j : nat) (path : list accessor)
           (pre post : jsstring) : Prop :=
  forall s ns,
    Val opts s ns ->
    exists items' child',
      Elems opts (pre ++ s ++ post) items'
      /\ nth_error items' j = Some child'
      /\ findNodeAtLocation child' path = Some (shiftNode (length pre) ns).

Definition MemsContext (k : jsstring) (path : list accessor)
           (pre post : jsstring) : Prop :=
  forall s ns,
    Val opts s ns ->
    exists ms' child',
      Mems opts (pre ++ s ++ post) ms'
      /\ findMember k ms' = Some child'
      /\ findNodeAtLocation child' path = Some (shiftNode (length pre) ns).

Definition DocContext (path : list accessor) (pre post : jsstring) : Prop :=
  forall s ns,
    Val opts s ns ->
    exists root',
      Document opts (pre ++ s ++ post) root'
      /\ findNodeAtLocation root' path = Some (shiftNode (length pre) ns).

End Contexts.

(** Modelled from the spec: one level of indentation, from the
    formatting options of section 3. *)
Definition indentUnit (fmt : FormattingOptions) : jsstring :=
  if insertSpaces fmt then repeat SPACE (tabSize fmt) else [TAB].

(** A line break followed by [level] levels of indentation. *)
Definition newline (fmt : FormattingOptions) (level : nat) : jsstring :=
  LF :: concat (repeat (indentUnit fmt) level).

Definition hexDigit (d : N) : N :=
  if (d <? 10)%N then (48 + d)%N else (87 + d)%N.

(** A code unit inside a string literal. *)
Definition escapeUnit (c : N) : jsstring :=
  if N.eqb c DQUOTE then [BACKSLASH; DQUOTE]
  else if N.eqb c BACKSLASH then [BACKSLASH; BACKSLASH]
  else if N.eqb c 8 then [BACKSLASH; 98%N]
  else if N.eqb c 12 then [BACKSLASH; 102%N]
  else if N.eqb c 10 then [BACKSLASH; 110%N]
  else if N.eqb c 13 then [BACKSLASH; 114%N]
  else if N.eqb c 9 then [BACKSLASH; 116%N]
  else if (c <? 32)%N
       then [BACKSLASH; 117%N; 48%N; 48%N; hexDigit (c / 16); hexDigit (c mod 16)]
       else [c].

Definition quoteString (s : jsstring) : jsstring :=
  DQUOTE :: flat_map escapeUnit s ++ [DQUOTE].

Definition numberText (n : jnum) : jsstring :=
  match n with
  | JInt z =>
      if (z <? 0)%Z then MINUS :: decimalOfN (Z.to_N (- z))
      else decimalOfN (Z.to_N z)
  | JFrac m k =>
      let ds := decimalOfN (Z.to_N (Z.abs m)) in
      let ds' := repeat ZERO (S k - length ds) ++ ds in
      let whole := firstn (length ds' - k) ds' in
      let frac := skipn (length ds' - k) ds' in
      (if (m <? 0)%Z then [MINUS] else []) ++ whole ++ DOT :: frac
  end.

Fixpoint joinWith (sep : jsstring) (parts : list jsstring) : jsstring :=
  match parts with
  | [] => []
  | [p] => p
  | p :: parts' => p ++ sep ++ joinWith sep parts'
  end.

(** Modelled from the spec: the serialization of a value whose opening
    line is indented [level] levels, with the indentation unit of [fmt]
    (section 4.4): scalars and empty containers on one line, the elements
    of other containers one per line, one level deeper. *)
Fixpoint stringify (fmt : FormattingOptions) (level : nat) (v : value)
  : jsstring :=
  match v with
  | VNull => js "null"
  | VBool true => js "true"
  | VBool false => js "false"
  | VNumber n => numberText n
  | VString s => quoteString s
  | VArray [] => js "[]"
  | VArray items =>
      [LBRACKET] ++ newline fmt (S level)
      ++ joinWith (COMMA :: newline fmt (S level))
                  (List.map (stringify fmt (S level)) items)
      ++ newline fmt level ++ [RBRACKET]
  | VObject [] => js "{}"
  | VObject members =>
      [LBRACE] ++ newline fmt (S level)
      ++ joinWith (COMMA :: newline fmt (S level))
                  (List.map (fun kv => quoteString (fst kv) ++ [COLON; SPACE]
                                       ++ stringify fmt (S level) (snd kv))
                            members)
      ++ newline fmt level ++ [RBRACE]
  end.

(** The invariant of values: a number with a fraction has digits after
    the point. *)
Fixpoint wellFormed (v : value) : bool :=
  match v with
  | VNumber (JFrac _ k) => negb (Nat.eqb k 0)
  | VArray items => forallb wellFormed items
  | VObject members => forallb (fun kv => wellFormed (snd kv)) members
  | _ => true
  end.

(** Modelled from the spec: the containers synthesized for the accessors
    that do not resolve: an object for a key, an array for an index
    (section 4.4). *)
Fixpoint synthesize (path : list accessor) (v : value) : value :=
  match path with
  | [] => v
  | Key k :: path' => VObject [(k, synthesize path' v)]
  | Index _ :: path' => VArray [synthesize path' v]
  end.

(** Modelled from the spec: the insertion of [text] as the last child of
    the container that opens at [containerOffset], at nesting [depth]:
    after the last child when there is one, else after the opening
    bracket (append semantics, section 4.4). *)
Definition insertChild (fmt : FormattingOptions) (depth containerOffset : nat)
           (children : list node) (text : jsstring) : edit :=
  match rev children with
  | [] => {| edOffset := containerOffset + 1; edLength := 0;
             edContent := newline fmt (S depth) ++ text ++ newline fmt depth |}
  | previous :: _ =>
      {| edOffset := nodeEnd previous; edLength := 0;
         edContent := COMMA :: newline fmt (S depth) ++ text |}
  end.

(** Modelled from the spec: the walk of section 4.4 from node [n] at
    nesting [depth].  The node the whole path resolves to has its text
    replaced by the serialized value; at the first accessor that does not
    resolve the synthesized rest is inserted into the container reached.
    [None] when the path goes through a node that is not the container the
    accessor asks for. *)
Fixpoint editAt (fmt : FormattingOptions) (n : node) (depth : nat)
         (path : list accessor) (v : value) : option edit :=
  match path with
  | [] => Some {| edOffset := nodeOffset n; edLength := nodeLength n;
                  edContent := stringify fmt depth v |}
  | Key k :: path' =>
      match n with
      | NObject off _ members =>
          match findMember k members with
          | Some child => editAt fmt child (S depth) path' v
          | None =>
              Some (insertChild fmt depth off (List.map snd members)
                      (quoteString k ++ [COLON; SPACE]
                       ++ stringify fmt (S depth) (synthesize path' v)))
          end
      | _ => None
      end
  | Index i :: path' =>
      match n with
      | NArray off _ items =>
          match findItem i items with
          | Some child => editAt fmt child (S depth) path' v
          | None =>
              Some (insertChild fmt depth off items
                      (stringify fmt (S depth) (synthesize path' v)))
          end
      | _ => None
      end
  end.

(** A path that resolves in the containers synthesized for it: each of
    its indices is the 0 of a one-element array. *)
Definition freshPath (path : list accessor) : bool :=
  forallb (fun a => match a with
                    | Key _ => true
                    | Index (Finite z) => Z.eqb z 0
                    | Index PosInfinity => false
                    end) path.

(** A path that resolves in [n] once the edit for it is applied: it
    resolves already, or from its first accessor that does not resolve it
    is a key missing from an object, or the index one past the last
    element of an array, followed by a path that is fresh. *)
Fixpoint settles (n : node) (path : list accessor) : bool :=
  match path with
  | [] => true
  | Key k :: path' =>
      match n with
      | NObject _ _ members =>
          match findMember k members with
          | Some child => settles child path'
          | None => freshPath path'
          end
      | _ => false
      end
  | Index i :: path' =>
      match n with
      | NArray _ _ items =>
          match findItem i items with
          | Some child => settles child path'
          | None =>
              match i with
              | Finite z => Z.eqb z (Z.of_nat (length items)) && freshPath path'
              | PosInfinity => false
              end
          end
      | _ => false
      end
  end.

(** Modelled from the spec: why the computation of edits fails: the
    document is malformed (section 4.4), or the path goes through a node
    that is not the container its accessor needs, a case section 9
    leaves open and this model rejects. *)
Inductive editError : Type :=
| MalformedDocumentError
| PathThroughScalarError.

Inductive editResult : Type :=
| Edits (edits : list edit)
| Failed (e : editError).

(** Modelled from the spec: one edit applied to a text,
    [text.slice(0, o) + content + text.slice(o + l)] (section 4.6). *)
Definition applyEdit (text : jsstring) (e : edit) : jsstring :=
  firstn (edOffset e) text ++ edContent e
  ++ skipn (edOffset e + edLength e) text.

(** Insert [e] into a list ordered by descending offset. *)
Fixpoint insertByOffset (e : edit) (es : list edit) : list edit :=
  match es with
  | [] => [e]
  | e' :: es' =>
      if edOffset e' <? edOffset e then e :: es
      else e' :: insertByOffset e es'
  end.

(** Modelled from the spec: every edit's range is read against the
    original text; they are applied by descending offset (section 4.6). *)
Definition applyEdits (text : jsstring) (edits : list edit) : jsstring :=
  fold_left applyEdit (fold_right insertByOffset [] edits) text.

(** Modelled from the spec: [computeEdits] of section 4.4.  A document of
    white space only is edited as the empty object; a document that does
    not parse fails. *)
Definition modify (text : jsstring) (path : list accessor) (v : value)
           (fmt : FormattingOptions) : editResult :=
  let blank := match trim text with [] => true | _ => false end in
  let text' := if blank then [LBRACE; RBRACE] else text in
  match parseTree text' with
  | None => Failed MalformedDocumentError
  | Some root =>
      match editAt fmt root 0 path v with
      | None => Failed PathThroughScalarError
      | Some e =>
          if blank
          then Edits [{| edOffset := 0; edLength := length text;
                         edContent := applyEdit text' e |}]
          else Edits [e]
      end
  end.

End Editor.

Import Editor.

(** ** The command *)

Inductive language : Type :=
| LangJson
| LangJsonc
| LangJavascript
| LangTypescript
| LangOther.

(** What the user answers to the prompts of one invocation; [None] is a
    dismissed prompt. *)
Record answers : Type := {
  proceed : option jsstring;
  variableName : option jsstring;
  pathInput : option jsstring;
  valueInput : option jsstring
}.

(** How an invocation ends: silently, with an error message, with the
    message that the edits could not be computed, or with the document
    replaced. *)
Inductive commandResult : Type :=
| Aborted
| ErrorMessage (message : jsstring)
| FailedToComputeEdits (e : editError)
| Replaced (newText : jsstring).

Definition isProgramSource (languageId : language) : bool :=
  match languageId with
  | LangJavascript | LangTypescript => true
  | _ => false
  end.

(** The text to edit and what surrounds it. *)
Record target : Type := {
  text : jsstring;
  prefix : jsstring;
  suffix : jsstring;
  isWrapped : bool
}.

(** The selection of the text to edit. *)
Definition selectTarget (languageId : language) (originalText : jsstring)
           (a : answers) : commandResult + target :=
  let text := match trim originalText with
              | [] => [LBRACE; RBRACE]
              | _ => originalText
              end in
  if isProgramSource languageId then
    let variables := findJsonVariables parseTree originalText in
    match variables with
    | [] => inl (ErrorMessage
                   (js "No valid JSON object variables found in the file."))
    | _ =>
        match orElse (variableName a) None with
        | None => inl Aborted
        | Some chosen =>
            match find (fun v => if list_eq_dec N.eq_dec (name v) chosen
                                 then true else false) variables with
            | None => inl (ErrorMessage (js "Selected variable not found."))
            | Some selectedVar =>
                inr {| text := json selectedVar;
                       prefix := slice originalText 0 (jsonStart selectedVar);
                       suffix := sliceFrom originalText (jsonEnd selectedVar);
                       isWrapped := true |}
            end
        end
    end
  else inr {| text := text; prefix := []; suffix := []; isWrapped := false |}.

(** The callback of the command registered by [activate], from the text
    of the active document to the text that replaces it. *)
Definition insertPathAndValue (languageId : language) (originalText : jsstring)
           (a : answers) (formatting : FormattingOptions) : commandResult :=
  let confirmed :=
    match languageId with
    | LangOther =>
        match proceed a with
        | Some p => if list_eq_dec N.eq_dec p (js "Yes") then true else false
        | None => false
        end
    | _ => true
    end in
  if negb confirmed then Aborted
  else
    match selectTarget languageId originalText a with
    | inl r => r
    | inr t =>
        match orElse (pathInput a) None, valueInput a with
        | None, _ => Aborted
        | Some _, None => Aborted
        | Some pathInput, Some valueInput =>
            match parsePath pathInput with
            | [] => ErrorMessage (js "Path could not be parsed.")
            | path =>
                let value := coerceValue valueInput in
                match modify (text t) path value formatting with
                | Failed e => FailedToComputeEdits e
                | Edits edits =>
                    let newText := applyEdits (text t) edits in
                    Replaced (if isWrapped t
                              then prefix t ++ newText ++ suffix t
                              else newText)
                end
            end
        end
    end.

(** ** The documents of the testable properties *)

(** [const cfg = {"x":1};\nconsole.log(cfg);] *)
Definition cfgSource : jsstring :=
  jq "const cfg = {`x`:1};" ++ [LF] ++ js "console.log(cfg);".

(** [{"a":{"b":1,"c":2} /* keep */}] *)
Definition keepDocument : jsstring := jq "{`a`:{`b`:1,`c`:2} /* keep */}".

(** The answers of a user who picks [variable], then types [path] and
    [value]. *)
Definition typed (variable path value : jsstring) : answers :=
  {| proceed := None; variableName := Some variable;
     pathInput := Some path; valueInput := Some value |}.

(** One pass of computing the edits for [path] and [v] and applying
    them. *)
Definition editPass (text : jsstring) (path : list accessor) (v : value)
           (fmt : FormattingOptions) : option jsstring :=
  match modify text path v fmt with
  | Edits edits => Some (applyEdits text edits)
  | Failed _ => None
  end.

(** ** The path grammar on the text that remains

    The loop of [parsePath] read as a relation between the text still to
    scan, the accessors pushed so far and the list returned. *)

(** The run of code units up to the next [.] or [[], and what follows
    it: what the inner loop passes over. *)
Fixpoint bareRun (rest : jsstring) : jsstring * jsstring :=
  match rest with
  | c :: t =>
      if N.eqb c DOT || N.eqb c LBRACKET then ([], rest)
      else let '(run, after) := bareRun t in (c :: run, after)
  | [] => ([], [])
  end.

(** What follows a closing bracket, less the one dot the loop skips
    there. *)
Definition afterBracket (rest : jsstring) : jsstring :=
  match rest with
  | d :: u => if N.eqb d DOT then u else rest
  | [] => []
  end.

(** What a bare token pushes. *)
Definition pushToken (parts : list accessor) (token : jsstring)
  : list accessor :=
  if 0 <? length token then parts ++ [Key token] else parts.

(** [Parses rest parts r]: entered with [rest] still to scan and [parts]
    pushed, the loop returns [r]. *)
Inductive Parses : jsstring -> list accessor -> list accessor -> Prop :=
| Parses_end parts : Parses [] parts parts
| Parses_dot t parts r :
    Parses t parts r -> Parses (DOT :: t) parts r
| Parses_unclosed t parts :
    indexOfAux [RBRACKET] t 0 = None -> Parses (LBRACKET :: t) parts []
| Parses_bracket t k parts r :
    indexOfAux [RBRACKET] t 0 = Some k ->
    Parses (afterBracket (skipn (S k) t))
           (parts ++ [bracketAccessor (trim (firstn k t))]) r ->
    Parses (LBRACKET :: t) parts r
| Parses_bare c t parts r :
    N.eqb c DOT = false -> N.eqb c LBRACKET = false ->
    Parses (snd (bareRun (c :: t)))
           (pushToken parts (trim (fst (bareRun (c :: t))))) r ->
    Parses (c :: t) parts r.

(** Every [[] has a []] somewhere after it. *)
Fixpoint closed (s : jsstring) : bool :=
  match s with
  | [] => true
  | c :: t =>
      (negb (N.eqb c LBRACKET) || existsb (N.eqb RBRACKET) t) && closed t
  end.

(** Empty, or starting with [.] or [[]: a text at whose start a bare
    token ends. *)
Definition startsAccessor (s : jsstring) : bool :=
  match s with
  | [] => true
  | c :: _ => N.eqb c DOT || N.eqb c LBRACKET
  end.

(** A text without [.] and [[]. *)
Definition bareSegment (s : jsstring) : bool :=
  forallb (fun c => negb (N.eqb c DOT || N.eqb c LBRACKET)) s.

(** Segments joined by dots. *)
Fixpoint dotted (segments : list jsstring) : jsstring :=
  match segments with
  | [] => []
  | [s] => s
  | s :: segments' => s ++ DOT :: dotted segments'
  end.

(** The keys of the segments that are not blank. *)
Fixpoint segmentKeys (segments : list jsstring) : list accessor :=
  match segments with
  | [] => []
  | s :: segments' => pushToken [] (trim s) ++ segmentKeys segments'
  end.

(** An accessor in bracket notation: a key between double quotes, an
    index in decimal. *)
Definition renderAccessor (a : accessor) : jsstring :=
  match a with
  | Key k => LBRACKET :: DQUOTE :: k ++ [DQUOTE; RBRACKET]
  | Index (Finite z) => LBRACKET :: decimalOfN (Z.to_N z) ++ [RBRACKET]
  | Index PosInfinity => LBRACKET :: js "Infinity" ++ [RBRACKET]
  end.

(** The accessors that bracket notation can write: keys without []] and
    indices that a double holds exactly. *)
Definition renderable (a : accessor) : Prop :=
  match a with
  | Key k => ~ In RBRACKET k
  | Index (Finite z) => (0 <= z <= 2 ^ 53)%Z
  | Index PosInfinity => False
  end.

(** ** What a match of a pattern consists of

    [Matches r w rest pos caps caps']: the code units [w], at offset
    [pos] and followed by [rest], are a match of [r] that turns the
    groups [caps] into [caps']. *)
Fixpoint Matches (r : regex) (w rest : jsstring) (pos : nat)
         (caps caps' : captures) : Prop :=
  match r with
  | Chr c => w = [c] /\ caps' = caps
  | Lit s => w = s /\ caps' = caps
  | Seq r1 r2 =>
      exists w1 w2 caps1,
        w = w1 ++ w2
        /\ Matches r1 w1 (w2 ++ rest) pos caps caps1
        /\ Matches r2 w2 rest (pos + length w1) caps1 caps'
  | Alt r1 r2 =>
      Matches r1 w rest pos caps caps' \/ Matches r2 w rest pos caps caps'
  | Opt r1 =>
      (w = [] /\ caps' = caps)
      \/ (w <> [] /\ Matches r1 w rest pos caps caps')
  | Star cls | LazyStar cls => forallb cls w = true /\ caps' = caps
  | Plus cls => w <> [] /\ forallb cls w = true /\ caps' = caps
  | Group n r1 =>
      exists caps1,
        Matches r1 w rest pos caps caps1
        /\ caps' = (n, (pos, pos + length w)) :: caps1
  | EndOfInput => w = [] /\ rest = [] /\ caps' = caps
  end.

(** No match of [r] holds the code unit [c]. *)
Fixpoint avoids (c : N) (r : regex) : bool :=
  match r with
  | Chr x => negb (N.eqb x c)
  | Lit s => negb (existsb (N.eqb c) s)
  | Seq r1 r2 | Alt r1 r2 => avoids c r1 && avoids c r2
  | Opt r1 | Group _ r1 => avoids c r1
  | Star cls | Plus cls | LazyStar cls => negb (cls c)
  | EndOfInput => true
  end.

(** [r] has no capturing group. *)
Fixpoint groupless (r : regex) : bool :=
  match r with
  | Seq r1 r2 | Alt r1 r2 => groupless r1 && groupless r2
  | Opt r1 => groupless r1
  | Group _ _ => false
  | _ => true
  end.

(** The candidate recorded from the text [json] at offset [start], as
    the [ordinal]-th of the list (from 0), with the name [chosen] where
    one was captured. *)
Definition candidateOf (ordinal : nat) (chosen : option jsstring)
           (json : jsstring) (start : nat) : variable :=
  {| name := match chosen with
             | Some s => s
             | None => js "Object_" ++ decimalOfN (N.of_nat (ordinal + 1))
             end;
     json := json;
     jsonStart := Z.of_nat start;
     jsonEnd := (Z.of_nat start + Z.of_nat (length json))%Z |}.

(** Where a candidate lies in [text]: its text is an object literal in
    braces that stands at its start offset, after what the pattern takes
    before it, which holds no opening brace, and before a semicolon or
    the end of the text; no closing brace inside it is followed by a
    semicolon; its name, where one was captured, is the run of word
    characters before the [=] sign. *)
Definition located (text : jsstring) (ordinal : nat) (v : variable) : Prop :=
  exists before head body after chosen,
    text = before ++ head ++ (LBRACE :: body ++ [RBRACE]) ++ after
    /\ ~ In LBRACE head
    /\ (after = [] \/ exists after', after = 59%N :: after')
    /\ indexOf (LBRACE :: body ++ [RBRACE]) [RBRACE; 59%N] 0 = None
    /\ match chosen with
       | Some s =>
           s <> [] /\ forallb isWordChar s = true
           /\ exists h ws1 ws2,
               head = h ++ s ++ ws1 ++ 61%N :: ws2
               /\ forallb isWhiteSpace ws1 = true
               /\ forallb isWhiteSpace ws2 = true
       | None => True
       end
    /\ v = candidateOf ordinal chosen (LBRACE :: body ++ [RBRACE])
                       (length before + length head).

(** What the loop of [findJsonVariables] keeps: every candidate lies in
    the text under its ordinal, ends before [lastIndex], and ends before
    the next one starts. *)
Definition scanned (text : jsstring) (lastIndex : nat)
           (variables : list variable) : Prop :=
  (forall i v, nth_error variables i = Some v -> located text i v)
  /\ (forall v, In v variables -> (jsonEnd v <= Z.of_nat lastIndex)%Z)
  /\ (forall i j vi vj,
         i < j -> nth_error variables i = Some vi ->
         nth_error variables j = Some vj ->
         (jsonEnd vi <= jsonStart vj)%Z).

(** ** The reveal after the edit *)

(** [tryRevealPath], on the text of the document: the offsets of the
    range it reveals, at the start of which it puts the selection, or
    [None] when it leaves the editor as it is. *)
Definition tryRevealPath (text : jsstring) (path : list accessor)
  : option (nat * nat) :=
  match parseTree text with
  | None => None
  | Some tree =>
      match findNodeAtLocation tree path with
      | None => None
      | Some node => Some (nodeOffset node, nodeOffset node + nodeLength node)
      end
  end.

(** ** The callback and the active editor

    The callback starts from [vscode.window.activeTextEditor] and awaits
    each prompt; the document may be edited while a prompt is open, so
    what [doc.getText()] returns depends on when the callback calls it. *)

(** The document of the active editor: its language, and the text that
    [doc.getText()] returns once the callback has awaited [k] prompts. *)
Record document : Type := {
  docLanguage : language;
  docText : nat -> jsstring
}.

(** The prompts awaited before [doc.getText()] at line 33 of
    [extension.ts]: the confirmation, where it is asked. *)
Definition promptsBeforeRead (languageId : language) : nat :=
  match languageId with
  | LangOther => 1
  | _ => 0
  end.

(** The callback registered by [activate] (lines 12-123): without an
    active editor it shows a message; otherwise it runs on the language
    of the document and on the text read at line 33. *)
Definition callback (editor : option document) (a : answers)
           (formatting : FormattingOptions) : commandResult :=
  match editor with
  | None => ErrorMessage (js "Open a JSON/JSONC/JS/TS file first.")
  | Some doc =>
      insertPathAndValue (docLanguage doc)
                         (docText doc (promptsBeforeRead (docLanguage doc)))
                         a formatting
  end.

(** The prompts awaited before [doc.getText()] at line 47 of [part_000]:
    the confirmation, where it is asked, then the path and the value. *)
Definition promptsBeforeRead_part000 (languageId : language) : nat :=
  match languageId with
  | LangJson | LangJsonc => 2
  | _ => 3
  end.

(** The callback of the command in [part_000] (lines 12-78), before
    program sources were supported: only [json] and [jsonc] pass without
    the confirmation, the path and the value are asked for before the
    text is read, and the whole document is edited. *)
Definition callback_part000 (editor : option document) (a : answers)
           (formatting : FormattingOptions) : commandResult :=
  match editor with
  | None => ErrorMessage (js "Open a JSON/JSONC file first.")
  | Some doc =>
      let languageId := docLanguage doc in
      let confirmed :=
        match languageId with
        | LangJson | LangJsonc => true
        | _ =>
            match proceed a with
            | Some p =>
                if list_eq_dec N.eq_dec p (js "Yes") then true else false
            | None => false
            end
        end in
      if negb confirmed then Aborted
      else
        match orElse (pathInput a) None, valueInput a with
        | None, _ => Aborted
        | Some _, None => Aborted
        | Some pathInput, Some valueInput =>
            match parsePath pathInput with
            | [] => ErrorMessage (js "Path could not be parsed.")
            | path =>
                let originalText :=
                  docText doc (promptsBeforeRead_part000 languageId) in
                let text := match trim originalText with
                            | [] => [LBRACE; RBRACE]
                            | _ => originalText
                            end in
                let value := coerceValue valueInput in
                match modify text path value formatting with
                | Failed e => FailedToComputeEdits e
                | Edits edits => Replaced (applyEdits text edits)
                end
            end
        end
  end.

(** ** Values as the parser returns them *)

(** No key occurs twice. *)
Fixpoint distinct (keys : list jsstring) : bool :=
  match keys with
  | [] => true
  | k :: keys' =>
      negb (existsb (fun k' => if list_eq_dec N.eq_dec k k'
                               then true else false) keys')
      && distinct keys'
  end.

(** A value that is written in one way only: a fraction has digits
    after the point, the last of them not zero, and the keys of an object
    are distinct. *)
Fixpoint canonical (v : value) : bool :=
  match v with
  | VNumber (JFrac m k) => negb (Nat.eqb k 0) && negb (m mod 10 =? 0)%Z
  | VArray items => forallb canonical items
  | VObject members =>
      distinct (List.map fst members)
      && forallb (fun kv => canonical (snd kv)) members
  | _ => true
  end.

(** A value that the platform holds exactly as this model does, where
    numbers are doubles and an object lists its integer-like keys first:
    its numbers are integers other than zero of magnitude at most [2^53]
    (each of them a double, written in plain digits; the platform has two
    zeros, written alike), and the keys of its objects are distinct and
    none of them is a run of digits. *)
Fixpoint portable (v : value) : bool :=
  match v with
  | VNumber (JInt z) => negb (z =? 0)%Z && (Z.abs z <=? 2 ^ 53)%Z
  | VNumber (JFrac _ _) => false
  | VArray items => forallb portable items
  | VObject members =>
      distinct (List.map fst members)
      && forallb (fun kv => negb (testDigits (fst kv)) && portable (snd kv))
                 members
  | _ => true
  end.

(** ** Declarations of object literals

    The texts on which the first match of the pattern of
    [findJsonVariables] is worked out. *)

(** What the pattern takes before a name. *)
Definition patternKeywords : list jsstring :=
  [js "export"; js "const"; js "let"; js "var"].

Definition startsWithKeyword (s : jsstring) : bool :=
  existsb (fun kw => isPrefix kw s) patternKeywords.

(** [name = literal], with white space around the [=] sign. *)
Definition assignment (name ws1 ws2 literal : jsstring) : jsstring :=
  name ++ ws1 ++ 61%N :: ws2 ++ literal.

(** A statement ends with a semicolon or with the text. *)
Definition endsStatement (after : jsstring) : bool :=
  match after with
  | [] => true
  | c :: _ => N.eqb c 59
  end.

(** ** Paths that give no accessor *)

(** Only dots and white space. *)
Definition blankPath (s : jsstring) : bool :=
  forallb (fun c => N.eqb c DOT || isWhiteSpace c) s.

(** * The definitions at work *)

Example parsePath_ex1 :
  parsePath (js "a.b[0].c") = [Key (js "a"); Key (js "b"); Index (Finite 0); Key (js "c")].
Proof. vm_compute. reflexivity. Qed.

Example parsePath_ex2 :
  parsePath (js "..a[ 'x y' ][k]. z .[12") = [].
Proof. vm_compute. reflexivity. Qed.

Example parsePath_ex3 :
  parsePath (js "..a[ 'x y' ][k]. z .[12]") =
  [Key (js "a"); Key (js "x y"); Key (js "k"); Key (js "z"); Index (Finite 12)].
Proof. vm_compute. reflexivity. Qed.

Example parsePath_ex4 :
  parsePath (js "[9007199254740993][']") = [Index (Finite 9007199254740992); Key []].
Proof. vm_compute. reflexivity. Qed.

Example Number_ex1 : Number (js "007") = Finite 7.
Proof. vm_compute. reflexivity. Qed.

Example Number_ex2 : Number (js "9007199254740995") = Finite 9007199254740996.
Proof. vm_compute. reflexivity. Qed.

Example Number_ex3 : Number (49%N :: repeat 48%N 309) = PosInfinity.
Proof. vm_compute. reflexivity. Qed.

Example trim_ex : trim (js "  a b ") = js "a b".
Proof. vm_compute. reflexivity. Qed.

Example JSON_parse_ex1 :
  JSON_parse (jq " [1, 2.50, -3e2, true, null, {`k`: `v\u0041`}] ")
  = Some (VArray [VNumber (JInt 1); VNumber (JFrac 25 1); VNumber (JInt (-300));
                  VBool true; VNull;
                  VObject [(js "k", VString (js "vA"))]]).
Proof. vm_compute. reflexivity. Qed.

Example JSON_parse_ex2 : JSON_parse (jq "{`a`:1,}") = None.
Proof. vm_compute. reflexivity. Qed.

Example JSON_parse_ex3 : JSON_parse (jq "{`a`:1} // note") = None.
Proof. vm_compute. reflexivity. Qed.

Example parseTree_ex :
  parseTree (jq "{`a`:1,} // note")
  = Some (NObject 0 8 [(js "a", NNumber 5 1 (JInt 1))]).
Proof. vm_compute. reflexivity. Qed.

Example exec_ex :
  exec jsonVariablePattern (jq "export var  a = {`k`: {`n`: 1}}; b={}") 0
  = Some {| index := 0; matchEnd := 32;
            groups := [(2, (16, 31)); (1, (12, 13))] |}.
Proof. vm_compute. reflexivity. Qed.

Example findJsonVariables_ex :
  List.map name
           (findJsonVariables parseTree
              (jq "let b={}; {`z`:[1,2]}; x = {not json}; {`q`:1}"))
  = [js "b"; js "Object_2"; js "Object_3"].
Proof. vm_compute. reflexivity. Qed.

Example detectFormattingOptions_ex :
  detectFormattingOptions (Some {| optInsertSpaces := false; optTabSize := 4 |})
  = {| insertSpaces := false; tabSize := 4 |}.
Proof. reflexivity. Qed.

Example insertPathAndValue_ex1 :
  insertPathAndValue LangJson (js "  ") (typed [] (js "k") (js "v"))
                     (detectFormattingOptions None)
  = Replaced (js "{" ++ [LF] ++ jq "  `k`: `v`" ++ [LF] ++ js "}").
Proof. vm_compute. reflexivity. Qed.

Example insertPathAndValue_ex2 :
  insertPathAndValue LangJson (jq "{`a`:1}") (typed [] (js "[") (js "v"))
                     (detectFormattingOptions None)
  = ErrorMessage (js "Path could not be parsed.").
Proof. vm_compute. reflexivity. Qed.

Example insertPathAndValue_ex3 :
  insertPathAndValue LangJson (jq "{`a`:1") (typed [] (js "a") (js "2"))
                     (detectFormattingOptions None)
  = FailedToComputeEdits MalformedDocumentError.
Proof. vm_compute. reflexivity. Qed.

(** * Properties of the string primitives *)

Section StringFacts.

Lemma charAt_lt (s : jsstring) i c : charAt s i = Some c -> i < length s.
Proof.
  unfold charAt. intros H. apply nth_error_Some. congruence.
Qed.

Lemma charAt_None_ge (s : jsstring) i : charAt s i = None <-> length s <= i.
Proof. unfold charAt. apply nth_error_None. Qed.

Lemma charAt_middle (pre post : jsstring) c :
  charAt (pre ++ c :: post) (length pre) = Some c.
Proof.
  unfold charAt. rewrite nth_error_app2 by lia.
  rewrite Nat.sub_diag. reflexivity.
Qed.

Lemma charIs_true (s : jsstring) i c :
  charIs s i c = true <-> charAt s i = Some c.
Proof.
  unfold charIs. destruct (charAt s i) as [x|].
  - rewrite N.eqb_eq. split; congruence.
  - split; discriminate.
Qed.

Lemma charIs_false (s : jsstring) i c :
  charIs s i c = false <-> charAt s i <> Some c.
Proof.
  rewrite <- charIs_true. destruct (charIs s i c); split; congruence.
Qed.

Lemma isPrefix_single c (s : jsstring) :
  isPrefix [c] s = match s with y :: _ => N.eqb c y | [] => false end.
Proof. destruct s; simpl; [reflexivity | apply andb_true_r]. Qed.

Lemma indexOfAux_found c (a b : jsstring) k :
  ~ In c a -> indexOfAux [c] (a ++ c :: b) k = Some (k + length a).
Proof.
  revert k. induction a as [|x a IH]; intros k Hn.
  - simpl. rewrite N.eqb_refl. simpl. f_equal. lia.
  - cbn [app indexOfAux]. rewrite isPrefix_single.
    destruct (N.eqb_spec c x) as [->|Hx].
    + exfalso. apply Hn. left. reflexivity.
    + rewrite IH. * f_equal. simpl. lia.
      * intros Hin. apply Hn. right. exact Hin.
Qed.

Lemma indexOfAux_Some c (s : jsstring) k m :
  indexOfAux [c] s k = Some m ->
  exists a b, s = a ++ c :: b /\ ~ In c a /\ m = k + length a.
Proof.
  revert k. induction s as [|x s IH]; intros k.
  - simpl. discriminate.
  - cbn [indexOfAux]. rewrite isPrefix_single.
    destruct (N.eqb_spec c x) as [->|Hx].
    + intros [= <-]. exists [], s. simpl. repeat split; [tauto | lia].
    + intros H. destruct (IH _ H) as (a & b & -> & Hn & ->).
      exists (x :: a), b. simpl. repeat split; [|lia].
      intros [E|Hin]; [congruence | tauto].
Qed.

Lemma indexOfAux_None c (s : jsstring) k :
  indexOfAux [c] s k = None -> ~ In c s.
Proof.
  revert k. induction s as [|x s IH]; intros k.
  - intros _ [].
  - cbn [indexOfAux]. rewrite isPrefix_single.
    destruct (N.eqb_spec c x) as [->|Hx]; [discriminate|].
    intros H [E|Hin]; [congruence | exact (IH _ H Hin)].
Qed.

Lemma indexOf_Some (s : jsstring) c from m :
  from <= length s -> indexOf s [c] from = Some m ->
  from <= m /\ charAt s m = Some c
  /\ forall x, from <= x < m -> charAt s x <> Some c.
Proof.
  intros Hf. unfold indexOf. rewrite Nat.min_l by exact Hf. intros H.
  destruct (indexOfAux_Some _ _ _ _ H) as (a & b & E & Hn & ->).
  assert (Hs : s = firstn from s ++ a ++ c :: b)
    by (rewrite <- E; symmetry; apply firstn_skipn).
  assert (Hl : length (firstn from s) = from)
    by (rewrite length_firstn; lia).
  split; [lia|]. split.
  - rewrite Hs. unfold charAt. rewrite nth_error_app2 by lia.
    rewrite Hl. replace (from + length a - from) with (length a) by lia.
    apply charAt_middle.
  - intros x Hx Hc. apply Hn. rewrite Hs in Hc. unfold charAt in Hc.
    rewrite nth_error_app2 in Hc by lia. rewrite Hl in Hc.
    rewrite nth_error_app1 in Hc by lia.
    eapply nth_error_In. exact Hc.
Qed.

Lemma indexOf_None (s : jsstring) c from :
  from <= length s -> indexOf s [c] from = None ->
  forall x, from <= x -> charAt s x <> Some c.
Proof.
  intros Hf. unfold indexOf. rewrite Nat.min_l by exact Hf. intros H x Hx Hc.
  apply (indexOfAux_None _ _ _ H).
  assert (Hs : s = firstn from s ++ skipn from s)
    by (symmetry; apply firstn_skipn).
  assert (Hl : length (firstn from s) = from)
    by (rewrite length_firstn; lia).
  rewrite Hs in Hc. unfold charAt in Hc.
  rewrite nth_error_app2 in Hc by lia.
  eapply nth_error_In. exact Hc.
Qed.

Lemma relIndex_nat len a : a <= len -> relIndex len (Z.of_nat a) = a.
Proof.
  intros H. unfold relIndex.
  destruct (Z.ltb_spec (Z.of_nat a) 0); [lia|].
  rewrite Nat2Z.id. lia.
Qed.

Lemma slice_nat (s : jsstring) a b :
  a <= length s -> b <= length s ->
  slice s (Z.of_nat a) (Z.of_nat b) = firstn (b - a) (skipn a s).
Proof.
  intros Ha Hb. unfold slice. rewrite !relIndex_nat by assumption. reflexivity.
Qed.

Lemma slice_middle (pre mid post : jsstring) :
  slice (pre ++ mid ++ post) (Z.of_nat (length pre))
        (Z.of_nat (length pre + length mid)) = mid.
Proof.
  rewrite slice_nat by (rewrite !length_app; lia).
  rewrite skipn_app, skipn_all, Nat.sub_diag. simpl.
  replace (length pre + length mid - length pre) with (length mid) by lia.
  rewrite firstn_app, firstn_all, Nat.sub_diag. simpl. apply app_nil_r.
Qed.

Lemma slice_unquoted (t : jsstring) : slice t 1 (-1) = unquoted t.
Proof.
  unfold slice, unquoted.
  assert (H1 : relIndex (length t) 1 = Nat.min 1 (length t)) by reflexivity.
  assert (H2 : relIndex (length t) (-1) = length t - 1).
  { unfold relIndex. change (-1 <? 0)%Z with true. cbv iota. lia. }
  rewrite H1, H2. destruct t as [|x t]; [reflexivity|].
  cbn [length]. rewrite Nat.min_l by lia. cbn [skipn tl].
  replace (S (length t) - 1 - 1) with (pred (length t)) by lia.
  symmetry. apply removelast_firstn_len.
Qed.

Lemma startsWith_single (t : jsstring) q :
  startsWith t [q] = true <-> hd_error t = Some q.
Proof.
  unfold startsWith. rewrite isPrefix_single. destruct t as [|y t]; simpl.
  - split; discriminate.
  - rewrite N.eqb_eq. split; congruence.
Qed.

Lemma endsWith_single (t : jsstring) q :
  endsWith t [q] = true <-> hd_error (rev t) = Some q.
Proof. unfold endsWith. simpl rev. apply startsWith_single. Qed.

Lemma isDigit_range c : isDigit c = true <-> (48 <= c <= 57)%N.
Proof.
  unfold isDigit. rewrite andb_true_iff, !N.leb_le. tauto.
Qed.

Lemma testDigits_AllDigits (t : jsstring) :
  testDigits t = true <-> AllDigits t.
Proof.
  unfold AllDigits. destruct t as [|x t].
  - simpl. split; [discriminate | intros [H _]; congruence].
  - unfold testDigits. rewrite forallb_forall, Forall_forall.
    split.
    + intros H. split; [discriminate|]. intros c Hc.
      apply isDigit_range, H, Hc.
    + intros [_ H] c Hc. apply isDigit_range, H, Hc.
Qed.

End StringFacts.

(** * The scan of [parsePath] *)

Section ScanFacts.

Variable input : jsstring.

Lemma scanBare_ge fuel j : j <= scanBare fuel input j.
Proof.
  revert j. induction fuel as [|fuel IH]; intros j; simpl; [lia|].
  destruct (charAt input j); [|lia].
  destruct (_ || _); [lia|]. specialize (IH (S j)). lia.
Qed.

Lemma scanBare_le fuel j :
  j <= length input -> scanBare fuel input j <= length input.
Proof.
  revert j. induction fuel as [|fuel IH]; intros j Hj; simpl; [lia|].
  destruct (charAt input j) eqn:E; [|lia].
  destruct (_ || _); [lia|]. apply IH. apply charAt_lt in E. lia.
Qed.

(** Every position the inner loop passes holds neither [.] nor [[]. *)
Lemma scanBare_run fuel j x :
  j <= x < scanBare fuel input j ->
  charIs input x DOT = false /\ charIs input x LBRACKET = false.
Proof.
  revert j. induction fuel as [|fuel IH]; intros j Hx; simpl in Hx; [lia|].
  destruct (charAt input j) as [c|] eqn:E; [|lia].
  destruct (N.eqb c DOT || N.eqb c LBRACKET) eqn:B; [lia|].
  destruct (Nat.eq_dec x j) as [->|Hne].
  - unfold charIs. rewrite E. apply orb_false_iff in B. exact B.
  - apply (IH (S j)). lia.
Qed.

(** With [length input - j] iterations the inner loop stops because its
    condition fails, not because the iterations are used up. *)
Lemma scanBare_stop fuel j :
  length input - j <= fuel ->
  charAt input (scanBare fuel input j) = None
  \/ charIs input (scanBare fuel input j) DOT = true
  \/ charIs input (scanBare fuel input j) LBRACKET = true.
Proof.
  revert j. induction fuel as [|fuel IH]; intros j Hf; simpl.
  - left. apply charAt_None_ge. lia.
  - destruct (charAt input j) as [c|] eqn:E; [|left; exact E].
    destruct (N.eqb c DOT) eqn:B1; simpl.
    + right; left. unfold charIs. rewrite E. exact B1.
    + destruct (N.eqb c LBRACKET) eqn:B2.
      * right; right. unfold charIs. rewrite E. exact B2.
      * apply IH. lia.
Qed.

Lemma scanBare_first i :
  i < length input ->
  charIs input i DOT = false -> charIs input i LBRACKET = false ->
  i < scanBare (length input - i) input i.
Proof.
  intros Hi Hd Hb. destruct (length input - i) as [|f] eqn:E; [lia|].
  simpl. unfold charIs in Hd, Hb.
  destruct (charAt input i) as [c|] eqn:Ec.
  - rewrite Hd, Hb. simpl. pose proof (scanBare_ge f (S i)). lia.
  - apply charAt_None_ge in Ec. lia.
Qed.

(** Each iteration of the outer loop moves the position forward, and
    stays inside the input. *)
Lemma step_progress i parts :
  i < length input ->
  match step input i parts with
  | Continue i' _ => i < i' <= length input
  | Return r => r = []
  end.
Proof.
  intros Hi. unfold step.
  destruct (charIs input i DOT) eqn:Hd; [lia|].
  destruct (charIs input i LBRACKET) eqn:Hb.
  - destruct (indexOf input [RBRACKET] (i + 1)) as [close|] eqn:Hc;
      [|reflexivity].
    apply indexOf_Some in Hc; [|lia].
    destruct Hc as (Hle & Hat & _). apply charAt_lt in Hat.
    destruct (close + 1 <? length input) eqn:Hlt; simpl.
    + apply Nat.ltb_lt in Hlt. destruct (charIs input (close + 1) DOT); lia.
    + lia.
  - pose proof (scanBare_first i Hi Hd Hb).
    pose proof (scanBare_le (length input - i) i). lia.
Qed.

Lemma loop_done fuel i parts :
  length input <= i -> loop fuel input i parts = Some parts.
Proof.
  intros H. destruct fuel; simpl;
    destruct (Nat.ltb_spec i (length input)); try lia; reflexivity.
Qed.

Lemma loop_unfold fuel i parts :
  i < length input ->
  loop (S fuel) input i parts =
  match step input i parts with
  | Continue i' parts' => loop fuel input i' parts'
  | Return r => Some r
  end.
Proof.
  intros H. simpl. destruct (Nat.ltb_spec i (length input)); [reflexivity|lia].
Qed.

(** The outer loop returns once it is given [length input - i]
    iterations. *)
Lemma loop_total fuel i parts :
  length input - i <= fuel -> exists r, loop fuel input i parts = Some r.
Proof.
  revert i parts. induction fuel as [|fuel IH]; intros i parts Hf.
  - exists parts. apply loop_done. lia.
  - destruct (Nat.ltb_spec i (length input)) as [Hi|Hi].
    + rewrite loop_unfold by exact Hi.
      pose proof (step_progress i parts Hi) as Hp.
      destruct (step input i parts) as [i' parts'|r].
      * apply IH. lia.
      * exists r. reflexivity.
    + exists parts. apply loop_done. exact Hi.
Qed.

(** More iterations than needed change nothing. *)
Lemma loop_more fuel fuel' i parts r :
  loop fuel input i parts = Some r -> fuel <= fuel' ->
  loop fuel' input i parts = Some r.
Proof.
  revert fuel' i parts. induction fuel as [|fuel IH]; intros fuel' i parts H Hle.
  - destruct (Nat.ltb_spec i (length input)) as [Hi|Hi].
    + simpl in H. destruct (Nat.ltb_spec i (length input)); [discriminate|lia].
    + rewrite loop_done in H by exact Hi. rewrite loop_done by exact Hi. exact H.
  - destruct fuel' as [|fuel']; [lia|].
    destruct (Nat.ltb_spec i (length input)) as [Hi|Hi].
    + rewrite loop_unfold in * by exact Hi.
      destruct (step input i parts) as [i' parts'|r']; [|exact H].
      apply IH; [exact H | lia].
    + rewrite loop_done in H by exact Hi. rewrite loop_done by exact Hi. exact H.
Qed.

Lemma parsePath_loop fuel :
  length input <= fuel -> loop fuel input 0 [] = Some (parsePath input).
Proof.
  intros Hf. unfold parsePath.
  destruct (loop_total (length input) 0 []) as [r Hr]; [lia|].
  rewrite Hr. eapply loop_more; eassumption.
Qed.

(** An opening bracket with no closing bracket after it makes the loop
    return the empty list, from every position at or before it. *)
Lemma loop_unclosed k :
  charAt input k = Some LBRACKET ->
  (forall m, k < m -> charAt input m <> Some RBRACKET) ->
  forall fuel i parts,
    i <= k -> length input - i <= fuel -> loop fuel input i parts = Some [].
Proof.
  intros Hk Hno. pose proof (charAt_lt _ _ _ Hk) as Hklen.
  induction fuel as [|fuel IH]; intros i parts Hik Hf; [lia|].
  rewrite loop_unfold by lia. unfold step.
  destruct (charIs input i DOT) eqn:Hd.
  { apply IH; [|lia]. apply charIs_true in Hd.
    assert (i <> k) by (intros ->; rewrite Hk in Hd; discriminate). lia. }
  destruct (charIs input i LBRACKET) eqn:Hb.
  - destruct (indexOf input [RBRACKET] (i + 1)) as [close|] eqn:Hc;
      [|reflexivity].
    apply indexOf_Some in Hc; [|lia].
    destruct Hc as (Hle & Hat & _).
    assert (Hck : close < k).
    { destruct (Nat.lt_trichotomy close k) as [H|[->|H]]; [exact H| |].
      - rewrite Hk in Hat. discriminate.
      - exfalso. exact (Hno _ H Hat). }
    destruct (close + 1 <? length input) eqn:Hlt; simpl.
    + destruct (charIs input (close + 1) DOT) eqn:Hd'.
      * apply IH; [|lia]. apply charIs_true in Hd'.
        assert (close + 1 <> k)
          by (intros E; rewrite E, Hk in Hd'; discriminate).
        lia.
      * apply IH; lia.
    + apply IH; lia.
  - pose proof (scanBare_first i ltac:(lia) Hd Hb) as Hadv.
    apply IH; [|lia].
    destruct (Nat.le_gt_cases (scanBare (length input - i) input i) k)
      as [H|H]; [exact H|].
    destruct (scanBare_run (length input - i) i k ltac:(lia)) as [_ Hcontra].
    apply charIs_false in Hcontra. contradiction.
Qed.

(** Over an input of separators only the loop pushes nothing. *)
Lemma loop_dots :
  Forall (fun c => c = DOT) input ->
  forall fuel i parts,
    length input - i <= fuel -> loop fuel input i parts = Some parts.
Proof.
  intros Hall. induction fuel as [|fuel IH]; intros i parts Hf.
  - apply loop_done. lia.
  - destruct (Nat.ltb_spec i (length input)) as [Hi|Hi];
      [|apply loop_done; exact Hi].
    rewrite loop_unfold by exact Hi. unfold step.
    assert (Hd : charIs input i DOT = true).
    { apply charIs_true. unfold charAt.
      destruct (nth_error input i) as [c|] eqn:E.
      - rewrite Forall_forall in Hall. f_equal.
        apply Hall. eapply nth_error_In. exact E.
      - apply nth_error_None in E. lia. }
    rewrite Hd. apply IH. lia.
Qed.

(** An iteration that does not start at an opening bracket pushes nothing
    or one key that is not empty. *)
Lemma step_no_bracket i parts :
  charIs input i LBRACKET = false ->
  exists i',
    step input i parts = Continue i' parts
    \/ exists t, t <> [] /\ step input i parts = Continue i' (parts ++ [Key t]).
Proof.
  intros Hb. unfold step. rewrite Hb.
  destruct (charIs input i DOT).
  - exists (S i). left. reflexivity.
  - set (j := scanBare (length input - i) input i).
    set (token := trim (slice input (Z.of_nat i) (Z.of_nat j))).
    exists j. destruct token as [|c t] eqn:E; simpl.
    + left. reflexivity.
    + right. exists (c :: t). split; [discriminate | reflexivity].
Qed.

Lemma loop_no_bracket :
  (forall x, charAt input x <> Some LBRACKET) ->
  forall fuel i parts r,
    Forall nonEmptyKey parts ->
    loop fuel input i parts = Some r -> Forall nonEmptyKey r.
Proof.
  intros Hno. induction fuel as [|fuel IH]; intros i parts r Hp H.
  - simpl in H. destruct (i <? length input); [discriminate|].
    injection H as <-. exact Hp.
  - destruct (Nat.ltb_spec i (length input)) as [Hi|Hi].
    + rewrite loop_unfold in H by exact Hi.
      assert (Hb : charIs input i LBRACKET = false)
        by (apply charIs_false, Hno).
      destruct (step_no_bracket i parts Hb) as [i' [E|(t & Ht & E)]];
        rewrite E in H.
      * eapply IH; eassumption.
      * eapply IH; [|exact H]. apply Forall_app. split; [exact Hp|].
        constructor; [|constructor]. exists t. split; [reflexivity|exact Ht].
    + rewrite loop_done in H by exact Hi. injection H as <-. exact Hp.
Qed.

End ScanFacts.

(** The iteration that starts at an opening bracket whose content holds
    no closing bracket: it pushes the accessor of the trimmed content and
    moves past the closing bracket and one following dot. *)
Lemma step_bracket (pre content post : jsstring) parts :
  ~ In RBRACKET content ->
  step (pre ++ LBRACKET :: content ++ RBRACKET :: post) (length pre) parts =
  Continue (length pre + length content + 2
            + (if startsWith post [DOT] then 1 else 0))
           (parts ++ [bracketAccessor (trim content)]).
Proof.
  intros Hn. set (input := pre ++ LBRACKET :: content ++ RBRACKET :: post).
  assert (Hlen : length input = length pre + length content + 2 + length post).
  { unfold input. rewrite length_app. cbn [length]. rewrite length_app.
    cbn [length]. lia. }
  assert (Hat : charAt input (length pre) = Some LBRACKET)
    by apply charAt_middle.
  unfold step.
  assert (Hd : charIs input (length pre) DOT = false).
  { apply charIs_false. rewrite Hat. discriminate. }
  assert (Hb : charIs input (length pre) LBRACKET = true)
    by (apply charIs_true; exact Hat).
  rewrite Hd, Hb.
  assert (Hidx : indexOf input [RBRACKET] (length pre + 1)
                 = Some (length pre + 1 + length content)).
  { unfold indexOf. rewrite Nat.min_l by lia.
    unfold input.
    replace (pre ++ LBRACKET :: content ++ RBRACKET :: post)
      with ((pre ++ [LBRACKET]) ++ content ++ RBRACKET :: post)
      by (rewrite <- app_assoc; reflexivity).
    rewrite skipn_app.
    replace (length pre + 1) with (length (pre ++ [LBRACKET]))
      by (rewrite length_app; reflexivity).
    rewrite skipn_all, Nat.sub_diag. simpl skipn. simpl app at 1.
    apply indexOfAux_found. exact Hn. }
  rewrite Hidx.
  assert (Hsl : slice input (Z.of_nat (length pre + 1))
                      (Z.of_nat (length pre + 1 + length content)) = content).
  { unfold input.
    replace (pre ++ LBRACKET :: content ++ RBRACKET :: post)
      with ((pre ++ [LBRACKET]) ++ content ++ RBRACKET :: post)
      by (rewrite <- app_assoc; reflexivity).
    replace (length pre + 1) with (length (pre ++ [LBRACKET]))
      by (rewrite length_app; reflexivity).
    apply slice_middle. }
  rewrite Hsl.
  assert (Hnext : charAt input (length pre + 1 + length content + 1)
                  = hd_error post).
  { unfold input, charAt.
    replace (pre ++ LBRACKET :: content ++ RBRACKET :: post)
      with ((pre ++ LBRACKET :: content ++ [RBRACKET]) ++ post).
    2:{ rewrite <- app_assoc. f_equal. simpl. f_equal.
        rewrite <- app_assoc. reflexivity. }
    rewrite nth_error_app2.
    2:{ rewrite length_app. cbn [length]. rewrite length_app. simpl. lia. }
    replace (length pre + 1 + length content + 1
             - length (pre ++ LBRACKET :: content ++ [RBRACKET])) with 0.
    2:{ rewrite length_app. cbn [length]. rewrite length_app. simpl. lia. }
    destruct post; reflexivity. }
  unfold charIs. rewrite Hnext. unfold startsWith. rewrite isPrefix_single.
  destruct post as [|y post'].
  - simpl. rewrite andb_false_r. f_equal. lia.
  - cbn [hd_error]. rewrite (N.eqb_sym DOT y).
    assert (Hlt : (length pre + 1 + length content + 1 <? length input) = true).
    { apply Nat.ltb_lt. rewrite Hlen. simpl. lia. }
    rewrite Hlt. simpl. destruct (N.eqb y DOT); f_equal; lia.
Qed.

(** The accessor of some bracket content, read off the content. *)
Lemma bracketAccessor_cases (t : jsstring) :
  (AllDigits t -> bracketAccessor t = Index (Number t))
  /\ (~ AllDigits t -> QuoteWrapped t -> bracketAccessor t = Key (unquoted t))
  /\ (~ AllDigits t -> ~ QuoteWrapped t -> bracketAccessor t = Key t).
Proof.
  unfold bracketAccessor. split; [|split].
  - intros H. apply testDigits_AllDigits in H. rewrite H. reflexivity.
  - intros Hd (q & Hq & Hh & Hl).
    destruct (testDigits t) eqn:E; [apply testDigits_AllDigits in E; tauto|].
    apply startsWith_single in Hh. apply endsWith_single in Hl.
    destruct Hq as [-> | ->]; rewrite Hh, Hl; simpl;
      rewrite ?orb_true_r, slice_unquoted; reflexivity.
  - intros Hd Hq.
    destruct (testDigits t) eqn:E; [apply testDigits_AllDigits in E; tauto|].
    destruct ((startsWith t [DQUOTE] && endsWith t [DQUOTE])
              || (startsWith t [SQUOTE] && endsWith t [SQUOTE])) eqn:B;
      [|reflexivity].
    exfalso. apply Hq. apply orb_true_iff in B.
    destruct B as [B|B]; apply andb_true_iff in B; destruct B as [B1 B2];
      apply startsWith_single in B1; apply endsWith_single in B2.
    + exists DQUOTE. tauto.
    + exists SQUOTE. tauto.
Qed.

(** A path that is one bracket accessor. *)
Lemma parsePath_one_bracket (content : jsstring) :
  ~ In RBRACKET content ->
  parsePath (LBRACKET :: content ++ [RBRACKET])
  = [bracketAccessor (trim content)].
Proof.
  intros Hn. unfold parsePath.
  set (input := LBRACKET :: content ++ [RBRACKET]).
  assert (Hlen : length input = S (S (length content))).
  { unfold input. cbn [length]. rewrite length_app. simpl. lia. }
  rewrite Hlen. rewrite loop_unfold by lia.
  pose proof (step_bracket [] content [] [] Hn) as Hs.
  simpl in Hs. fold input in Hs. rewrite Hs.
  rewrite loop_done by lia. reflexivity.
Qed.

(** * Conversion of digit runs *)

Lemma digitsValue_nonneg (t : jsstring) :
  Forall (fun c => (48 <= c <= 57)%N) t -> (0 <= digitsValue t)%Z.
Proof.
  unfold digitsValue. intros H.
  assert (G : forall acc, (0 <= acc)%Z ->
            (0 <= fold_left (fun a c => 10 * a + (Z.of_N c - 48)) t acc)%Z).
  { induction H as [|c t Hc Ht IH]; intros acc Hacc; cbn [fold_left];
      [exact Hacc|].
    apply IH. lia. }
  apply G. lia.
Qed.

(** Integers up to [2^53] are doubles: the conversion keeps them. *)
Lemma roundDouble_exact (n : Z) :
  (0 <= n <= 2 ^ 53)%Z -> roundDouble n = Finite n.
Proof.
  intros [H0 H1]. destruct (Z.eq_dec n (2 ^ 53)) as [->|Hne].
  - vm_compute. reflexivity.
  - unfold roundDouble. destruct (Z.eqb_spec n 0) as [->|Hnz].
    + reflexivity.
    + assert (Hlog : (Z.log2 n < 53)%Z) by (apply Z.log2_lt_pow2; lia).
      destruct (Z.leb_spec (Z.log2 n + 1) 53); [reflexivity | lia].
Qed.

(** * Claims about the path parser *)

(** C7 as the spec words it fails on digit runs above [2^53]: the
    accessor is the double nearest to the integer, here one less. *)
Lemma C7_counterexample :
  AllDigits (js "9007199254740993")
  /\ digitsValue (js "9007199254740993") = 9007199254740993%Z
  /\ parsePath (js "[9007199254740993]") = [Index (Finite 9007199254740992)]
  /\ parsePath (js "[9007199254740993]")
     <> [Index (Finite (digitsValue (js "9007199254740993")))].
Proof.
  split; [|split; [|split]].
  - apply testDigits_AllDigits. vm_compute. reflexivity.
  - vm_compute. reflexivity.
  - vm_compute. reflexivity.
  - vm_compute. discriminate.
Qed.

(** C7 (amended): for a bracket accessor [[content]] whose content holds
    no closing bracket, the iteration that meets it pushes exactly one
    accessor and the scan goes on past the closing bracket with that
    accessor appended.  The accessor is decided by the trimmed content
    [t]: when [t] is entirely decimal digits an index, the Number
    conversion of that integer, which is the integer itself up to [2^53];
    otherwise, when [t] starts and ends with the same quote character, the
    key [t] without its first and last code unit; otherwise the key [t].
    A path consisting of this accessor alone parses to it. *)
Theorem C7_bracket_accessor (pre content post : jsstring) (parts : list accessor) :
  ~ In RBRACKET content ->
  exists i' a,
    step (pre ++ LBRACKET :: content ++ RBRACKET :: post) (length pre) parts
    = Continue i' (parts ++ [a])
    /\ length pre + length content + 2 <= i'
    /\ (forall fuel,
          loop (S fuel) (pre ++ LBRACKET :: content ++ RBRACKET :: post)
               (length pre) parts
          = loop fuel (pre ++ LBRACKET :: content ++ RBRACKET :: post)
                 i' (parts ++ [a]))
    /\ parsePath (LBRACKET :: content ++ [RBRACKET]) = [a]
    /\ (AllDigits (trim content) ->
        a = Index (roundDouble (digitsValue (trim content)))
        /\ ((digitsValue (trim content) <= 2 ^ 53)%Z ->
            a = Index (Finite (digitsValue (trim content)))))
    /\ (~ AllDigits (trim content) -> QuoteWrapped (trim content) ->
        a = Key (unquoted (trim content)))
    /\ (~ AllDigits (trim content) -> ~ QuoteWrapped (trim content) ->
        a = Key (trim content)).
Proof.
  intros Hn.
  destruct (bracketAccessor_cases (trim content)) as (Hd & Hq & Hr).
  eexists. exists (bracketAccessor (trim content)).
  split; [apply step_bracket; exact Hn|].
  split; [lia|].
  split.
  { intros fuel. rewrite loop_unfold.
    - rewrite step_bracket by exact Hn. reflexivity.
    - rewrite length_app. simpl. lia. }
  split; [apply parsePath_one_bracket; exact Hn|].
  split; [|split; assumption].
  intros Ha. split.
  - apply Hd. exact Ha.
  - intros Hle. rewrite (Hd Ha). unfold Number. f_equal.
    apply roundDouble_exact. split; [|exact Hle].
    apply digitsValue_nonneg. apply Ha.
Qed.

Lemma C7_bracket_accessor_witness :
  ~ In RBRACKET (js " 'x y' ")
  /\ exists i' a,
      step (js "a[ 'x y' ].b") 1 [Key (js "a")]
      = Continue i' ([Key (js "a")] ++ [a])
      /\ parsePath (js "[ 'x y' ]") = [a].
Proof.
  assert (Hn : ~ In RBRACKET (js " 'x y' ")).
  { vm_compute. intuition discriminate. }
  split; [exact Hn|].
  destruct (C7_bracket_accessor (js "a") (js " 'x y' ") (js ".b")
              [Key (js "a")] Hn) as (i' & a & Hs & _ & _ & Hp & _).
  exists i', a. split; [exact Hs | exact Hp].
Defined.

(** C8: [parsePath] returns the empty path on the empty input, on an
    input of dots only, and on an input holding an opening bracket with
    no closing bracket after it.  A dot iteration pushes nothing, and an
    iteration that does not start at an opening bracket pushes nothing or
    a key that is not empty, so a bracket-free input yields non-empty
    keys only. *)
Theorem C8_parse_failures :
  parsePath [] = []
  /\ (forall input, Forall (fun c => c = DOT) input -> parsePath input = [])
  /\ (forall input k,
        charAt input k = Some LBRACKET ->
        (forall m, k < m -> charAt input m <> Some RBRACKET) ->
        parsePath input = [])
  /\ (forall input i parts,
        charIs input i DOT = true -> step input i parts = Continue (S i) parts)
  /\ (forall input i parts,
        charIs input i LBRACKET = false ->
        exists i',
          step input i parts = Continue i' parts
          \/ exists t, t <> []
                       /\ step input i parts = Continue i' (parts ++ [Key t]))
  /\ (forall input,
        (forall x, charAt input x <> Some LBRACKET) ->
        Forall nonEmptyKey (parsePath input)).
Proof.
  split; [reflexivity|].
  split.
  { intros input Hall. unfold parsePath.
    rewrite (loop_dots input Hall) by lia. reflexivity. }
  split.
  { intros input k Hk Hno. unfold parsePath.
    rewrite (loop_unclosed input k Hk Hno) by lia. reflexivity. }
  split.
  { intros input i parts Hd. unfold step. rewrite Hd. reflexivity. }
  split.
  { intros input i parts Hb. apply step_no_bracket. exact Hb. }
  intros input Hno.
  eapply (loop_no_bracket input Hno (length input) 0 []).
  - constructor.
  - apply parsePath_loop. lia.
Qed.

Lemma C8_parse_failures_witness :
  (Forall (fun c => c = DOT) (js "...") /\ parsePath (js "...") = [])
  /\ (charAt (js "a.b[0") 3 = Some LBRACKET
      /\ (forall m, 3 < m -> charAt (js "a.b[0") m <> Some RBRACKET)
      /\ parsePath (js "a.b[0") = [])
  /\ ((forall x, charAt (js "..a. .b") x <> Some LBRACKET)
      /\ Forall nonEmptyKey (parsePath (js "..a. .b"))).
Proof.
  destruct C8_parse_failures as (_ & Hdots & Hopen & _ & _ & Hkeys).
  split; [|split].
  - assert (H : Forall (fun c => c = DOT) (js "...")).
    { repeat constructor. }
    split; [exact H | exact (Hdots _ H)].
  - assert (H1 : charAt (js "a.b[0") 3 = Some LBRACKET) by reflexivity.
    assert (H2 : forall m, 3 < m -> charAt (js "a.b[0") m <> Some RBRACKET).
    { intros m Hm. do 5 (destruct m as [|m]; [vm_compute; discriminate|]).
      destruct m; discriminate. }
    split; [exact H1|]. split; [exact H2 | exact (Hopen _ _ H1 H2)].
  - assert (H : forall x, charAt (js "..a. .b") x <> Some LBRACKET).
    { intros x. do 7 (destruct x as [|x]; [vm_compute; discriminate|]).
      destruct x; discriminate. }
    split; [exact H | exact (Hkeys _ H)].
Defined.

(** C9: [parsePath] terminates on every input.  Each iteration of the
    scan entered inside the input either returns or moves the position
    strictly forward without leaving the input; the inner scan of a bare
    run stops on its own condition; hence [length input] iterations always
    suffice and the loop returns the list [parsePath] yields. *)
Theorem C9_parsePath_total (input : jsstring) :
  (forall i parts,
      i < length input ->
      match step input i parts with
      | Continue i' _ => i < i' <= length input
      | Return r => r = []
      end)
  /\ (forall i,
        i <= length input ->
        let j := scanBare (length input - i) input i in
        i <= j <= length input
        /\ (charAt input j = None
            \/ charIs input j DOT = true \/ charIs input j LBRACKET = true))
  /\ (forall fuel i parts,
        length input - i <= fuel ->
        exists r, loop fuel input i parts = Some r)
  /\ (forall fuel,
        length input <= fuel -> loop fuel input 0 [] = Some (parsePath input)).
Proof.
  split; [intros i parts; apply step_progress|].
  split.
  { intros i Hi j. split.
    - split; [apply scanBare_ge | apply scanBare_le; exact Hi].
    - apply scanBare_stop. lia. }
  split; [intros fuel i parts; apply loop_total|].
  intros fuel. apply parsePath_loop.
Qed.

Lemma C9_parsePath_total_witness :
  length (js "a.b[0].c") <= 20
  /\ loop 20 (js "a.b[0].c") 0 []
     = Some [Key (js "a"); Key (js "b"); Index (Finite 0); Key (js "c")].
Proof.
  assert (H : length (js "a.b[0].c") <= 20) by (vm_compute; lia).
  split; [exact H|].
  exact (proj2 (proj2 (proj2 (C9_parsePath_total (js "a.b[0].c")))) 20 H).
Defined.

(** C10: a bracket accessor whose trimmed content is one quote
    character is read as quote-wrapped and yields the empty key: removing
    the first and last code unit of a one-unit string leaves nothing. *)
Theorem C10_lone_quote (content : jsstring) (q : N) :
  ~ In RBRACKET content ->
  trim content = [q] -> q = SQUOTE \/ q = DQUOTE ->
  parsePath (LBRACKET :: content ++ [RBRACKET]) = [Key []]
  /\ parsePath (js "[']") = [Key []]
  /\ parsePath [LBRACKET; DQUOTE; RBRACKET] = [Key []]
  /\ forall pre post parts,
      exists i',
        step (pre ++ LBRACKET :: content ++ RBRACKET :: post) (length pre) parts
        = Continue i' (parts ++ [Key []]).
Proof.
  intros Hn Ht Hq.
  assert (Ha : bracketAccessor (trim content) = Key []).
  { rewrite Ht. destruct Hq as [-> | ->]; reflexivity. }
  split; [rewrite parsePath_one_bracket, Ha by exact Hn; reflexivity|].
  split; [vm_compute; reflexivity|].
  split; [vm_compute; reflexivity|].
  intros pre post parts. eexists.
  rewrite step_bracket, Ha by exact Hn. reflexivity.
Qed.

Lemma C10_lone_quote_witness :
  ~ In RBRACKET (js " ' ")
  /\ trim (js " ' ") = [SQUOTE]
  /\ parsePath (js "[ ' ]") = [Key []].
Proof.
  assert (Hn : ~ In RBRACKET (js " ' ")).
  { vm_compute. intuition discriminate. }
  assert (Ht : trim (js " ' ") = [SQUOTE]) by (vm_compute; reflexivity).
  split; [exact Hn|]. split; [exact Ht|].
  exact (proj1 (C10_lone_quote (js " ' ") SQUOTE Hn Ht (or_introl eq_refl))).
Defined.

(** * Claims about the value coercer *)

(** C6: [coerceValue] returns the strict JSON parse of its input when
    there is one and the input itself, as a string, when there is none;
    so [123] and [true] become a number and a boolean, a quoted [x] the
    string [x], and a bare [x] the string [x]. *)
Theorem C6_coerceValue :
  (forall raw v, JSON_parse raw = Some v -> coerceValue raw = v)
  /\ (forall raw, JSON_parse raw = None -> coerceValue raw = VString raw)
  /\ coerceValue (js "123") = VNumber (JInt 123)
  /\ coerceValue (js "true") = VBool true
  /\ coerceValue (jq "`x`") = VString (js "x")
  /\ JSON_parse (js "x") = None
  /\ coerceValue (js "x") = VString (js "x").
Proof.
  split; [intros raw v H; unfold coerceValue; rewrite H; reflexivity|].
  split; [intros raw H; unfold coerceValue; rewrite H; reflexivity|].
  repeat split; vm_compute; reflexivity.
Qed.

Lemma C6_coerceValue_witness :
  (JSON_parse (jq "{`x`:[1,2.5]}")
   = Some (VObject [(js "x", VArray [VNumber (JInt 1); VNumber (JFrac 25 1)])])
   /\ coerceValue (jq "{`x`:[1,2.5]}")
      = VObject [(js "x", VArray [VNumber (JInt 1); VNumber (JFrac 25 1)])])
  /\ (JSON_parse (jq "{x:1}") = None
      /\ coerceValue (jq "{x:1}") = VString (jq "{x:1}")).
Proof.
  destruct C6_coerceValue as (Hok & Hfail & _).
  split.
  - assert (H : JSON_parse (jq "{`x`:[1,2.5]}")
                = Some (VObject [(js "x", VArray [VNumber (JInt 1);
                                                  VNumber (JFrac 25 1)])]))
      by (vm_compute; reflexivity).
    split; [exact H | exact (Hok _ _ H)].
  - assert (H : JSON_parse (jq "{x:1}") = None) by (vm_compute; reflexivity).
    split; [exact H | exact (Hfail _ H)].
Defined.

(** * The matcher moves forward *)

Section MatcherFacts.

Variable A : Type.

Lemma greedy_advance cls (k : jsstring -> nat -> option A) rest pos x :
  greedy cls k rest pos = Some x ->
  exists rest' pos', k rest' pos' = Some x /\ pos <= pos'.
Proof.
  revert pos. induction rest as [|c t IH]; intros pos H; simpl in H.
  - exists [], pos. split; [exact H | lia].
  - destruct (cls c).
    + destruct (greedy cls k t (S pos)) as [y|] eqn:E.
      * injection H as <-. destruct (IH _ E) as (r' & p' & Hk & Hp).
        exists r', p'. split; [exact Hk | lia].
      * exists (c :: t), pos. split; [exact H | lia].
    + exists (c :: t), pos. split; [exact H | lia].
Qed.

Lemma lazy_advance cls (k : jsstring -> nat -> option A) rest pos x :
  lazy cls k rest pos = Some x ->
  exists rest' pos', k rest' pos' = Some x /\ pos <= pos'.
Proof.
  revert pos. induction rest as [|c t IH]; intros pos H; simpl in H.
  - destruct (k [] pos) as [y|] eqn:E; [|discriminate].
    exists [], pos. split; [congruence | lia].
  - destruct (k (c :: t) pos) as [y|] eqn:E.
    + exists (c :: t), pos. split; [congruence | lia].
    + destruct (cls c); [|discriminate].
      destruct (IH _ H) as (r' & p' & Hk & Hp).
      exists r', p'. split; [exact Hk | lia].
Qed.

(** A match of [r] hands its continuation an offset at least [minLen r]
    further on. *)
Lemma rmatch_advance r :
  forall rest pos caps (k : jsstring -> nat -> captures -> option A) x,
    rmatch r rest pos caps k = Some x ->
    exists rest' pos' caps',
      k rest' pos' caps' = Some x /\ pos + minLen r <= pos'.
Proof.
  induction r as [c|s|r1 IH1 r2 IH2|r1 IH1 r2 IH2|r1 IH1|cls|cls|cls|n r1 IH1|];
    intros rest pos caps k x H; simpl in H.
  - destruct rest as [|y t]; [discriminate|].
    destruct (N.eqb y c); [|discriminate].
    exists t, (S pos), caps. split; [exact H | simpl; lia].
  - destruct (isPrefix s rest); [|discriminate].
    eexists _, _, caps. split; [exact H | simpl; lia].
  - destruct (IH1 _ _ _ _ _ H) as (r' & p' & c' & H2 & Hp).
    destruct (IH2 _ _ _ _ _ H2) as (r'' & p'' & c'' & H3 & Hp').
    exists r'', p'', c''. split; [exact H3 | simpl; lia].
  - destruct (rmatch r1 rest pos caps k) as [y|] eqn:E.
    + injection H as <-. destruct (IH1 _ _ _ _ _ E) as (r' & p' & c' & H2 & Hp).
      exists r', p', c'. split; [exact H2 | simpl; lia].
    + destruct (IH2 _ _ _ _ _ H) as (r' & p' & c' & H2 & Hp).
      exists r', p', c'. split; [exact H2 | simpl; lia].
  - match type of H with
    | match ?m with _ => _ end = _ => destruct m as [y|] eqn:E
    end.
    + injection H as <-. destruct (IH1 _ _ _ _ _ E) as (r' & p' & c' & H2 & Hp).
      destruct (Nat.eqb p' pos); [discriminate|].
      exists r', p', c'. split; [exact H2 | simpl; lia].
    + exists rest, pos, caps. split; [exact H | simpl; lia].
  - apply greedy_advance in H. destruct H as (r' & p' & Hk & Hp).
    exists r', p', caps. split; [exact Hk | simpl; lia].
  - destruct rest as [|y t]; [discriminate|].
    destruct (cls y); [|discriminate].
    apply greedy_advance in H. destruct H as (r' & p' & Hk & Hp).
    exists r', p', caps. split; [exact Hk | simpl; lia].
  - apply lazy_advance in H. destruct H as (r' & p' & Hk & Hp).
    exists r', p', caps. split; [exact Hk | simpl; lia].
  - destruct (IH1 _ _ _ _ _ H) as (r' & p' & c' & H2 & Hp).
    eexists _, _, _. split; [exact H2 | simpl; lia].
  - destruct rest; [|discriminate].
    exists [], pos, caps. split; [exact H | simpl; lia].
Qed.

End MatcherFacts.

Lemma search_advance r rest pos m :
  search r rest pos = Some m ->
  pos <= index m /\ index m + minLen r <= matchEnd m.
Proof.
  revert pos.
  assert (Hhere : forall rest pos,
             rmatch r rest pos []
                    (fun _ e caps =>
                       Some {| index := pos; matchEnd := e; groups := caps |})
             = Some m ->
             pos <= index m /\ index m + minLen r <= matchEnd m).
  { intros rest0 pos E. apply rmatch_advance in E.
    destruct E as (r' & p' & c' & Hm & Hp).
    injection Hm as Hm. subst m. simpl. lia. }
  induction rest as [|c t IH]; intros pos H; simpl in H.
  - match type of H with
    | match ?e with _ => _ end = _ => destruct e as [y|] eqn:E
    end; [|discriminate].
    injection H as Hy. subst y. exact (Hhere _ _ E).
  - match type of H with
    | match ?e with _ => _ end = _ => destruct e as [y|] eqn:E
    end.
    + injection H as Hy. subst y. exact (Hhere _ _ E).
    + apply IH in H. lia.
Qed.

(** Every match of the pattern holds at least an opening and a closing
    brace, so [lastIndex] grows with every match. *)
Lemma exec_advance (text : jsstring) lastIndex m :
  exec jsonVariablePattern text lastIndex = Some m ->
  lastIndex <= length text /\ lastIndex + 2 <= matchEnd m.
Proof.
  unfold exec.
  destruct (Nat.ltb_spec (length text) lastIndex) as [Hlt|Hge]; [discriminate|].
  intros Hs. apply search_advance in Hs.
  change (minLen jsonVariablePattern) with 2 in Hs. lia.
Qed.

(** * The scan for embedded objects *)

Section LocatorFacts.

Variable tree : Type.
Variable parseTree : jsstring -> option tree.
Variable text : jsstring.

Lemma recordMatch_cases m variables :
  recordMatch parseTree text m variables = variables
  \/ exists v t,
      recordMatch parseTree text m variables = variables ++ [v]
      /\ orElse (group text m 2) (group text m 3) = Some (json v)
      /\ parseTree (json v) = Some t.
Proof.
  unfold recordMatch.
  destruct (orElse (group text m 2) (group text m 3)) as [j|]; [|left; reflexivity].
  destruct (parseTree j) as [t|] eqn:E; [|left; reflexivity].
  right. eexists _, t. split; [reflexivity|]. split; [reflexivity | exact E].
Qed.

Lemma recordMatch_allParse m variables :
  allParse parseTree variables -> allParse parseTree (recordMatch parseTree text m variables).
Proof.
  intros H. destruct (recordMatch_cases m variables) as [->|(v & t & -> & _ & E)].
  - exact H.
  - apply Forall_app. split; [exact H|]. constructor; [|constructor].
    exists t. exact E.
Qed.

Lemma findLoop_allParse fuel :
  forall lastIndex variables r,
    allParse parseTree variables ->
    findLoop parseTree fuel text lastIndex variables = Some r -> allParse parseTree r.
Proof.
  induction fuel as [|fuel IH]; intros lastIndex variables r Hv H; simpl in H.
  - destruct (exec jsonVariablePattern text lastIndex); [discriminate|].
    injection H as <-. exact Hv.
  - destruct (exec jsonVariablePattern text lastIndex) as [m|].
    + eapply IH; [|exact H]. apply recordMatch_allParse. exact Hv.
    + injection H as <-. exact Hv.
Qed.

Lemma findLoop_total fuel :
  forall lastIndex variables,
    length text + 1 <= fuel + lastIndex ->
    exists r, findLoop parseTree fuel text lastIndex variables = Some r.
Proof.
  induction fuel as [|fuel IH]; intros lastIndex variables Hf; simpl.
  - destruct (exec jsonVariablePattern text lastIndex) as [m|] eqn:E.
    + apply exec_advance in E. lia.
    + exists variables. reflexivity.
  - destruct (exec jsonVariablePattern text lastIndex) as [m|] eqn:E.
    + apply IH. apply exec_advance in E. lia.
    + exists variables. reflexivity.
Qed.

Lemma findLoop_more fuel :
  forall fuel' lastIndex variables r,
    findLoop parseTree fuel text lastIndex variables = Some r ->
    fuel <= fuel' ->
    findLoop parseTree fuel' text lastIndex variables = Some r.
Proof.
  induction fuel as [|fuel IH]; intros fuel' lastIndex variables r H Hle;
    simpl in H.
  - destruct (exec jsonVariablePattern text lastIndex) as [m|] eqn:E;
      [discriminate|].
    destruct fuel'; simpl; rewrite E; exact H.
  - destruct fuel' as [|fuel']; [lia|]. simpl.
    destruct (exec jsonVariablePattern text lastIndex) as [m|] eqn:E;
      [|exact H].
    apply IH; [exact H | lia].
Qed.

Lemma findJsonVariables_loop fuel :
  length text < fuel ->
  findLoop parseTree fuel text 0 []
  = Some (findJsonVariables parseTree text).
Proof.
  intros Hf. unfold findJsonVariables.
  destruct (findLoop_total (S (length text)) 0 []) as [r Hr]; [lia|].
  rewrite Hr. eapply findLoop_more; [exact Hr | lia].
Qed.

End LocatorFacts.

(** Whatever [parseTree] is: every candidate [findJsonVariables] returns
    carries a text on which the call of [parseTree] returned; a match
    whose text makes the call throw leaves the list as it was; and the
    scan always returns: the loop ends within [length text + 1] matches,
    each one moving [lastIndex] forward. *)
Lemma findJsonVariables_gate (tree : Type) (parseTree : jsstring -> option tree)
        (text : jsstring) :
  (forall v, In v (findJsonVariables parseTree text) ->
             exists t, parseTree (json v) = Some t)
  /\ (forall m variables j,
        orElse (group text m 2) (group text m 3) = Some j ->
        parseTree j = None ->
        recordMatch parseTree text m variables = variables)
  /\ (forall lastIndex m,
        exec jsonVariablePattern text lastIndex = Some m ->
        lastIndex < matchEnd m)
  /\ (forall fuel,
        length text < fuel ->
        findLoop parseTree fuel text 0 []
        = Some (findJsonVariables parseTree text)).
Proof.
  split.
  { intros v Hin.
    assert (H : allParse parseTree (findJsonVariables parseTree text)).
    { eapply (findLoop_allParse tree parseTree text (S (length text)) 0 []).
      - constructor.
      - apply findJsonVariables_loop. lia. }
    unfold allParse in H. rewrite Forall_forall in H. exact (H v Hin). }
  split.
  { intros m variables j Hj Hp. unfold recordMatch. rewrite Hj, Hp. reflexivity. }
  split.
  { intros lastIndex m H. apply exec_advance in H. lia. }
  intros fuel. apply findJsonVariables_loop.
Qed.

(** * Blank documents *)

Lemma trimStart_head (l : jsstring) c r :
  trimStart l = c :: r -> isWhiteSpace c = false.
Proof.
  induction l as [|x l IH]; simpl; [discriminate|].
  destruct (isWhiteSpace x) eqn:E; [exact IH|].
  intros [= <- _]. exact E.
Qed.

Lemma trimStart_nil (l : jsstring) :
  trimStart l = [] -> forallb isWhiteSpace l = true.
Proof.
  induction l as [|x l IH]; simpl; [reflexivity|].
  destruct (isWhiteSpace x); [exact IH | discriminate].
Qed.

Lemma trim_nil (l : jsstring) :
  trim l = [] -> forallb isWhiteSpace l = true.
Proof.
  unfold trim, trimEnd. intros H.
  assert (H1 : trimStart (rev (trimStart l)) = []).
  { destruct (trimStart (rev (trimStart l))) as [|y r]; [reflexivity|].
    simpl in H. destruct (rev r); discriminate. }
  apply trimStart_nil in H1. rewrite forallb_forall in H1.
  destruct (trimStart l) as [|c r] eqn:E.
  - apply trimStart_nil. exact E.
  - apply trimStart_head in E.
    rewrite (H1 c) in E; [discriminate|]. apply in_rev.
    rewrite rev_involutive. left. reflexivity.
Qed.

Lemma whiteSpace_range c :
  isWhiteSpace c = true -> (c <= 32 \/ 160 <= c)%N.
Proof.
  unfold isWhiteSpace. intros H.
  repeat (apply orb_true_iff in H; destruct H as [H|H]);
    repeat (apply andb_true_iff in H; destruct H as [H ?]);
    repeat match goal with
           | X : (_ <=? _)%N = true |- _ => apply N.leb_le in X
           | X : (_ =? _)%N = true |- _ => apply N.eqb_eq in X
           end; lia.
Qed.

Lemma skipTrivia_blank opts fuel :
  forall rest pos,
    forallb isWhiteSpace rest = true ->
    exists r p, skipTrivia opts fuel rest pos = Some (r, p)
                /\ forallb isWhiteSpace r = true.
Proof.
  induction fuel as [|fuel IH]; intros rest pos H; simpl.
  - exists rest, pos. split; [reflexivity | exact H].
  - destruct rest as [|c t]; [exists [], pos; split; reflexivity|].
    simpl in H. apply andb_true_iff in H. destruct H as [Hc Ht].
    destruct (isJsonWhiteSpace c); [apply IH; exact Ht|].
    assert (Hs : N.eqb c SLASH = false).
    { apply N.eqb_neq. apply whiteSpace_range in Hc. unfold SLASH. lia. }
    rewrite Hs, andb_false_r.
    exists (c :: t), pos. split; [reflexivity|]. simpl. rewrite Hc. exact Ht.
Qed.

Lemma isPrefix_cons_false x (p : jsstring) c t :
  N.eqb x c = false -> isPrefix (x :: p) (c :: t) = false.
Proof. simpl. intros ->. reflexivity. Qed.

Lemma parseValue_blank opts fuel rest pos :
  forallb isWhiteSpace rest = true -> parseValue opts fuel rest pos = None.
Proof.
  intros H. destruct fuel as [|fuel]; [reflexivity|].
  destruct rest as [|c t]; [reflexivity|].
  simpl in H. apply andb_true_iff in H. destruct H as [Hc _].
  apply whiteSpace_range in Hc.
  assert (Hne : forall d, (32 < d < 160)%N -> N.eqb c d = false)
    by (intros d Hd; apply N.eqb_neq; lia).
  assert (Hne' : forall d, (32 < d < 160)%N -> N.eqb d c = false)
    by (intros d Hd; apply N.eqb_neq; lia).
  cbn [parseValue].
  rewrite (Hne LBRACE), (Hne LBRACKET), (Hne DQUOTE)
    by (unfold LBRACE, LBRACKET, DQUOTE; lia).
  assert (Hd : isDigit c = false).
  { unfold isDigit. destruct (N.leb_spec 48 c); [|reflexivity].
    destruct (N.leb_spec c 57); [lia | reflexivity]. }
  change (js "true") with (116%N :: js "rue").
  change (js "false") with (102%N :: js "alse").
  change (js "null") with (110%N :: js "ull").
  rewrite !isPrefix_cons_false by (apply Hne'; lia).
  unfold parseNumber. rewrite (Hne MINUS) by (unfold MINUS; lia).
  cbn [spanDigits]. rewrite Hd. reflexivity.
Qed.

Lemma parseDocument_blank opts (text : jsstring) :
  trim text = [] -> parseDocument opts text = None.
Proof.
  intros H. apply trim_nil in H. unfold parseDocument, trivia.
  destruct (skipTrivia_blank opts (S (length text)) text 0 H)
    as (r & p & -> & Hr).
  rewrite parseValue_blank by exact Hr. reflexivity.
Qed.

(** * The walk of the editor *)

(** Where the whole path resolves, the edit replaces the text of the
    node it resolves to. *)
Lemma editAt_resolved fmt v path :
  forall root depth n,
    findNodeAtLocation root path = Some n ->
    editAt fmt root depth path v
    = Some {| edOffset := nodeOffset n; edLength := nodeLength n;
              edContent := stringify fmt (depth + length path) v |}.
Proof.
  induction path as [|a path IH]; intros root depth n H.
  - simpl in H. injection H as <-. simpl. rewrite Nat.add_0_r. reflexivity.
  - replace (depth + length (a :: path)) with (S depth + length path)
      by (simpl; lia).
    destruct a as [k|i]; cbn [findNodeAtLocation editAt] in H |- *.
    + destruct root; try discriminate.
      destruct (findMember k members) as [child|]; [|discriminate].
      exact (IH _ _ _ H).
    + destruct root; try discriminate.
      destruct (findItem i items) as [child|]; [|discriminate].
      exact (IH _ _ _ H).
Qed.

Lemma applyEdits_single (text : jsstring) e :
  applyEdits text [e] = applyEdit text e.
Proof. reflexivity. Qed.

(** On a document that parses, [modify] on a path that resolves is the
    replacement of the resolved node. *)
Lemma modify_resolved (text : jsstring) root path n v fmt :
  parseTree text = Some root ->
  findNodeAtLocation root path = Some n ->
  modify text path v fmt
  = Edits [{| edOffset := nodeOffset n; edLength := nodeLength n;
              edContent := stringify fmt (length path) v |}].
Proof.
  intros Hp Hf. unfold modify.
  destruct (trim text) as [|c r] eqn:Et.
  - unfold parseTree in Hp. rewrite parseDocument_blank in Hp by exact Et.
    discriminate.
  - rewrite Hp. rewrite (editAt_resolved fmt v path root 0 n Hf). reflexivity.
Qed.

(** * Trivia *)

Section TriviaFacts.

Variable opts : parseOptions.

Lemma skipLine_spec (rest : jsstring) pos :
  exists body,
    rest = body ++ fst (skipLine rest pos)
    /\ snd (skipLine rest pos) = pos + length body
    /\ forallb (fun c => negb (isNewline c)) body = true
    /\ match fst (skipLine rest pos) with
       | [] => True
       | c :: _ => isNewline c = true
       end.
Proof.
  revert pos. induction rest as [|c t IH]; intros pos.
  - exists []. simpl. repeat split. lia.
  - cbn [skipLine]. fold (isNewline c). destruct (isNewline c) eqn:E.
    + exists []. simpl. repeat split; [lia | exact E].
    + destruct (IH (S pos)) as (body & H1 & H2 & H3 & H4).
      exists (c :: body). cbn [app length forallb]. rewrite E.
      split; [f_equal; exact H1|]. split; [lia|]. split; assumption.
Qed.

Lemma skipLine_length (rest : jsstring) pos :
  length (fst (skipLine rest pos)) <= length rest.
Proof.
  destruct (skipLine_spec rest pos) as (body & H & _).
  rewrite H at 2. rewrite length_app. lia.
Qed.

(** A line comment body runs to the first line end. *)
Lemma skipLine_body (body rest : jsstring) pos :
  forallb (fun c => negb (isNewline c)) body = true ->
  match rest with [] => True | c :: _ => isNewline c = true end ->
  skipLine (body ++ rest) pos = (rest, pos + length body).
Proof.
  revert pos. induction body as [|c body IH]; intros pos Hb Hr.
  - simpl. destruct rest as [|c t]; simpl.
    + f_equal. lia.
    + fold (isNewline c). rewrite Hr. f_equal. lia.
  - cbn [forallb] in Hb. apply andb_true_iff in Hb. destruct Hb as [Hc Hb].
    cbn [app skipLine]. fold (isNewline c).
    apply negb_true_iff in Hc. rewrite Hc.
    rewrite IH by assumption. f_equal. simpl. lia.
Qed.

Lemma skipBlock_spec (rest : jsstring) :
  forall pos r p,
    skipBlock rest pos = Some (r, p) ->
    exists body,
      rest = body ++ STAR :: SLASH :: r /\ p = pos + length body + 2
      /\ forall rest' pos',
          skipBlock (body ++ STAR :: SLASH :: rest') pos'
          = Some (rest', pos' + length body + 2).
Proof.
  induction rest as [|c t IH]; intros pos r p H; [discriminate|].
  cbn [skipBlock] in H. destruct t as [|d t']; [discriminate|].
  destruct (N.eqb c STAR && N.eqb d SLASH) eqn:E.
  - injection H as <- <-. apply andb_true_iff in E. destruct E as [Ec Ed].
    apply N.eqb_eq in Ec, Ed. subst c d.
    exists []. simpl. split; [reflexivity|]. split; [lia|].
    intros rest' pos'. cbn. f_equal. f_equal. lia.
  - destruct (IH _ _ _ H) as (body & Ht & Hp & Hext).
    exists (c :: body). cbn [app length]. split; [f_equal; exact Ht|].
    split; [lia|]. intros rest' pos'. cbn [skipBlock].
    assert (Hd : exists d0 u, body ++ STAR :: SLASH :: rest' = d0 :: u
                              /\ (N.eqb c STAR && N.eqb d0 SLASH) = false).
    { destruct body as [|b body'].
      - simpl in Ht. injection Ht as Hd _. subst d.
        exists STAR, (SLASH :: rest'). split; [reflexivity|exact E].
      - simpl in Ht. injection Ht as Hd _. subst d.
        exists b, (body' ++ STAR :: SLASH :: rest'). split; [reflexivity|exact E]. }
    destruct Hd as (d0 & u & Hu & Hcd).
    rewrite Hu, Hcd, <- Hu, Hext. f_equal. f_equal. lia.
Qed.

Lemma skipBlock_length (rest : jsstring) pos r p :
  skipBlock rest pos = Some (r, p) -> length r < length rest.
Proof.
  intros H. destruct (skipBlock_spec rest pos r p H) as (body & -> & _).
  rewrite length_app. simpl. lia.
Qed.

(** Beyond the length of the text the fuel of [skipTrivia] does not
    matter. *)
Lemma skipTrivia_fuel f1 :
  forall f2 (rest : jsstring) pos,
    length rest < f1 -> length rest < f2 ->
    skipTrivia opts f1 rest pos = skipTrivia opts f2 rest pos.
Proof.
  induction f1 as [|f1 IH]; intros f2 rest pos H1 H2; [lia|].
  destruct f2 as [|f2]; [lia|].
  destruct rest as [|c t]; [reflexivity|].
  cbn [skipTrivia]. cbn [length] in H1, H2.
  destruct (isJsonWhiteSpace c); [apply IH; lia|].
  destruct (allowComments opts && N.eqb c SLASH); [|reflexivity].
  destruct t as [|d t']; [reflexivity|].
  destruct (N.eqb d SLASH).
  - pose proof (skipLine_length t' (pos + 2)) as Hl.
    destruct (skipLine t' (pos + 2)) as [r p]. simpl in Hl, H1, H2.
    apply IH; lia.
  - destruct (N.eqb d STAR); [|reflexivity].
    destruct (skipBlock t' (pos + 2)) as [[r p]|] eqn:E; [|reflexivity].
    apply skipBlock_length in E. simpl in H1, H2. apply IH; lia.
Qed.

Lemma trivia_fuel f (rest : jsstring) pos :
  length rest < f -> skipTrivia opts f rest pos = trivia opts rest pos.
Proof. intros H. unfold trivia. apply skipTrivia_fuel; lia. Qed.

Lemma skipTrivia_ws_step f c (t : jsstring) pos :
  isJsonWhiteSpace c = true ->
  skipTrivia opts (S f) (c :: t) pos = skipTrivia opts f t (S pos).
Proof. intros H. cbn [skipTrivia]. rewrite H. reflexivity. Qed.

Lemma skipTrivia_line_step f (t : jsstring) pos :
  allowComments opts = true ->
  skipTrivia opts (S f) (SLASH :: SLASH :: t) pos
  = skipTrivia opts f (fst (skipLine t (pos + 2))) (snd (skipLine t (pos + 2))).
Proof.
  intros H. cbn [skipTrivia]. rewrite H.
  change (isJsonWhiteSpace SLASH) with false. cbv iota.
  change (true && N.eqb SLASH SLASH) with true. cbv iota.
  change (N.eqb SLASH SLASH) with true. cbv iota.
  destruct (skipLine t (pos + 2)). reflexivity.
Qed.

Lemma skipTrivia_block_step f (t : jsstring) pos :
  allowComments opts = true ->
  skipTrivia opts (S f) (SLASH :: STAR :: t) pos
  = match skipBlock t (pos + 2) with
    | Some (r, p) => skipTrivia opts f r p
    | None => None
    end.
Proof.
  intros H. cbn [skipTrivia]. rewrite H.
  change (isJsonWhiteSpace SLASH) with false. cbv iota.
  change (true && N.eqb SLASH SLASH) with true. cbv iota.
  change (N.eqb STAR SLASH) with false. cbv iota.
  change (N.eqb STAR STAR) with true. cbv iota. reflexivity.
Qed.

Lemma Trivia_nil : Trivia opts [].
Proof. intros rest pos. simpl. rewrite Nat.add_0_r. reflexivity. Qed.

Lemma Trivia_app (a b : jsstring) :
  Trivia opts a -> Trivia opts b -> Trivia opts (a ++ b).
Proof.
  intros Ha Hb rest pos. rewrite <- app_assoc, Ha, Hb, length_app.
  f_equal. lia.
Qed.

Lemma Trivia_ws c : isJsonWhiteSpace c = true -> Trivia opts [c].
Proof.
  intros Hc rest pos. simpl app. unfold trivia at 1.
  cbn [length]. rewrite skipTrivia_ws_step by exact Hc.
  rewrite trivia_fuel by lia. f_equal. simpl. lia.
Qed.

Lemma Trivia_all_ws (w : jsstring) :
  forallb isJsonWhiteSpace w = true -> Trivia opts w.
Proof.
  induction w as [|c w IH]; intros H; [apply Trivia_nil|].
  simpl in H. apply andb_true_iff in H. destruct H as [Hc Hw].
  apply (Trivia_app [c] w); [apply Trivia_ws; exact Hc | apply IH; exact Hw].
Qed.

Lemma tokenStart_stopsAt c r : tokenStart c = true -> stopsAt opts c r.
Proof.
  unfold tokenStart. intros H pos. apply andb_true_iff in H.
  destruct H as [Hw Hs]. apply negb_true_iff in Hw, Hs.
  unfold trivia. cbn [length skipTrivia]. rewrite Hw, Hs, andb_false_r.
  reflexivity.
Qed.

Lemma Trivia_then (tr : jsstring) c r pos :
  Trivia opts tr -> tokenStart c = true ->
  trivia opts (tr ++ c :: r) pos = Some (c :: r, pos + length tr).
Proof.
  intros Ht Hc. rewrite Ht. apply tokenStart_stopsAt. exact Hc.
Qed.

(** What [skipTrivia] skips before the unit it stops at is trivia. *)
Lemma skipTrivia_restr f :
  forall (rest0 : jsstring) pos c r p,
    length rest0 < f ->
    skipTrivia opts f rest0 pos = Some (c :: r, p) ->
    exists tr,
      rest0 = tr ++ c :: r /\ p = pos + length tr /\ Trivia opts tr
      /\ isJsonWhiteSpace c = false.
Proof.
  induction f as [|f IH]; intros rest0 pos c r p Hf H; [lia|].
  destruct rest0 as [|x t]; [discriminate|].
  cbn [skipTrivia] in H. cbn [length] in Hf.
  destruct (isJsonWhiteSpace x) eqn:Hx.
  { destruct (IH t (S pos) c r p ltac:(lia) H) as (tr & -> & -> & Htr & Hc).
    exists (x :: tr). cbn [app length]. split; [reflexivity|].
    split; [lia|]. split; [|exact Hc].
    apply (Trivia_app [x] tr); [apply Trivia_ws; exact Hx | exact Htr]. }
  destruct (allowComments opts && N.eqb x SLASH) eqn:Hcs.
  2:{ injection H as <- <- <-. exists []. simpl.
      split; [reflexivity|]. split; [lia|]. split; [apply Trivia_nil|exact Hx]. }
  apply andb_true_iff in Hcs. destruct Hcs as [Hallow Hsl].
  apply N.eqb_eq in Hsl. subst x.
  destruct t as [|d t'].
  { injection H as <- <- <-. exists []. simpl.
    split; [reflexivity|]. split; [lia|]. split; [apply Trivia_nil|exact Hx]. }
  destruct (N.eqb d SLASH) eqn:Hd.
  - apply N.eqb_eq in Hd. subst d.
    destruct (skipLine_spec t' (pos + 2)) as (body & Ht' & Hp & Hbody & Hhead).
    pose proof (skipLine_length t' (pos + 2)) as Hlen.
    destruct (skipLine t' (pos + 2)) as [rl pl]. simpl in Ht', Hp, Hhead, Hlen.
    cbn [length] in Hf.
    destruct (IH rl pl c r p ltac:(lia) H) as (tr & -> & -> & Htr & Hc).
    assert (Hnl : match tr ++ c :: r with
                  | [] => True | y :: _ => isNewline y = true end -> 
                  exists nl tr', tr = nl :: tr' /\ isNewline nl = true).
    { destruct tr as [|y tr'].
      - simpl. intros Hy. exfalso.
        unfold isNewline in Hy. unfold isJsonWhiteSpace in Hc.
        apply orb_true_iff in Hy. destruct Hy as [Hy|Hy]; rewrite Hy in Hc;
          rewrite ?orb_true_r in Hc; simpl in Hc; discriminate.
      - simpl. intros Hy. exists y, tr'. split; [reflexivity | exact Hy]. }
    destruct (Hnl Hhead) as (nl & tr' & -> & Hnlc).
    exists (SLASH :: SLASH :: body ++ nl :: tr').
    split; [cbn [app]; rewrite Ht', <- app_assoc; reflexivity|].
    split; [cbn [length]; rewrite length_app; cbn [length]; subst pl;
            cbn [length]; lia|].
    split; [|exact Hc].
    intros rest pos0. cbn [app]. unfold trivia at 1. cbn [length].
    rewrite skipTrivia_line_step by exact Hallow.
    rewrite <- app_assoc. cbn [app].
    rewrite (skipLine_body body (nl :: tr' ++ rest) (pos0 + 2) Hbody Hnlc).
    cbn [fst snd].
    rewrite trivia_fuel
      by (rewrite !length_app; cbn [length]; rewrite !length_app; lia).
    change (nl :: tr' ++ rest) with ((nl :: tr') ++ rest).
    rewrite Htr. f_equal. cbn [length]. rewrite length_app. cbn [length]. lia.
  - destruct (N.eqb d STAR) eqn:Hst.
    2:{ injection H as <- <- <-. exists []. simpl.
        split; [reflexivity|]. split; [lia|].
        split; [apply Trivia_nil|exact Hx]. }
    apply N.eqb_eq in Hst. subst d.
    destruct (skipBlock t' (pos + 2)) as [[rb pb]|] eqn:Eb; [|discriminate].
    pose proof (skipBlock_length _ _ _ _ Eb) as Hlen.
    destruct (skipBlock_spec _ _ _ _ Eb) as (body & -> & -> & Hext).
    cbn [length] in Hf.
    destruct (IH rb _ c r p ltac:(lia) H) as (tr & -> & -> & Htr & Hc).
    exists (SLASH :: STAR :: body ++ STAR :: SLASH :: tr).
    split; [cbn [app]; rewrite <- app_assoc; reflexivity|].
    split; [cbn [length]; rewrite length_app; cbn [length]; lia|].
    split; [|exact Hc].
    intros rest pos0. cbn [app]. unfold trivia at 1. cbn [length].
    rewrite skipTrivia_block_step by exact Hallow.
    rewrite <- app_assoc. cbn [app]. rewrite Hext.
    rewrite trivia_fuel
      by (rewrite !length_app; cbn [length]; rewrite !length_app; lia).
    rewrite Htr. f_equal. cbn [length]. rewrite length_app. cbn [length]. lia.
Qed.

Lemma trivia_restr (rest0 : jsstring) pos c r p :
  trivia opts rest0 pos = Some (c :: r, p) ->
  exists tr,
    rest0 = tr ++ c :: r /\ p = pos + length tr /\ Trivia opts tr
    /\ isJsonWhiteSpace c = false.
Proof. unfold trivia. apply skipTrivia_restr. lia. Qed.

End TriviaFacts.

(** * String and number literals *)

(** What [parseStringBody] reads is a body that it reads the same way
    before any other text and at any position. *)
Lemma parseStringBody_split n :
  forall (rest0 : jsstring) pos acc s r p,
    length rest0 <= n ->
    parseStringBody rest0 pos acc = Some (s, r, p) ->
    exists body,
      rest0 = body ++ r /\ p = pos + length body
      /\ forall r' pos',
          parseStringBody (body ++ r') pos' acc
          = Some (s, r', pos' + length body).
Proof.
  induction n as [|n IH]; intros rest0 pos acc s r p Hn H.
  { destruct rest0; [discriminate | simpl in Hn; lia]. }
  destruct rest0 as [|c t]; [discriminate|].
  cbn [parseStringBody] in H. cbn [length] in Hn.
  destruct (N.eqb c DQUOTE) eqn:Eq.
  { injection H as <- <- <-. exists [c]. cbn [app length].
    split; [reflexivity|]. split; [lia|].
    intros r' pos'. cbn [parseStringBody]. rewrite Eq. f_equal. f_equal. lia. }
  destruct (N.eqb c BACKSLASH) eqn:Eb.
  - destruct t as [|e t2]; [discriminate|].
    destruct (N.eqb e 117) eqn:Eu.
    + destruct t2 as [|h1 [|h2 [|h3 [|h4 t3]]]]; try discriminate.
      destruct (hex4 h1 h2 h3 h4) as [u|] eqn:Eh; [|discriminate].
      cbn [length] in Hn.
      destruct (IH t3 _ _ _ _ _ ltac:(lia) H) as (body & -> & -> & Hext).
      exists (c :: e :: h1 :: h2 :: h3 :: h4 :: body). cbn [app length].
      split; [reflexivity|]. split; [lia|].
      intros r' pos'. cbn [parseStringBody]. rewrite Eq, Eb, Eu, Eh, Hext.
      f_equal. f_equal. lia.
    + destruct (escapeChar e) as [x|] eqn:Ee; [|discriminate].
      cbn [length] in Hn.
      destruct (IH t2 _ _ _ _ _ ltac:(lia) H) as (body & -> & -> & Hext).
      exists (c :: e :: body). cbn [app length].
      split; [reflexivity|]. split; [lia|].
      intros r' pos'. cbn [parseStringBody]. rewrite Eq, Eb, Eu, Ee, Hext.
      f_equal. f_equal. lia.
  - destruct (c <? 32)%N eqn:Ec; [discriminate|].
    destruct (IH t _ _ _ _ _ ltac:(lia) H) as (body & -> & -> & Hext).
    exists (c :: body). cbn [app length].
    split; [reflexivity|]. split; [lia|].
    intros r' pos'. cbn [parseStringBody]. rewrite Eq, Eb, Ec, Hext.
    f_equal. f_equal. lia.
Qed.

Lemma parseStringBody_restr (rest0 : jsstring) pos s r p :
  parseStringBody rest0 pos [] = Some (s, r, p) ->
  exists body,
    rest0 = body ++ r /\ p = pos + length body
    /\ parseStringBody body 0 [] = Some (s, [], length body).
Proof.
  intros H.
  destruct (parseStringBody_split (length rest0) rest0 pos [] s r p
              (le_n _) H) as (body & H1 & H2 & Hext).
  exists body. split; [exact H1|]. split; [exact H2|].
  specialize (Hext [] 0). rewrite app_nil_r in Hext. exact Hext.
Qed.

Lemma parseStringBody_ext (body : jsstring) s r pos :
  parseStringBody body 0 [] = Some (s, [], length body) ->
  parseStringBody (body ++ r) pos [] = Some (s, r, pos + length body).
Proof.
  intros H.
  destruct (parseStringBody_split (length body) body 0 [] s [] _
              (le_n _) H) as (body' & H1 & H2 & Hext).
  rewrite app_nil_r in H1. subst body'. apply Hext.
Qed.

Lemma spanDigits_spec (rest : jsstring) :
  rest = fst (spanDigits rest) ++ snd (spanDigits rest)
  /\ forallb isDigit (fst (spanDigits rest)) = true
  /\ headIs isDigit (snd (spanDigits rest)) = false.
Proof.
  induction rest as [|c t IH]; [repeat split|].
  cbn [spanDigits]. destruct (isDigit c) eqn:E.
  - destruct (spanDigits t) as [d r]. cbn [fst snd] in IH |- *.
    destruct IH as (H1 & H2 & H3).
    split; [cbn [app]; f_equal; exact H1|].
    split; [cbn [forallb]; rewrite E; exact H2 | exact H3].
  - cbn [fst snd app forallb headIs]. repeat split. exact E.
Qed.

Lemma spanDigits_app (d r : jsstring) :
  forallb isDigit d = true -> headIs isDigit r = false ->
  spanDigits (d ++ r) = (d, r).
Proof.
  intros Hd Hr. induction d as [|c d IH].
  - cbn [app]. destruct r as [|x r']; [reflexivity|].
    cbn [headIs] in Hr. cbn [spanDigits]. rewrite Hr. reflexivity.
  - cbn [forallb] in Hd. apply andb_true_iff in Hd. destruct Hd as [Hc Hd].
    cbn [app spanDigits]. rewrite Hc, (IH Hd). reflexivity.
Qed.

(** What [fracPart] reads: nothing, before a text that starts no
    fraction, or a dot and digits, before a text that starts no digit. *)
Lemma fracPart_split (r1 : jsstring) fp r2 :
  fracPart r1 = Some (fp, r2) ->
  exists ft,
    r1 = ft ++ r2
    /\ (ft = [] \/ headIs isDot ft = true)
    /\ forall r',
        headIs isDigit r' = false ->
        (ft = [] -> headIs isDot r' = false) ->
        fracPart (ft ++ r') = Some (fp, r').
Proof.
  assert (Hnone : forall r' : jsstring,
             headIs isDot r' = false -> fracPart r' = Some ([], r')).
  { intros r' Hdot. unfold fracPart. destruct r' as [|x r'']; [reflexivity|].
    cbn [headIs] in Hdot. unfold isDot in Hdot. rewrite Hdot. reflexivity. }
  unfold fracPart. destruct r1 as [|c t].
  - intros [= <- <-]. exists []. split; [reflexivity|]. split; [left; reflexivity|].
    intros r' _ Hdot. apply Hnone. apply Hdot. reflexivity.
  - destruct (N.eqb c DOT) eqn:E.
    + pose proof (spanDigits_spec t) as (H1 & H2 & H3).
      destruct (spanDigits t) as [d r]. cbn [fst snd] in H1, H2, H3.
      destruct d as [|d0 d']; [discriminate|].
      intros [= <- <-]. exists (c :: d0 :: d'). subst t.
      split; [reflexivity|]. split; [right; exact E|].
      intros r' Hdig _. cbn [app]. unfold fracPart. rewrite E.
      change (d0 :: d' ++ r') with ((d0 :: d') ++ r').
      rewrite (spanDigits_app (d0 :: d') r' H2 Hdig). reflexivity.
    + intros [= <- <-]. exists []. split; [reflexivity|].
      split; [left; reflexivity|].
      intros r' _ Hdot. apply Hnone. apply Hdot. reflexivity.
Qed.

Lemma expPart_split (r2 : jsstring) e r3 :
  expPart r2 = Some (e, r3) ->
  exists et,
    r2 = et ++ r3
    /\ (et = [] \/ headIs isExpMark et = true)
    /\ forall r',
        headIs isDigit r' = false ->
        (et = [] -> headIs isExpMark r' = false) ->
        expPart (et ++ r') = Some (e, r').
Proof.
  assert (Hnone : forall r' : jsstring,
             headIs isExpMark r' = false -> expPart r' = Some (0%Z, r')).
  { intros r' Hm. unfold expPart. destruct r' as [|x r'']; [reflexivity|].
    cbn [headIs] in Hm. unfold isExpMark in Hm. rewrite Hm. reflexivity. }
  unfold expPart. destruct r2 as [|c t].
  { intros [= <- <-]. exists []. split; [reflexivity|].
    split; [left; reflexivity|].
    intros r' _ Hm. apply Hnone. apply Hm. reflexivity. }
  fold (isExpMark c). destruct (isExpMark c) eqn:E.
  2:{ intros [= <- <-]. exists []. split; [reflexivity|].
      split; [left; reflexivity|].
      intros r' _ Hm. apply Hnone. apply Hm. reflexivity. }
  assert (Hsome : forall (sg ep r' : jsstring) eneg,
             forallb isDigit ep = true -> ep <> [] ->
             headIs isDigit r' = false ->
             match sg ++ ep ++ r' with
             | s :: u => if N.eqb s MINUS then (true, u)
                         else if N.eqb s PLUS then (false, u)
                         else (false, sg ++ ep ++ r')
             | [] => (false, sg ++ ep ++ r')
             end = (eneg, ep ++ r') ->
             expPart (c :: sg ++ ep ++ r')
             = Some (if eneg then (- digitsValue ep)%Z else digitsValue ep, r')).
  { intros sg ep r' eneg Hd Hne Hr Hsg. unfold expPart.
    fold (isExpMark c). rewrite E, Hsg, (spanDigits_app ep r' Hd Hr).
    destruct ep; [congruence | reflexivity]. }
  destruct t as [|s u].
  { cbn [spanDigits]. discriminate. }
  destruct (N.eqb s MINUS) eqn:Em; [|destruct (N.eqb s PLUS) eqn:Ep].
  - pose proof (spanDigits_spec u) as (H1 & H2 & H3).
    destruct (spanDigits u) as [ep r]. cbn [fst snd] in H1, H2, H3.
    destruct ep as [|d0 d'] eqn:Eep; [discriminate|]. rewrite <- Eep in *.
    intros [= <- <-]. exists (c :: s :: ep). subst u.
    split; [reflexivity|]. split; [right; exact E|].
    intros r' Hdig _.
    apply (Hsome [s] ep r' true H2 ltac:(subst ep; discriminate) Hdig).
    cbn [app]. rewrite Em. reflexivity.
  - pose proof (spanDigits_spec u) as (H1 & H2 & H3).
    destruct (spanDigits u) as [ep r]. cbn [fst snd] in H1, H2, H3.
    destruct ep as [|d0 d'] eqn:Eep; [discriminate|]. rewrite <- Eep in *.
    intros [= <- <-]. exists (c :: s :: ep). subst u.
    split; [reflexivity|]. split; [right; exact E|].
    intros r' Hdig _.
    apply (Hsome [s] ep r' false H2 ltac:(subst ep; discriminate) Hdig).
    cbn [app]. rewrite Em, Ep. reflexivity.
  - pose proof (spanDigits_spec (s :: u)) as (H1 & H2 & H3).
    destruct (spanDigits (s :: u)) as [ep r]. cbn [fst snd] in H1, H2, H3.
    destruct ep as [|d0 d'] eqn:Eep; [discriminate|]. rewrite <- Eep in *.
    intros [= <- <-]. exists (c :: ep). rewrite H1.
    split; [reflexivity|]. split; [right; exact E|].
    intros r' Hdig _.
    apply (Hsome [] ep r' false H2 ltac:(subst ep; discriminate) Hdig).
    cbn [app]. subst ep. cbn [app] in H1 |- *. injection H1 as <- _.
    rewrite Em, Ep. reflexivity.
Qed.

Lemma numberEnd_heads (r : jsstring) :
  numberEnd r = true ->
  headIs isDigit r = false /\ headIs isDot r = false
  /\ headIs isExpMark r = false.
Proof.
  destruct r as [|c r']; [repeat split|].
  unfold numberEnd. cbn [headIs]. unfold isDot, isExpMark.
  intros H. apply negb_true_iff in H.
  repeat (apply orb_false_iff in H; destruct H as [H ?]).
  repeat split; try assumption. apply orb_false_iff. split; assumption.
Qed.

Lemma headIs_app (p : N -> bool) (a b : jsstring) :
  headIs p a = true -> headIs p (a ++ b) = true.
Proof. destruct a; [discriminate | intros H; exact H]. Qed.

Lemma dot_not_digit (a : jsstring) :
  headIs isDot a = true -> headIs isDigit a = false.
Proof.
  destruct a as [|c a']; [reflexivity|]. cbn [headIs]. unfold isDot.
  intros H. apply N.eqb_eq in H. subst c. reflexivity.
Qed.

Lemma expMark_not_digit_dot (a : jsstring) :
  headIs isExpMark a = true ->
  headIs isDigit a = false /\ headIs isDot a = false.
Proof.
  destruct a as [|c a']; [discriminate|]. cbn [headIs]. unfold isExpMark.
  intros H. apply orb_true_iff in H.
  destruct H as [H|H]; apply N.eqb_eq in H; subst c; split; reflexivity.
Qed.

(** What [parseNumber] reads is a literal that it reads the same way
    before any text at which a number ends. *)
Lemma parseNumber_split (rest0 : jsstring) x r :
  parseNumber rest0 = Some (x, r) ->
  exists t,
    rest0 = t ++ r
    /\ (headIs isDigit t = true \/ headIs (N.eqb MINUS) t = true)
    /\ forall r',
        numberEnd r' = true -> parseNumber (t ++ r') = Some (x, r').
Proof.
  intros H.
  assert (Hcore : forall (r0 : jsstring) neg,
             match spanDigits r0 with
             | (ip, r1) =>
                 match ip with
                 | [] => None
                 | d :: ds =>
                     if N.eqb d ZERO
                        && negb (match ds with [] => true | _ => false end)
                     then None
                     else
                       match fracPart r1 with
                       | None => None
                       | Some (fp, r2) =>
                           match expPart r2 with
                           | None => None
                           | Some (e, r3) =>
                               Some (mkNum (if neg : bool
                                            then (- digitsValue (ip ++ fp))%Z
                                            else digitsValue (ip ++ fp))
                                           (e - Z.of_nat (length fp)), r3)
                           end
                       end
                 end
             end = Some (x, r) ->
             exists t,
               r0 = t ++ r /\ headIs isDigit t = true
               /\ forall r',
                   numberEnd r' = true ->
                   match spanDigits (t ++ r') with
                   | (ip, r1) =>
                       match ip with
                       | [] => None
                       | d :: ds =>
                           if N.eqb d ZERO
                              && negb (match ds with [] => true | _ => false end)
                           then None
                           else
                             match fracPart r1 with
                             | None => None
                             | Some (fp, r2) =>
                                 match expPart r2 with
                                 | None => None
                                 | Some (e, r3) =>
                                     Some (mkNum (if neg : bool
                                                  then (- digitsValue (ip ++ fp))%Z
                                                  else digitsValue (ip ++ fp))
                                                 (e - Z.of_nat (length fp)), r3)
                                 end
                             end
                       end
                   end = Some (x, r')).
  { intros r0 neg Hc.
    pose proof (spanDigits_spec r0) as (H1 & H2 & H3).
    destruct (spanDigits r0) as [ip r1]. cbn [fst snd] in H1, H2, H3.
    destruct ip as [|d ds]; [discriminate|].
    destruct (N.eqb d ZERO && negb (match ds with [] => true | _ => false end))
      eqn:Ez; [discriminate|].
    destruct (fracPart r1) as [[fp r2]|] eqn:Ef; [|discriminate].
    destruct (expPart r2) as [[e r3]|] eqn:Ee; [|discriminate].
    injection Hc as <- <-.
    destruct (fracPart_split _ _ _ Ef) as (ft & Hr1 & Hft & Hfext).
    destruct (expPart_split _ _ _ Ee) as (et & Hr2 & Het & Heext).
    exists ((d :: ds) ++ ft ++ et). subst r1 r2.
    split; [rewrite H1, <- !app_assoc; reflexivity|].
    split; [cbn [app headIs]; cbn [forallb] in H2;
            apply andb_true_iff in H2; apply H2|].
    intros r' Hend. destruct (numberEnd_heads r' Hend) as (Hd & Hdot & Hm).
    assert (Het' : headIs isDigit (et ++ r') = false
                   /\ headIs isDot (et ++ r') = false).
    { destruct Het as [-> | Het]; [split; assumption|].
      apply expMark_not_digit_dot. apply headIs_app. exact Het. }
    assert (Hft' : headIs isDigit (ft ++ et ++ r') = false).
    { destruct Hft as [-> | Hft]; [apply Het'|].
      apply dot_not_digit. apply headIs_app. exact Hft. }
    rewrite <- !app_assoc.
    rewrite (spanDigits_app (d :: ds) (ft ++ et ++ r') H2 Hft').
    rewrite Ez.
    rewrite (Hfext (et ++ r') (proj1 Het') (fun _ => proj2 Het')).
    rewrite (Heext r' Hd (fun _ => Hm)). reflexivity. }
  unfold parseNumber in H. destruct rest0 as [|c t0].
  { cbn [spanDigits] in H. discriminate. }
  destruct (N.eqb c MINUS) eqn:Em.
  - destruct (Hcore t0 true H) as (t & -> & Hhead & Hext).
    exists (c :: t). split; [reflexivity|].
    split; [right; cbn [headIs]; rewrite N.eqb_sym; exact Em|].
    intros r' Hend. unfold parseNumber. cbn [app]. rewrite Em.
    apply Hext. exact Hend.
  - destruct (Hcore (c :: t0) false H) as (t & Ht & Hhead & Hext).
    exists t. split; [exact Ht|]. split; [left; exact Hhead|].
    intros r' Hend. unfold parseNumber.
    destruct t as [|c' t']; [discriminate|].
    cbn [app] in Ht |- *. injection Ht as <- _. rewrite Em.
    apply (Hext r' Hend).
Qed.

Lemma parseNumber_restr (rest0 : jsstring) x r :
  parseNumber rest0 = Some (x, r) ->
  exists t, rest0 = t ++ r /\ parseNumber t = Some (x, []).
Proof.
  intros H. destruct (parseNumber_split _ _ _ H) as (t & Ht & _ & Hext).
  exists t. split; [exact Ht|].
  specialize (Hext [] eq_refl). rewrite app_nil_r in Hext. exact Hext.
Qed.

Lemma parseNumber_ext (t r' : jsstring) x :
  parseNumber t = Some (x, []) -> numberEnd r' = true ->
  parseNumber (t ++ r') = Some (x, r').
Proof.
  intros H Hend. destruct (parseNumber_split _ _ _ H) as (t0 & Ht & _ & Hext).
  rewrite app_nil_r in Ht. subst t0. apply Hext. exact Hend.
Qed.

Lemma parseNumber_head (t : jsstring) x r :
  parseNumber t = Some (x, r) ->
  headIs isDigit t = true \/ headIs (N.eqb MINUS) t = true.
Proof.
  intros H. destruct (parseNumber_split _ _ _ H) as (t0 & -> & Hh & _).
  destruct Hh as [Hh|Hh]; [left | right]; apply headIs_app; exact Hh.
Qed.

(** * The parser and the grammar *)

Lemma shiftNode_0 (n : node) : shiftNode 0 n = n.
Proof.
  revert n. fix IH 1. intros [o l|o l b|o l x|o l s|o l items|o l members];
    cbn [shiftNode Nat.add]; try reflexivity.
  - f_equal. induction items as [|i items IHl]; [reflexivity|].
    cbn [List.map]. rewrite IH, IHl. reflexivity.
  - f_equal. induction members as [|[k v] members IHl]; [reflexivity|].
    cbn [List.map fst snd]. rewrite IH, IHl. reflexivity.
Qed.

Lemma shiftNode_add a b (n : node) :
  shiftNode a (shiftNode b n) = shiftNode (a + b) n.
Proof.
  revert n. fix IH 1. intros [o l|o l c|o l x|o l s|o l items|o l members];
    cbn [shiftNode]; try (f_equal; lia).
  - f_equal; [lia|]. induction items as [|i items IHl]; [reflexivity|].
    cbn [List.map]. rewrite IH, IHl. reflexivity.
  - f_equal; [lia|]. induction members as [|[k v] members IHl]; [reflexivity|].
    cbn [List.map fst snd]. rewrite IH, IHl. reflexivity.
Qed.

Lemma map_shiftNode_add a b (ns : list node) :
  List.map (shiftNode a) (List.map (shiftNode b) ns)
  = List.map (shiftNode (a + b)) ns.
Proof.
  rewrite map_map. apply map_ext. intros n. apply shiftNode_add.
Qed.

Lemma map_shiftMember_add a b (ms : list (jsstring * node)) :
  List.map (shiftMember a) (List.map (shiftMember b) ms)
  = List.map (shiftMember (a + b)) ms.
Proof.
  rewrite map_map. apply map_ext. intros [k v]. unfold shiftMember.
  cbn [fst snd]. rewrite shiftNode_add. reflexivity.
Qed.

Lemma shiftNode_object d o l (ms : list (jsstring * node)) :
  shiftNode d (NObject o l ms) = NObject (d + o) l (List.map (shiftMember d) ms).
Proof. reflexivity. Qed.

Lemma shiftNode_array d o l (ns : list node) :
  shiftNode d (NArray o l ns) = NArray (d + o) l (List.map (shiftNode d) ns).
Proof. reflexivity. Qed.

Lemma nodeOffset_shift d (n : node) :
  nodeOffset (shiftNode d n) = d + nodeOffset n.
Proof. destruct n; reflexivity. Qed.

Lemma nodeLength_shift d (n : node) :
  nodeLength (shiftNode d n) = nodeLength n.
Proof. destruct n; reflexivity. Qed.

Lemma isPrefix_app (p s : jsstring) :
  isPrefix p s = true -> s = p ++ skipn (length p) s.
Proof.
  revert s. induction p as [|x p IH]; intros s H; [reflexivity|].
  destruct s as [|y s]; [discriminate|].
  cbn [isPrefix] in H. apply andb_true_iff in H. destruct H as [Hx Hp].
  apply N.eqb_eq in Hx. subst y. cbn [app length skipn]. f_equal.
  apply IH. exact Hp.
Qed.

(** Equal results up to arithmetic on the offsets. *)
Ltac same := repeat (f_equal; try lia).

Section GrammarFacts.

Variable opts : parseOptions.

(** Trivia starts with white space or a slash. *)
Lemma Trivia_head (tr : jsstring) :
  Trivia opts tr -> headIs tokenStart tr = false.
Proof.
  intros H. destruct tr as [|x t]; [reflexivity|]. cbn [headIs].
  destruct (tokenStart x) eqn:E; [|reflexivity]. exfalso.
  specialize (H [] 0). rewrite app_nil_r in H.
  rewrite (tokenStart_stopsAt opts x t E 0) in H. discriminate.
Qed.

Lemma not_tokenStart_numberEnd (x : N) (t : jsstring) :
  tokenStart x = false -> numberEnd (x :: t) = true.
Proof.
  unfold tokenStart, numberEnd. intros H. apply andb_false_iff in H.
  destruct H as [H|H]; apply negb_false_iff in H.
  - unfold isJsonWhiteSpace in H.
    repeat (apply orb_true_iff in H; destruct H as [H|H]);
      apply N.eqb_eq in H; subst x; reflexivity.
  - apply N.eqb_eq in H. subst x. reflexivity.
Qed.

Lemma Trivia_numberEnd (tr : jsstring) c (rest : jsstring) :
  Trivia opts tr -> numberEnd (c :: rest) = true ->
  numberEnd (tr ++ c :: rest) = true.
Proof.
  intros Htr Hc. pose proof (Trivia_head tr Htr) as Hh.
  destruct tr as [|x t]; [exact Hc|].
  cbn [app]. apply not_tokenStart_numberEnd. exact Hh.
Qed.

Lemma Closer_numberEnd closing c (rest : jsstring) :
  numberEnd [closing] = true ->
  Closer opts closing c -> numberEnd (c ++ rest) = true.
Proof.
  intros Hcl [tr Htr | tr1 tr2 _ Htr1 Htr2]; rewrite <- app_assoc.
  - apply Trivia_numberEnd; [exact Htr|].
    unfold numberEnd in *. cbn [app]. exact Hcl.
  - apply Trivia_numberEnd; [exact Htr1 | reflexivity].
Qed.

Lemma Separator_numberEnd sp (rest : jsstring) :
  Separator opts sp -> numberEnd (sp ++ rest) = true.
Proof.
  intros [tr1 tr2 Htr1 Htr2]. rewrite <- app_assoc.
  apply Trivia_numberEnd; [exact Htr1 | reflexivity].
Qed.

Lemma Closer_length closing c : Closer opts closing c -> 1 <= length c.
Proof.
  intros [tr _ | tr1 tr2 _ _ _]; rewrite length_app; cbn [length];
    rewrite ?length_app; cbn [length]; lia.
Qed.

Lemma Separator_length sp : Separator opts sp -> 1 <= length sp.
Proof.
  intros [tr1 tr2 _ _]. rewrite length_app. cbn [length]. lia.
Qed.

Lemma Val_head (t : jsstring) n :
  Val opts t n -> headIs valueStart t = true.
Proof.
  intros H. destruct H as [ | | | t x Hn | | | | | ]; try reflexivity.
  apply parseNumber_head in Hn. destruct Hn as [Hn|Hn].
  - destruct t as [|c t']; [discriminate|]. cbn [headIs] in *.
    unfold isDigit in Hn. apply andb_true_iff in Hn. destruct Hn as [H1 H2].
    apply N.leb_le in H1, H2. unfold valueStart, tokenStart, isJsonWhiteSpace.
    unfold SPACE, TAB, LF, CR, SLASH, RBRACKET, RBRACE, COMMA.
    repeat match goal with
           | |- context [N.eqb c ?k] =>
               let E := fresh in
               destruct (N.eqb_spec c k) as [E|E]; [lia|]
           end.
    reflexivity.
  - destruct t as [|c t']; [discriminate|]. cbn [headIs] in *.
    apply N.eqb_eq in Hn. subst c. reflexivity.
Qed.

Lemma Val_nonempty (t : jsstring) n : Val opts t n -> 1 <= length t.
Proof.
  intros H. apply Val_head in H. destruct t; [discriminate|]. simpl. lia.
Qed.

Lemma valueStart_tokenStart c : valueStart c = true -> tokenStart c = true.
Proof.
  unfold valueStart. intros H.
  do 3 (apply andb_true_iff in H; destruct H as [H _]). exact H.
Qed.

Lemma Elems_head (t : jsstring) ns :
  Elems opts t ns -> headIs valueStart t = true.
Proof.
  intros H. destruct H as [t n c Hv _ | t n sp t' ns Hv _ _];
    apply Val_head in Hv; destruct t; try discriminate; exact Hv.
Qed.

Lemma Mems_head (t : jsstring) ms :
  Mems opts t ms -> headIs valueStart t = true.
Proof.
  intros H.
  destruct H as [kp k t n c [body k' tr0 tr1 _ _ _] _ _
                | kp k t n sp t' ms [body k' tr0 tr1 _ _ _] _ _ _];
    reflexivity.
Qed.

(** ** The steps of a container *)

Lemma openStep_closed closing (t r : jsstring) pos p :
  openStep opts closing t pos = Some (Closed r p) ->
  exists tr, t = tr ++ closing :: r /\ p = S (pos + length tr)
             /\ Trivia opts tr.
Proof.
  unfold openStep. destruct (trivia opts t pos) as [[[|c r0] p0]|] eqn:E;
    try discriminate.
  destruct (N.eqb c closing) eqn:Ec; [|discriminate].
  intros [= <- <-]. apply N.eqb_eq in Ec. subst c.
  destruct (trivia_restr opts _ _ _ _ _ E) as (tr & -> & -> & Htr & _).
  exists tr. repeat split. exact Htr.
Qed.

Lemma openStep_more closing (t r : jsstring) pos p :
  openStep opts closing t pos = Some (More r p) ->
  exists tr, t = tr ++ r /\ p = pos + length tr /\ Trivia opts tr.
Proof.
  unfold openStep. destruct (trivia opts t pos) as [[[|c r0] p0]|] eqn:E;
    try discriminate.
  destruct (N.eqb c closing) eqn:Ec; [discriminate|].
  intros [= <- <-].
  destruct (trivia_restr opts _ _ _ _ _ E) as (tr & -> & -> & Htr & _).
  exists tr. repeat split. exact Htr.
Qed.

Lemma openStep_empty closing (tr rest : jsstring) pos :
  Trivia opts tr -> tokenStart closing = true ->
  openStep opts closing (tr ++ closing :: rest) pos
  = Some (Closed rest (S (pos + length tr))).
Proof.
  intros Htr Hcl. unfold openStep. rewrite Trivia_then by assumption.
  rewrite N.eqb_refl. reflexivity.
Qed.

Lemma openStep_first closing (tr t : jsstring) pos :
  Trivia opts tr -> headIs valueStart t = true ->
  headIs (N.eqb closing) t = false ->
  openStep opts closing (tr ++ t) pos = Some (More t (pos + length tr)).
Proof.
  intros Htr Hv Hcl. destruct t as [|c t']; [discriminate|].
  cbn [headIs] in *. unfold openStep.
  rewrite Trivia_then by (try assumption; apply valueStart_tokenStart, Hv).
  rewrite N.eqb_sym, Hcl. reflexivity.
Qed.

Lemma tailStep_closed closing (r1 r : jsstring) p1 p :
  tailStep opts closing r1 p1 = Some (Closed r p) ->
  exists c, r1 = c ++ r /\ p = p1 + length c /\ Closer opts closing c.
Proof.
  unfold tailStep. destruct (trivia opts r1 p1) as [[[|c r0] p0]|] eqn:E;
    try discriminate.
  destruct (trivia_restr opts _ _ _ _ _ E) as (tr & -> & -> & Htr & _).
  destruct (N.eqb c closing) eqn:Ec.
  { intros [= <- <-]. apply N.eqb_eq in Ec. subst c.
    exists (tr ++ [closing]). rewrite <- app_assoc. split; [reflexivity|].
    split; [rewrite length_app; simpl; lia|]. constructor. exact Htr. }
  destruct (N.eqb c COMMA) eqn:Ecm; [|discriminate].
  apply N.eqb_eq in Ecm. subst c.
  destruct (trivia opts r0 (S (p1 + length tr))) as [[[|d r'] p']|] eqn:E2;
    try discriminate.
  destruct (trivia_restr opts _ _ _ _ _ E2) as (tr2 & -> & -> & Htr2 & _).
  destruct (N.eqb d closing) eqn:Ed; [|discriminate].
  destruct (allowTrailingComma opts) eqn:Ea; [|discriminate].
  intros [= <- <-]. apply N.eqb_eq in Ed. subst d.
  exists (tr ++ COMMA :: tr2 ++ [closing]).
  split; [rewrite <- app_assoc; cbn [app]; rewrite <- app_assoc; reflexivity|].
  split; [rewrite length_app; cbn [length]; rewrite length_app; simpl; lia|].
  constructor; assumption.
Qed.

Lemma tailStep_more closing (r1 r : jsstring) p1 p :
  tailStep opts closing r1 p1 = Some (More r p) ->
  exists sp, r1 = sp ++ r /\ p = p1 + length sp /\ Separator opts sp.
Proof.
  unfold tailStep. destruct (trivia opts r1 p1) as [[[|c r0] p0]|] eqn:E;
    try discriminate.
  destruct (trivia_restr opts _ _ _ _ _ E) as (tr & -> & -> & Htr & _).
  destruct (N.eqb c closing) eqn:Ec; [discriminate|].
  destruct (N.eqb c COMMA) eqn:Ecm; [|discriminate].
  apply N.eqb_eq in Ecm. subst c.
  destruct (trivia opts r0 (S (p1 + length tr))) as [[[|d r'] p']|] eqn:E2;
    try discriminate.
  destruct (trivia_restr opts _ _ _ _ _ E2) as (tr2 & -> & -> & Htr2 & _).
  destruct (N.eqb d closing) eqn:Ed.
  { destruct (allowTrailingComma opts); discriminate. }
  intros [= <- <-].
  exists (tr ++ COMMA :: tr2).
  split; [rewrite <- app_assoc; reflexivity|].
  split; [rewrite length_app; cbn [length]; lia|].
  constructor; assumption.
Qed.

Lemma tailStep_closer closing c (rest : jsstring) pos :
  tokenStart closing = true -> N.eqb closing COMMA = false ->
  Closer opts closing c ->
  tailStep opts closing (c ++ rest) pos = Some (Closed rest (pos + length c)).
Proof.
  intros Hts Hcm [tr Htr | tr1 tr2 Ha Htr1 Htr2]; unfold tailStep.
  - rewrite <- app_assoc. cbn [app]. rewrite Trivia_then by assumption.
    rewrite N.eqb_refl. f_equal. f_equal. rewrite length_app. simpl. lia.
  - rewrite <- app_assoc. cbn [app].
    rewrite Trivia_then by (try assumption; reflexivity).
    rewrite (N.eqb_sym COMMA closing), Hcm.
    change (N.eqb COMMA COMMA) with true. cbv iota.
    rewrite <- app_assoc. cbn [app]. rewrite Trivia_then by assumption.
    rewrite N.eqb_refl, Ha. f_equal. f_equal.
    rewrite length_app. cbn [length]. rewrite length_app. simpl. lia.
Qed.

Lemma tailStep_separator closing sp (t : jsstring) pos :
  N.eqb closing COMMA = false ->
  Separator opts sp -> headIs valueStart t = true ->
  headIs (N.eqb closing) t = false ->
  tailStep opts closing (sp ++ t) pos = Some (More t (pos + length sp)).
Proof.
  intros Hcm [tr1 tr2 Htr1 Htr2] Hv Hcl. destruct t as [|d t']; [discriminate|].
  cbn [headIs] in *. unfold tailStep. rewrite <- app_assoc. cbn [app].
  rewrite Trivia_then by (try assumption; reflexivity).
  rewrite (N.eqb_sym COMMA closing), Hcm.
  change (N.eqb COMMA COMMA) with true. cbv iota.
  rewrite Trivia_then by (try assumption; apply valueStart_tokenStart, Hv).
  rewrite (N.eqb_sym d closing), Hcl. f_equal. f_equal.
  rewrite length_app. cbn [length]. lia.
Qed.

Lemma memberKey_sound (rest : jsstring) pos key c rv pv :
  memberKey opts rest pos = Some (key, c :: rv, pv) ->
  exists kp,
    rest = kp ++ c :: rv /\ pv = pos + length kp /\ KeyPart opts kp key.
Proof.
  unfold memberKey. destruct rest as [|q t]; [discriminate|].
  destruct (N.eqb q DQUOTE) eqn:Eq; [|discriminate].
  apply N.eqb_eq in Eq. subst q.
  destruct (parseStringBody t (S pos) []) as [[[k r0] p0]|] eqn:Es;
    [|discriminate].
  destruct (parseStringBody_restr _ _ _ _ _ Es) as (body & -> & -> & Hbody).
  destruct (trivia opts r0 (S pos + length body)) as [[[|x r1] p1]|] eqn:E1;
    try discriminate.
  destruct (trivia_restr opts _ _ _ _ _ E1) as (tr0 & -> & -> & Htr0 & _).
  destruct (N.eqb x COLON) eqn:Ec; [|discriminate].
  apply N.eqb_eq in Ec. subst x.
  destruct (trivia opts r1 (S (S pos + length body + length tr0)))
    as [[rv' pv']|] eqn:E2; [|discriminate].
  intros [= <- -> <-].
  destruct (trivia_restr opts _ _ _ _ _ E2) as (tr1 & -> & -> & Htr1 & _).
  exists (DQUOTE :: body ++ tr0 ++ COLON :: tr1).
  split.
  { repeat (cbn [app]; rewrite <- ?app_assoc). reflexivity. }
  split.
  { cbn [length]. rewrite !length_app. cbn [length]. lia. }
  constructor; assumption.
Qed.

Lemma memberKey_complete kp key (t : jsstring) pos :
  KeyPart opts kp key -> headIs valueStart t = true ->
  memberKey opts (kp ++ t) pos = Some (key, t, pos + length kp).
Proof.
  intros [body k tr0 tr1 Hbody Htr0 Htr1] Hv.
  destruct t as [|c t']; [discriminate|]. cbn [headIs] in Hv.
  unfold memberKey. cbn [app]. change (N.eqb DQUOTE DQUOTE) with true.
  cbv iota. rewrite <- app_assoc.
  rewrite (parseStringBody_ext body k _ (S pos) Hbody).
  rewrite <- app_assoc. cbn [app].
  rewrite Trivia_then by (try assumption; reflexivity).
  change (N.eqb COLON COLON) with true. cbv iota.
  rewrite Trivia_then by (try assumption; apply valueStart_tokenStart, Hv).
  f_equal. f_equal. cbn [length]. rewrite !length_app. cbn [length]. lia.
Qed.

Lemma KeyPart_length kp k : KeyPart opts kp k -> 1 <= length kp.
Proof. intros [body k' tr0 tr1 _ _ _]. cbn [length]. lia. Qed.

(** ** What the parser reads is a value of the grammar *)

Lemma parseValue_eq f (rest : jsstring) pos :
  parseValue opts (S f) rest pos
  = match rest with
    | [] => None
    | c :: t =>
        if N.eqb c LBRACE then
          match openStep opts RBRACE t (S pos) with
          | Some (Closed r p) => Some (NObject pos (p - pos) [], r, p)
          | Some (More r p) => parseMembers opts f pos [] r p
          | None => None
          end
        else if N.eqb c LBRACKET then
          match openStep opts RBRACKET t (S pos) with
          | Some (Closed r p) => Some (NArray pos (p - pos) [], r, p)
          | Some (More r p) => parseElements opts f pos [] r p
          | None => None
          end
        else if N.eqb c DQUOTE then
          match parseStringBody t (S pos) [] with
          | Some (s, r, p) => Some (NString pos (p - pos) s, r, p)
          | None => None
          end
        else if isPrefix (js "true") rest
        then Some (NBool pos 4 true, skipn 4 rest, pos + 4)
        else if isPrefix (js "false") rest
        then Some (NBool pos 5 false, skipn 5 rest, pos + 5)
        else if isPrefix (js "null") rest
        then Some (NNull pos 4, skipn 4 rest, pos + 4)
        else
          match parseNumber rest with
          | Some (n, r) =>
              let len := length rest - length r in
              Some (NNumber pos len n, r, pos + len)
          | None => None
          end
    end.
Proof. reflexivity. Qed.

Lemma parseElements_eq f start acc (rest : jsstring) pos :
  parseElements opts (S f) start acc rest pos
  = match parseValue opts f rest pos with
    | Some (v, r1, p1) =>
        match tailStep opts RBRACKET r1 p1 with
        | Some (Closed r p) =>
            Some (NArray start (p - start) (rev (v :: acc)), r, p)
        | Some (More r p) => parseElements opts f start (v :: acc) r p
        | None => None
        end
    | None => None
    end.
Proof. reflexivity. Qed.

Lemma parseMembers_eq f start acc (rest : jsstring) pos :
  parseMembers opts (S f) start acc rest pos
  = match memberKey opts rest pos with
    | Some (key, rv, pv) =>
        match parseValue opts f rv pv with
        | Some (v, r1, p1) =>
            match tailStep opts RBRACE r1 p1 with
            | Some (Closed r p) =>
                Some (NObject start (p - start) (rev ((key, v) :: acc)), r, p)
            | Some (More r p) =>
                parseMembers opts f start ((key, v) :: acc) r p
            | None => None
            end
        | None => None
        end
    | None => None
    end.
Proof. reflexivity. Qed.

Lemma parse_sound f :
  (forall (rest0 : jsstring) pos n r p,
      parseValue opts f rest0 pos = Some (n, r, p) ->
      exists t n0,
        rest0 = t ++ r /\ p = pos + length t /\ n = shiftNode pos n0
        /\ Val opts t n0)
  /\ (forall start acc (rest0 : jsstring) pos n r p,
         parseElements opts f start acc rest0 pos = Some (n, r, p) ->
         exists t items,
           rest0 = t ++ r /\ p = pos + length t
           /\ n = NArray start (p - start)
                    (rev acc ++ List.map (shiftNode pos) items)
           /\ Elems opts t items)
  /\ (forall start acc (rest0 : jsstring) pos n r p,
         parseMembers opts f start acc rest0 pos = Some (n, r, p) ->
         exists t ms,
           rest0 = t ++ r /\ p = pos + length t
           /\ n = NObject start (p - start)
                    (rev acc ++ List.map (shiftMember pos) ms)
           /\ Mems opts t ms).
Proof.
  induction f as [|f (IHv & IHe & IHm)].
  { repeat split; intros; discriminate. }
  split; [|split].
  - intros rest0 pos n r p H. rewrite parseValue_eq in H.
    destruct rest0 as [|c t]; [discriminate|].
    destruct (N.eqb c LBRACE) eqn:Eo.
    { apply N.eqb_eq in Eo. subst c.
      destruct (openStep opts RBRACE t (S pos)) as [[r0 p0|r0 p0]|] eqn:Es;
        [| |discriminate].
      - injection H as <- <- <-.
        destruct (openStep_closed _ _ _ _ _ Es) as (tr & -> & -> & Htr).
        exists (LBRACE :: tr ++ [RBRACE]), (NObject 0 (S (length tr + 1)) []).
        split; [repeat (cbn [app]; rewrite <- ?app_assoc); reflexivity|].
        split; [cbn [length]; rewrite length_app; cbn [length]; lia|].
        split; [cbn [shiftNode List.map]; f_equal; lia|].
        constructor. exact Htr.
      - destruct (openStep_more _ _ _ _ _ Es) as (tr & -> & -> & Htr).
        destruct (IHm _ _ _ _ _ _ _ H) as (t' & ms & -> & -> & -> & Hms).
        exists (LBRACE :: tr ++ t'),
          (NObject 0 (S (length tr + length t'))
                   (List.map (shiftMember (S (length tr))) ms)).
        split; [repeat (cbn [app]; rewrite <- ?app_assoc); reflexivity|].
        split; [cbn [length]; rewrite length_app; lia|].
        split; [|constructor; assumption].
        rewrite shiftNode_object. cbn [rev app]. rewrite map_shiftMember_add.
        f_equal; [lia | lia | do 2 f_equal; lia]. }
    destruct (N.eqb c LBRACKET) eqn:Ea.
    { apply N.eqb_eq in Ea. subst c.
      destruct (openStep opts RBRACKET t (S pos)) as [[r0 p0|r0 p0]|] eqn:Es;
        [| |discriminate].
      - injection H as <- <- <-.
        destruct (openStep_closed _ _ _ _ _ Es) as (tr & -> & -> & Htr).
        exists (LBRACKET :: tr ++ [RBRACKET]),
          (NArray 0 (S (length tr + 1)) []).
        split; [repeat (cbn [app]; rewrite <- ?app_assoc); reflexivity|].
        split; [cbn [length]; rewrite length_app; cbn [length]; lia|].
        split; [cbn [shiftNode List.map]; f_equal; lia|].
        constructor. exact Htr.
      - destruct (openStep_more _ _ _ _ _ Es) as (tr & -> & -> & Htr).
        destruct (IHe _ _ _ _ _ _ _ H) as (t' & items & -> & -> & -> & Hit).
        exists (LBRACKET :: tr ++ t'),
          (NArray 0 (S (length tr + length t'))
                  (List.map (shiftNode (S (length tr))) items)).
        split; [repeat (cbn [app]; rewrite <- ?app_assoc); reflexivity|].
        split; [cbn [length]; rewrite length_app; lia|].
        split; [|constructor; assumption].
        rewrite shiftNode_array. cbn [rev app]. rewrite map_shiftNode_add.
        f_equal; [lia | lia | do 2 f_equal; lia]. }
    destruct (N.eqb c DQUOTE) eqn:Eq.
    { apply N.eqb_eq in Eq. subst c.
      destruct (parseStringBody t (S pos) []) as [[[s r0] p0]|] eqn:Es;
        [|discriminate].
      injection H as <- <- <-.
      destruct (parseStringBody_restr _ _ _ _ _ Es) as (body & -> & -> & Hb).
      exists (DQUOTE :: body), (NString 0 (S (length body)) s).
      split; [reflexivity|]. split; [cbn [length]; lia|].
      split; [cbn [shiftNode]; f_equal; lia|].
      constructor. exact Hb. }
    destruct (isPrefix (js "true") (c :: t)) eqn:Et.
    { injection H as <- <- <-. apply isPrefix_app in Et.
      exists (js "true"), (NBool 0 4 true).
      split; [exact Et|]. split; [reflexivity|].
      split; [cbn [shiftNode]; f_equal; lia|]. constructor. }
    destruct (isPrefix (js "false") (c :: t)) eqn:Ef.
    { injection H as <- <- <-. apply isPrefix_app in Ef.
      exists (js "false"), (NBool 0 5 false).
      split; [exact Ef|]. split; [reflexivity|].
      split; [cbn [shiftNode]; f_equal; lia|]. constructor. }
    destruct (isPrefix (js "null") (c :: t)) eqn:En.
    { injection H as <- <- <-. apply isPrefix_app in En.
      exists (js "null"), (NNull 0 4).
      split; [exact En|]. split; [reflexivity|].
      split; [cbn [shiftNode]; f_equal; lia|]. constructor. }
    destruct (parseNumber (c :: t)) as [[x r0]|] eqn:Ex; [|discriminate].
    destruct (parseNumber_restr _ _ _ Ex) as (t0 & Ht0 & Hx).
    assert (Hl : length (c :: t) - length r0 = length t0)
      by (rewrite Ht0, length_app; lia).
    cbv zeta in H. rewrite Hl in H. injection H as <- <- <-.
    exists t0, (NNumber 0 (length t0) x).
    split; [exact Ht0|]. split; [reflexivity|].
    split; [cbn [shiftNode]; f_equal; lia|]. constructor. exact Hx.
  - intros start acc rest0 pos n r p H. rewrite parseElements_eq in H.
    destruct (parseValue opts f rest0 pos) as [[[v r1] p1]|] eqn:Ev;
      [|discriminate].
    destruct (IHv _ _ _ _ _ Ev) as (t & n0 & -> & -> & -> & Hv).
    destruct (tailStep opts RBRACKET r1 (pos + length t))
      as [[r2 p2|r2 p2]|] eqn:Es; [| |discriminate].
    + injection H as <- <- <-.
      destruct (tailStep_closed _ _ _ _ _ Es) as (c & -> & -> & Hc).
      exists (t ++ c), [n0].
      split; [rewrite app_assoc; reflexivity|].
      split; [rewrite length_app; lia|].
      split; [reflexivity|]. constructor; assumption.
    + destruct (tailStep_more _ _ _ _ _ Es) as (sp & -> & -> & Hsp).
      destruct (IHe _ _ _ _ _ _ _ H) as (t' & items & -> & -> & -> & Hit).
      exists (t ++ sp ++ t'),
        (n0 :: List.map (shiftNode (length t + length sp)) items).
      split; [rewrite <- !app_assoc; reflexivity|].
      split; [rewrite !length_app; lia|].
      split; [|constructor; assumption].
      cbn [rev List.map]. rewrite <- app_assoc. cbn [app].
      rewrite map_shiftNode_add, Nat.add_assoc. reflexivity.
  - intros start acc rest0 pos n r p H. rewrite parseMembers_eq in H.
    destruct (memberKey opts rest0 pos) as [[[key rv] pv]|] eqn:Ek;
      [|discriminate].
    destruct (parseValue opts f rv pv) as [[[v r1] p1]|] eqn:Ev;
      [|discriminate].
    destruct (IHv _ _ _ _ _ Ev) as (t & n0 & -> & -> & -> & Hv).
    pose proof (Val_head _ _ Hv) as Hh.
    destruct t as [|c0 t0]; [discriminate|]. cbn [app] in Ek.
    destruct (memberKey_sound _ _ _ _ _ _ Ek) as (kp & -> & -> & Hkp).
    destruct (tailStep opts RBRACE r1 (pos + length kp + length (c0 :: t0)))
      as [[r2 p2|r2 p2]|] eqn:Es; [| |discriminate].
    + injection H as <- <- <-.
      destruct (tailStep_closed _ _ _ _ _ Es) as (c & -> & -> & Hc).
      exists (kp ++ (c0 :: t0) ++ c), [(key, shiftNode (length kp) n0)].
      split; [repeat (cbn [app]; rewrite <- ?app_assoc); reflexivity|].
      split; [rewrite !length_app; lia|].
      split; [|constructor; assumption].
      cbn [rev List.map]. unfold shiftMember. cbn [fst snd].
      rewrite shiftNode_add. reflexivity.
    + destruct (tailStep_more _ _ _ _ _ Es) as (sp & -> & -> & Hsp).
      destruct (IHm _ _ _ _ _ _ _ H) as (t' & ms & -> & -> & -> & Hms).
      exists (kp ++ (c0 :: t0) ++ sp ++ t'),
        ((key, shiftNode (length kp) n0)
         :: List.map (shiftMember (length kp + length (c0 :: t0) + length sp))
              ms).
      split; [repeat (cbn [app]; rewrite <- ?app_assoc); reflexivity|].
      split; [rewrite !length_app; lia|].
      split; [|constructor; assumption].
      cbn [rev List.map]. rewrite <- app_assoc. cbn [app].
      rewrite map_shiftMember_add. unfold shiftMember at 2. cbn [fst snd].
      rewrite shiftNode_add, !Nat.add_assoc. reflexivity.
Qed.

(** ** Every value of the grammar is read by the parser *)

Lemma valueStart_not_closing closing (t rest : jsstring) :
  closing = RBRACKET \/ closing = RBRACE ->
  headIs valueStart t = true ->
  headIs (N.eqb closing) (t ++ rest) = false.
Proof.
  intros Hc H. destruct t as [|c t']; [discriminate|].
  cbn [app headIs] in *. unfold valueStart in H.
  repeat (apply andb_true_iff in H; destruct H as [H ?]).
  rewrite N.eqb_sym. destruct Hc as [-> | ->]; apply negb_true_iff; assumption.
Qed.

Lemma number_head c :
  isDigit c = true \/ N.eqb MINUS c = true ->
  N.eqb c LBRACE = false /\ N.eqb c LBRACKET = false
  /\ N.eqb c DQUOTE = false /\ N.eqb 116 c = false
  /\ N.eqb 102 c = false /\ N.eqb 110 c = false.
Proof.
  unfold isDigit, MINUS, LBRACE, LBRACKET, DQUOTE. intros [H|H].
  - apply andb_true_iff in H. destruct H as [H1 H2].
    apply N.leb_le in H1, H2. repeat split; apply N.eqb_neq; lia.
  - apply N.eqb_eq in H. subst c. repeat split.
Qed.

Lemma parse_complete :
  (forall t n0, Val opts t n0 ->
     forall f (rest : jsstring) pos,
       length t <= f -> numberEnd rest = true ->
       parseValue opts f (t ++ rest) pos
       = Some (shiftNode pos n0, rest, pos + length t))
  /\ (forall t items, Elems opts t items ->
        forall f start acc (rest : jsstring) pos,
          length t <= f ->
          parseElements opts f start acc (t ++ rest) pos
          = Some (NArray start (pos + length t - start)
                         (rev acc ++ List.map (shiftNode pos) items),
                  rest, pos + length t))
  /\ (forall t ms, Mems opts t ms ->
        forall f start acc (rest : jsstring) pos,
          length t <= f ->
          parseMembers opts f start acc (t ++ rest) pos
          = Some (NObject start (pos + length t - start)
                          (rev acc ++ List.map (shiftMember pos) ms),
                  rest, pos + length t)).
Proof.
  apply (Grammar_mind opts).
  - (* null *)
    intros f rest pos Hf _. destruct f as [|f]; [simpl in Hf; lia|].
    rewrite parseValue_eq. cbn. rewrite Nat.add_0_r. reflexivity.
  - intros f rest pos Hf _. destruct f as [|f]; [simpl in Hf; lia|].
    rewrite parseValue_eq. cbn. rewrite Nat.add_0_r. reflexivity.
  - intros f rest pos Hf _. destruct f as [|f]; [simpl in Hf; lia|].
    rewrite parseValue_eq. cbn. rewrite Nat.add_0_r. reflexivity.
  - (* number *)
    intros t x Hx f rest pos Hf Hend.
    pose proof (parseNumber_head _ _ _ Hx) as Hh.
    destruct t as [|c t']; [destruct Hh; discriminate|].
    destruct f as [|f]; [simpl in Hf; lia|].
    cbn [headIs] in Hh.
    destruct (number_head c Hh) as (E1 & E2 & E3 & E4 & E5 & E6).
    rewrite parseValue_eq. cbn [app]. rewrite E1, E2, E3.
    change (js "true") with (116%N :: js "rue").
    change (js "false") with (102%N :: js "alse").
    change (js "null") with (110%N :: js "ull").
    rewrite !isPrefix_cons_false by assumption.
    change (c :: t' ++ rest) with ((c :: t') ++ rest).
    rewrite (parseNumber_ext _ _ _ Hx Hend). cbv zeta.
    rewrite length_app.
    replace (length (c :: t') + length rest - length rest)
      with (length (c :: t')) by lia.
    cbn [shiftNode]. rewrite Nat.add_0_r. reflexivity.
  - (* string *)
    intros body s0 Hb f rest pos Hf _.
    destruct f as [|f]; [simpl in Hf; lia|].
    rewrite parseValue_eq. cbn [app].
    change (N.eqb DQUOTE LBRACE) with false.
    change (N.eqb DQUOTE LBRACKET) with false.
    change (N.eqb DQUOTE DQUOTE) with true. cbv iota.
    rewrite (parseStringBody_ext _ _ _ _ Hb).
    cbn [shiftNode length]. same.
  - (* empty array *)
    intros tr Htr f rest pos Hf _.
    destruct f as [|f]; [simpl in Hf; lia|].
    rewrite parseValue_eq. cbn [app]. rewrite <- app_assoc. cbn [app].
    change (N.eqb LBRACKET LBRACE) with false.
    change (N.eqb LBRACKET LBRACKET) with true. cbv iota.
    rewrite openStep_empty by (try assumption; reflexivity).
    rewrite shiftNode_array. cbn [List.map length]. rewrite length_app.
    cbn [length]. same.
  - (* array *)
    intros tr t items Htr Hel IH f rest pos Hf _.
    cbn [length] in Hf. rewrite length_app in Hf.
    destruct f as [|f]; [lia|].
    rewrite parseValue_eq. cbn [app]. rewrite <- app_assoc.
    change (N.eqb LBRACKET LBRACE) with false.
    change (N.eqb LBRACKET LBRACKET) with true. cbv iota.
    rewrite openStep_first;
      [| exact Htr
       | apply headIs_app, (Elems_head _ _ Hel)
       | apply valueStart_not_closing;
         [left; reflexivity | exact (Elems_head _ _ Hel)]].
    rewrite IH by lia. rewrite shiftNode_array, map_shiftNode_add.
    cbn [rev app length]. rewrite length_app.
    same.
  - (* empty object *)
    intros tr Htr f rest pos Hf _.
    destruct f as [|f]; [simpl in Hf; lia|].
    rewrite parseValue_eq. cbn [app]. rewrite <- app_assoc. cbn [app].
    change (N.eqb LBRACE LBRACE) with true. cbv iota.
    rewrite openStep_empty by (try assumption; reflexivity).
    rewrite shiftNode_object. cbn [List.map length]. rewrite length_app.
    cbn [length]. same.
  - (* object *)
    intros tr t ms Htr Hms IH f rest pos Hf _.
    cbn [length] in Hf. rewrite length_app in Hf.
    destruct f as [|f]; [lia|].
    rewrite parseValue_eq. cbn [app]. rewrite <- app_assoc.
    change (N.eqb LBRACE LBRACE) with true. cbv iota.
    rewrite openStep_first;
      [| exact Htr
       | apply headIs_app, (Mems_head _ _ Hms)
       | apply valueStart_not_closing;
         [right; reflexivity | exact (Mems_head _ _ Hms)]].
    rewrite IH by lia. rewrite shiftNode_object, map_shiftMember_add.
    cbn [rev app length]. rewrite length_app.
    same.
  - (* last element *)
    intros t n c Hv IHv Hc f start acc rest pos Hf.
    rewrite length_app in Hf. pose proof (Closer_length _ _ Hc) as Hlc.
    destruct f as [|f]; [lia|].
    rewrite parseElements_eq. rewrite <- app_assoc.
    rewrite IHv by first [lia | apply (Closer_numberEnd RBRACKET);
                                  [reflexivity | exact Hc]].
    rewrite tailStep_closer by (try exact Hc; reflexivity).
    cbn [rev List.map]. rewrite length_app.
    same.
  - (* more elements *)
    intros t n sp t' ns Hv IHv Hsp Hel IHe f start acc rest pos Hf.
    rewrite !length_app in Hf.
    pose proof (Separator_length _ Hsp) as Hls.
    pose proof (Val_nonempty _ _ Hv) as Hlt.
    destruct f as [|f]; [lia|].
    rewrite parseElements_eq. rewrite <- !app_assoc.
    rewrite IHv by first [lia | apply Separator_numberEnd; exact Hsp].
    rewrite tailStep_separator;
      [| reflexivity | exact Hsp
       | apply headIs_app, (Elems_head _ _ Hel)
       | apply valueStart_not_closing;
         [left; reflexivity | exact (Elems_head _ _ Hel)]].
    rewrite IHe by lia.
    cbn [rev List.map]. rewrite <- app_assoc. cbn [app].
    rewrite map_shiftNode_add, !length_app, !Nat.add_assoc. reflexivity.
  - (* last member *)
    intros kp k t n c Hkp Hv IHv Hc f start acc rest pos Hf.
    rewrite !length_app in Hf. pose proof (Closer_length _ _ Hc) as Hlc.
    pose proof (KeyPart_length _ _ Hkp) as Hlk.
    destruct f as [|f]; [lia|].
    rewrite parseMembers_eq. rewrite <- !app_assoc.
    rewrite (memberKey_complete _ _ _ _ Hkp)
      by apply headIs_app, (Val_head _ _ Hv).
    rewrite IHv by first [lia | apply (Closer_numberEnd RBRACE);
                                  [reflexivity | exact Hc]].
    rewrite tailStep_closer by (try exact Hc; reflexivity).
    cbn [rev List.map]. unfold shiftMember at 1. cbn [fst snd].
    rewrite shiftNode_add, !length_app, !Nat.add_assoc. reflexivity.
  - (* more members *)
    intros kp k t n sp t' ms Hkp Hv IHv Hsp Hms IHm f start acc rest pos Hf.
    rewrite !length_app in Hf.
    pose proof (Separator_length _ Hsp) as Hls.
    pose proof (Val_nonempty _ _ Hv) as Hlt.
    pose proof (KeyPart_length _ _ Hkp) as Hlk.
    destruct f as [|f]; [lia|].
    rewrite parseMembers_eq. rewrite <- !app_assoc.
    rewrite (memberKey_complete _ _ _ _ Hkp)
      by apply headIs_app, (Val_head _ _ Hv).
    rewrite IHv by first [lia | apply Separator_numberEnd; exact Hsp].
    rewrite tailStep_separator;
      [| reflexivity | exact Hsp
       | apply headIs_app, (Mems_head _ _ Hms)
       | apply valueStart_not_closing;
         [right; reflexivity | exact (Mems_head _ _ Hms)]].
    rewrite IHm by lia.
    cbn [rev List.map]. rewrite <- app_assoc. cbn [app].
    rewrite map_shiftMember_add. unfold shiftMember at 2. cbn [fst snd].
    rewrite shiftNode_add, !length_app, !Nat.add_assoc. reflexivity.
Qed.

(** ** Whole documents *)

Lemma skipLine_shift (rest : jsstring) pos d :
  skipLine rest (pos + d)
  = (fst (skipLine rest pos), snd (skipLine rest pos) + d).
Proof.
  revert pos. induction rest as [|c t IH]; intros pos; [reflexivity|].
  cbn [skipLine]. destruct (N.eqb c LF || N.eqb c CR); [reflexivity|].
  apply (IH (S pos)).
Qed.

Lemma skipBlock_shift (rest : jsstring) pos d :
  skipBlock rest (pos + d)
  = match skipBlock rest pos with
    | Some (r, p) => Some (r, p + d)
    | None => None
    end.
Proof.
  revert pos. induction rest as [|c t IH]; intros pos; [reflexivity|].
  cbn [skipBlock]. destruct t as [|x t']; [reflexivity|].
  destruct (N.eqb c STAR && N.eqb x SLASH).
  - f_equal. f_equal. lia.
  - apply (IH (S pos)).
Qed.

Lemma skipTrivia_shift f :
  forall (rest : jsstring) pos d,
    skipTrivia opts f rest (pos + d)
    = match skipTrivia opts f rest pos with
      | Some (r, p) => Some (r, p + d)
      | None => None
      end.
Proof.
  induction f as [|f IH]; intros rest pos d; [reflexivity|].
  destruct rest as [|c t]; [reflexivity|].
  cbn [skipTrivia]. destruct (isJsonWhiteSpace c); [apply (IH t (S pos))|].
  destruct (allowComments opts && N.eqb c SLASH); [|reflexivity].
  destruct t as [|x t']; [reflexivity|].
  destruct (N.eqb x SLASH).
  - replace (pos + d + 2) with (pos + 2 + d) by lia.
    rewrite skipLine_shift. destruct (skipLine t' (pos + 2)) as [r p].
    cbn [fst snd]. apply IH.
  - destruct (N.eqb x STAR); [|reflexivity].
    replace (pos + d + 2) with (pos + 2 + d) by lia.
    rewrite skipBlock_shift.
    destruct (skipBlock t' (pos + 2)) as [[r p]|]; [apply IH | reflexivity].
Qed.

(** Whether trivia runs to the end of the text does not depend on the
    position. *)
Lemma trivia_end (post : jsstring) pos p pos' :
  trivia opts post pos = Some ([], p) ->
  exists p', trivia opts post pos' = Some ([], p').
Proof.
  unfold trivia. intros H.
  pose proof (skipTrivia_shift (S (length post)) post 0 pos) as H1.
  pose proof (skipTrivia_shift (S (length post)) post 0 pos') as H2.
  cbn [Nat.add] in H1, H2. rewrite H1 in H.
  destruct (skipTrivia opts (S (length post)) post 0) as [[r q]|];
    [|discriminate].
  injection H as -> _. rewrite H2. eexists. reflexivity.
Qed.

Lemma trivia_end_numberEnd (post : jsstring) pos p :
  trivia opts post pos = Some ([], p) -> numberEnd post = true.
Proof.
  intros H. destruct post as [|x t]; [reflexivity|].
  destruct (tokenStart x) eqn:E.
  - rewrite (tokenStart_stopsAt opts x t E pos) in H. discriminate.
  - apply not_tokenStart_numberEnd. exact E.
Qed.

Lemma parseDocument_sound (text : jsstring) n :
  parseDocument opts text = Some n -> Document opts text n.
Proof.
  unfold parseDocument.
  destruct (trivia opts text 0) as [[r p]|] eqn:E0; [|discriminate].
  destruct (parseValue opts (S (length text)) r p) as [[[n' r1] p1]|] eqn:Ev;
    [|discriminate].
  destruct (trivia opts r1 p1) as [[[|x r2] p2]|] eqn:E1; try discriminate.
  intros [= <-].
  destruct (parse_sound (S (length text))) as (Hsound & _ & _).
  destruct (Hsound _ _ _ _ _ Ev) as (t & n0 & -> & -> & -> & Hv).
  pose proof (Val_head _ _ Hv) as Hh.
  destruct t as [|c t']; [discriminate|]. cbn [app] in E0.
  destruct (trivia_restr opts _ _ _ _ _ E0) as (tr & -> & Hp & Htr & _).
  cbn [Nat.add] in Hp. subst p.
  destruct (trivia_end r1 _ _ 0 E1) as (p' & E1').
  exists tr, (c :: t'), n0, r1, p'. repeat split; assumption.
Qed.

Lemma parseDocument_complete (text : jsstring) n :
  Document opts text n -> parseDocument opts text = Some n.
Proof.
  intros (tr & t & n0 & post & p & -> & Htr & Hv & Hpost & ->).
  unfold parseDocument.
  pose proof (Val_head _ _ Hv) as Hh.
  destruct t as [|c t'] eqn:Et; [discriminate|]. cbn [headIs] in Hh.
  cbn [app]. rewrite Trivia_then
    by (try assumption; apply valueStart_tokenStart, Hh).
  cbn [Nat.add]. destruct parse_complete as (Hc & _ & _).
  change (c :: t' ++ post) with ((c :: t') ++ post).
  assert (Hf : length (c :: t') <= S (length (tr ++ (c :: t') ++ post)))
    by (rewrite !length_app; lia).
  rewrite (Hc _ _ Hv _ _ _ Hf (trivia_end_numberEnd _ _ _ Hpost)).
  destruct (trivia_end post _ _ (length tr + length (c :: t')) Hpost)
    as (p' & ->).
  reflexivity.
Qed.

End GrammarFacts.

(** * Replacing a value in its place *)

Lemma findMember_shift d k (ms : list (jsstring * node)) :
  findMember k (List.map (shiftMember d) ms)
  = option_map (shiftNode d) (findMember k ms).
Proof.
  induction ms as [|[k' n] ms IH]; [reflexivity|].
  cbn [List.map findMember shiftMember fst snd].
  destruct (list_eq_dec N.eq_dec k k'); [reflexivity | exact IH].
Qed.

Lemma findItem_shift d i (items : list node) :
  findItem i (List.map (shiftNode d) items)
  = option_map (shiftNode d) (findItem i items).
Proof.
  destruct i as [z|]; [|reflexivity]. cbn [findItem].
  destruct (z <? 0)%Z; [reflexivity|]. apply nth_error_map.
Qed.

Lemma findNodeAtLocation_shift d (path : list accessor) :
  forall n,
    findNodeAtLocation (shiftNode d n) path
    = option_map (shiftNode d) (findNodeAtLocation n path).
Proof.
  induction path as [|[k|i] path IH]; intros n; [reflexivity| |].
  - destruct n; try reflexivity.
    rewrite shiftNode_object. cbn [findNodeAtLocation].
    rewrite findMember_shift.
    destruct (findMember k members) as [child|]; [apply IH | reflexivity].
  - destruct n; try reflexivity.
    rewrite shiftNode_array. cbn [findNodeAtLocation].
    rewrite findItem_shift.
    destruct (findItem i items) as [child|]; [apply IH | reflexivity].
Qed.

Lemma findNodeAtLocation_shifted d n path m :
  findNodeAtLocation (shiftNode d n) path = Some m ->
  exists m0, findNodeAtLocation n path = Some m0 /\ m = shiftNode d m0.
Proof.
  rewrite findNodeAtLocation_shift.
  destruct (findNodeAtLocation n path) as [m0|]; [|discriminate].
  intros [= <-]. exists m0. split; reflexivity.
Qed.

Lemma findNodeAtLocation_app (p q : list accessor) :
  forall n m,
    findNodeAtLocation n p = Some m ->
    findNodeAtLocation n (p ++ q) = findNodeAtLocation m q.
Proof.
  induction p as [|[k|i] p IH]; intros n m H.
  - injection H as <-. reflexivity.
  - destruct n; try discriminate. cbn [app findNodeAtLocation] in *.
    destruct (findMember k members) as [child|]; [|discriminate].
    apply IH. exact H.
  - destruct n; try discriminate. cbn [app findNodeAtLocation] in *.
    destruct (findItem i items) as [child|]; [|discriminate].
    apply IH. exact H.
Qed.

Section ContextFacts.

Variable opts : parseOptions.

(** The tree of a value starts at its text and is as long. *)
Lemma Val_extent (t : jsstring) n :
  Val opts t n -> nodeOffset n = 0 /\ nodeLength n = length t.
Proof.
  intros H. destruct H; cbn [nodeOffset nodeLength length];
    rewrite ?length_app; cbn [length]; split; reflexivity.
Qed.

Lemma ValContext_here : ValContext opts [] [] [].
Proof.
  intros s ns Hs. exists ns. cbn [app]. rewrite app_nil_r.
  split; [exact Hs|]. cbn [findNodeAtLocation length]. rewrite shiftNode_0.
  reflexivity.
Qed.

(** The value a path reaches in a run of members, and its place. *)
Lemma Mems_context k (path : list accessor) :
  (forall t n m,
      Val opts t n -> findNodeAtLocation n path = Some m ->
      exists pre mid post m0,
        t = pre ++ mid ++ post /\ Val opts mid m0
        /\ m = shiftNode (length pre) m0 /\ ValContext opts path pre post) ->
  forall t ms,
    Mems opts t ms ->
    forall child m,
      findMember k ms = Some child ->
      findNodeAtLocation child path = Some m ->
      exists pre mid post m0,
        t = pre ++ mid ++ post /\ Val opts mid m0
        /\ m = shiftNode (length pre) m0 /\ MemsContext opts k path pre post.
Proof.
  intros IHpath t ms Hms.
  induction Hms as [kp k0 t n c Hkp Hv Hc
                   | kp k0 t n sp t' ms Hkp Hv Hsp Hms IH];
    intros child m Hfind Hm.
  - cbn [findMember] in Hfind.
    destruct (list_eq_dec N.eq_dec k k0) as [->|Hne]; [|discriminate].
    injection Hfind as <-.
    destruct (findNodeAtLocation_shifted _ _ _ _ Hm) as (m1 & Hm1 & ->).
    destruct (IHpath _ _ _ Hv Hm1) as (pre & mid & post & m0 & -> & Hmid
                                       & -> & Hctx).
    exists (kp ++ pre), mid, (post ++ c), m0.
    split; [rewrite <- !app_assoc; reflexivity|].
    split; [exact Hmid|].
    split; [rewrite shiftNode_add, length_app; reflexivity|].
    intros s ns Hs. destruct (Hctx s ns Hs) as (n' & Hn' & Hf').
    exists [(k0, shiftNode (length kp) n')], (shiftNode (length kp) n').
    split.
    { replace ((kp ++ pre) ++ s ++ post ++ c)
        with (kp ++ (pre ++ s ++ post) ++ c)
        by (rewrite <- !app_assoc; reflexivity).
      constructor; assumption. }
    split.
    { cbn [findMember]. destruct (list_eq_dec N.eq_dec k0 k0); congruence. }
    rewrite findNodeAtLocation_shift, Hf'. cbn [option_map].
    rewrite shiftNode_add, length_app. reflexivity.
  - cbn [findMember] in Hfind.
    destruct (list_eq_dec N.eq_dec k k0) as [->|Hne].
    + injection Hfind as <-.
      destruct (findNodeAtLocation_shifted _ _ _ _ Hm) as (m1 & Hm1 & ->).
      destruct (IHpath _ _ _ Hv Hm1) as (pre & mid & post & m0 & -> & Hmid
                                         & -> & Hctx).
      exists (kp ++ pre), mid, (post ++ sp ++ t'), m0.
      split; [rewrite <- !app_assoc; reflexivity|].
      split; [exact Hmid|].
      split; [rewrite shiftNode_add, length_app; reflexivity|].
      intros s ns Hs. destruct (Hctx s ns Hs) as (n' & Hn' & Hf').
      exists ((k0, shiftNode (length kp) n')
              :: List.map (shiftMember (length kp + length (pre ++ s ++ post)
                                        + length sp)) ms),
        (shiftNode (length kp) n').
      split.
      { replace ((kp ++ pre) ++ s ++ post ++ sp ++ t')
          with (kp ++ (pre ++ s ++ post) ++ sp ++ t')
          by (rewrite <- !app_assoc; reflexivity).
        constructor; assumption. }
      split.
      { cbn [findMember]. destruct (list_eq_dec N.eq_dec k0 k0); congruence. }
      rewrite findNodeAtLocation_shift, Hf'. cbn [option_map].
      rewrite shiftNode_add, length_app. reflexivity.
    + rewrite findMember_shift in Hfind.
      destruct (findMember k ms) as [child0|] eqn:Ec; [|discriminate].
      injection Hfind as <-.
      destruct (findNodeAtLocation_shifted _ _ _ _ Hm) as (m1 & Hm1 & ->).
      destruct (IH _ _ eq_refl Hm1) as (pre & mid & post & m0 & -> & Hmid
                                        & -> & Hctx).
      exists (kp ++ t ++ sp ++ pre), mid, post, m0.
      split; [rewrite <- !app_assoc; reflexivity|].
      split; [exact Hmid|].
      split; [rewrite shiftNode_add, !length_app, !Nat.add_assoc;
              reflexivity|].
      intros s ns Hs.
      destruct (Hctx s ns Hs) as (ms' & child' & Hms' & Hc' & Hf').
      exists ((k0, shiftNode (length kp) n)
              :: List.map (shiftMember (length kp + length t + length sp)) ms'),
        (shiftNode (length kp + length t + length sp) child').
      split.
      { replace ((kp ++ t ++ sp ++ pre) ++ s ++ post)
          with (kp ++ t ++ sp ++ (pre ++ s ++ post))
          by (rewrite <- !app_assoc; reflexivity).
        constructor; assumption. }
      split.
      { cbn [findMember].
        destruct (list_eq_dec N.eq_dec k k0) as [E|_]; [contradiction|].
        rewrite findMember_shift, Hc'. reflexivity. }
      rewrite findNodeAtLocation_shift, Hf'. cbn [option_map].
      rewrite shiftNode_add, !length_app, !Nat.add_assoc. reflexivity.
Qed.

(** The value a path reaches in a run of elements, and its place. *)
Lemma Elems_context (path : list accessor) :
  (forall t n m,
      Val opts t n -> findNodeAtLocation n path = Some m ->
      exists pre mid post m0,
        t = pre ++ mid ++ post /\ Val opts mid m0
        /\ m = shiftNode (length pre) m0 /\ ValContext opts path pre post) ->
  forall t items,
    Elems opts t items ->
    forall j child m,
      nth_error items j = Some child ->
      findNodeAtLocation child path = Some m ->
      exists pre mid post m0,
        t = pre ++ mid ++ post /\ Val opts mid m0
        /\ m = shiftNode (length pre) m0 /\ ElemsContext opts j path pre post.
Proof.
  intros IHpath t items Hel.
  induction Hel as [t n c Hv Hc | t n sp t' ns Hv Hsp Hel IH];
    intros j child m Hnth Hm.
  - destruct j as [|j]; [|destruct j; discriminate].
    injection Hnth as <-.
    destruct (IHpath _ _ _ Hv Hm) as (pre & mid & post & m0 & -> & Hmid
                                      & -> & Hctx).
    exists pre, mid, (post ++ c), m0.
    split; [rewrite <- !app_assoc; reflexivity|].
    split; [exact Hmid|]. split; [reflexivity|].
    intros s ns Hs. destruct (Hctx s ns Hs) as (n' & Hn' & Hf').
    exists [n'], n'.
    split.
    { replace (pre ++ s ++ post ++ c) with ((pre ++ s ++ post) ++ c)
        by (rewrite <- !app_assoc; reflexivity).
      constructor; assumption. }
    split; [reflexivity | exact Hf'].
  - destruct j as [|j].
    + injection Hnth as <-.
      destruct (IHpath _ _ _ Hv Hm) as (pre & mid & post & m0 & -> & Hmid
                                        & -> & Hctx).
      exists pre, mid, (post ++ sp ++ t'), m0.
      split; [rewrite <- !app_assoc; reflexivity|].
      split; [exact Hmid|]. split; [reflexivity|].
      intros s ns' Hs. destruct (Hctx s ns' Hs) as (n' & Hn' & Hf').
      exists (n' :: List.map (shiftNode (length (pre ++ s ++ post)
                                         + length sp)) ns), n'.
      split.
      { replace (pre ++ s ++ post ++ sp ++ t')
          with ((pre ++ s ++ post) ++ sp ++ t')
          by (rewrite <- !app_assoc; reflexivity).
        constructor; assumption. }
      split; [reflexivity | exact Hf'].
    + cbn [nth_error] in Hnth. rewrite nth_error_map in Hnth.
      destruct (nth_error ns j) as [child0|] eqn:Ec; [|discriminate].
      injection Hnth as <-.
      destruct (findNodeAtLocation_shifted _ _ _ _ Hm) as (m1 & Hm1 & ->).
      destruct (IH _ _ _ Ec Hm1) as (pre & mid & post & m0 & -> & Hmid
                                     & -> & Hctx).
      exists (t ++ sp ++ pre), mid, post, m0.
      split; [rewrite <- !app_assoc; reflexivity|].
      split; [exact Hmid|].
      split; [rewrite shiftNode_add, !length_app, !Nat.add_assoc;
              reflexivity|].
      intros s ns' Hs.
      destruct (Hctx s ns' Hs) as (items' & child' & Hit' & Hc' & Hf').
      exists (n :: List.map (shiftNode (length t + length sp)) items'),
        (shiftNode (length t + length sp) child').
      split.
      { replace ((t ++ sp ++ pre) ++ s ++ post)
          with (t ++ sp ++ (pre ++ s ++ post))
          by (rewrite <- !app_assoc; reflexivity).
        constructor; assumption. }
      split.
      { cbn [nth_error]. rewrite nth_error_map, Hc'. reflexivity. }
      rewrite findNodeAtLocation_shift, Hf'. cbn [option_map].
      rewrite shiftNode_add, !length_app, !Nat.add_assoc. reflexivity.
Qed.

(** The value a path reaches in a value: its text, its tree, and the
    place it stands in. *)
Lemma Val_context (path : list accessor) :
  forall t n m,
    Val opts t n -> findNodeAtLocation n path = Some m ->
    exists pre mid post m0,
      t = pre ++ mid ++ post /\ Val opts mid m0
      /\ m = shiftNode (length pre) m0 /\ ValContext opts path pre post.
Proof.
  induction path as [|[k|i] path IH]; intros t n m Hv Hm.
  - injection Hm as <-. exists [], t, [], n.
    split; [cbn [app]; rewrite app_nil_r; reflexivity|].
    split; [exact Hv|]. split; [rewrite shiftNode_0; reflexivity|].
    apply ValContext_here.
  - destruct Hv as [ | | | t x Hx | body s0 Hb | tr Htr | tr t items Htr Hel
                   | tr Htr | tr t ms Htr Hms ]; try discriminate.
    cbn [findNodeAtLocation] in Hm. rewrite findMember_shift in Hm.
    destruct (findMember k ms) as [child0|] eqn:Ec; [|discriminate].
    cbn [option_map] in Hm.
    destruct (findNodeAtLocation_shifted _ _ _ _ Hm) as (m1 & Hm1 & ->).
    destruct (Mems_context k path IH _ _ Hms _ _ Ec Hm1)
      as (pre & mid & post & m0 & -> & Hmid & -> & Hctx).
    exists (LBRACE :: tr ++ pre), mid, post, m0.
    split; [cbn [app]; rewrite <- !app_assoc; reflexivity|].
    split; [exact Hmid|].
    split; [rewrite shiftNode_add; cbn [length]; rewrite length_app;
            reflexivity|].
    intros s ns Hs.
    destruct (Hctx s ns Hs) as (ms' & child' & Hms' & Hc' & Hf').
    exists (NObject 0 (S (length tr + length (pre ++ s ++ post)))
                    (List.map (shiftMember (S (length tr))) ms')).
    split.
    { replace ((LBRACE :: tr ++ pre) ++ s ++ post)
        with (LBRACE :: tr ++ (pre ++ s ++ post))
        by (cbn [app]; rewrite <- !app_assoc; reflexivity).
      constructor; assumption. }
    cbn [findNodeAtLocation]. rewrite findMember_shift, Hc'.
    cbn [option_map]. rewrite findNodeAtLocation_shift, Hf'.
    cbn [option_map length]. rewrite shiftNode_add, length_app. reflexivity.
  - destruct Hv as [ | | | t x Hx | body s0 Hb | tr Htr | tr t items Htr Hel
                   | tr Htr | tr t ms Htr Hms ]; try discriminate.
    { cbn [findNodeAtLocation] in Hm. destruct i as [z|]; [|discriminate].
      cbn [findItem] in Hm. destruct (z <? 0)%Z; [discriminate|].
      destruct (Z.to_nat z); discriminate. }
    cbn [findNodeAtLocation] in Hm. rewrite findItem_shift in Hm.
    destruct (findItem i items) as [child0|] eqn:Ec; [|discriminate].
    cbn [option_map] in Hm.
    destruct (findNodeAtLocation_shifted _ _ _ _ Hm) as (m1 & Hm1 & ->).
    destruct i as [z|]; [|discriminate]. cbn [findItem] in Ec.
    destruct (z <? 0)%Z eqn:Ez; [discriminate|].
    destruct (Elems_context path IH _ _ Hel _ _ _ Ec Hm1)
      as (pre & mid & post & m0 & -> & Hmid & -> & Hctx).
    exists (LBRACKET :: tr ++ pre), mid, post, m0.
    split; [cbn [app]; rewrite <- !app_assoc; reflexivity|].
    split; [exact Hmid|].
    split; [rewrite shiftNode_add; cbn [length]; rewrite length_app;
            reflexivity|].
    intros s ns Hs.
    destruct (Hctx s ns Hs) as (items' & child' & Hit' & Hc' & Hf').
    exists (NArray 0 (S (length tr + length (pre ++ s ++ post)))
                   (List.map (shiftNode (S (length tr))) items')).
    split.
    { replace ((LBRACKET :: tr ++ pre) ++ s ++ post)
        with (LBRACKET :: tr ++ (pre ++ s ++ post))
        by (cbn [app]; rewrite <- !app_assoc; reflexivity).
      constructor; assumption. }
    cbn [findNodeAtLocation findItem]. rewrite Ez, nth_error_map, Hc'.
    cbn [option_map]. rewrite findNodeAtLocation_shift, Hf'.
    cbn [option_map length]. rewrite shiftNode_add, length_app. reflexivity.
Qed.

(** The same in a document. *)
Lemma Document_context (text : jsstring) root (path : list accessor) m :
  Document opts text root -> findNodeAtLocation root path = Some m ->
  exists pre mid post m0,
    text = pre ++ mid ++ post /\ Val opts mid m0
    /\ m = shiftNode (length pre) m0 /\ DocContext opts path pre post.
Proof.
  intros (tr & t & n0 & tail & p & -> & Htr & Hv & Htail & ->) Hm.
  destruct (findNodeAtLocation_shifted _ _ _ _ Hm) as (m1 & Hm1 & ->).
  destruct (Val_context path _ _ _ Hv Hm1)
    as (pre & mid & post & m0 & -> & Hmid & -> & Hctx).
  exists (tr ++ pre), mid, (post ++ tail), m0.
  split; [rewrite <- !app_assoc; reflexivity|].
  split; [exact Hmid|].
  split; [rewrite shiftNode_add, length_app; reflexivity|].
  intros s ns Hs. destruct (Hctx s ns Hs) as (n' & Hn' & Hf').
  exists (shiftNode (length tr) n').
  split.
  - exists tr, (pre ++ s ++ post), n', tail, p.
    split; [rewrite <- !app_assoc; reflexivity|].
    repeat split; assumption.
  - rewrite findNodeAtLocation_shift, Hf'. cbn [option_map].
    rewrite shiftNode_add, length_app. reflexivity.
Qed.

End ContextFacts.

(** * What the serializer writes is a value of the grammar *)

(** ** Numbers *)

Lemma uintUnits_digits u : forallb isDigit (uintUnits u) = true.
Proof. induction u; cbn [uintUnits forallb]; try rewrite IHu; reflexivity. Qed.

Lemma decimalOfN_digits n : forallb isDigit (decimalOfN n) = true.
Proof.
  unfold decimalOfN. pose proof (uintUnits_digits (N.to_uint n)) as H.
  destruct (uintUnits (N.to_uint n)); [reflexivity | exact H].
Qed.

Lemma decimalOfN_nonempty n : 1 <= length (decimalOfN n).
Proof.
  unfold decimalOfN. destruct (uintUnits (N.to_uint n)); simpl; lia.
Qed.

(** A decimal numeral has no leading zero. *)
Lemma decimalOfN_head n :
  decimalOfN n = [ZERO] \/ headIs (N.eqb ZERO) (decimalOfN n) = false.
Proof.
  unfold decimalOfN.
  assert (Hn : Decimal.unorm (N.to_uint n) = N.to_uint n).
  { pose proof (DecimalN.Unsigned.to_of (N.to_uint n)) as H.
    rewrite DecimalN.Unsigned.of_to in H. symmetry. exact H. }
  destruct (N.to_uint n) as [|d|d|d|d|d|d|d|d|d|d] eqn:E;
    cbn [uintUnits]; try (right; reflexivity); [left; reflexivity|].
  rewrite DecimalFacts.unorm_D0 in Hn. unfold Decimal.unorm in Hn.
  destruct (Decimal.nzhead d) eqn:Ez;
    try (exfalso; apply (DecimalFacts.nzhead_nonzero d d); congruence).
  injection Hn as <-. left. reflexivity.
Qed.

Lemma digit_not_minus c : isDigit c = true -> N.eqb c MINUS = false.
Proof.
  unfold isDigit, MINUS. intros H. apply andb_true_iff in H.
  destruct H as [H1 H2]. apply N.leb_le in H1, H2. apply N.eqb_neq. lia.
Qed.

(** A sign, digits without a leading zero and what may follow them are
    read as a number. *)
Lemma parseNumber_digits (neg : bool) (ip r1 fp r2 r3 : jsstring) e :
  forallb isDigit ip = true -> 1 <= length ip ->
  ip = [ZERO] \/ headIs (N.eqb ZERO) ip = false ->
  headIs isDigit r1 = false ->
  fracPart r1 = Some (fp, r2) -> expPart r2 = Some (e, r3) ->
  exists x,
    parseNumber ((if neg then [MINUS] else []) ++ ip ++ r1) = Some (x, r3).
Proof.
  intros Hd Hlen Hz Hr1 Hf He.
  destruct ip as [|d ds]; [simpl in Hlen; lia|].
  assert (Hdm : N.eqb d MINUS = false).
  { apply digit_not_minus. cbn [forallb] in Hd.
    apply andb_true_iff in Hd. apply Hd. }
  assert (Hlead : N.eqb d ZERO
                  && negb (match ds with [] => true | _ => false end) = false).
  { destruct Hz as [Hz|Hz].
    - injection Hz as -> ->. reflexivity.
    - cbn [headIs] in Hz. rewrite N.eqb_sym, Hz. reflexivity. }
  unfold parseNumber.
  destruct neg; cbn [app].
  - change (N.eqb MINUS MINUS) with true. cbv iota.
    change (d :: ds ++ r1) with ((d :: ds) ++ r1).
    rewrite (spanDigits_app _ _ Hd Hr1). rewrite Hlead, Hf, He.
    eexists. reflexivity.
  - rewrite Hdm. change (d :: ds ++ r1) with ((d :: ds) ++ r1).
    rewrite (spanDigits_app _ _ Hd Hr1). rewrite Hlead, Hf, He.
    eexists. reflexivity.
Qed.

Lemma forallb_repeat {A} (p : A -> bool) x n :
  p x = true -> forallb p (repeat x n) = true.
Proof.
  intros H. induction n as [|n IH]; [reflexivity|].
  cbn [repeat forallb]. rewrite H, IH. reflexivity.
Qed.

Lemma forallb_firstn {A} (p : A -> bool) n (l : list A) :
  forallb p l = true -> forallb p (firstn n l) = true.
Proof.
  revert n. induction l as [|x l IH]; intros [|n] H; try reflexivity.
  cbn [forallb firstn] in *. apply andb_true_iff in H. destruct H as [H1 H2].
  rewrite H1, (IH n H2). reflexivity.
Qed.

Lemma forallb_skipn {A} (p : A -> bool) n (l : list A) :
  forallb p l = true -> forallb p (skipn n l) = true.
Proof.
  revert n. induction l as [|x l IH]; intros [|n] H; try reflexivity.
  - exact H.
  - cbn [forallb skipn] in *. apply andb_true_iff in H. apply IH, H.
Qed.

Lemma numberText_Val opts (x : jnum) :
  wellFormed (VNumber x) = true ->
  exists y, Val opts (numberText x) (NNumber 0 (length (numberText x)) y).
Proof.
  intros Hwf.
  assert (H : exists y, parseNumber (numberText x) = Some (y, [])).
  { destruct x as [z|m k]; unfold numberText.
    - destruct (z <? 0)%Z.
      + destruct (parseNumber_digits true (decimalOfN (Z.to_N (- z)))
                    [] [] [] [] 0%Z) as (y & Hy);
          try reflexivity.
        * apply decimalOfN_digits.
        * apply decimalOfN_nonempty.
        * apply decimalOfN_head.
        * rewrite app_nil_r in Hy. exists y. exact Hy.
      + destruct (parseNumber_digits false (decimalOfN (Z.to_N z))
                    [] [] [] [] 0%Z) as (y & Hy);
          try reflexivity.
        * apply decimalOfN_digits.
        * apply decimalOfN_nonempty.
        * apply decimalOfN_head.
        * rewrite app_nil_r in Hy. exists y. exact Hy.
    - cbn [wellFormed] in Hwf. apply negb_true_iff, Nat.eqb_neq in Hwf.
      cbv zeta.
      remember (decimalOfN (Z.to_N (Z.abs m))) as ds eqn:Eds.
      remember (repeat ZERO (S k - length ds) ++ ds) as ds' eqn:Eds'.
      remember (firstn (length ds' - k) ds') as whole eqn:Ewhole.
      remember (skipn (length ds' - k) ds') as frac eqn:Efrac.
      pose proof (decimalOfN_digits (Z.to_N (Z.abs m))) as Hds.
      pose proof (decimalOfN_nonempty (Z.to_N (Z.abs m))) as Hlen.
      pose proof (decimalOfN_head (Z.to_N (Z.abs m))) as Hhead.
      rewrite <- Eds in Hds, Hlen, Hhead.
      assert (Hds' : forallb isDigit ds' = true).
      { rewrite Eds', forallb_app, Hds.
        rewrite forallb_repeat by reflexivity. reflexivity. }
      assert (Hlen' : length ds' = Nat.max (S k) (length ds)).
      { rewrite Eds', length_app, repeat_length. lia. }
      assert (Hfrac : length frac = k).
      { rewrite Efrac, length_skipn. lia. }
      assert (Hwhole : length whole = length ds' - k).
      { rewrite Ewhole, length_firstn. lia. }
      assert (Hz : whole = [ZERO] \/ headIs (N.eqb ZERO) whole = false).
      { destruct (Nat.le_gt_cases (S k) (length ds)) as [Hle|Hgt].
        - right. replace (S k - length ds) with 0 in Eds' by lia.
          cbn [repeat app] in Eds'. subst ds'.
          destruct Hhead as [Hone|Hnz].
          + rewrite Hone in Hle. simpl in Hle. lia.
          + destruct ds as [|d ds0]; [simpl in Hlen; lia|].
            rewrite Ewhole.
            destruct (length (d :: ds0) - k) as [|a] eqn:Ea;
              [cbn [length] in Ea, Hle; lia|].
            exact Hnz.
        - left. replace (S k - length ds) with (S (k - length ds)) in Eds'
            by lia.
          rewrite Ewhole, Hlen'.
          replace (Nat.max (S k) (length ds) - k) with 1 by lia.
          rewrite Eds'. reflexivity. }
      assert (Hfr : fracPart (DOT :: frac) = Some (frac, [])).
      { unfold fracPart. change (N.eqb DOT DOT) with true. cbv iota.
        rewrite <- (app_nil_r frac) at 1.
        rewrite spanDigits_app;
          [| rewrite Efrac; apply forallb_skipn, Hds' | reflexivity].
        destruct frac; [simpl in Hfrac; lia | reflexivity]. }
      destruct (parseNumber_digits (m <? 0)%Z whole (DOT :: frac) frac [] []
                  0%Z) as (y & Hy); try reflexivity; try assumption.
      + rewrite Ewhole. apply forallb_firstn, Hds'.
      + lia.
      + exists y. exact Hy. }
  destruct H as (y & Hy). exists y. constructor. exact Hy.
Qed.

(** ** Strings *)

Lemma hex4_small c :
  (c < 32)%N ->
  hex4 48 48 (hexDigit (c / 16)) (hexDigit (c mod 16)) = Some c.
Proof.
  intros H.
  assert (Hin : In c (List.map N.of_nat (seq 0 32))).
  { rewrite <- (N2Nat.id c). apply in_map, in_seq. lia. }
  assert (F : Forall (fun c => hex4 48 48 (hexDigit (c / 16))
                                    (hexDigit (c mod 16)) = Some c)
                     (List.map N.of_nat (seq 0 32)))
    by (repeat constructor).
  rewrite Forall_forall in F. apply F. exact Hin.
Qed.

(** An escaped code unit is read back as that code unit. *)
Lemma escapeUnit_read c (rest : jsstring) pos acc :
  parseStringBody (escapeUnit c ++ rest) pos acc
  = parseStringBody rest (pos + length (escapeUnit c)) (c :: acc).
Proof.
  unfold escapeUnit.
  destruct (N.eqb c DQUOTE) eqn:E1;
    [apply N.eqb_eq in E1; subst c; reflexivity|].
  destruct (N.eqb c BACKSLASH) eqn:E2;
    [apply N.eqb_eq in E2; subst c; reflexivity|].
  destruct (N.eqb c 8) eqn:E3;
    [apply N.eqb_eq in E3; subst c; reflexivity|].
  destruct (N.eqb c 12) eqn:E4;
    [apply N.eqb_eq in E4; subst c; reflexivity|].
  destruct (N.eqb c 10) eqn:E5;
    [apply N.eqb_eq in E5; subst c; reflexivity|].
  destruct (N.eqb c 13) eqn:E6;
    [apply N.eqb_eq in E6; subst c; reflexivity|].
  destruct (N.eqb c 9) eqn:E7;
    [apply N.eqb_eq in E7; subst c; reflexivity|].
  destruct (c <? 32)%N eqn:E8.
  - apply N.ltb_lt in E8. cbn [app parseStringBody length].
    change (N.eqb BACKSLASH DQUOTE) with false.
    change (N.eqb BACKSLASH BACKSLASH) with true.
    change (N.eqb 117 117) with true. cbv iota.
    rewrite (hex4_small c E8). reflexivity.
  - cbn [app parseStringBody length]. rewrite E1, E2, E8.
    f_equal. lia.
Qed.

Lemma quote_read (s : jsstring) :
  forall (rest : jsstring) pos acc,
    parseStringBody (flat_map escapeUnit s ++ DQUOTE :: rest) pos acc
    = Some (rev acc ++ s, rest,
            pos + length (flat_map escapeUnit s ++ [DQUOTE])).
Proof.
  induction s as [|c s IH]; intros rest pos acc.
  - cbn [flat_map app parseStringBody length].
    change (N.eqb DQUOTE DQUOTE) with true. cbv iota.
    rewrite app_nil_r. f_equal. f_equal. lia.
  - cbn [flat_map]. rewrite <- app_assoc, escapeUnit_read, IH.
    cbn [rev]. rewrite <- !app_assoc. cbn [app].
    f_equal. f_equal. rewrite !length_app. lia.
Qed.

Lemma quoteString_Val opts (s : jsstring) :
  Val opts (quoteString s) (NString 0 (length (quoteString s)) s).
Proof.
  unfold quoteString. cbn [length]. constructor.
  rewrite (quote_read s [] 0 []). reflexivity.
Qed.

Lemma quoteString_KeyPart opts (k : jsstring) :
  KeyPart opts (quoteString k ++ [COLON; SPACE]) k.
Proof.
  unfold quoteString.
  change ((DQUOTE :: flat_map escapeUnit k ++ [DQUOTE]) ++ [COLON; SPACE])
    with (DQUOTE :: (flat_map escapeUnit k ++ [DQUOTE]) ++ [COLON; SPACE]).
  change [COLON; SPACE] with ([] ++ COLON :: [SPACE]).
  constructor.
  - rewrite (quote_read k [] 0 []). reflexivity.
  - apply Trivia_nil.
  - apply Trivia_ws. reflexivity.
Qed.

(** ** Containers *)

Lemma newline_Trivia opts fmt level : Trivia opts (newline fmt level).
Proof.
  apply Trivia_all_ws. unfold newline. cbn [forallb].
  change (isJsonWhiteSpace LF) with true. cbv iota. cbn [andb].
  induction level as [|level IH]; [reflexivity|].
  cbn [repeat concat]. rewrite forallb_app, IH.
  unfold indentUnit. destruct (insertSpaces fmt).
  - rewrite forallb_repeat by reflexivity. reflexivity.
  - reflexivity.
Qed.

Lemma newline_Separator opts fmt level :
  Separator opts (COMMA :: newline fmt level).
Proof.
  change (COMMA :: newline fmt level)
    with ([] ++ COMMA :: newline fmt level).
  constructor; [apply Trivia_nil | apply newline_Trivia].
Qed.

Lemma newline_Closer opts fmt level closing :
  Closer opts closing (newline fmt level ++ [closing]).
Proof. constructor. apply newline_Trivia. Qed.

Lemma joinWith_more (sep p q : jsstring) (parts : list jsstring) :
  joinWith sep (p :: q :: parts) = p ++ sep ++ joinWith sep (q :: parts).
Proof. reflexivity. Qed.

(** The elements of an array, one per line. *)
Lemma joinWith_Elems opts sep c (parts : list jsstring) :
  Separator opts sep -> Closer opts RBRACKET c ->
  parts <> [] ->
  Forall (fun t => exists n, Val opts t n) parts ->
  exists ns, Elems opts (joinWith sep parts ++ c) ns.
Proof.
  intros Hsep Hc Hne F. induction F as [|p parts (n & Hp) F IH];
    [contradiction|].
  destruct parts as [|q parts].
  - exists [n]. cbn [joinWith]. constructor; assumption.
  - destruct (IH ltac:(discriminate)) as (ns & Hns).
    eexists. rewrite joinWith_more, <- !app_assoc.
    apply (Elems_cons opts p n sep _ ns Hp Hsep Hns).
Qed.

(** The members of an object, one per line. *)
Lemma joinWith_Mems opts sep c (parts : list (jsstring * jsstring * jsstring)) :
  Separator opts sep -> Closer opts RBRACE c ->
  parts <> [] ->
  Forall (fun p => KeyPart opts (fst (fst p)) (snd (fst p))
                   /\ exists n, Val opts (snd p) n) parts ->
  exists ms,
    Mems opts (joinWith sep (List.map (fun p => fst (fst p) ++ snd p) parts)
               ++ c) ms.
Proof.
  intros Hsep Hc Hne F.
  induction F as [|[[kp k] t] parts (Hk & n & Hp) F IH]; [contradiction|].
  cbn [fst snd] in Hk, Hp.
  destruct parts as [|q parts].
  - eexists. cbn [joinWith List.map fst snd]. rewrite <- !app_assoc.
    apply (Mems_last opts kp k t n c Hk Hp Hc).
  - destruct (IH ltac:(discriminate)) as (ms & Hms).
    eexists. cbn [List.map fst snd]. rewrite joinWith_more, <- !app_assoc.
    apply (Mems_cons opts kp k t n sep _ ms Hk Hp Hsep Hms).
Qed.

(** Induction on a value and the values it holds. *)
Lemma value_nested_ind (P : value -> Prop) :
  P VNull -> (forall b, P (VBool b)) -> (forall n, P (VNumber n)) ->
  (forall s, P (VString s)) ->
  (forall items, Forall P items -> P (VArray items)) ->
  (forall members, Forall (fun kv => P (snd kv)) members ->
                   P (VObject members)) ->
  forall v, P v.
Proof.
  intros Hnull Hbool Hnum Hstr Harr Hobj.
  fix IH 1. intros [ |b|n|s|items|members].
  - exact Hnull.
  - apply Hbool.
  - apply Hnum.
  - apply Hstr.
  - apply Harr. induction items as [|i items IHl]; constructor;
      [apply IH | exact IHl].
  - apply Hobj. induction members as [|[k v] members IHl]; constructor;
      [apply IH | exact IHl].
Qed.

(** What [stringify] writes for a well-formed value is a value of the
    grammar. *)
Lemma stringify_Val opts fmt (v : value) :
  forall level,
    wellFormed v = true ->
    exists n, Val opts (stringify fmt level v) n.
Proof.
  induction v as [ |b|x|s|items IH|members IH] using value_nested_ind;
    intros level Hwf.
  - eexists. constructor.
  - destruct b; eexists; constructor.
  - destruct (numberText_Val opts x Hwf) as (y & Hy). eexists. exact Hy.
  - eexists. apply quoteString_Val.
  - destruct items as [|i items].
    { exists (NArray 0 (S (length (@nil N) + 1)) []).
      apply (Val_array_empty opts []). apply Trivia_nil. }
    cbn [wellFormed] in Hwf.
    destruct (joinWith_Elems opts (COMMA :: newline fmt (S level))
                (newline fmt level ++ [RBRACKET])
                (List.map (stringify fmt (S level)) (i :: items)))
      as (ns & Hns).
    + apply newline_Separator.
    + apply newline_Closer.
    + discriminate.
    + rewrite Forall_forall in IH. rewrite forallb_forall in Hwf.
      apply Forall_forall. intros t Ht. apply in_map_iff in Ht.
      destruct Ht as (w & <- & Hw). apply (IH w Hw), (Hwf w Hw).
    + eexists.
      change (stringify fmt level (VArray (i :: items)))
        with (LBRACKET :: newline fmt (S level)
              ++ joinWith (COMMA :: newline fmt (S level))
                   (List.map (stringify fmt (S level)) (i :: items))
              ++ newline fmt level ++ [RBRACKET]).
      apply (Val_array opts _ _ ns (newline_Trivia opts fmt (S level)) Hns).
  - destruct members as [|kv members].
    { exists (NObject 0 (S (length (@nil N) + 1)) []).
      apply (Val_object_empty opts []). apply Trivia_nil. }
    cbn [wellFormed] in Hwf.
    destruct (joinWith_Mems opts (COMMA :: newline fmt (S level))
                (newline fmt level ++ [RBRACE])
                (List.map (fun kv => (quoteString (fst kv) ++ [COLON; SPACE],
                                      fst kv,
                                      stringify fmt (S level) (snd kv)))
                          (kv :: members)))
      as (ms & Hms).
    + apply newline_Separator.
    + apply newline_Closer.
    + discriminate.
    + rewrite Forall_forall in IH. rewrite forallb_forall in Hwf.
      apply Forall_forall. intros p Hp. apply in_map_iff in Hp.
      destruct Hp as (w & <- & Hw). cbn [fst snd].
      split; [apply quoteString_KeyPart | apply (IH w Hw), (Hwf w Hw)].
    + eexists. rewrite map_map in Hms. cbn [fst snd] in Hms.
      change (stringify fmt level (VObject (kv :: members)))
        with (LBRACE :: newline fmt (S level)
              ++ joinWith (COMMA :: newline fmt (S level))
                   (List.map (fun kv => quoteString (fst kv) ++ [COLON; SPACE]
                                        ++ stringify fmt (S level) (snd kv))
                             (kv :: members))
              ++ newline fmt level ++ [RBRACE]).
      erewrite (map_ext (fun kv => quoteString (fst kv) ++ [COLON; SPACE]
                                   ++ stringify fmt (S level) (snd kv)));
        [ apply (Val_object opts _ _ ms (newline_Trivia opts fmt (S level))
                   Hms) |].
      intros a. cbv beta. rewrite <- app_assoc. reflexivity.
Qed.

(** * The values of the parser are well formed *)

Lemma nodeValue_shift d (n : node) : nodeValue (shiftNode d n) = nodeValue n.
Proof.
  revert n. fix IH 1. intros [o l|o l b|o l x|o l s|o l items|o l members];
    try reflexivity.
  - rewrite shiftNode_array. cbn [nodeValue]. f_equal.
    induction items as [|i items IHl]; [reflexivity|].
    cbn [List.map]. rewrite IH, IHl. reflexivity.
  - rewrite shiftNode_object. cbn [nodeValue]. f_equal.
    generalize (@nil (jsstring * value)).
    induction members as [|[k v] members IHl]; intros acc; [reflexivity|].
    cbn [List.map fold_left shiftMember fst snd]. rewrite IH. apply IHl.
Qed.

Lemma cancelZeros_wellFormed k :
  forall m, wellFormed (VNumber (cancelZeros m k)) = true.
Proof.
  induction k as [|k IH]; intros m; [reflexivity|].
  cbn [cancelZeros]. destruct (m mod 10 =? 0)%Z; [apply IH | reflexivity].
Qed.

Lemma mkNum_wellFormed m e : wellFormed (VNumber (mkNum m e)) = true.
Proof.
  unfold mkNum. destruct (0 <=? e)%Z; [reflexivity|].
  destruct (m =? 0)%Z; [reflexivity | apply cancelZeros_wellFormed].
Qed.

Lemma parseNumber_wellFormed (t : jsstring) x r :
  parseNumber t = Some (x, r) -> wellFormed (VNumber x) = true.
Proof.
  unfold parseNumber. intros H.
  repeat match type of H with
         | context [match ?y with _ => _ end] =>
             destruct y eqn:?; try discriminate
         end;
    injection H as <- _; apply mkNum_wellFormed.
Qed.

Lemma setMember_wellFormed k v (ms : list (jsstring * value)) :
  wellFormed v = true ->
  forallb (fun kv => wellFormed (snd kv)) ms = true ->
  forallb (fun kv => wellFormed (snd kv)) (setMember k v ms) = true.
Proof.
  intros Hv. induction ms as [|[k' v'] ms IH]; intros H.
  - cbn [setMember forallb snd]. rewrite Hv. reflexivity.
  - cbn [forallb snd] in H. apply andb_true_iff in H. destruct H as [H1 H2].
    cbn [setMember]. destruct (list_eq_dec N.eq_dec k k').
    + cbn [forallb snd]. rewrite Hv, H2. reflexivity.
    + cbn [forallb snd]. rewrite H1, (IH H2). reflexivity.
Qed.

Lemma members_wellFormed (members : list (jsstring * node)) :
  forallb (fun kv => wellFormed (nodeValue (snd kv))) members = true ->
  forall acc,
    forallb (fun kv => wellFormed (snd kv)) acc = true ->
    forallb (fun kv => wellFormed (snd kv))
            (fold_left (fun ms kv => setMember (fst kv) (nodeValue (snd kv)) ms)
                       members acc) = true.
Proof.
  induction members as [|[k n] members IH]; intros H acc Hacc; [exact Hacc|].
  cbn [forallb snd] in H. apply andb_true_iff in H. destruct H as [H1 H2].
  cbn [fold_left fst snd]. apply (IH H2).
  apply setMember_wellFormed; assumption.
Qed.

Lemma forallb_shifted {A} (p : A -> bool) (f : A -> A) (l : list A) :
  (forall x, p (f x) = p x) -> forallb p (List.map f l) = forallb p l.
Proof.
  intros H. induction l as [|x l IH]; [reflexivity|].
  cbn [List.map forallb]. rewrite H, IH. reflexivity.
Qed.

Lemma Val_wellFormed opts :
  (forall t n, Val opts t n -> wellFormed (nodeValue n) = true)
  /\ (forall t items, Elems opts t items ->
        forallb (fun n => wellFormed (nodeValue n)) items = true)
  /\ (forall t ms, Mems opts t ms ->
        forallb (fun kv => wellFormed (nodeValue (snd kv))) ms = true).
Proof.
  apply (Grammar_mind opts); try reflexivity.
  - intros t x Hx. exact (parseNumber_wellFormed _ _ _ Hx).
  - intros tr t items _ _ IH. cbn [nodeValue wellFormed].
    rewrite map_map. clear - IH.
    induction items as [|i items IHl]; [reflexivity|].
    cbn [forallb List.map] in *. apply andb_true_iff in IH.
    destruct IH as [H1 H2]. rewrite nodeValue_shift, H1, (IHl H2).
    reflexivity.
  - intros tr t ms _ _ IH. cbn [nodeValue wellFormed].
    apply members_wellFormed; [|reflexivity].
    rewrite forallb_shifted; [exact IH|].
    intros [k n]. unfold shiftMember. cbn [fst snd].
    rewrite nodeValue_shift. reflexivity.
  - intros t n c _ IH _. cbn [forallb]. rewrite IH. reflexivity.
  - intros t n sp t' ns _ IHv _ _ IHe. cbn [forallb]. rewrite IHv.
    rewrite forallb_shifted; [exact IHe|].
    intros x. rewrite nodeValue_shift. reflexivity.
  - intros kp k t n c _ _ IH _. cbn [forallb snd].
    rewrite nodeValue_shift, IH. reflexivity.
  - intros kp k t n sp t' ms _ _ IHv _ _ IHm. cbn [forallb snd].
    rewrite nodeValue_shift, IHv.
    rewrite forallb_shifted; [exact IHm|].
    intros [k' x]. unfold shiftMember. cbn [fst snd].
    rewrite nodeValue_shift. reflexivity.
Qed.

(** Whatever is typed as the value, [coerceValue] makes a well-formed
    value of it. *)
Lemma coerceValue_wellFormed (raw : jsstring) :
  wellFormed (coerceValue raw) = true.
Proof.
  unfold coerceValue, JSON_parse.
  destruct (parseDocument strictJson raw) as [n|] eqn:E; [|reflexivity].
  cbn [option_map].
  destruct (parseDocument_sound _ _ _ E)
    as (tr & t & n0 & post & p & _ & _ & Hv & _ & ->).
  rewrite nodeValue_shift.
  destruct (Val_wellFormed strictJson) as (H & _ & _). exact (H _ _ Hv).
Qed.

(** * A second pass over the same path and value *)

Lemma applyEdit_at (pre mid post s : jsstring) :
  applyEdit (pre ++ mid ++ post)
            {| edOffset := length pre; edLength := length mid;
               edContent := s |}
  = pre ++ s ++ post.
Proof.
  unfold applyEdit. cbn [edOffset edLength edContent].
  rewrite firstn_app, firstn_all, Nat.sub_diag. cbn [firstn].
  rewrite app_nil_r. f_equal. f_equal.
  rewrite skipn_app, skipn_all2 by lia. cbn [app].
  replace (length pre + length mid - length pre) with (length mid) by lia.
  rewrite skipn_app, skipn_all, Nat.sub_diag. reflexivity.
Qed.

(** A pass that finds at its path the text it would write changes
    nothing. *)
Lemma editPass_settled (pre post s : jsstring) ns root path v fmt :
  s = stringify fmt (length path) v ->
  Val jsonWithComments s ns ->
  parseTree (pre ++ s ++ post) = Some root ->
  findNodeAtLocation root path = Some (shiftNode (length pre) ns) ->
  editPass (pre ++ s ++ post) path v fmt = Some (pre ++ s ++ post).
Proof.
  intros Hs Hns Hroot Hfind. unfold editPass.
  rewrite (modify_resolved _ _ _ _ v fmt Hroot Hfind).
  rewrite applyEdits_single, nodeOffset_shift, nodeLength_shift.
  destruct (Val_extent _ _ _ Hns) as (-> & ->).
  rewrite Nat.add_0_r, <- Hs, applyEdit_at. reflexivity.
Qed.

(** * Paths that the edit creates *)

Lemma editAt_app fmt v (p q : list accessor) :
  forall root depth c,
    findNodeAtLocation root p = Some c ->
    editAt fmt root depth (p ++ q) v = editAt fmt c (depth + length p) q v.
Proof.
  induction p as [|[k|i] p IH]; intros root depth c H.
  - injection H as <-. cbn [app length]. rewrite Nat.add_0_r. reflexivity.
  - destruct root as [o l|o l b|o l x|o l s|o l items|o l members];
      try discriminate. cbn [app findNodeAtLocation editAt] in *.
    destruct (findMember k members) as [child|]; [|discriminate].
    rewrite (IH _ _ _ H). cbn [length]. f_equal. lia.
  - destruct root as [o l|o l b|o l x|o l s|o l items|o l members];
      try discriminate. cbn [app findNodeAtLocation editAt] in *.
    destruct (findItem i items) as [child|]; [|discriminate].
    rewrite (IH _ _ _ H). cbn [length]. f_equal. lia.
Qed.

(** A path that settles resolves, or leads to a container that lacks its
    next accessor. *)
Lemma settles_split (path : list accessor) :
  forall root,
    settles root path = true ->
    (exists m, findNodeAtLocation root path = Some m)
    \/ exists p0 acc q c,
        path = p0 ++ acc :: q
        /\ findNodeAtLocation root p0 = Some c
        /\ freshPath q = true
        /\ ((exists k off len members,
                acc = Key k /\ c = NObject off len members
                /\ findMember k members = None)
            \/ (exists off len items,
                   acc = Index (Finite (Z.of_nat (length items)))
                   /\ c = NArray off len items)).
Proof.
  induction path as [|[k|i] path IH]; intros root H.
  - left. exists root. reflexivity.
  - destruct root as [o l|o l b|o l x|o l s|o l items|o l members];
      try discriminate. cbn [settles] in H.
    destruct (findMember k members) as [child|] eqn:Ek.
    + destruct (IH child H) as [(m & Hm) | (p0 & acc & q & c & -> & Hc & Hq
                                            & Hacc)].
      * left. exists m. cbn [findNodeAtLocation]. rewrite Ek. exact Hm.
      * right. exists (Key k :: p0), acc, q, c.
        split; [reflexivity|].
        split; [cbn [findNodeAtLocation]; rewrite Ek; exact Hc|].
        split; assumption.
    + right. exists [], (Key k), path, (NObject o l members).
      split; [reflexivity|]. split; [reflexivity|]. split; [exact H|].
      left. exists k, o, l, members. repeat split. exact Ek.
  - destruct root as [o l|o l b|o l x|o l s|o l items|o l members];
      try discriminate. cbn [settles] in H.
    destruct (findItem i items) as [child|] eqn:Ei.
    + destruct (IH child H) as [(m & Hm) | (p0 & acc & q & c & -> & Hc & Hq
                                            & Hacc)].
      * left. exists m. cbn [findNodeAtLocation]. rewrite Ei. exact Hm.
      * right. exists (Index i :: p0), acc, q, c.
        split; [reflexivity|].
        split; [cbn [findNodeAtLocation]; rewrite Ei; exact Hc|].
        split; assumption.
    + destruct i as [z|]; [|discriminate].
      apply andb_true_iff in H. destruct H as [Hz Hq].
      apply Z.eqb_eq in Hz. subst z.
      right. exists [], (Index (Finite (Z.of_nat (length items)))),
               path, (NArray o l items).
      split; [reflexivity|]. split; [reflexivity|]. split; [exact Hq|].
      right. exists o, l, items. split; reflexivity.
Qed.

Section Creation.

Variable opts : parseOptions.

(** Places compose. *)
Lemma ValContext_app (p q : list accessor) (pre post A B : jsstring) :
  ValContext opts p pre post -> ValContext opts q A B ->
  ValContext opts (p ++ q) (pre ++ A) (B ++ post).
Proof.
  intros Hp Hq s ns Hs.
  destruct (Hq s ns Hs) as (n1 & Hn1 & Hf1).
  destruct (Hp _ _ Hn1) as (n2 & Hn2 & Hf2).
  exists n2. split.
  - rewrite <- !app_assoc in *. exact Hn2.
  - rewrite (findNodeAtLocation_app _ _ _ _ Hf2).
    rewrite findNodeAtLocation_shift, Hf1. cbn [option_map].
    rewrite shiftNode_add, length_app. reflexivity.
Qed.

Lemma DocContext_app (p q : list accessor) (pre post A B : jsstring) :
  DocContext opts p pre post -> ValContext opts q A B ->
  DocContext opts (p ++ q) (pre ++ A) (B ++ post).
Proof.
  intros Hp Hq s ns Hs.
  destruct (Hq s ns Hs) as (n1 & Hn1 & Hf1).
  destruct (Hp _ _ Hn1) as (n2 & Hn2 & Hf2).
  exists n2. split.
  - rewrite <- !app_assoc in *. exact Hn2.
  - rewrite (findNodeAtLocation_app _ _ _ _ Hf2).
    rewrite findNodeAtLocation_shift, Hf1. cbn [option_map].
    rewrite shiftNode_add, length_app. reflexivity.
Qed.

Lemma findMember_same k (n : node) ms :
  findMember k ((k, n) :: ms) = Some n.
Proof.
  cbn [findMember]. destruct (list_eq_dec N.eq_dec k k); congruence.
Qed.

(** The only member of an object is a place. *)
Lemma ValContext_member k (tr kp c : jsstring) :
  Trivia opts tr -> KeyPart opts kp k -> Closer opts RBRACE c ->
  ValContext opts [Key k] (LBRACE :: tr ++ kp) c.
Proof.
  intros Htr Hkp Hc s ns Hs.
  exists (NObject 0 (S (length tr + length (kp ++ s ++ c)))
                  (List.map (shiftMember (S (length tr)))
                            [(k, shiftNode (length kp) ns)])).
  split.
  - replace ((LBRACE :: tr ++ kp) ++ s ++ c)
      with (LBRACE :: tr ++ (kp ++ s ++ c))
      by (cbn [app]; rewrite <- !app_assoc; reflexivity).
    apply Val_object; [exact Htr|]. apply Mems_last; assumption.
  - cbn [findNodeAtLocation List.map]. unfold shiftMember. cbn [fst snd].
    rewrite findMember_same, shiftNode_add. cbn [length].
    rewrite length_app. reflexivity.
Qed.

(** The only element of an array is a place. *)
Lemma ValContext_item (tr c : jsstring) :
  Trivia opts tr -> Closer opts RBRACKET c ->
  ValContext opts [Index (Finite 0)] (LBRACKET :: tr) c.
Proof.
  intros Htr Hc s ns Hs.
  exists (NArray 0 (S (length tr + length (s ++ c)))
                 (List.map (shiftNode (S (length tr))) [ns])).
  split.
  - change ((LBRACKET :: tr) ++ s ++ c) with (LBRACKET :: tr ++ (s ++ c)).
    apply Val_array; [exact Htr|]. apply Elems_last; assumption.
  - reflexivity.
Qed.

(** In what is synthesized for a fresh path, the path leads to the
    value. *)
Lemma synthesize_context fmt (v : value) (q : list accessor) :
  forall level,
    freshPath q = true ->
    exists A B,
      stringify fmt level (synthesize q v)
      = A ++ stringify fmt (level + length q) v ++ B
      /\ ValContext opts q A B.
Proof.
  induction q as [|[k|i] q IH]; intros level Hq.
  - exists [], []. cbn [synthesize length app]. rewrite Nat.add_0_r, app_nil_r.
    split; [reflexivity | apply ValContext_here].
  - cbn [freshPath forallb] in Hq.
    destruct (IH (S level) Hq) as (A & B & Hs & Hctx).
    exists ((LBRACE :: newline fmt (S level) ++ quoteString k ++ [COLON; SPACE])
            ++ A),
      (B ++ newline fmt level ++ [RBRACE]).
    split.
    + cbn [synthesize stringify List.map joinWith fst snd length].
      rewrite Hs. replace (level + S (length q)) with (S level + length q)
        by lia.
      repeat (cbn [app]; rewrite <- ?app_assoc). reflexivity.
    + apply (ValContext_app [Key k] q); [|exact Hctx].
      apply ValContext_member;
        [apply newline_Trivia | apply quoteString_KeyPart
         | apply newline_Closer].
  - cbn [freshPath forallb] in Hq. destruct i as [z|]; [|discriminate].
    apply andb_true_iff in Hq. destruct Hq as [Hz Hq].
    apply Z.eqb_eq in Hz. subst z.
    destruct (IH (S level) Hq) as (A & B & Hs & Hctx).
    exists ((LBRACKET :: newline fmt (S level)) ++ A),
      (B ++ newline fmt level ++ [RBRACKET]).
    split.
    + cbn [synthesize stringify List.map joinWith length].
      rewrite Hs. replace (level + S (length q)) with (S level + length q)
        by lia.
      repeat (cbn [app]; rewrite <- ?app_assoc). reflexivity.
    + apply (ValContext_app [Index (Finite 0)] q); [|exact Hctx].
      apply ValContext_item; [apply newline_Trivia | apply newline_Closer].
Qed.

(** ** A new last child *)

Lemma nodeEnd_shift d (n : node) : nodeEnd (shiftNode d n) = d + nodeEnd n.
Proof.
  unfold nodeEnd. rewrite nodeOffset_shift, nodeLength_shift. lia.
Qed.

Lemma values_shift d (ms : list (jsstring * node)) :
  List.map snd (List.map (shiftMember d) ms)
  = List.map (shiftNode d) (List.map snd ms).
Proof. rewrite !map_map. reflexivity. Qed.

Lemma rev_shift d (ns : list node) vlast r :
  rev ns = vlast :: r ->
  rev (List.map (shiftNode d) ns)
  = shiftNode d vlast :: List.map (shiftNode d) r.
Proof. intros H. rewrite <- map_rev, H. reflexivity. Qed.

Lemma ValContext_of_Mems k (q : list accessor) (tr pre post : jsstring) :
  Trivia opts tr -> MemsContext opts k q pre post ->
  ValContext opts (Key k :: q) (LBRACE :: tr ++ pre) post.
Proof.
  intros Htr Hctx s ns Hs.
  destruct (Hctx s ns Hs) as (ms' & child' & Hms' & Hc' & Hf').
  exists (NObject 0 (S (length tr + length (pre ++ s ++ post)))
                  (List.map (shiftMember (S (length tr))) ms')).
  split.
  - replace ((LBRACE :: tr ++ pre) ++ s ++ post)
      with (LBRACE :: tr ++ (pre ++ s ++ post))
      by (cbn [app]; rewrite <- !app_assoc; reflexivity).
    constructor; assumption.
  - cbn [findNodeAtLocation]. rewrite findMember_shift, Hc'.
    cbn [option_map]. rewrite findNodeAtLocation_shift, Hf'.
    cbn [option_map length]. rewrite shiftNode_add, length_app. reflexivity.
Qed.

Lemma ValContext_of_Elems j (q : list accessor) (tr pre post : jsstring) :
  Trivia opts tr -> ElemsContext opts j q pre post ->
  ValContext opts (Index (Finite (Z.of_nat j)) :: q)
             (LBRACKET :: tr ++ pre) post.
Proof.
  intros Htr Hctx s ns Hs.
  destruct (Hctx s ns Hs) as (items' & child' & Hit' & Hc' & Hf').
  exists (NArray 0 (S (length tr + length (pre ++ s ++ post)))
                 (List.map (shiftNode (S (length tr))) items')).
  split.
  - replace ((LBRACKET :: tr ++ pre) ++ s ++ post)
      with (LBRACKET :: tr ++ (pre ++ s ++ post))
      by (cbn [app]; rewrite <- !app_assoc; reflexivity).
    constructor; assumption.
  - cbn [findNodeAtLocation findItem].
    destruct (Z.ltb_spec (Z.of_nat j) 0) as [Hneg|_]; [lia|].
    rewrite Nat2Z.id, nth_error_map, Hc'.
    cbn [option_map]. rewrite findNodeAtLocation_shift, Hf'.
    cbn [option_map length]. rewrite shiftNode_add, length_app. reflexivity.
Qed.

(** After the last member of an object there is a place for one more. *)
Lemma Mems_append (t : jsstring) ms :
  Mems opts t ms ->
  exists body c vlast r,
    t = body ++ c /\ Closer opts RBRACE c
    /\ rev (List.map snd ms) = vlast :: r
    /\ nodeEnd vlast = length body
    /\ forall k sp kp,
        findMember k ms = None -> Separator opts sp -> KeyPart opts kp k ->
        MemsContext opts k [] (body ++ sp ++ kp) c.
Proof.
  intros Hms.
  induction Hms as [kp0 k0 t n c Hkp0 Hv Hc
                   | kp0 k0 t n sp0 t' ms Hkp0 Hv Hsp0 Hms IH].
  - exists (kp0 ++ t), c, (shiftNode (length kp0) n), [].
    split; [rewrite <- app_assoc; reflexivity|].
    split; [exact Hc|]. split; [reflexivity|].
    split.
    { rewrite nodeEnd_shift, length_app. unfold nodeEnd.
      destruct (Val_extent opts _ _ Hv) as (-> & ->). lia. }
    intros k sp kp Hk Hsp Hkp s ns Hs.
    cbn [findMember] in Hk.
    destruct (list_eq_dec N.eq_dec k k0) as [|Hne]; [discriminate|].
    exists ((k0, shiftNode (length kp0) n)
            :: List.map (shiftMember (length kp0 + length t + length sp))
                 [(k, shiftNode (length kp) ns)]),
      (shiftNode (length ((kp0 ++ t) ++ sp ++ kp)) ns).
    split.
    { replace (((kp0 ++ t) ++ sp ++ kp) ++ s ++ c)
        with (kp0 ++ t ++ sp ++ (kp ++ s ++ c))
        by (rewrite <- !app_assoc; reflexivity).
      apply Mems_cons; try assumption. apply Mems_last; assumption. }
    split; [|reflexivity].
    cbn [findMember List.map].
    destruct (list_eq_dec N.eq_dec k k0) as [|_]; [contradiction|].
    unfold shiftMember. cbn [fst snd].
    destruct (list_eq_dec N.eq_dec k k) as [_|]; [|contradiction].
    rewrite shiftNode_add, !length_app, !Nat.add_assoc. reflexivity.
  - destruct IH as (body & c & vlast & r & -> & Hc & Hrev & Hend & Hctx).
    exists (kp0 ++ t ++ sp0 ++ body), c,
      (shiftNode (length kp0 + length t + length sp0) vlast),
      (List.map (shiftNode (length kp0 + length t + length sp0)) r
       ++ [shiftNode (length kp0) n]).
    split; [rewrite <- !app_assoc; reflexivity|].
    split; [exact Hc|].
    split.
    { cbn [List.map rev snd]. rewrite values_shift.
      rewrite (rev_shift _ _ _ _ Hrev). reflexivity. }
    split.
    { rewrite nodeEnd_shift, Hend, !length_app. lia. }
    intros k sp kp Hk Hsp Hkp s ns Hs.
    cbn [findMember] in Hk.
    destruct (list_eq_dec N.eq_dec k k0) as [|Hne]; [discriminate|].
    rewrite findMember_shift in Hk.
    destruct (findMember k ms) as [x|] eqn:Ek; [discriminate|].
    destruct (Hctx k sp kp Ek Hsp Hkp s ns Hs)
      as (ms1 & child1 & Hms1 & Hc1 & Hf1).
    cbn [findNodeAtLocation] in Hf1. injection Hf1 as ->.
    exists ((k0, shiftNode (length kp0) n)
            :: List.map (shiftMember (length kp0 + length t + length sp0)) ms1),
      (shiftNode (length ((kp0 ++ t ++ sp0 ++ body) ++ sp ++ kp)) ns).
    split.
    { replace (((kp0 ++ t ++ sp0 ++ body) ++ sp ++ kp) ++ s ++ c)
        with (kp0 ++ t ++ sp0 ++ ((body ++ sp ++ kp) ++ s ++ c))
        by (rewrite <- !app_assoc; reflexivity).
      apply Mems_cons; assumption. }
    split; [|reflexivity].
    cbn [findMember].
    destruct (list_eq_dec N.eq_dec k k0) as [|_]; [contradiction|].
    rewrite findMember_shift, Hc1. cbn [option_map].
    rewrite shiftNode_add, !length_app, !Nat.add_assoc. reflexivity.
Qed.

(** After the last element of an array there is a place for one more. *)
Lemma Elems_append (t : jsstring) items :
  Elems opts t items ->
  exists body c vlast r,
    t = body ++ c /\ Closer opts RBRACKET c
    /\ rev items = vlast :: r
    /\ nodeEnd vlast = length body
    /\ forall sp,
        Separator opts sp ->
        ElemsContext opts (length items) [] (body ++ sp) c.
Proof.
  intros Hel.
  induction Hel as [t n c Hv Hc | t n sp0 t' ns0 Hv Hsp0 Hel IH].
  - exists t, c, n, [].
    split; [reflexivity|]. split; [exact Hc|]. split; [reflexivity|].
    split.
    { unfold nodeEnd. destruct (Val_extent opts _ _ Hv) as (-> & ->). lia. }
    intros sp Hsp s ns Hs.
    exists (n :: List.map (shiftNode (length t + length sp)) [ns]),
      (shiftNode (length (t ++ sp)) ns).
    split.
    { replace ((t ++ sp) ++ s ++ c) with (t ++ sp ++ (s ++ c))
        by (rewrite <- !app_assoc; reflexivity).
      apply Elems_cons; try assumption. apply Elems_last; assumption. }
    split; [|reflexivity].
    cbn [length nth_error List.map]. rewrite length_app. reflexivity.
  - destruct IH as (body & c & vlast & r & -> & Hc & Hrev & Hend & Hctx).
    exists (t ++ sp0 ++ body), c,
      (shiftNode (length t + length sp0) vlast),
      (List.map (shiftNode (length t + length sp0)) r ++ [n]).
    split; [rewrite <- !app_assoc; reflexivity|].
    split; [exact Hc|].
    split.
    { cbn [rev]. rewrite (rev_shift _ _ _ _ Hrev). reflexivity. }
    split.
    { rewrite nodeEnd_shift, Hend, !length_app. lia. }
    intros sp Hsp s ns Hs.
    destruct (Hctx sp Hsp s ns Hs) as (items1 & child1 & Hit1 & Hc1 & Hf1).
    cbn [findNodeAtLocation] in Hf1. injection Hf1 as ->.
    exists (n :: List.map (shiftNode (length t + length sp0)) items1),
      (shiftNode (length ((t ++ sp0 ++ body) ++ sp)) ns).
    split.
    { replace (((t ++ sp0 ++ body) ++ sp) ++ s ++ c)
        with (t ++ sp0 ++ ((body ++ sp) ++ s ++ c))
        by (rewrite <- !app_assoc; reflexivity).
      apply Elems_cons; assumption. }
    split; [|reflexivity].
    cbn [length nth_error]. rewrite length_map, nth_error_map, Hc1.
    cbn [option_map]. rewrite shiftNode_add, !length_app, !Nat.add_assoc.
    reflexivity.
Qed.

Lemma applyEdit_insert (x y c : jsstring) o :
  o = length x ->
  applyEdit (x ++ y) {| edOffset := o; edLength := 0; edContent := c |}
  = x ++ c ++ y.
Proof. intros ->. exact (applyEdit_at x [] y c). Qed.

Lemma insertChild_last fmt depth off children text previous r :
  rev children = previous :: r ->
  insertChild fmt depth off children text
  = {| edOffset := nodeEnd previous; edLength := 0;
       edContent := COMMA :: newline fmt (S depth) ++ text |}.
Proof. intros H. unfold insertChild. rewrite H. reflexivity. Qed.

(** The edit for a key that an object lacks writes the member in a place
    where the key leads to its value. *)
Lemma insert_member fmt depth k (mid : jsstring) l members0 :
  Val opts mid (NObject 0 l members0) -> findMember k members0 = None ->
  exists A B,
    ValContext opts [Key k] A B
    /\ forall (pre post s : jsstring),
        applyEdit (pre ++ mid ++ post)
          (insertChild fmt depth (length pre + 0)
             (List.map snd (List.map (shiftMember (length pre)) members0))
             (quoteString k ++ [COLON; SPACE] ++ s))
        = pre ++ (A ++ s ++ B) ++ post.
Proof.
  intros Hv Hk. remember (NObject 0 l members0) as n eqn:En.
  destruct Hv as [ | | | t x Hx | body s0 Hb | tr Htr | tr t items Htr Hel
                 | tr Htr | tr t ms Htr Hms ]; try discriminate.
  - injection En as _ <-.
    exists (LBRACE :: newline fmt (S depth) ++ quoteString k ++ [COLON; SPACE]),
      ((newline fmt depth ++ tr) ++ [RBRACE]).
    split.
    { apply ValContext_member;
        [apply newline_Trivia | apply quoteString_KeyPart|].
      constructor. apply Trivia_app; [apply newline_Trivia | exact Htr]. }
    intros pre post s. cbn [List.map]. unfold insertChild. cbn [rev].
    replace (pre ++ (LBRACE :: tr ++ [RBRACE]) ++ post)
      with ((pre ++ [LBRACE]) ++ (tr ++ [RBRACE] ++ post))
      by (repeat (cbn [app]; rewrite <- ?app_assoc); reflexivity).
    rewrite applyEdit_insert by (rewrite length_app; cbn [length]; lia).
    repeat (cbn [app]; rewrite <- ?app_assoc). reflexivity.
  - injection En as _ <-.
    rewrite findMember_shift in Hk.
    destruct (findMember k ms) as [x|] eqn:Ek; [discriminate|].
    destruct (Mems_append _ _ Hms)
      as (body & c & vlast & r & -> & Hc & Hrev & Hend & Hctx).
    exists (LBRACE :: tr ++ body ++ (COMMA :: newline fmt (S depth))
            ++ quoteString k ++ [COLON; SPACE]), c.
    split.
    { apply ValContext_of_Mems; [exact Htr|].
      apply Hctx; [exact Ek | apply newline_Separator
                   | apply quoteString_KeyPart]. }
    intros pre post s. rewrite !values_shift.
    rewrite (insertChild_last _ _ _ _ _ _ _
               (rev_shift _ _ _ _ (rev_shift _ _ _ _ Hrev))).
    replace (pre ++ (LBRACE :: tr ++ body ++ c) ++ post)
      with ((pre ++ LBRACE :: tr ++ body) ++ (c ++ post))
      by (repeat (cbn [app]; rewrite <- ?app_assoc); reflexivity).
    rewrite applyEdit_insert
      by (rewrite !nodeEnd_shift, Hend, !length_app; cbn [length];
          rewrite length_app; lia).
    repeat (cbn [app]; rewrite <- ?app_assoc). reflexivity.
Qed.

(** The edit for the index after the last element of an array writes the
    element in a place where the index leads to it. *)
Lemma insert_item fmt depth (mid : jsstring) l items0 :
  Val opts mid (NArray 0 l items0) ->
  exists A B,
    ValContext opts [Index (Finite (Z.of_nat (length items0)))] A B
    /\ forall (pre post s : jsstring),
        applyEdit (pre ++ mid ++ post)
          (insertChild fmt depth (length pre + 0)
             (List.map (shiftNode (length pre)) items0) s)
        = pre ++ (A ++ s ++ B) ++ post.
Proof.
  intros Hv. remember (NArray 0 l items0) as n eqn:En.
  destruct Hv as [ | | | t x Hx | body s0 Hb | tr Htr | tr t items Htr Hel
                 | tr Htr | tr t ms Htr Hms ]; try discriminate.
  - injection En as _ <-.
    exists (LBRACKET :: newline fmt (S depth)),
      ((newline fmt depth ++ tr) ++ [RBRACKET]).
    split.
    { apply ValContext_item; [apply newline_Trivia|].
      constructor. apply Trivia_app; [apply newline_Trivia | exact Htr]. }
    intros pre post s. cbn [List.map]. unfold insertChild. cbn [rev].
    replace (pre ++ (LBRACKET :: tr ++ [RBRACKET]) ++ post)
      with ((pre ++ [LBRACKET]) ++ (tr ++ [RBRACKET] ++ post))
      by (repeat (cbn [app]; rewrite <- ?app_assoc); reflexivity).
    rewrite applyEdit_insert by (rewrite length_app; cbn [length]; lia).
    repeat (cbn [app]; rewrite <- ?app_assoc). reflexivity.
  - injection En as _ <-.
    destruct (Elems_append _ _ Hel)
      as (body & c & vlast & r & -> & Hc & Hrev & Hend & Hctx).
    exists (LBRACKET :: tr ++ body ++ (COMMA :: newline fmt (S depth))), c.
    split.
    { rewrite length_map. apply ValContext_of_Elems; [exact Htr|].
      apply Hctx, newline_Separator. }
    intros pre post s.
    rewrite (insertChild_last _ _ _ _ _ _ _
               (rev_shift _ _ _ _ (rev_shift _ _ _ _ Hrev))).
    replace (pre ++ (LBRACKET :: tr ++ body ++ c) ++ post)
      with ((pre ++ LBRACKET :: tr ++ body) ++ (c ++ post))
      by (repeat (cbn [app]; rewrite <- ?app_assoc); reflexivity).
    rewrite applyEdit_insert
      by (rewrite !nodeEnd_shift, Hend, !length_app; cbn [length];
          rewrite length_app; lia).
    repeat (cbn [app]; rewrite <- ?app_assoc). reflexivity.
Qed.

End Creation.

(** * Two passes *)

Lemma modify_parsed (text : jsstring) root path v fmt :
  parseTree text = Some root ->
  modify text path v fmt
  = match editAt fmt root 0 path v with
    | Some e => Edits [e]
    | None => Failed PathThroughScalarError
    end.
Proof.
  intros Hp. unfold modify.
  destruct (trim text) as [|c r] eqn:Et.
  - unfold parseTree in Hp. rewrite parseDocument_blank in Hp by exact Et.
    discriminate.
  - rewrite Hp. reflexivity.
Qed.

(** A document of white space only is edited as the empty object. *)
Lemma editPass_blank (text : jsstring) path v fmt :
  trim text = [] ->
  editPass text path v fmt = editPass [LBRACE; RBRACE] path v fmt.
Proof.
  intros Hb. unfold editPass, modify. rewrite Hb.
  change (trim [LBRACE; RBRACE]) with [LBRACE; RBRACE]. cbv iota.
  destruct (parseTree [LBRACE; RBRACE]) as [root|]; [|reflexivity].
  destruct (editAt fmt root 0 path v) as [e|]; [|reflexivity].
  rewrite !applyEdits_single. f_equal.
  unfold applyEdit at 1. cbn [edOffset edLength edContent firstn Nat.add app].
  rewrite skipn_all. apply app_nil_r.
Qed.

(** A pass over a path whose rest the edit creates writes the value in a
    place where, in the new text, the path leads to it. *)
Lemma editPass_created (text : jsstring) root p0 acc q c v fmt :
  parseTree text = Some root ->
  findNodeAtLocation root p0 = Some c ->
  freshPath q = true ->
  (exists k off len members,
      acc = Key k /\ c = NObject off len members
      /\ findMember k members = None)
  \/ (exists off len items,
         acc = Index (Finite (Z.of_nat (length items)))
         /\ c = NArray off len items) ->
  exists pre post,
    editPass text (p0 ++ acc :: q) v fmt
    = Some (pre ++ stringify fmt (length (p0 ++ acc :: q)) v ++ post)
    /\ DocContext jsonWithComments (p0 ++ acc :: q) pre post.
Proof.
  intros Hroot Hc Hq Hacc.
  pose proof (parseDocument_sound _ _ _ Hroot) as Hdoc.
  destruct (Document_context _ _ _ _ _ Hdoc Hc)
    as (pre & mid & post & c0 & Htext & Hmid & Hc0 & Hctx).
  destruct (synthesize_context jsonWithComments fmt v q (S (length p0)) Hq)
    as (A' & B' & Hs & Hctx').
  assert (Hlen : length (p0 ++ acc :: q) = S (length p0) + length q)
    by (rewrite length_app; cbn [length]; lia).
  unfold editPass. rewrite (modify_parsed _ _ _ v fmt Hroot).
  rewrite (editAt_app fmt v p0 (acc :: q) root 0 c Hc). cbn [Nat.add].
  destruct Hacc as [(k & off & len & members & -> & -> & Hk)
                   | (off & len & items & -> & ->)].
  - destruct c0 as [o l|o l b|o l x|o l s|o l items0|o l members0];
      try discriminate.
    rewrite shiftNode_object in Hc0. injection Hc0 as -> -> ->.
    destruct (Val_extent _ _ _ Hmid) as (Ho & _). cbn [nodeOffset] in Ho.
    subst o. rewrite findMember_shift in Hk.
    destruct (findMember k members0) as [x|] eqn:Ek; [discriminate|].
    destruct (insert_member jsonWithComments fmt (length p0) k mid l members0
                Hmid Ek) as (A & B & HctxA & Hedit).
    exists (pre ++ A ++ A'), (B' ++ B ++ post).
    split.
    + cbn [editAt]. rewrite findMember_shift, Ek. cbn [option_map].
      rewrite applyEdits_single, Htext, Hedit, Hs, Hlen.
      f_equal. rewrite <- !app_assoc. reflexivity.
    + change (p0 ++ Key k :: q) with (p0 ++ [Key k] ++ q).
      rewrite (app_assoc p0), (app_assoc pre).
      apply DocContext_app; [|exact Hctx'].
      apply DocContext_app; assumption.
  - destruct c0 as [o l|o l b|o l x|o l s|o l items0|o l members0];
      try discriminate.
    rewrite shiftNode_array in Hc0. injection Hc0 as -> -> ->.
    destruct (Val_extent _ _ _ Hmid) as (Ho & _). cbn [nodeOffset] in Ho.
    subst o.
    destruct (insert_item jsonWithComments fmt (length p0) mid l items0 Hmid)
      as (A & B & HctxA & Hedit).
    rewrite length_map in *.
    exists (pre ++ A ++ A'), (B' ++ B ++ post).
    split.
    + cbn [editAt findItem].
      destruct (Z.ltb_spec (Z.of_nat (length items0)) 0) as [Hneg|_]; [lia|].
      rewrite Nat2Z.id.
      rewrite (proj2 (nth_error_None _ _))
        by (rewrite length_map; apply Nat.le_refl).
      rewrite applyEdits_single, Htext, Hedit, Hs, Hlen.
      f_equal. rewrite <- !app_assoc. reflexivity.
    + change (p0 ++ Index (Finite (Z.of_nat (length items0))) :: q)
        with (p0 ++ [Index (Finite (Z.of_nat (length items0)))] ++ q).
      rewrite (app_assoc p0), (app_assoc pre).
      apply DocContext_app; [|exact Hctx'].
      apply DocContext_app; assumption.
Qed.

(** On a document that parses, a pass over a path that settles writes the
    value where the path leads in the new text. *)
Lemma editPass_settles (text : jsstring) root path v fmt :
  parseTree text = Some root ->
  settles root path = true ->
  exists pre post,
    editPass text path v fmt
    = Some (pre ++ stringify fmt (length path) v ++ post)
    /\ DocContext jsonWithComments path pre post.
Proof.
  intros Hroot Hset.
  destruct (settles_split path root Hset)
    as [(m & Hm) | (p0 & acc & q & c & -> & Hc & Hq & Hacc)].
  - pose proof (parseDocument_sound _ _ _ Hroot) as Hdoc.
    destruct (Document_context _ _ _ _ _ Hdoc Hm)
      as (pre & mid & post & m0 & Htext & Hmid & -> & Hctx).
    exists pre, post. split; [|exact Hctx].
    unfold editPass. rewrite (modify_resolved _ _ _ _ v fmt Hroot Hm).
    rewrite applyEdits_single, nodeOffset_shift, nodeLength_shift.
    destruct (Val_extent _ _ _ Hmid) as (-> & ->).
    rewrite Nat.add_0_r, Htext, applyEdit_at. reflexivity.
  - apply (editPass_created text root p0 acc q c v fmt); assumption.
Qed.

(** Two passes over a path that settles: the second finds the value the
    first wrote and writes it again in the same place. *)
Lemma editPass_twice (text : jsstring) root path v fmt :
  parseTree text = Some root ->
  settles root path = true ->
  wellFormed v = true ->
  exists text1,
    editPass text path v fmt = Some text1
    /\ editPass text1 path v fmt = Some text1.
Proof.
  intros Hroot Hset Hwf.
  destruct (editPass_settles text root path v fmt Hroot Hset)
    as (pre & post & Hpass & Hctx).
  destruct (stringify_Val jsonWithComments fmt v (length path) Hwf)
    as (ns & Hns).
  destruct (Hctx _ _ Hns) as (root1 & Hdoc1 & Hfind1).
  eexists. split; [exact Hpass|].
  apply (editPass_settled pre post _ ns root1 path v fmt eq_refl Hns);
    [exact (parseDocument_complete _ _ _ Hdoc1) | exact Hfind1].
Qed.

(** The gate on [x = {not json}; y = {}] when the call of [parseTree]
    fails on a malformed text, as [Editor.parseTree] does. *)
Example findJsonVariables_gate_strict :
  (In {| name := js "y"; json := js "{}"; jsonStart := 20; jsonEnd := 22 |}
      (findJsonVariables parseTree (js "x = {not json}; y = {}"))
   /\ exists t, parseTree (js "{}") = Some t)
  /\ (orElse (group (js "x = {not json}; y = {}")
                    {| index := 0; matchEnd := 15;
                       groups := [(2, (4, 14)); (1, (0, 1))] |} 2)
             (group (js "x = {not json}; y = {}")
                    {| index := 0; matchEnd := 15;
                       groups := [(2, (4, 14)); (1, (0, 1))] |} 3)
      = Some (js "{not json}")
      /\ parseTree (js "{not json}") = None
      /\ recordMatch parseTree (js "x = {not json}; y = {}")
                     {| index := 0; matchEnd := 15;
                        groups := [(2, (4, 14)); (1, (0, 1))] |} []
         = [])
  /\ (exec jsonVariablePattern (js "x = {not json}; y = {}") 0
      = Some {| index := 0; matchEnd := 15;
                groups := [(2, (4, 14)); (1, (0, 1))] |}
      /\ 0 < 15)
  /\ (length (js "x = {not json}; y = {}") < 40
      /\ findLoop parseTree 40 (js "x = {not json}; y = {}") 0 []
         = Some (findJsonVariables parseTree (js "x = {not json}; y = {}"))).
Proof.
  destruct (findJsonVariables_gate node parseTree (js "x = {not json}; y = {}"))
    as (Hin & Hgate & Hadv & Hloop).
  split; [|split; [|split]].
  - assert (H : In {| name := js "y"; json := js "{}";
                      jsonStart := 20; jsonEnd := 22 |}
                   (findJsonVariables parseTree (js "x = {not json}; y = {}")))
      by (vm_compute; left; reflexivity).
    split; [exact H | exact (Hin _ H)].
  - assert (H1 : orElse (group (js "x = {not json}; y = {}")
                    {| index := 0; matchEnd := 15;
                       groups := [(2, (4, 14)); (1, (0, 1))] |} 2)
             (group (js "x = {not json}; y = {}")
                    {| index := 0; matchEnd := 15;
                       groups := [(2, (4, 14)); (1, (0, 1))] |} 3)
                 = Some (js "{not json}")) by (vm_compute; reflexivity).
    assert (H2 : parseTree (js "{not json}") = None) by (vm_compute; reflexivity).
    split; [exact H1|]. split; [exact H2 | exact (Hgate _ [] _ H1 H2)].
  - assert (H : exec jsonVariablePattern (js "x = {not json}; y = {}") 0
                = Some {| index := 0; matchEnd := 15;
                          groups := [(2, (4, 14)); (1, (0, 1))] |})
      by (vm_compute; reflexivity).
    split; [exact H | exact (Hadv _ _ H)].
  - assert (H : length (js "x = {not json}; y = {}") < 40)
      by (apply Nat.ltb_lt; vm_compute; reflexivity).
    split; [exact H | exact (Hloop _ H)].
Qed.

(** C1, at the input on which the code departs from it: in
    [x = {not json};] the pattern captures [{not json}], which is no
    JSON-with-comments document.  The gate of [findJsonVariables] drops a
    match only when the call of [parseTree] throws, and it discards what
    the call returns; so with any parser whose call returns on
    [{not json}] the scan returns the candidate [x] with that text, where
    a gate that fails on a malformed text returns no candidate. *)
Theorem C1_malformed_candidate_kept (tree : Type)
        (parse : jsstring -> option tree) (t : tree) :
  parse (js "{not json}") = Some t ->
  findJsonVariables parse (js "x = {not json};")
  = [{| name := js "x"; json := js "{not json}";
        jsonStart := 4; jsonEnd := 14 |}]
  /\ (forall n, ~ Document jsonWithComments (js "{not json}") n)
  /\ findJsonVariables parseTree (js "x = {not json};") = [].
Proof.
  intros H. split; [|split].
  - unfold findJsonVariables. vm_compute.
    change (parse (js "{not json}"))
      with (parse [123%N; 110%N; 111%N; 116%N; 32%N; 106%N; 115%N; 111%N;
                   110%N; 125%N]) in H.
    rewrite H. reflexivity.
  - intros n Hdoc. apply parseDocument_complete in Hdoc.
    vm_compute in Hdoc. discriminate Hdoc.
  - vm_compute. reflexivity.
Qed.

Lemma C1_malformed_candidate_kept_witness :
  (fun text : jsstring => Some (parseTree text)) (js "{not json}")
  = Some None
  /\ findJsonVariables (fun text : jsstring => Some (parseTree text))
                        (js "x = {not json};")
     = [{| name := js "x"; json := js "{not json}";
           jsonStart := 4; jsonEnd := 14 |}].
Proof.
  assert (H : (fun text : jsstring => Some (parseTree text))
                (js "{not json}") = Some None)
    by (vm_compute; reflexivity).
  split; [exact H|].
  exact (proj1 (C1_malformed_candidate_kept
                  (option node)
                  (fun text : jsstring => Some (parseTree text)) None H)).
Defined.

(** * Claims about the structural editor *)

(** C2: in [{"a":{"b":1,"c":2} /* keep */}] the path [a.b] resolves to
    the value [1] at offset 10; the edit for any new value replaces that
    one code unit by the serialized value, and the result is the document
    with everything before offset 10 and everything from offset 11 on,
    the member [c] and the comment among it, unchanged.  In general, where
    the path resolves, all text outside the resolved node is kept. *)
Theorem C2_non_interference (v : value) (fmt : FormattingOptions) :
  parsePath (js "a.b") = [Key (js "a"); Key (js "b")]
  /\ slice keepDocument 10 11 = js "1"
  /\ modify keepDocument [Key (js "a"); Key (js "b")] v fmt
     = Edits [{| edOffset := 10; edLength := 1;
                 edContent := stringify fmt 2 v |}]
  /\ editPass keepDocument [Key (js "a"); Key (js "b")] v fmt
     = Some (jq "{`a`:{`b`:" ++ stringify fmt 2 v ++ jq ",`c`:2} /* keep */}")
  /\ (forall raw,
        insertPathAndValue LangJsonc keepDocument (typed [] (js "a.b") raw) fmt
        = Replaced (jq "{`a`:{`b`:" ++ stringify fmt 2 (coerceValue raw)
                    ++ jq ",`c`:2} /* keep */}"))
  /\ (forall text root path n,
        parseTree text = Some root ->
        findNodeAtLocation root path = Some n ->
        editPass text path v fmt
        = Some (firstn (nodeOffset n) text ++ stringify fmt (length path) v
                ++ skipn (nodeEnd n) text)).
Proof.
  assert (Hp : parseTree keepDocument
               = Some (NObject 0 30
                         [(js "a",
                           NObject 5 13
                             [(js "b", NNumber 10 1 (JInt 1));
                              (js "c", NNumber 16 1 (JInt 2))])]))
    by (vm_compute; reflexivity).
  assert (Hm : forall w,
             modify keepDocument [Key (js "a"); Key (js "b")] w fmt
             = Edits [{| edOffset := 10; edLength := 1;
                         edContent := stringify fmt 2 w |}]).
  { intros w.
    exact (modify_resolved keepDocument _ [Key (js "a"); Key (js "b")]
             (NNumber 10 1 (JInt 1)) w fmt Hp eq_refl). }
  assert (He : forall w,
             editPass keepDocument [Key (js "a"); Key (js "b")] w fmt
             = Some (jq "{`a`:{`b`:" ++ stringify fmt 2 w
                     ++ jq ",`c`:2} /* keep */}")).
  { intros w. unfold editPass. rewrite Hm. reflexivity. }
  split; [vm_compute; reflexivity|].
  split; [vm_compute; reflexivity|].
  split; [apply Hm|].
  split; [apply He|].
  split.
  - intros raw. unfold insertPathAndValue.
    cbn [negb selectTarget isProgramSource typed orElse pathInput valueInput
         text isWrapped].
    assert (Ht : trim keepDocument = keepDocument) by (vm_compute; reflexivity).
    rewrite Ht.
    assert (Hpath : parsePath (js "a.b") = [Key (js "a"); Key (js "b")])
      by (vm_compute; reflexivity).
    change (match js "a.b" with
            | [] => None
            | _ :: _ => Some (js "a.b")
            end) with (Some (js "a.b")).
    change (match keepDocument with
            | [] => [LBRACE; RBRACE]
            | _ :: _ => keepDocument
            end) with keepDocument.
    cbv iota. rewrite Hpath.
    specialize (He (coerceValue raw)). unfold editPass in He.
    destruct (modify keepDocument [Key (js "a"); Key (js "b")]
                     (coerceValue raw) fmt) as [edits|e]; [|discriminate].
    injection He as ->. reflexivity.
  - intros text root path n Hroot Hn. unfold editPass.
    rewrite (modify_resolved text root path n v fmt Hroot Hn).
    rewrite applyEdits_single. reflexivity.
Qed.

Lemma C2_non_interference_witness :
  parseTree (jq "[1, {`k`: true} ] // end")
  = Some (NArray 0 17 [NNumber 1 1 (JInt 1);
                       NObject 4 11 [(js "k", NBool 10 4 true)]])
  /\ findNodeAtLocation
       (NArray 0 17 [NNumber 1 1 (JInt 1);
                     NObject 4 11 [(js "k", NBool 10 4 true)]])
       [Index (Finite 1); Key (js "k")]
     = Some (NBool 10 4 true)
  /\ editPass (jq "[1, {`k`: true} ] // end")
              [Index (Finite 1); Key (js "k")] VNull
              (detectFormattingOptions None)
     = Some (jq "[1, {`k`: null} ] // end").
Proof.
  assert (H1 : parseTree (jq "[1, {`k`: true} ] // end")
               = Some (NArray 0 17 [NNumber 1 1 (JInt 1);
                                    NObject 4 11 [(js "k", NBool 10 4 true)]]))
    by (vm_compute; reflexivity).
  assert (H2 : findNodeAtLocation
                 (NArray 0 17 [NNumber 1 1 (JInt 1);
                               NObject 4 11 [(js "k", NBool 10 4 true)]])
                 [Index (Finite 1); Key (js "k")]
               = Some (NBool 10 4 true)) by reflexivity.
  split; [exact H1|]. split; [exact H2|].
  exact (proj2 (proj2 (proj2 (proj2 (proj2
           (C2_non_interference VNull (detectFormattingOptions None))))))
           _ _ _ _ H1 H2).
Defined.

(** * The embedded-object round trip *)

(** C5: in [const cfg = {"x":1};\nconsole.log(cfg);] the locator finds
    one candidate, named [cfg], whose offsets 12 and 19 delimit exactly
    the object literal; this holds with every [parseTree] that returns on
    the literal.  Choosing [cfg] and setting path [x] to [2] replaces the
    document by [const cfg = {"x":2};\nconsole.log(cfg);], whatever the
    formatting options; the text from the end of the literal on is the
    same before and after. *)
Theorem C5_embedded_round_trip :
  (forall (tree : Type) (parse : jsstring -> option tree) (t : tree),
      parse (jq "{`x`:1}") = Some t ->
      findJsonVariables parse cfgSource
      = [{| name := js "cfg"; json := jq "{`x`:1}";
            jsonStart := 12; jsonEnd := 19 |}])
  /\ findJsonVariables parseTree cfgSource
     = [{| name := js "cfg"; json := jq "{`x`:1}";
           jsonStart := 12; jsonEnd := 19 |}]
  /\ slice cfgSource 12 19 = jq "{`x`:1}"
  /\ slice cfgSource 0 12 = js "const cfg = "
  /\ sliceFrom cfgSource 19 = js ";" ++ [LF] ++ js "console.log(cfg);"
  /\ (forall fmt,
        insertPathAndValue LangJavascript cfgSource
                           (typed (js "cfg") (js "x") (js "2")) fmt
        = Replaced (jq "const cfg = {`x`:2};" ++ [LF] ++ js "console.log(cfg);"))
  /\ (forall fmt,
        insertPathAndValue LangTypescript cfgSource
                           (typed (js "cfg") (js "x") (js "2")) fmt
        = Replaced (jq "const cfg = {`x`:2};" ++ [LF] ++ js "console.log(cfg);"))
  /\ sliceFrom (jq "const cfg = {`x`:2};" ++ [LF] ++ js "console.log(cfg);") 19
     = sliceFrom cfgSource 19.
Proof.
  split.
  { intros tree parse t H. unfold findJsonVariables. vm_compute.
    change (parse (jq "{`x`:1}"))
      with (parse [123%N; 34%N; 120%N; 34%N; 58%N; 49%N; 125%N]) in H.
    rewrite H. reflexivity. }
  repeat split; try (intros fmt); vm_compute; reflexivity.
Qed.

Lemma C5_embedded_round_trip_witness :
  parseTree (jq "{`x`:1}")
  = Some (NObject 0 7 [(js "x", NNumber 5 1 (JInt 1))])
  /\ findJsonVariables parseTree cfgSource
     = [{| name := js "cfg"; json := jq "{`x`:1}";
           jsonStart := 12; jsonEnd := 19 |}].
Proof.
  assert (H : parseTree (jq "{`x`:1}")
              = Some (NObject 0 7 [(js "x", NNumber 5 1 (JInt 1))]))
    by (vm_compute; reflexivity).
  split; [exact H|].
  exact (proj1 C5_embedded_round_trip node parseTree _ H).
Defined.

(** * The value of a created document *)

(** An object with one member. *)
Lemma single_member opts (tr kp k t c : jsstring) n :
  Trivia opts tr -> KeyPart opts kp k -> Val opts t n ->
  Closer opts RBRACE c ->
  exists n',
    Val opts (LBRACE :: tr ++ kp ++ t ++ c) n'
    /\ nodeValue n' = VObject [(k, nodeValue n)].
Proof.
  intros Htr Hkp Hv Hc. eexists. split.
  - apply (Val_object opts tr _ _ Htr (Mems_last opts kp k t n c Hkp Hv Hc)).
  - cbn [nodeValue List.map fold_left]. unfold shiftMember. cbn [fst snd].
    rewrite !nodeValue_shift. reflexivity.
Qed.

(** An array with one element. *)
Lemma single_item opts (tr t c : jsstring) n :
  Trivia opts tr -> Val opts t n -> Closer opts RBRACKET c ->
  exists n',
    Val opts (LBRACKET :: tr ++ t ++ c) n'
    /\ nodeValue n' = VArray [nodeValue n].
Proof.
  intros Htr Hv Hc. eexists. split.
  - apply (Val_array opts tr _ _ Htr (Elems_last opts t n c Hv Hc)).
  - cbn [nodeValue List.map]. rewrite nodeValue_shift. reflexivity.
Qed.

(** A value that is the whole text is a document. *)
Lemma Val_Document opts (t : jsstring) n :
  Val opts t n -> parseDocument opts t = Some n.
Proof.
  intros Hv. apply parseDocument_complete.
  exists [], t, n, [], 0. cbn [app length]. rewrite app_nil_r, shiftNode_0.
  split; [reflexivity|]. split; [apply Trivia_nil|].
  split; [exact Hv|]. split; reflexivity.
Qed.

(** The document that the editor creates for [a[0].b] and [5], whatever
    the indentation, is the value [{"a":[{"b":5}]}]. *)
Lemma parse_created opts fmt :
  exists n,
    parseDocument opts
      (stringify fmt 0
         (VObject [(js "a", VArray [VObject [(js "b", VNumber (JInt 5))]])]))
    = Some n
    /\ nodeValue n
       = VObject [(js "a", VArray [VObject [(js "b", VNumber (JInt 5))]])].
Proof.
  assert (H5 : Val opts [53%N] (NNumber 0 1 (JInt 5)))
    by (apply (Val_number opts [53%N]); reflexivity).
  destruct (single_member opts (newline fmt 3)
              (quoteString (js "b") ++ [COLON; SPACE]) (js "b") [53%N]
              (newline fmt 2 ++ [RBRACE]) _
              (newline_Trivia opts fmt 3) (quoteString_KeyPart opts (js "b"))
              H5 (newline_Closer opts fmt 2 RBRACE)) as (nb & Hb & Vb).
  destruct (single_item opts (newline fmt 2) _ (newline fmt 1 ++ [RBRACKET]) _
              (newline_Trivia opts fmt 2) Hb
              (newline_Closer opts fmt 1 RBRACKET)) as (na & Ha & Va).
  destruct (single_member opts (newline fmt 1)
              (quoteString (js "a") ++ [COLON; SPACE]) (js "a") _
              (newline fmt 0 ++ [RBRACE]) _
              (newline_Trivia opts fmt 1) (quoteString_KeyPart opts (js "a"))
              Ha (newline_Closer opts fmt 0 RBRACE)) as (n & Hn & Vn).
  exists n. split.
  - apply Val_Document.
    cbn [stringify List.map joinWith fst snd].
    change (numberText (JInt 5)) with [53%N].
    repeat (cbn [app]; rewrite <- ?app_assoc).
    repeat (cbn [app] in Hn; rewrite <- ?app_assoc in Hn).
    exact Hn.
  - rewrite Vn, Va, Vb. reflexivity.
Qed.

(** * Creation of a missing path *)

(** C3: on the document [{}], the path [a[0].b] and the value [5], every
    accessor is missing; the rest of the path is synthesized as an array
    for the index and an object for the key, and inserted under the key
    [a].  Whatever the formatting options, the new text parses, as strict
    JSON, to the value [{"a":[{"b":5}]}]; with two spaces per level it is
    that value written one token group per line. *)
Theorem C3_missing_path_created (fmt : FormattingOptions) :
  parsePath (js "a[0].b") = [Key (js "a"); Index (Finite 0); Key (js "b")]
  /\ coerceValue (js "5") = VNumber (JInt 5)
  /\ synthesize [Index (Finite 0); Key (js "b")] (VNumber (JInt 5))
     = VArray [VObject [(js "b", VNumber (JInt 5))]]
  /\ exists newText,
      editPass (js "{}") (parsePath (js "a[0].b")) (coerceValue (js "5")) fmt
      = Some newText
      /\ insertPathAndValue LangJson (js "{}")
                            (typed [] (js "a[0].b") (js "5")) fmt
         = Replaced newText
      /\ JSON_parse newText
         = Some (VObject
                   [(js "a", VArray [VObject [(js "b", VNumber (JInt 5))]])])
      /\ (fmt = detectFormattingOptions None ->
          newText = js "{" ++ [LF] ++ jq "  `a`: [" ++ [LF]
                    ++ js "    {" ++ [LF] ++ jq "      `b`: 5" ++ [LF]
                    ++ js "    }" ++ [LF] ++ js "  ]" ++ [LF] ++ js "}").
Proof.
  split; [vm_compute; reflexivity|].
  split; [vm_compute; reflexivity|].
  split; [reflexivity|].
  exists (LBRACE :: newline fmt 1 ++ DQUOTE :: [97; 34]%N ++ COLON :: SPACE ::
          LBRACKET :: newline fmt 2 ++
          LBRACE :: newline fmt 3 ++ DQUOTE :: [98; 34]%N ++ COLON :: SPACE ::
          53%N :: newline fmt 2 ++ RBRACE :: newline fmt 1 ++
          RBRACKET :: newline fmt 0 ++ RBRACE :: []).
  assert (Hpath : parsePath (js "a[0].b")
                  = [Key (js "a"); Index (Finite 0); Key (js "b")])
    by (vm_compute; reflexivity).
  assert (Hval : coerceValue (js "5") = VNumber (JInt 5))
    by (vm_compute; reflexivity).
  assert (Hedit : editPass (js "{}") (parsePath (js "a[0].b"))
                           (coerceValue (js "5")) fmt
                  = Some (LBRACE :: newline fmt 1 ++ DQUOTE :: [97; 34]%N
                          ++ COLON :: SPACE ::
                          LBRACKET :: newline fmt 2 ++
                          LBRACE :: newline fmt 3 ++ DQUOTE :: [98; 34]%N
                          ++ COLON :: SPACE ::
                          53%N :: newline fmt 2 ++ RBRACE :: newline fmt 1 ++
                          RBRACKET :: newline fmt 0 ++ RBRACE :: [])).
  { rewrite Hpath, Hval. unfold editPass, modify.
    set (blank := match trim (js "{}") with [] => true | _ => false end).
    vm_compute in blank. subst blank. cbv iota.
    set (root := parseTree (js "{}")). vm_compute in root. subst root.
    cbv iota.
    cbn [editAt findMember List.map insertChild rev synthesize stringify
         fst snd].
    rewrite applyEdits_single. unfold applyEdit.
    cbn [edOffset edLength edContent firstn skipn Nat.add js List.map
         list_ascii_of_string].
    change (numberText (JInt 5)) with [53%N].
    change (quoteString (js "a")) with (DQUOTE :: [97; 34]%N).
    change (quoteString (js "b")) with (DQUOTE :: [98; 34]%N).
    cbn [joinWith].
    f_equal. repeat (rewrite <- app_assoc; cbn [app]). reflexivity. }
  split; [exact Hedit|].
  split.
  { unfold insertPathAndValue.
    cbn [negb selectTarget isProgramSource typed pathInput valueInput].
    change (trim (js "{}")) with (js "{}").
    change (orElse (Some (js "a[0].b")) None) with (Some (js "a[0].b")).
    cbv iota. cbn [text isWrapped]. rewrite Hpath.
    unfold editPass in Hedit. rewrite Hpath in Hedit.
    change (match js "{}" with [] => [LBRACE; RBRACE] | _ :: _ => js "{}" end)
      with (js "{}").
    destruct (modify (js "{}")
                     [Key (js "a"); Index (Finite 0); Key (js "b")]
                     (coerceValue (js "5")) fmt) as [edits|e];
      [|discriminate].
    injection Hedit as ->. reflexivity. }
  split.
  { unfold JSON_parse.
    destruct (parse_created strictJson fmt) as (n & Hn & Hv).
    cbn [stringify List.map joinWith fst snd] in Hn.
    change (numberText (JInt 5)) with [53%N] in Hn.
    change (quoteString (js "a")) with (DQUOTE :: [97; 34]%N) in Hn.
    change (quoteString (js "b")) with (DQUOTE :: [98; 34]%N) in Hn.
    repeat (cbn [app] in Hn; rewrite <- ?app_assoc in Hn).
    repeat (cbn [app]; rewrite <- ?app_assoc).
    rewrite Hn. cbn [option_map]. rewrite Hv. reflexivity. }
  intros ->. vm_compute. reflexivity.
Qed.

Lemma C3_missing_path_created_witness :
  detectFormattingOptions None = detectFormattingOptions None
  /\ exists newText,
      editPass (js "{}") (parsePath (js "a[0].b")) (coerceValue (js "5"))
               (detectFormattingOptions None)
      = Some newText
      /\ newText = js "{" ++ [LF] ++ jq "  `a`: [" ++ [LF]
                   ++ js "    {" ++ [LF] ++ jq "      `b`: 5" ++ [LF]
                   ++ js "    }" ++ [LF] ++ js "  ]" ++ [LF] ++ js "}".
Proof.
  split; [reflexivity|].
  destruct (C3_missing_path_created (detectFormattingOptions None))
    as (_ & _ & _ & newText & He & _ & _ & Hd).
  exists newText. split; [exact He | exact (Hd eq_refl)].
Defined.

(** * The second pass *)

(** C4 as the spec words it fails where an index lies beyond the end of
    its array: the path [[5]] does not settle in [[1]], and each pass
    appends one more element. *)
Lemma C4_counterexample :
  parsePath (js "[5]") = [Index (Finite 5)]
  /\ coerceValue (js "7") = VNumber (JInt 7)
  /\ parseTree (js "[1]") = Some (NArray 0 3 [NNumber 1 1 (JInt 1)])
  /\ settles (NArray 0 3 [NNumber 1 1 (JInt 1)]) [Index (Finite 5)] = false
  /\ editPass (js "[1]") (parsePath (js "[5]")) (coerceValue (js "7"))
              (detectFormattingOptions None)
     = Some (js "[1," ++ [LF] ++ js "  7]")
  /\ editPass (js "[1," ++ [LF] ++ js "  7]") (parsePath (js "[5]"))
              (coerceValue (js "7")) (detectFormattingOptions None)
     = Some (js "[1," ++ [LF] ++ js "  7," ++ [LF] ++ js "  7]")
  /\ js "[1," ++ [LF] ++ js "  7]"
     <> js "[1," ++ [LF] ++ js "  7," ++ [LF] ++ js "  7]".
Proof.
  repeat split; try (vm_compute; reflexivity).
  vm_compute. discriminate.
Qed.

(** C4 (amended): on a document that parses (one of white space only
    counts as [{}]), for a path that settles in it and a well-formed
    value, computing the edits and applying them succeeds, and computing
    them again for the same path and value on the resulting text and
    applying those yields that same text.  A path settles when it resolves,
    or when from its first accessor that does not resolve it is a key
    missing from an object, or the index just after the last element of an
    array, followed only by keys and indices 0. *)
Theorem C4_second_pass_no_change
        (text : jsstring) (path : list accessor) (v : value)
        (fmt : FormattingOptions) (root : node) :
  parseTree (match trim text with [] => [LBRACE; RBRACE] | _ => text end)
  = Some root ->
  settles root path = true ->
  wellFormed v = true ->
  exists text1,
    editPass text path v fmt = Some text1
    /\ editPass text1 path v fmt = Some text1.
Proof.
  intros Hroot Hset Hwf. destruct (trim text) as [|c r] eqn:Et.
  - rewrite (editPass_blank text path v fmt Et).
    exact (editPass_twice _ root path v fmt Hroot Hset Hwf).
  - exact (editPass_twice _ root path v fmt Hroot Hset Hwf).
Qed.

Lemma C4_second_pass_no_change_witness :
  (parseTree (jq "{`a`:{`b`:1}} // kept")
   = Some (NObject 0 13
             [(js "a", NObject 5 7 [(js "b", NNumber 10 1 (JInt 1))])])
   /\ settles (NObject 0 13
                 [(js "a", NObject 5 7 [(js "b", NNumber 10 1 (JInt 1))])])
              (parsePath (js "a.c[0]")) = true
   /\ wellFormed (coerceValue (js "true")) = true
   /\ exists text1,
       editPass (jq "{`a`:{`b`:1}} // kept") (parsePath (js "a.c[0]"))
                (coerceValue (js "true")) (detectFormattingOptions None)
       = Some text1
       /\ editPass text1 (parsePath (js "a.c[0]")) (coerceValue (js "true"))
                   (detectFormattingOptions None)
          = Some text1)
  /\ (trim (js "  ") = []
      /\ parseTree [LBRACE; RBRACE] = Some (NObject 0 2 [])
      /\ settles (NObject 0 2 []) (parsePath (js "a[0].b")) = true
      /\ wellFormed (coerceValue (js "5")) = true
      /\ exists text1,
          editPass (js "  ") (parsePath (js "a[0].b")) (coerceValue (js "5"))
                   (detectFormattingOptions None)
          = Some text1
          /\ editPass text1 (parsePath (js "a[0].b")) (coerceValue (js "5"))
                      (detectFormattingOptions None)
             = Some text1).
Proof.
  split.
  - split; [vm_compute; reflexivity|].
    split; [vm_compute; reflexivity|].
    split; [vm_compute; reflexivity|].
    apply (C4_second_pass_no_change
             (jq "{`a`:{`b`:1}} // kept") (parsePath (js "a.c[0]"))
             (coerceValue (js "true")) (detectFormattingOptions None)
             (NObject 0 13
                [(js "a", NObject 5 7 [(js "b", NNumber 10 1 (JInt 1))])]));
      vm_compute; reflexivity.
  - split; [vm_compute; reflexivity|].
    split; [vm_compute; reflexivity|].
    split; [vm_compute; reflexivity|].
    split; [vm_compute; reflexivity|].
    apply (C4_second_pass_no_change
             (js "  ") (parsePath (js "a[0].b"))
             (coerceValue (js "5")) (detectFormattingOptions None)
             (NObject 0 2 []));
      vm_compute; reflexivity.
Defined.

(** * The loop of [parsePath] on the text that remains *)

Lemma charAt_skipn (input : jsstring) i :
  charAt input i = hd_error (skipn i input).
Proof. unfold charAt. symmetry. apply hd_error_skipn. Qed.

Lemma skipn_cons_split (input : jsstring) i c t :
  skipn i input = c :: t ->
  input = firstn i input ++ c :: t /\ length (firstn i input) = i
  /\ i < length input.
Proof.
  intros H. assert (Hi : i < length input).
  { destruct (Nat.lt_ge_cases i (length input)) as [Hl|Hg]; [exact Hl|].
    rewrite skipn_all2 in H by exact Hg. discriminate. }
  split; [rewrite <- H; symmetry; apply firstn_skipn|].
  split; [apply firstn_length_le; lia | exact Hi].
Qed.

Lemma indexOfAux_shift (p s : jsstring) k :
  indexOfAux p s k = option_map (fun m => k + m) (indexOfAux p s 0).
Proof.
  revert k. induction s as [|x s IH]; intros k; cbn [indexOfAux].
  - destruct (isPrefix p []); cbn [option_map]; [f_equal; lia | reflexivity].
  - destruct (isPrefix p (x :: s)); cbn [option_map]; [f_equal; lia|].
    rewrite (IH (S k)), (IH 1).
    destruct (indexOfAux p s 0); cbn [option_map]; [f_equal; lia | reflexivity].
Qed.

Lemma bareRun_split (rest : jsstring) :
  rest = fst (bareRun rest) ++ snd (bareRun rest)
  /\ bareSegment (fst (bareRun rest)) = true
  /\ startsAccessor (snd (bareRun rest)) = true.
Proof.
  induction rest as [|c t IH]; [repeat split|].
  cbn [bareRun]. destruct (N.eqb c DOT || N.eqb c LBRACKET) eqn:E.
  - cbn [fst snd app bareSegment forallb startsAccessor]. repeat split. exact E.
  - destruct (bareRun t) as [run after]. cbn [fst snd] in *.
    destruct IH as (H1 & H2 & H3).
    split; [cbn [app]; f_equal; exact H1|].
    split; [|exact H3].
    unfold bareSegment in *. cbn [forallb]. rewrite E, H2. reflexivity.
Qed.

Lemma bareRun_app (s rest : jsstring) :
  bareSegment s = true -> startsAccessor rest = true ->
  bareRun (s ++ rest) = (s, rest).
Proof.
  intros Hs Hr. induction s as [|c s IH].
  - cbn [app]. destruct rest as [|x r]; [reflexivity|].
    cbn [startsAccessor] in Hr. cbn [bareRun]. rewrite Hr. reflexivity.
  - unfold bareSegment in Hs. cbn [forallb] in Hs.
    apply andb_true_iff in Hs. destruct Hs as [Hc Hs].
    apply negb_true_iff in Hc. cbn [app bareRun]. rewrite Hc.
    rewrite (IH Hs). reflexivity.
Qed.

(** The inner loop stops where the bare run ends. *)
Lemma scanBare_bareRun (pre : jsstring) :
  forall fuel (rest : jsstring) j,
    j = length pre -> length rest <= fuel ->
    scanBare fuel (pre ++ rest) j
    = j + length (fst (bareRun rest)).
Proof.
  intros fuel. revert pre.
  induction fuel as [|fuel IH]; intros pre rest j Hj Hf.
  - destruct rest; [|simpl in Hf; lia]. simpl. lia.
  - cbn [scanBare]. destruct rest as [|c t].
    + rewrite (proj2 (charAt_None_ge _ _))
        by (rewrite length_app; simpl; lia).
      simpl. lia.
    + subst j. rewrite charAt_middle. cbn [bareRun].
      destruct (N.eqb c DOT || N.eqb c LBRACKET); [simpl; lia|].
      replace (pre ++ c :: t) with ((pre ++ [c]) ++ t)
        by (rewrite <- app_assoc; reflexivity).
      rewrite (IH (pre ++ [c]) t (S (length pre)))
        by (rewrite ?length_app; simpl in *; lia).
      destruct (bareRun t) as [run after]. simpl. lia.
Qed.

Section LoopOnRest.

Variable input : jsstring.

(** An iteration at a dot. *)
Lemma step_at_dot i t parts :
  skipn i input = DOT :: t ->
  step input i parts = Continue (S i) parts /\ skipn (S i) input = t.
Proof.
  intros H. split.
  - unfold step, charIs. rewrite charAt_skipn, H. reflexivity.
  - replace (S i) with (1 + i) by lia. rewrite <- skipn_skipn, H. reflexivity.
Qed.

(** An iteration at an opening bracket. *)
Lemma step_at_bracket i t parts :
  skipn i input = LBRACKET :: t ->
  match indexOfAux [RBRACKET] t 0 with
  | None => step input i parts = Return []
  | Some k =>
      exists i',
        step input i parts
        = Continue i' (parts ++ [bracketAccessor (trim (firstn k t))])
        /\ skipn i' input = afterBracket (skipn (S k) t)
        /\ i' <= length input
  end.
Proof.
  intros H. destruct (skipn_cons_split _ _ _ _ H) as (Hin & Hlen & Hi).
  destruct (indexOfAux [RBRACKET] t 0) as [k|] eqn:E.
  - destruct (indexOfAux_Some _ _ _ _ E) as (content & post & -> & Hn & ->).
    cbn [Nat.add].
    set (pre := firstn i input) in *.
    rewrite Hin, <- Hlen. rewrite step_bracket by exact Hn.
    eexists. split.
    { rewrite firstn_app, firstn_all, Nat.sub_diag. cbn [firstn].
      rewrite app_nil_r. reflexivity. }
    assert (Hpost : skipn (S (length content)) (content ++ RBRACKET :: post)
                    = post).
    { replace (S (length content)) with (length (content ++ [RBRACKET]))
        by (rewrite length_app; simpl; lia).
      replace (content ++ RBRACKET :: post)
        with ((content ++ [RBRACKET]) ++ post)
        by (rewrite <- app_assoc; reflexivity).
      rewrite skipn_app, skipn_all, Nat.sub_diag. reflexivity. }
    rewrite Hpost.
    assert (Hall : forall d,
               skipn (length pre + length content + 2 + d)
                     (pre ++ LBRACKET :: content ++ RBRACKET :: post)
               = skipn d post).
    { intros d.
      replace (pre ++ LBRACKET :: content ++ RBRACKET :: post)
        with ((pre ++ LBRACKET :: content ++ [RBRACKET]) ++ post)
        by (repeat (cbn [app]; rewrite <- ?app_assoc); reflexivity).
      rewrite skipn_app.
      assert (Hl : length (pre ++ LBRACKET :: content ++ [RBRACKET])
                   = length pre + length content + 2)
        by (rewrite length_app; cbn [length]; rewrite length_app; simpl; lia).
      rewrite skipn_all2 by lia. rewrite Hl. cbn [app]. f_equal. lia. }
    split.
    + rewrite Hall. unfold startsWith, afterBracket.
      rewrite isPrefix_single. destruct post as [|d u]; [reflexivity|].
      rewrite (N.eqb_sym DOT d). destruct (N.eqb d DOT); reflexivity.
    + rewrite length_app. cbn [length]. rewrite length_app. cbn [length].
      unfold startsWith. rewrite isPrefix_single.
      destruct post as [|d u]; [simpl; lia|].
      destruct (N.eqb DOT d); simpl; lia.
  - unfold step, charIs. rewrite charAt_skipn, H. cbn [hd_error].
    change (N.eqb LBRACKET DOT) with false.
    change (N.eqb LBRACKET LBRACKET) with true. cbv iota.
    unfold indexOf. rewrite Nat.min_l by lia.
    replace (i + 1) with (1 + i) by lia. rewrite <- skipn_skipn, H.
    cbn [skipn]. rewrite indexOfAux_shift, E. reflexivity.
Qed.

(** An iteration at the start of a bare token. *)
Lemma step_at_bare i c t parts :
  skipn i input = c :: t ->
  N.eqb c DOT = false -> N.eqb c LBRACKET = false ->
  exists i',
    step input i parts
    = Continue i' (pushToken parts (trim (fst (bareRun (c :: t)))))
    /\ skipn i' input = snd (bareRun (c :: t))
    /\ i' <= length input.
Proof.
  intros H Hd Hb.
  destruct (skipn_cons_split _ _ _ _ H) as (Hin & Hlen & Hi).
  destruct (bareRun_split (c :: t)) as (Hsplit & _ & _).
  set (run := fst (bareRun (c :: t))) in *.
  set (after := snd (bareRun (c :: t))) in *.
  set (pre := firstn i input) in *.
  assert (Hj : scanBare (length input - i) input i = i + length run).
  { rewrite Hin at 2. rewrite (scanBare_bareRun pre _ (c :: t) i).
    - reflexivity.
    - symmetry. exact Hlen.
    - rewrite Hin at 1. rewrite length_app. lia. }
  assert (Hinput : input = pre ++ run ++ after)
    by (rewrite <- Hsplit; exact Hin).
  exists (i + length run). unfold step, charIs.
  rewrite charAt_skipn, H. cbn [hd_error]. rewrite Hd, Hb, Hj.
  split; [|split].
  - assert (Hsl : slice input (Z.of_nat i) (Z.of_nat (i + length run)) = run).
    { rewrite Hinput, <- Hlen. apply slice_middle. }
    rewrite Hsl. reflexivity.
  - rewrite Hinput at 1. rewrite <- Hlen.
    replace (pre ++ run ++ after) with ((pre ++ run) ++ after)
      by (rewrite <- app_assoc; reflexivity).
    rewrite skipn_app.
    rewrite skipn_all2 by (rewrite length_app; lia).
    rewrite length_app, Nat.sub_diag. reflexivity.
  - rewrite Hinput. rewrite !length_app. lia.
Qed.

(** What the loop returns from position [i] is what the relation gives
    on the text from [i] on. *)
Lemma loop_Parses fuel :
  forall i parts r,
    i <= length input ->
    loop fuel input i parts = Some r ->
    Parses (skipn i input) parts r.
Proof.
  induction fuel as [|fuel IH]; intros i parts r Hi H.
  - cbn [loop] in H. destruct (Nat.ltb_spec i (length input)); [discriminate|].
    injection H as <-. rewrite skipn_all2 by lia. constructor.
  - destruct (Nat.lt_ge_cases i (length input)) as [Hlt|Hge].
    2:{ rewrite loop_done in H by lia. injection H as <-.
        rewrite skipn_all2 by lia. constructor. }
    rewrite loop_unfold in H by exact Hlt.
    destruct (skipn i input) as [|c t] eqn:Es.
    { apply (f_equal (@length N)) in Es. rewrite length_skipn in Es.
      simpl in Es. lia. }
    destruct (N.eqb c DOT) eqn:Ed.
    { apply N.eqb_eq in Ed. subst c.
      destruct (step_at_dot i t parts Es) as (Hs & Hr). rewrite Hs in H.
      constructor. rewrite <- Hr. apply IH; [lia | exact H]. }
    destruct (N.eqb c LBRACKET) eqn:Eb.
    { apply N.eqb_eq in Eb. subst c.
      pose proof (step_at_bracket i t parts Es) as Hs.
      destruct (indexOfAux [RBRACKET] t 0) as [k|] eqn:Ek.
      - destruct Hs as (i' & Hs & Hr & Hle). rewrite Hs in H.
        apply (Parses_bracket t k); [exact Ek|].
        rewrite <- Hr. apply IH; [exact Hle | exact H].
      - rewrite Hs in H. injection H as <-.
        apply Parses_unclosed. exact Ek. }
    destruct (step_at_bare i c t parts Es Ed Eb) as (i' & Hs & Hr & Hle).
    rewrite Hs in H. apply Parses_bare; [exact Ed | exact Eb|].
    rewrite <- Hr. apply IH; [exact Hle | exact H].
Qed.

End LoopOnRest.

(** The relation holds of what [parsePath] returns. *)
Lemma parsePath_Parses (input : jsstring) :
  Parses input [] (parsePath input).
Proof.
  apply (loop_Parses input (length input) 0 [] (parsePath input));
    [lia | apply parsePath_loop; lia].
Qed.

(** The relation is a function. *)
Lemma Parses_fun (rest : jsstring) parts r1 :
  Parses rest parts r1 -> forall r2, Parses rest parts r2 -> r1 = r2.
Proof.
  intros H. induction H as [parts | t parts r H IH | t parts E
                           | t k parts r E H IH | c t parts r Ed Eb H IH];
    intros r2 H2; inversion H2; subst;
    try discriminate; try congruence;
    try (match goal with
         | Hx : N.eqb ?a ?a = false |- _ =>
             rewrite N.eqb_refl in Hx; discriminate Hx
         end);
    try (apply IH; assumption).
  match goal with
  | Hx : indexOfAux [RBRACKET] t 0 = Some _ |- _ =>
      rewrite E in Hx; injection Hx as <-
  end.
  apply IH. assumption.
Qed.

(** Whatever the relation gives on the whole input is what [parsePath]
    returns. *)
Lemma Parses_parsePath (input : jsstring) r :
  Parses input [] r -> parsePath input = r.
Proof.
  intros H. exact (Parses_fun _ _ _ (parsePath_Parses input) _ H).
Qed.

(** * Texts whose brackets are closed *)

Lemma existsb_app_l {A} (p : A -> bool) (a b : list A) :
  existsb p a = true -> existsb p (a ++ b) = true.
Proof. intros H. rewrite existsb_app, H. reflexivity. Qed.

Lemma closed_app (a b : jsstring) :
  closed a = true -> closed b = true -> closed (a ++ b) = true.
Proof.
  intros Ha Hb. induction a as [|c a IH]; [exact Hb|].
  cbn [closed app] in *. apply andb_true_iff in Ha. destruct Ha as [H1 H2].
  rewrite (IH H2), andb_true_r.
  apply orb_true_iff in H1. destruct H1 as [H1|H1];
    [rewrite H1; reflexivity|].
  rewrite (existsb_app_l _ _ _ H1). apply orb_true_r.
Qed.

Lemma closed_app_r (a b : jsstring) :
  closed (a ++ b) = true -> closed b = true.
Proof.
  induction a as [|c a IH]; intros H; [exact H|].
  cbn [closed app] in H. apply andb_true_iff in H. apply IH, H.
Qed.

Lemma closed_skipn n (s : jsstring) :
  closed s = true -> closed (skipn n s) = true.
Proof.
  intros H. rewrite <- (firstn_skipn n s) in H. exact (closed_app_r _ _ H).
Qed.

Lemma closed_afterBracket (s : jsstring) :
  closed s = true -> closed (afterBracket s) = true.
Proof.
  destruct s as [|d u]; [reflexivity|]. cbn [afterBracket].
  destruct (N.eqb d DOT); [|trivial].
  intros H. exact (closed_app_r [d] u H).
Qed.

Lemma closed_end (s : jsstring) : closed (s ++ [RBRACKET]) = true.
Proof.
  induction s as [|c s IH]; [reflexivity|].
  cbn [app closed]. rewrite IH, andb_true_r.
  rewrite existsb_app. cbn [existsb]. rewrite N.eqb_refl.
  rewrite orb_true_r. apply orb_true_r.
Qed.

Lemma bareSegment_closed (s : jsstring) :
  bareSegment s = true -> closed s = true.
Proof.
  induction s as [|c s IH]; [reflexivity|].
  unfold bareSegment. cbn [forallb closed]. intros H.
  apply andb_true_iff in H. destruct H as [Hc Hs].
  apply negb_true_iff, orb_false_iff in Hc. destruct Hc as [_ Hb].
  rewrite Hb. cbn [negb orb]. apply IH. exact Hs.
Qed.

(** At an opening bracket of a closed text the search for the closing
    one succeeds. *)
Lemma closed_bracket (t : jsstring) :
  closed (LBRACKET :: t) = true ->
  exists k, indexOfAux [RBRACKET] t 0 = Some k.
Proof.
  cbn [closed]. change (N.eqb LBRACKET LBRACKET) with true. cbn [negb orb].
  intros H. apply andb_true_iff in H. destruct H as [H _].
  destruct (indexOfAux [RBRACKET] t 0) as [k|] eqn:E; [exists k; reflexivity|].
  apply indexOfAux_None in E. apply existsb_exists in H.
  destruct H as (x & Hin & Hx). apply N.eqb_eq in Hx. subst x.
  contradiction.
Qed.

Lemma indexOfAux_app (c : N) (t b : jsstring) k :
  indexOfAux [c] t 0 = Some k -> indexOfAux [c] (t ++ b) 0 = Some k.
Proof.
  intros H. destruct (indexOfAux_Some _ _ _ _ H) as (x & y & -> & Hn & ->).
  rewrite <- app_assoc. cbn [app]. apply indexOfAux_found. exact Hn.
Qed.

Lemma pushToken_app (q parts : list accessor) token :
  pushToken (q ++ parts) token = q ++ pushToken parts token.
Proof.
  unfold pushToken. destruct (0 <? length token); [|reflexivity].
  symmetry. apply app_assoc.
Qed.

(** On a closed text the loop only adds to the accessors it is entered
    with. *)
Lemma Parses_more (b : jsstring) p r :
  Parses b p r -> closed b = true ->
  forall q, Parses b (q ++ p) (q ++ r).
Proof.
  intros H. induction H as [parts | t parts r H IH | t parts E
                           | t k parts r E H IH | c t parts r Ed Eb H IH];
    intros Hc q.
  - constructor.
  - constructor. apply IH. exact (closed_app_r [DOT] t Hc).
  - destruct (closed_bracket t Hc) as (k & Hk). congruence.
  - apply (Parses_bracket t k); [exact E|].
    rewrite <- app_assoc. apply IH.
    apply closed_afterBracket, closed_skipn.
    exact (closed_app_r [LBRACKET] t Hc).
  - apply Parses_bare; [exact Ed | exact Eb|].
    rewrite pushToken_app. apply IH.
    destruct (bareRun_split (c :: t)) as (Hs & _ & _).
    rewrite Hs in Hc. exact (closed_app_r _ _ Hc).
Qed.

Lemma Parses_dot_inv (t : jsstring) parts r :
  Parses (DOT :: t) parts r -> Parses t parts r.
Proof.
  intros H. inversion H; subst; try discriminate; try assumption.
Qed.

(** After a closed text the loop goes on as if it were entered there. *)
Lemma Parses_app (a b : jsstring) parts ra :
  Parses a parts ra -> closed a = true -> startsAccessor b = true ->
  forall r, Parses b ra r -> Parses (a ++ b) parts r.
Proof.
  intros H. induction H as [parts | t parts r0 H IH | t parts E
                           | t k parts r0 E H IH | c t parts r0 Ed Eb H IH];
    intros Hc Hb r Hr.
  - exact Hr.
  - cbn [app]. constructor.
    apply IH; [exact (closed_app_r [DOT] t Hc) | exact Hb | exact Hr].
  - destruct (closed_bracket t Hc) as (k & Hk). congruence.
  - cbn [app]. apply (Parses_bracket (t ++ b) k);
      [apply indexOfAux_app; exact E|].
    destruct (indexOfAux_Some _ _ _ _ E) as (x & y & -> & Hn & ->).
    cbn [Nat.add] in *.
    assert (Hf : forall z, firstn (length x) (x ++ z) = x).
    { intros z. rewrite firstn_app, firstn_all, Nat.sub_diag.
      cbn [firstn]. apply app_nil_r. }
    assert (Hs : forall z, skipn (S (length x)) (x ++ RBRACKET :: z) = z).
    { intros z. replace (S (length x)) with (length (x ++ [RBRACKET]))
        by (rewrite length_app; simpl; lia).
      replace (x ++ RBRACKET :: z) with ((x ++ [RBRACKET]) ++ z)
        by (rewrite <- app_assoc; reflexivity).
      rewrite skipn_app, skipn_all, Nat.sub_diag. reflexivity. }
    rewrite <- app_assoc. cbn [app]. rewrite Hf, Hs.
    rewrite Hf, Hs in H, IH.
    assert (Hcy : closed (afterBracket y) = true).
    { apply closed_afterBracket.
      apply (closed_app_r (LBRACKET :: x ++ [RBRACKET]) y).
      cbn [app]. rewrite <- app_assoc. exact Hc. }
    destruct y as [|d u].
    + cbn [afterBracket app] in *.
      specialize (IH Hcy Hb r Hr). cbn [app] in IH.
      destruct b as [|e b']; [exact IH|]. cbn [afterBracket].
      destruct (N.eqb e DOT) eqn:Ee; [|exact IH].
      apply N.eqb_eq in Ee. subst e. apply Parses_dot_inv. exact IH.
    + cbn [afterBracket app] in *. destruct (N.eqb d DOT).
      * apply IH; assumption.
      * apply (IH Hcy Hb r Hr).
  - destruct (bareRun_split (c :: t)) as (Hs & Hrun & Hafter).
    assert (Hca : closed (snd (bareRun (c :: t))) = true).
    { rewrite Hs in Hc. exact (closed_app_r _ _ Hc). }
    assert (Hrun' : bareRun ((c :: t) ++ b)
                    = (fst (bareRun (c :: t)), snd (bareRun (c :: t)) ++ b)).
    { rewrite Hs at 1. rewrite <- app_assoc. apply bareRun_app; [exact Hrun|].
      destruct (snd (bareRun (c :: t))) as [|x y]; [exact Hb | exact Hafter]. }
    cbn [app]. apply Parses_bare; [exact Ed | exact Eb|].
    change (c :: t ++ b) with ((c :: t) ++ b). rewrite Hrun'. cbn [fst snd].
    apply IH; assumption.
Qed.

(** The accessors of a text in two pieces. *)
Lemma parsePath_pieces (a b : jsstring) :
  closed a = true -> closed b = true -> startsAccessor b = true ->
  parsePath (a ++ b) = parsePath a ++ parsePath b.
Proof.
  intros Ha Hb Hs. apply Parses_parsePath.
  apply (Parses_app a b [] (parsePath a) (parsePath_Parses a) Ha Hs).
  pose proof (Parses_more b [] (parsePath b) (parsePath_Parses b) Hb
                          (parsePath a)) as H.
  rewrite app_nil_r in H. exact H.
Qed.

(** X1: a path expression may be written in pieces.  For two texts whose
    opening brackets are all closed, the second empty or starting with a
    dot or an opening bracket, [parsePath] of their concatenation is the
    accessors of the first followed by the accessors of the second. *)
Theorem parsePath_app (a b : jsstring) :
  closed a = true -> closed b = true -> startsAccessor b = true ->
  parsePath (a ++ b) = parsePath a ++ parsePath b.
Proof. exact (parsePath_pieces a b). Qed.

Lemma parsePath_app_witness :
  closed (js "a.b[0]") = true /\ closed (js "['x.y'].c") = true
  /\ startsAccessor (js "['x.y'].c") = true
  /\ parsePath (js "a.b[0]" ++ js "['x.y'].c")
     = parsePath (js "a.b[0]") ++ parsePath (js "['x.y'].c").
Proof.
  split; [reflexivity|]. split; [reflexivity|]. split; [reflexivity|].
  apply (parsePath_app (js "a.b[0]") (js "['x.y'].c")); reflexivity.
Defined.

(** * Dot notation *)

Lemma pushToken_nil (parts : list accessor) token :
  pushToken parts token = parts ++ pushToken [] token.
Proof.
  rewrite <- (app_nil_r parts) at 1. apply pushToken_app.
Qed.

Lemma Parses_dotted (segments : list jsstring) :
  Forall (fun s => bareSegment s = true) segments ->
  forall parts,
    Parses (dotted segments) parts (parts ++ segmentKeys segments).
Proof.
  intros F. induction F as [|s segments Hs F IH]; intros parts.
  - cbn [dotted segmentKeys]. rewrite app_nil_r. constructor.
  - assert (Hhead : forall rest r,
               startsAccessor rest = true ->
               Parses rest (pushToken parts (trim s)) r ->
               Parses (s ++ rest) parts r).
    { intros rest r Hr H. destruct s as [|c t]; [exact H|].
      pose proof Hs as Hc. unfold bareSegment in Hc. cbn [forallb] in Hc.
      apply andb_true_iff in Hc. destruct Hc as [Hc _].
      apply negb_true_iff, orb_false_iff in Hc. destruct Hc as [Hd Hb].
      cbn [app]. apply Parses_bare; [exact Hd | exact Hb|].
      change (c :: t ++ rest) with ((c :: t) ++ rest).
      rewrite (bareRun_app _ _ Hs Hr). exact H. }
    assert (Hblank : s = [] -> pushToken parts (trim s) = parts)
      by (intros ->; reflexivity).
    cbn [segmentKeys]. rewrite app_assoc, <- pushToken_nil.
    destruct segments as [|s2 segments].
    + cbn [dotted segmentKeys]. rewrite app_nil_r.
      rewrite <- (app_nil_r s) at 1. apply Hhead; [reflexivity | constructor].
    + change (dotted (s :: s2 :: segments))
        with (s ++ DOT :: dotted (s2 :: segments)).
      destruct s as [|c t].
      * cbn [app]. constructor. rewrite (Hblank eq_refl). apply IH.
      * apply Hhead; [reflexivity|]. constructor. apply IH.
Qed.

Lemma segmentKeys_plain (segments : list jsstring) :
  Forall (fun s => trim s = s /\ s <> []) segments ->
  segmentKeys segments = List.map Key segments.
Proof.
  intros F. induction F as [|s segments (Ht & Hn) F IH]; [reflexivity|].
  cbn [segmentKeys List.map]. rewrite Ht, IH. unfold pushToken.
  destruct s; [contradiction | reflexivity].
Qed.

(** X2: dot notation read back.  For segments that hold no dot and no
    opening bracket, [parsePath] of the segments joined by dots is the key
    of every segment that is not blank, trimmed, in order; so keys without
    surrounding blanks come back as they are, a segment of digits as a
    key, not an index. *)
Theorem parsePath_dotted (segments : list jsstring) :
  Forall (fun s => bareSegment s = true) segments ->
  parsePath (dotted segments) = segmentKeys segments
  /\ (Forall (fun s => trim s = s /\ s <> []) segments ->
      parsePath (dotted segments) = List.map Key segments).
Proof.
  intros F.
  assert (H : parsePath (dotted segments) = segmentKeys segments)
    by (apply Parses_parsePath; exact (Parses_dotted segments F [])).
  split; [exact H|]. intros Hp. rewrite H. apply segmentKeys_plain, Hp.
Qed.

Lemma parsePath_dotted_witness :
  Forall (fun s => bareSegment s = true) [js " a"; js ""; js "0"; js "b c "]
  /\ parsePath (js " a..0.b c ")
     = [Key (js "a"); Key (js "0"); Key (js "b c")].
Proof.
  assert (F : Forall (fun s => bareSegment s = true)
                     [js " a"; js ""; js "0"; js "b c "])
    by (repeat constructor).
  split; [exact F|].
  exact (proj1 (parsePath_dotted [js " a"; js ""; js "0"; js "b c "] F)).
Defined.

(** * Bracket notation *)

Lemma digitsValue_acc (u : Decimal.uint) :
  forall acc,
    fold_left (fun a c => (10 * a + (Z.of_N c - 48))%Z) (uintUnits u)
              (Z.pos acc)
    = Z.pos (Pos.of_uint_acc u acc).
Proof.
  induction u as [|u IH|u IH|u IH|u IH|u IH|u IH|u IH|u IH|u IH|u IH];
    intros acc; cbn [uintUnits fold_left Pos.of_uint_acc];
    [reflexivity| | | | | | | | | |];
    (match goal with
     | |- fold_left _ _ ?z = Z.pos (Pos.of_uint_acc _ ?p) =>
         replace z with (Z.pos p) by lia
     end; apply IH).
Qed.

Lemma digitsValue_uint (u : Decimal.uint) :
  digitsValue (uintUnits u) = Z.of_N (Pos.of_uint u).
Proof.
  unfold digitsValue.
  induction u as [|u IH|u IH|u IH|u IH|u IH|u IH|u IH|u IH|u IH|u IH];
    cbn [uintUnits fold_left Pos.of_uint];
    [reflexivity | exact IH | | | | | | | | |];
    (match goal with
     | |- fold_left _ _ ?z = _ =>
         replace z with (Z.pos 1) by reflexivity
     end; fail) ||
    (match goal with
     | |- fold_left _ _ ?z = Z.of_N (N.pos (Pos.of_uint_acc _ ?p)) =>
         replace z with (Z.pos p) by reflexivity
     end; apply digitsValue_acc).
Qed.

(** The decimal numeral of a number has that number as its value. *)
Lemma digitsValue_decimalOfN (n : N) :
  digitsValue (decimalOfN n) = Z.of_N n.
Proof.
  unfold decimalOfN.
  pose proof (digitsValue_uint (N.to_uint n)) as H.
  change (Pos.of_uint (N.to_uint n)) with (N.of_uint (N.to_uint n)) in H.
  rewrite DecimalN.Unsigned.of_to in H.
  destruct (uintUnits (N.to_uint n)) as [|c t] eqn:E; [|exact H].
  rewrite <- H. reflexivity.
Qed.

Lemma trimStart_id c (t : jsstring) :
  isWhiteSpace c = false -> trimStart (c :: t) = c :: t.
Proof. intros H. cbn [trimStart]. rewrite H. reflexivity. Qed.

(** A text that neither starts nor ends with white space is its own
    trim. *)
Lemma trim_id c (t : jsstring) x :
  isWhiteSpace c = false -> isWhiteSpace x = false ->
  trim (c :: t ++ [x]) = c :: t ++ [x].
Proof.
  intros Hc Hx. unfold trim, trimEnd. rewrite (trimStart_id c _ Hc).
  assert (E : rev (c :: t ++ [x]) = x :: rev (c :: t)).
  { change (c :: t ++ [x]) with ((c :: t) ++ [x]).
    rewrite rev_app_distr. reflexivity. }
  rewrite E, (trimStart_id x _ Hx).
  change (rev (x :: rev (c :: t))) with (rev (rev (c :: t)) ++ [x]).
  rewrite rev_involutive. reflexivity.
Qed.

Lemma digit_not_space c : isDigit c = true -> isWhiteSpace c = false.
Proof.
  intros H. apply isDigit_range in H. unfold isWhiteSpace.
  repeat match goal with
         | |- context [N.leb ?a ?b] => destruct (N.leb_spec a b)
         | |- context [N.eqb ?a ?b] => destruct (N.eqb_spec a b)
         end; try lia; reflexivity.
Qed.

Lemma digits_trim (ds : jsstring) :
  forallb isDigit ds = true -> trim ds = ds.
Proof.
  intros H. destruct ds as [|c t]; [reflexivity|].
  destruct (rev t) as [|x r] eqn:E.
  - apply (f_equal (@rev N)) in E. rewrite rev_involutive in E. subst t.
    cbn [forallb] in H. apply andb_true_iff in H. destruct H as [Hc _].
    unfold trim, trimEnd. rewrite (trimStart_id c _ (digit_not_space c Hc)).
    cbn [rev app]. rewrite (trimStart_id c _ (digit_not_space c Hc)).
    reflexivity.
  - apply (f_equal (@rev N)) in E. rewrite rev_involutive in E.
    cbn [rev] in E. subst t.
    cbn [forallb] in H. apply andb_true_iff in H. destruct H as [Hc Ht].
    rewrite forallb_app in Ht. apply andb_true_iff in Ht.
    destruct Ht as [_ Hx]. cbn [forallb] in Hx.
    apply andb_true_iff in Hx. destruct Hx as [Hx _].
    apply trim_id; apply digit_not_space; assumption.
Qed.

(** One accessor in bracket notation is read back as that accessor. *)
Lemma parsePath_renderAccessor (a : accessor) :
  renderable a -> parsePath (renderAccessor a) = [a].
Proof.
  destruct a as [k|[z|]]; cbn [renderable renderAccessor]; intros H.
  - replace (LBRACKET :: DQUOTE :: k ++ [DQUOTE; RBRACKET])
      with (LBRACKET :: (DQUOTE :: k ++ [DQUOTE]) ++ [RBRACKET])
      by (cbn [app]; rewrite <- app_assoc; reflexivity).
    rewrite parsePath_one_bracket.
    2:{ cbn [In]. rewrite in_app_iff. cbn [In].
        intros [E|[E|[E|[]]]]; try discriminate. contradiction. }
    rewrite (trim_id DQUOTE k DQUOTE) by reflexivity.
    unfold bracketAccessor. cbn [testDigits forallb].
    change (isDigit DQUOTE) with false. cbn [andb].
    assert (Hs : startsWith (DQUOTE :: k ++ [DQUOTE]) [DQUOTE] = true)
      by reflexivity.
    assert (He : endsWith (DQUOTE :: k ++ [DQUOTE]) [DQUOTE] = true).
    { apply endsWith_single.
      change (DQUOTE :: k ++ [DQUOTE]) with ((DQUOTE :: k) ++ [DQUOTE]).
      rewrite rev_app_distr. reflexivity. }
    rewrite Hs, He. cbn [andb orb]. rewrite slice_unquoted.
    unfold unquoted. cbn [tl]. rewrite removelast_last. reflexivity.
  - pose proof (decimalOfN_digits (Z.to_N z)) as Hd.
    pose proof (decimalOfN_nonempty (Z.to_N z)) as Hl.
    rewrite parsePath_one_bracket.
    2:{ intros Hin. rewrite forallb_forall in Hd. specialize (Hd _ Hin).
        discriminate Hd. }
    rewrite (digits_trim _ Hd). unfold bracketAccessor, testDigits.
    destruct (decimalOfN (Z.to_N z)) as [|c t] eqn:E; [simpl in Hl; lia|].
    rewrite Hd, <- E. unfold Number.
    rewrite digitsValue_decimalOfN, Z2N.id by lia.
    rewrite roundDouble_exact by exact H. reflexivity.
  - contradiction.
Qed.

Lemma renderAccessor_closed (a : accessor) :
  closed (renderAccessor a) = true
  /\ startsAccessor (renderAccessor a) = true.
Proof.
  split; [|destruct a as [k|[z|]]; reflexivity].
  destruct a as [k|[z|]]; cbn [renderAccessor].
  - replace (LBRACKET :: DQUOTE :: k ++ [DQUOTE; RBRACKET])
      with ((LBRACKET :: DQUOTE :: k ++ [DQUOTE]) ++ [RBRACKET])
      by (cbn [app]; rewrite <- app_assoc; reflexivity).
    apply closed_end.
  - change (LBRACKET :: decimalOfN (Z.to_N z) ++ [RBRACKET])
      with ((LBRACKET :: decimalOfN (Z.to_N z)) ++ [RBRACKET]).
    apply closed_end.
  - reflexivity.
Qed.

Lemma render_closed (path : list accessor) :
  closed (concat (List.map renderAccessor path)) = true
  /\ startsAccessor (concat (List.map renderAccessor path)) = true.
Proof.
  induction path as [|a path (IH1 & IH2)]; [split; reflexivity|].
  cbn [List.map concat]. destruct (renderAccessor_closed a) as (H1 & H2).
  split; [apply closed_app; assumption|].
  destruct a as [k|[z|]]; reflexivity.
Qed.

(** X3: bracket notation read back.  Every path whose keys hold no
    closing bracket and whose indices lie between 0 and 2^53 is what
    [parsePath] returns on its accessors written one after the other, a
    key as [["key"]] and an index as [[n]], whatever else the keys hold:
    dots, blanks, quotes, opening brackets. *)
Theorem parsePath_render (path : list accessor) :
  Forall renderable path ->
  parsePath (concat (List.map renderAccessor path)) = path.
Proof.
  intros F. induction F as [|a path Ha F IH]; [reflexivity|].
  cbn [List.map concat].
  destruct (renderAccessor_closed a) as (H1 & _).
  destruct (render_closed path) as (H2 & H3).
  rewrite (parsePath_pieces _ _ H1 H2 H3), IH.
  rewrite (parsePath_renderAccessor a Ha). reflexivity.
Qed.

Lemma parsePath_render_witness :
  Forall renderable [Key (js "a.b [x"); Index (Finite 12); Key []]
  /\ parsePath (jq "[`a.b [x`][12][``]")
     = [Key (js "a.b [x"); Index (Finite 12); Key []].
Proof.
  assert (F : Forall renderable [Key (js "a.b [x"); Index (Finite 12); Key []]).
  { constructor.
    { cbn [renderable]. intros H.
      repeat (destruct H as [H|H]; [discriminate H|]). exact H. }
    constructor.
    { cbn [renderable]. split; intros H; discriminate H. }
    constructor; [|constructor]. cbn [renderable]. intros []. }
  split; [exact F|].
  exact (parsePath_render _ F).
Defined.

(** * What the matcher finds is a match *)

Section MatcherSound.

Variable A : Type.

Lemma greedy_span cls (k : jsstring -> nat -> option A) :
  forall (rest : jsstring) pos x,
    greedy cls k rest pos = Some x ->
    exists w rest',
      rest = w ++ rest' /\ forallb cls w = true
      /\ k rest' (pos + length w) = Some x.
Proof.
  induction rest as [|c t IH]; intros pos x H; cbn [greedy] in H.
  - exists [], []. rewrite Nat.add_0_r. repeat split. exact H.
  - assert (Hhere : k (c :: t) pos = Some x ->
                    exists w rest',
                      c :: t = w ++ rest' /\ forallb cls w = true
                      /\ k rest' (pos + length w) = Some x).
    { intros Hk. exists [], (c :: t). rewrite Nat.add_0_r. repeat split.
      exact Hk. }
    destruct (cls c) eqn:Ec; [|exact (Hhere H)].
    destruct (greedy cls k t (S pos)) as [y|] eqn:E; [|exact (Hhere H)].
    injection H as <-. destruct (IH _ _ E) as (w & rest' & -> & Hw & Hk).
    exists (c :: w), rest'. cbn [app forallb length]. rewrite Ec, Hw.
    repeat split. rewrite <- Hk. f_equal. lia.
Qed.

Lemma lazy_span cls (k : jsstring -> nat -> option A) :
  forall (rest : jsstring) pos x,
    lazy cls k rest pos = Some x ->
    exists w rest',
      rest = w ++ rest' /\ forallb cls w = true
      /\ k rest' (pos + length w) = Some x.
Proof.
  induction rest as [|c t IH]; intros pos x H; cbn [lazy] in H.
  - destruct (k [] pos) as [y|] eqn:E; [|discriminate].
    injection H as <-. exists [], []. rewrite Nat.add_0_r. repeat split.
    exact E.
  - destruct (k (c :: t) pos) as [y|] eqn:E.
    + injection H as <-. exists [], (c :: t). rewrite Nat.add_0_r.
      repeat split. exact E.
    + destruct (cls c) eqn:Ec; [|discriminate].
      destruct (IH _ _ H) as (w & rest' & -> & Hw & Hk).
      exists (c :: w), rest'. cbn [app forallb length]. rewrite Ec, Hw.
      repeat split. rewrite <- Hk. f_equal. lia.
Qed.

(** A result of [rmatch] comes from its continuation, entered after a
    match of the pattern. *)
Lemma rmatch_sound r :
  forall (rest : jsstring) pos caps
         (k : jsstring -> nat -> captures -> option A) x,
    rmatch r rest pos caps k = Some x ->
    exists w rest' caps',
      rest = w ++ rest' /\ Matches r w rest' pos caps caps'
      /\ k rest' (pos + length w) caps' = Some x.
Proof.
  induction r as [c|s|r1 IH1 r2 IH2|r1 IH1 r2 IH2|r1 IH1|cls|cls|cls|n r1 IH1|];
    intros rest pos caps k x H; cbn [rmatch] in H.
  - destruct rest as [|y t]; [discriminate|].
    destruct (N.eqb_spec y c) as [->|]; [|discriminate].
    exists [c], t, caps. cbn [Matches app length].
    repeat split. rewrite <- H. f_equal. lia.
  - destruct (isPrefix s rest) eqn:E; [|discriminate].
    exists s, (skipn (length s) rest), caps. cbn [Matches].
    split; [apply isPrefix_app; exact E|]. repeat split. exact H.
  - destruct (IH1 _ _ _ _ _ H) as (w1 & rest1 & c1 & -> & M1 & H2).
    destruct (IH2 _ _ _ _ _ H2) as (w2 & rest2 & c2 & -> & M2 & H3).
    exists (w1 ++ w2), rest2, c2.
    split; [rewrite <- app_assoc; reflexivity|].
    split.
    + cbn [Matches]. exists w1, w2, c1. repeat split; assumption.
    + rewrite length_app, Nat.add_assoc. exact H3.
  - destruct (rmatch r1 rest pos caps k) as [y|] eqn:E.
    + injection H as <-.
      destruct (IH1 _ _ _ _ _ E) as (w & rest' & c' & -> & M & Hk).
      exists w, rest', c'. cbn [Matches]. repeat split; [left|]; assumption.
    + destruct (IH2 _ _ _ _ _ H) as (w & rest' & c' & -> & M & Hk).
      exists w, rest', c'. cbn [Matches]. repeat split; [right|]; assumption.
  - match type of H with
    | match ?m with _ => _ end = _ => destruct m as [y|] eqn:E
    end.
    + injection H as <-.
      destruct (IH1 _ _ _ _ _ E) as (w & rest' & c' & -> & M & Hk).
      destruct (Nat.eqb_spec (pos + length w) pos) as [|Hne]; [discriminate|].
      exists w, rest', c'. cbn [Matches]. repeat split; [|exact Hk].
      right. split; [|exact M]. intros ->. simpl in Hne. lia.
    + exists [], rest, caps. cbn [Matches app length]. rewrite Nat.add_0_r.
      repeat split; [left; split; reflexivity | exact H].
  - destruct (greedy_span _ _ _ _ _ H) as (w & rest' & -> & Hw & Hk).
    exists w, rest', caps. cbn [Matches]. repeat split; assumption.
  - destruct rest as [|y t]; [discriminate|].
    destruct (cls y) eqn:Ey; [|discriminate].
    destruct (greedy_span _ _ _ _ _ H) as (w & rest' & -> & Hw & Hk).
    exists (y :: w), rest', caps. cbn [Matches app forallb length].
    rewrite Ey, Hw. repeat split; [discriminate|].
    rewrite <- Hk. f_equal. lia.
  - destruct (lazy_span _ _ _ _ _ H) as (w & rest' & -> & Hw & Hk).
    exists w, rest', caps. cbn [Matches]. repeat split; assumption.
  - destruct (IH1 _ _ _ _ _ H) as (w & rest' & c' & -> & M & Hk).
    exists w, rest', ((n, (pos, pos + length w)) :: c'). cbn [Matches].
    repeat split; [|exact Hk]. exists c'. split; [exact M | reflexivity].
  - destruct rest as [|y t]; [|discriminate].
    exists [], [], caps. cbn [Matches app length]. rewrite Nat.add_0_r.
    repeat split. exact H.
Qed.

End MatcherSound.

Lemma search_sound r :
  forall (rest : jsstring) pos m,
    search r rest pos = Some m ->
    exists skipped w rest',
      rest = skipped ++ w ++ rest'
      /\ index m = pos + length skipped
      /\ matchEnd m = index m + length w
      /\ Matches r w rest' (index m) [] (groups m).
Proof.
  assert (Hhere : forall rest pos m,
             rmatch r rest pos []
                    (fun _ e caps =>
                       Some {| index := pos; matchEnd := e; groups := caps |})
             = Some m ->
             exists skipped w rest',
               rest = skipped ++ w ++ rest'
               /\ index m = pos + length skipped
               /\ matchEnd m = index m + length w
               /\ Matches r w rest' (index m) [] (groups m)).
  { intros rest pos m E.
    destruct (rmatch_sound _ r _ _ _ _ _ E) as (w & rest' & c' & -> & M & Hm).
    injection Hm as <-. exists [], w, rest'. cbn [app length index matchEnd
                                                    groups].
    rewrite Nat.add_0_r. repeat split. exact M. }
  induction rest as [|c t IH]; intros pos m H; cbn [search] in H.
  - match type of H with
    | match ?e with _ => _ end = _ => destruct e as [y|] eqn:E
    end; [|discriminate].
    injection H as <-. exact (Hhere _ _ _ E).
  - match type of H with
    | match ?e with _ => _ end = _ => destruct e as [y|] eqn:E
    end.
    + injection H as <-. exact (Hhere _ _ _ E).
    + destruct (IH _ _ H) as (sk & w & rest' & -> & Hi & He & M).
      exists (c :: sk), w, rest'. cbn [app length].
      repeat split; try assumption. lia.
Qed.

(** What [exec] returns lies in the text, from [lastIndex] on. *)
Lemma exec_sound r (text : jsstring) lastIndex m :
  exec r text lastIndex = Some m ->
  exists before w rest',
    text = before ++ w ++ rest'
    /\ index m = length before /\ lastIndex <= index m
    /\ matchEnd m = index m + length w
    /\ Matches r w rest' (index m) [] (groups m).
Proof.
  unfold exec.
  destruct (Nat.ltb_spec (length text) lastIndex) as [|Hle]; [discriminate|].
  intros H. destruct (search_sound _ _ _ _ H)
    as (sk & w & rest' & Hs & Hi & He & M).
  exists (firstn lastIndex text ++ sk), w, rest'.
  split.
  { rewrite <- app_assoc, <- Hs. symmetry. apply firstn_skipn. }
  rewrite length_app, firstn_length_le by exact Hle.
  repeat split; try assumption. lia.
Qed.

Lemma Matches_avoids c r :
  avoids c r = true ->
  forall w rest pos caps caps',
    Matches r w rest pos caps caps' -> ~ In c w.
Proof.
  induction r as [x|s|r1 IH1 r2 IH2|r1 IH1 r2 IH2|r1 IH1|cls|cls|cls|n r1 IH1|];
    cbn [avoids Matches]; intros Ha w rest pos caps caps' M.
  - destruct M as (-> & _). apply negb_true_iff, N.eqb_neq in Ha.
    intros [E|[]]. congruence.
  - destruct M as (-> & _). apply negb_true_iff in Ha. intros Hin.
    assert (existsb (N.eqb c) s = true)
      by (apply existsb_exists; exists c; split;
          [exact Hin | apply N.eqb_refl]).
    congruence.
  - apply andb_true_iff in Ha. destruct Ha as [H1 H2].
    destruct M as (w1 & w2 & c1 & -> & M1 & M2). rewrite in_app_iff.
    intros [Hin|Hin]; [exact (IH1 H1 _ _ _ _ _ M1 Hin)
                      | exact (IH2 H2 _ _ _ _ _ M2 Hin)].
  - apply andb_true_iff in Ha. destruct Ha as [H1 H2].
    destruct M as [M|M]; [exact (IH1 H1 _ _ _ _ _ M)
                         | exact (IH2 H2 _ _ _ _ _ M)].
  - destruct M as [(-> & _)|(_ & M)]; [intros [] | exact (IH1 Ha _ _ _ _ _ M)].
  - destruct M as (Hw & _). apply negb_true_iff in Ha. intros Hin.
    rewrite forallb_forall in Hw. rewrite (Hw _ Hin) in Ha. discriminate.
  - destruct M as (_ & Hw & _). apply negb_true_iff in Ha. intros Hin.
    rewrite forallb_forall in Hw. rewrite (Hw _ Hin) in Ha. discriminate.
  - destruct M as (Hw & _). apply negb_true_iff in Ha. intros Hin.
    rewrite forallb_forall in Hw. rewrite (Hw _ Hin) in Ha. discriminate.
  - destruct M as (c1 & M & _). exact (IH1 Ha _ _ _ _ _ M).
  - destruct M as (-> & _). intros [].
Qed.

Lemma Matches_groupless r :
  groupless r = true ->
  forall w rest pos caps caps',
    Matches r w rest pos caps caps' -> caps' = caps.
Proof.
  induction r as [x|s|r1 IH1 r2 IH2|r1 IH1 r2 IH2|r1 IH1|cls|cls|cls|n r1 IH1|];
    cbn [groupless Matches]; intros Hg w rest pos caps caps' M;
    try discriminate.
  - apply M.
  - apply M.
  - apply andb_true_iff in Hg. destruct Hg as [H1 H2].
    destruct M as (w1 & w2 & c1 & _ & M1 & M2).
    rewrite (IH2 H2 _ _ _ _ _ M2). exact (IH1 H1 _ _ _ _ _ M1).
  - apply andb_true_iff in Hg. destruct Hg as [H1 H2].
    destruct M as [M|M]; [exact (IH1 H1 _ _ _ _ _ M)
                         | exact (IH2 H2 _ _ _ _ _ M)].
  - destruct M as [(_ & ->)|(_ & M)]; [reflexivity | exact (IH1 Hg _ _ _ _ _ M)].
  - apply M.
  - apply M.
  - apply M.
  - apply M.
Qed.

(** * The matches of the pattern of [findJsonVariables] *)

Lemma braces_shape w rest pos caps caps' :
  Matches braces w rest pos caps caps' ->
  caps' = caps /\ exists body, w = LBRACE :: body ++ [RBRACE].
Proof.
  unfold braces. cbn [Matches].
  intros (w1 & w2 & c1 & -> & (-> & ->) & w3 & w4 & c2 & -> & (_ & ->)
          & -> & ->).
  split; [reflexivity|]. exists w3. reflexivity.
Qed.

Lemma terminator_shape w rest pos caps caps' :
  Matches terminator w rest pos caps caps' ->
  caps' = caps /\ (w = [59%N] \/ (w = [] /\ rest = [])).
Proof.
  unfold terminator. cbn [Matches].
  intros [(-> & ->)|(-> & -> & ->)]; split; try reflexivity;
    [left | right; split]; reflexivity.
Qed.

(** A match of the pattern: an object literal in braces, after a
    declaration head without a brace, before a semicolon or the end of
    the input; the groups say where the name and the literal are. *)
Lemma pattern_shape w rest pos caps :
  Matches jsonVariablePattern w rest pos [] caps ->
  exists head body term chosen,
    w = head ++ (LBRACE :: body ++ [RBRACE]) ++ term
    /\ ~ In LBRACE head
    /\ (term = [59%N] \/ (term = [] /\ rest = []))
    /\ match chosen with
       | Some s =>
           s <> [] /\ forallb isWordChar s = true
           /\ exists h ws1 ws2,
               head = h ++ s ++ ws1 ++ 61%N :: ws2
               /\ forallb isWhiteSpace ws1 = true
               /\ forallb isWhiteSpace ws2 = true
               /\ capture 1 caps = Some (pos + length h,
                                         pos + length h + length s)
       | None => capture 1 caps = None
       end
    /\ (capture 2 caps
        = Some (pos + length head,
                pos + length head + length (LBRACE :: body ++ [RBRACE]))
        \/ (head = [] /\ capture 2 caps = None
            /\ capture 3 caps
               = Some (pos, pos + length (LBRACE :: body ++ [RBRACE])))).
Proof.
  unfold jsonVariablePattern.
  set (a := Opt (Seq (Lit (js "export")) (Plus isWhiteSpace))).
  set (b := Opt (Alt (Lit (js "const"))
                     (Alt (Lit (js "let"))
                          (Seq (Lit (js "var")) (Plus isWhiteSpace))))).
  cbn [Matches].
  intros [(wa & w1 & ca & -> & Ma & wb & w2 & cb & -> & Mb
           & wc & w3 & cc & -> & Mc & wd & w4 & cd & -> & (Hd & ->)
           & we & w5 & ce & -> & (-> & ->) & wf & w6 & cf & -> & (Hf & ->)
           & wj & wt & cj & -> & (cj' & Mj & ->) & Mt)
         | (wj & wt & cj & -> & (cj' & Mj & ->) & Mt)].
  - assert (Ea : ca = []) by (exact (Matches_groupless a eq_refl _ _ _ _ _ Ma)).
    assert (Na : ~ In LBRACE wa)
      by (exact (Matches_avoids LBRACE a eq_refl _ _ _ _ _ Ma)).
    subst ca.
    assert (Eb : cb = []) by (exact (Matches_groupless b eq_refl _ _ _ _ _ Mb)).
    assert (Nb : ~ In LBRACE wb)
      by (exact (Matches_avoids LBRACE b eq_refl _ _ _ _ _ Mb)).
    subst cb.
    assert (Nd : ~ In LBRACE wd).
    { intros Hin. rewrite forallb_forall in Hd. specialize (Hd _ Hin).
      discriminate Hd. }
    assert (Nf : ~ In LBRACE wf).
    { intros Hin. rewrite forallb_forall in Hf. specialize (Hf _ Hin).
      discriminate Hf. }
    destruct (braces_shape _ _ _ _ _ Mj) as (-> & body & ->).
    destruct (terminator_shape _ _ _ _ _ Mt) as (-> & Ht).
    assert (Nc : ~ In LBRACE wc).
    { destruct Mc as [(-> & _)|(_ & c1 & (_ & Hc & _) & _)]; [intros []|].
      intros Hin. rewrite forallb_forall in Hc. specialize (Hc _ Hin).
      discriminate Hc. }
    exists (wa ++ wb ++ wc ++ wd ++ [61%N] ++ wf), body, wt,
      (match wc with [] => None | _ => Some wc end).
    split; [repeat (cbn [app]; rewrite <- ?app_assoc); reflexivity|].
    split.
    { rewrite !in_app_iff. cbn [In].
      intros [H|[H|[H|[H|[[H|[]]|H]]]]]; try contradiction. discriminate H. }
    split; [exact Ht|].
    split.
    + destruct Mc as [(-> & ->)|(Hne & c1 & (_ & Hc & ->) & ->)].
      * reflexivity.
      * destruct wc as [|x wc']; [contradiction|].
        split; [discriminate|]. split; [exact Hc|].
        exists (wa ++ wb), wd, wf.
        split; [repeat (cbn [app]; rewrite <- ?app_assoc); reflexivity|].
        split; [exact Hd|]. split; [exact Hf|].
        cbn [capture Nat.eqb]. rewrite length_app. f_equal. f_equal; lia.
    + left. cbn [capture Nat.eqb]. f_equal. rewrite !length_app.
      cbn [length]. f_equal; lia.
  - destruct (braces_shape _ _ _ _ _ Mj) as (-> & body & ->).
    destruct (terminator_shape _ _ _ _ _ Mt) as (-> & Ht).
    exists [], body, wt, None.
    split; [reflexivity|]. split; [intros []|]. split; [exact Ht|].
    split; [reflexivity|].
    right. split; [reflexivity|]. split; [reflexivity|].
    cbn [capture Nat.eqb]. reflexivity.
Qed.

(** * The candidates and where they lie *)

Lemma isPrefix_here (p s : jsstring) : isPrefix p (p ++ s) = true.
Proof.
  induction p as [|x p IH]; [reflexivity|].
  cbn [app isPrefix]. rewrite N.eqb_refl, IH. reflexivity.
Qed.

(** The first occurrence of a text is where it stands, when what
    precedes it lacks its first code unit. *)
Lemma indexOf_first c (p head post : jsstring) :
  ~ In c head ->
  indexOf (head ++ (c :: p) ++ post) (c :: p) 0 = Some (length head).
Proof.
  intros Hn. unfold indexOf. cbn [Nat.min skipn].
  assert (H : forall k,
             indexOfAux (c :: p) (head ++ (c :: p) ++ post) k
             = Some (k + length head)).
  { induction head as [|x head IH]; intros k.
    - cbn [app length]. rewrite Nat.add_0_r.
      change (c :: p ++ post) with ((c :: p) ++ post).
      destruct ((c :: p) ++ post) eqn:E; [discriminate|].
      cbn [indexOfAux]. rewrite <- E, isPrefix_here. reflexivity.
    - cbn [app indexOfAux isPrefix].
      destruct (N.eqb_spec c x) as [->|Hx];
        [exfalso; apply Hn; left; reflexivity|].
      cbn [andb]. rewrite IH by (intros Hin; apply Hn; right; exact Hin).
      f_equal. cbn [length]. lia. }
  exact (H 0).
Qed.

Lemma slice_at (pre mid post : jsstring) a b :
  a = length pre -> b = length pre + length mid ->
  slice (pre ++ mid ++ post) (Z.of_nat a) (Z.of_nat b) = mid.
Proof. intros -> ->. apply slice_middle. Qed.

Lemma orElse_nonempty c (s : jsstring) b :
  orElse (Some (c :: s)) b = Some (c :: s).
Proof. reflexivity. Qed.

(** A text that does not occur is not found. *)
Lemma indexOfAux_absent (p : jsstring) :
  forall (s : jsstring) k,
    (forall u v, s <> u ++ p ++ v) -> indexOfAux p s k = None.
Proof.
  induction s as [|x s IH]; intros k H.
  - cbn [indexOfAux]. destruct (isPrefix p []) eqn:E; [|reflexivity].
    apply isPrefix_app in E. exfalso. apply (H [] (skipn (length p) [])).
    exact E.
  - cbn [indexOfAux]. destruct (isPrefix p (x :: s)) eqn:E.
    + apply isPrefix_app in E. exfalso.
      apply (H [] (skipn (length p) (x :: s))). exact E.
    + apply IH. intros u v Hs. apply (H (x :: u) v). rewrite Hs. reflexivity.
Qed.

(** * Where the lazy quantifier stops *)

Section FirstClose.

Variable A : Type.

(** The lazy quantifier stops at the first place where what follows it
    matches. *)
Lemma lazy_first cls (k : jsstring -> nat -> option A) :
  forall (rest : jsstring) pos x,
    lazy cls k rest pos = Some x ->
    exists w rest',
      rest = w ++ rest' /\ k rest' (pos + length w) = Some x
      /\ forall w1 c w2,
          w = w1 ++ c :: w2 ->
          k (c :: w2 ++ rest') (pos + length w1) = None.
Proof.
  induction rest as [|c t IH]; intros pos x H; cbn [lazy] in H.
  - destruct (k [] pos) as [y|] eqn:E; [|discriminate].
    injection H as <-. exists [], []. rewrite Nat.add_0_r.
    split; [reflexivity|]. split; [exact E|].
    intros [|? ?] ? ? Hw; discriminate Hw.
  - destruct (k (c :: t) pos) as [y|] eqn:E.
    + injection H as <-. exists [], (c :: t). rewrite Nat.add_0_r.
      split; [reflexivity|]. split; [exact E|].
      intros [|? ?] ? ? Hw; discriminate Hw.
    + destruct (cls c); [|discriminate].
      destruct (IH _ _ H) as (w & rest' & -> & Hk & Hmin).
      exists (c :: w), rest'. split; [reflexivity|].
      split; [rewrite <- Hk; cbn [length]; f_equal; lia|].
      intros [|d w1] c' w2 Hw; cbn [app] in Hw; injection Hw as <- Hw.
      * subst w. cbn [length]. rewrite Nat.add_0_r. exact E.
      * rewrite <- (Hmin w1 c' w2 Hw). cbn [length]. f_equal. lia.
Qed.

Lemma rmatch_Alt_inv r1 r2 (rest : jsstring) pos caps
      (k : jsstring -> nat -> captures -> option A) x :
  rmatch (Alt r1 r2) rest pos caps k = Some x ->
  rmatch r1 rest pos caps k = Some x \/ rmatch r2 rest pos caps k = Some x.
Proof.
  cbn [rmatch]. destruct (rmatch r1 rest pos caps k) as [y|];
    [left | right]; assumption.
Qed.

Lemma rmatch_Seq_inv r1 r2 (rest : jsstring) pos caps
      (k : jsstring -> nat -> captures -> option A) x :
  rmatch (Seq r1 r2) rest pos caps k = Some x ->
  exists w rest' caps',
    rest = w ++ rest' /\ Matches r1 w rest' pos caps caps'
    /\ rmatch r2 rest' (pos + length w) caps' k = Some x.
Proof.
  cbn [rmatch]. intros H. exact (rmatch_sound _ r1 _ _ _ _ _ H).
Qed.

(** The literal that [{[\s\S]*?}(?:;|$)] takes, when nothing after it
    can fail, holds no closing brace followed by a semicolon. *)
Lemma tail_first_close n (rest : jsstring) pos caps
      (k : jsstring -> nat -> captures -> option A) x :
  (forall r p c, k r p c <> None) ->
  rmatch (Seq (Group n braces) terminator) rest pos caps k = Some x ->
  exists body b r p,
    rest = (LBRACE :: body ++ [RBRACE]) ++ b
    /\ indexOf (LBRACE :: body ++ [RBRACE]) [RBRACE; 59%N] 0 = None
    /\ k r p ((n, (pos, pos + length (LBRACE :: body ++ [RBRACE]))) :: caps)
       = Some x.
Proof.
  intros Hk H. cbn [rmatch braces terminator] in H.
  destruct rest as [|c0 t]; [discriminate|].
  destruct (N.eqb_spec c0 LBRACE) as [->|]; [|discriminate].
  apply lazy_first in H. destruct H as (w & rest' & -> & Hend & Hmin).
  destruct rest' as [|y t']; [discriminate|].
  destruct (N.eqb_spec y RBRACE) as [->|]; [|discriminate].
  assert (Hpos : S (S pos + length w)
                 = pos + length (LBRACE :: w ++ [RBRACE]))
    by (cbn [length]; rewrite length_app; cbn [length]; lia).
  rewrite Hpos in Hend.
  assert (Hno : indexOf (LBRACE :: w ++ [RBRACE]) [RBRACE; 59%N] 0 = None).
  { unfold indexOf. cbn [Nat.min skipn]. apply indexOfAux_absent.
    intros [|u0 u] v E; cbn [app] in E;
      [apply (f_equal (hd 0%N)) in E; vm_compute in E; discriminate E
      | injection E as _ E].
    destruct (@exists_last _ (59%N :: v)) as (l' & z & El); [discriminate|].
    change (u ++ RBRACE :: 59%N :: v) with (u ++ RBRACE :: (59%N :: v)) in E.
    rewrite El in E.
    change (u ++ RBRACE :: l' ++ [z]) with (u ++ (RBRACE :: l') ++ [z]) in E.
    rewrite app_assoc in E. apply app_inj_tail in E. destruct E as [Ew <-].
    destruct l' as [|z0 l'']; cbn [app] in El.
    - apply (f_equal (hd 0%N)) in El. vm_compute in El. discriminate El.
    - injection El as <- _. specialize (Hmin u RBRACE (59%N :: l'') Ew).
      cbn [app] in Hmin.
      change (N.eqb RBRACE RBRACE) with true in Hmin.
      change (N.eqb 59 59) with true in Hmin. cbv iota in Hmin.
      match type of Hmin with
      | match ?e with _ => _ end = None => destruct e eqn:Ek
      end; [discriminate|].
      exact (Hk _ _ _ Ek). }
  exists w, t'.
  destruct t' as [|z t''].
  - eexists _, _.
    split; [repeat (cbn [app]; rewrite <- ?app_assoc); reflexivity|].
    split; [exact Hno|]. exact Hend.
  - destruct (N.eqb z 59).
    + match type of Hend with
      | match ?e with _ => _ end = _ => destruct e as [y|] eqn:Ek
      end; [|discriminate].
      injection Hend as <-. eexists _, _.
      split; [repeat (cbn [app]; rewrite <- ?app_assoc); reflexivity|].
      split; [exact Hno | exact Ek].
    + discriminate.
Qed.

End FirstClose.

(** The literal of a match of the pattern holds no closing brace
    followed by a semicolon. *)
Lemma pattern_first_close (rest : jsstring) pos i m :
  rmatch jsonVariablePattern rest pos []
         (fun _ e caps => Some {| index := i; matchEnd := e; groups := caps |})
  = Some m ->
  exists a lit b,
    rest = a ++ lit ++ b /\ lit <> []
    /\ indexOf lit [RBRACE; 59%N] 0 = None
    /\ (capture 2 (groups m)
        = Some (pos + length a, pos + length a + length lit)
        \/ (capture 2 (groups m) = None
            /\ capture 3 (groups m)
               = Some (pos + length a, pos + length a + length lit))).
Proof.
  assert (Hk : forall (r : jsstring) p c,
             (fun _ e caps =>
                Some {| index := i; matchEnd := e; groups := caps |}) r p c
             <> None) by (intros; discriminate).
  unfold jsonVariablePattern. intros H.
  apply rmatch_Alt_inv in H. destruct H as [H|H].
  - do 6 (apply rmatch_Seq_inv in H;
          let w := fresh "w" in
          let c := fresh "c" in
          let M := fresh "M" in
          destruct H as (w & ? & c & -> & M & H)).
    destruct (tail_first_close _ _ _ _ _ _ _ Hk H)
      as (body & b & r & p & -> & Hno & Hm).
    injection Hm as <-.
    exists (w ++ w0 ++ w1 ++ w2 ++ w3 ++ w4), (LBRACE :: body ++ [RBRACE]), b.
    split; [repeat (cbn [app]; rewrite <- ?app_assoc); reflexivity|].
    split; [discriminate|]. split; [exact Hno|].
    left. cbn [groups capture Nat.eqb length].
    rewrite !length_app. cbn [length]. rewrite ?length_app. cbn [length].
    f_equal. f_equal; lia.
  - destruct (tail_first_close _ _ _ _ _ _ _ Hk H)
      as (body & b & r & p & -> & Hno & Hm).
    injection Hm as <-.
    exists [], (LBRACE :: body ++ [RBRACE]), b.
    split; [reflexivity|]. split; [discriminate|]. split; [exact Hno|].
    right. cbn [groups capture Nat.eqb app length]. rewrite Nat.add_0_r.
    split; reflexivity.
Qed.

Lemma search_first_close :
  forall (rest : jsstring) pos m,
    search jsonVariablePattern rest pos = Some m ->
    exists a lit b,
      rest = a ++ lit ++ b /\ lit <> []
      /\ indexOf lit [RBRACE; 59%N] 0 = None
      /\ (capture 2 (groups m)
          = Some (pos + length a, pos + length a + length lit)
          \/ (capture 2 (groups m) = None
              /\ capture 3 (groups m)
                 = Some (pos + length a, pos + length a + length lit))).
Proof.
  induction rest as [|c t IH]; intros pos m H; cbn [search] in H.
  - match type of H with
    | match ?e with _ => _ end = _ => destruct e as [y|] eqn:E
    end; [|discriminate].
    injection H as <-. exact (pattern_first_close _ _ _ _ E).
  - match type of H with
    | match ?e with _ => _ end = _ => destruct e as [y|] eqn:E
    end.
    + injection H as <-. exact (pattern_first_close _ _ _ _ E).
    + destruct (IH _ _ H) as (a & lit & b & -> & Hl & Hno & Hc).
      exists (c :: a), lit, b. split; [reflexivity|]. split; [exact Hl|].
      split; [exact Hno|]. cbn [length].
      replace (pos + S (length a)) with (S pos + length a) by lia.
      exact Hc.
Qed.

(** The literal of a match of [exec] holds no closing brace followed by
    a semicolon. *)
Lemma exec_first_close (text : jsstring) lastIndex m json :
  exec jsonVariablePattern text lastIndex = Some m ->
  orElse (group text m 2) (group text m 3) = Some json ->
  indexOf json [RBRACE; 59%N] 0 = None.
Proof.
  unfold exec.
  destruct (Nat.ltb_spec (length text) lastIndex) as [|Hle]; [discriminate|].
  intros H. destruct (search_first_close _ _ _ H)
    as (a & lit & b & Hs & Hl & Hno & Hc).
  assert (Ht : text = (firstn lastIndex text ++ a) ++ lit ++ b).
  { rewrite <- app_assoc, <- Hs. symmetry. apply firstn_skipn. }
  assert (Hlen : length (firstn lastIndex text ++ a) = lastIndex + length a)
    by (rewrite length_app, firstn_length_le by exact Hle; reflexivity).
  assert (Hsl : slice text (Z.of_nat (lastIndex + length a))
                      (Z.of_nat (lastIndex + length a + length lit)) = lit).
  { rewrite Ht at 1. apply slice_at; lia. }
  destruct lit as [|l0 lit']; [contradiction|].
  unfold group. destruct Hc as [H2|[H2 H3]].
  - rewrite H2, Hsl. cbn [orElse]. intros [= <-]. exact Hno.
  - rewrite H2, H3, Hsl. cbn [orElse]. intros [= <-]. exact Hno.
Qed.

Section LocatedFacts.

Variable tree : Type.
Variable parseTree : jsstring -> option tree.
Variable text : jsstring.

(** What one match adds to the list: nothing, or a candidate that lies
    between [lastIndex] and the end of the match. *)
Lemma recordMatch_located lastIndex m variables :
  exec jsonVariablePattern text lastIndex = Some m ->
  recordMatch parseTree text m variables = variables
  \/ exists v,
      recordMatch parseTree text m variables = variables ++ [v]
      /\ located text (length variables) v
      /\ (Z.of_nat lastIndex <= jsonStart v)%Z
      /\ (jsonEnd v <= Z.of_nat (matchEnd m))%Z.
Proof.
  intros He.
  destruct (exec_sound _ _ _ _ He) as (before & w & rest' & Ht & Hi & Hl
                                       & Hend & M).
  destruct (pattern_shape _ _ _ _ M)
    as (head & body & term & chosen & Hw & Hn & Hterm & Hname & Hcap).
  set (lit := LBRACE :: body ++ [RBRACE]) in *.
  assert (Hlit : exists c s, lit = c :: s)
    by (exists LBRACE, (body ++ [RBRACE]); reflexivity).
  assert (Htext : text = (before ++ head) ++ lit ++ (term ++ rest')).
  { rewrite Ht, Hw. rewrite <- !app_assoc. reflexivity. }
  assert (Hjson : orElse (group text m 2) (group text m 3) = Some lit).
  { destruct Hlit as (c & s & Elit).
    destruct Hcap as [H2|(-> & H2 & H3)]; unfold group.
    - rewrite H2, Htext, Hi.
      rewrite slice_at by (rewrite ?length_app; lia).
      rewrite Elit. reflexivity.
    - rewrite H2, H3. cbn [orElse]. rewrite Htext, Hi.
      rewrite slice_at by (rewrite ?length_app; cbn [length]; lia).
      reflexivity. }
  assert (Hchosen : orElse (group text m 1) None = chosen).
  { unfold group. destruct chosen as [s|].
    - destruct Hname as (Hs & _ & h & ws1 & ws2 & Hh & _ & _ & H1).
      rewrite H1, Htext, Hh, Hi.
      replace ((before ++ h ++ s ++ ws1 ++ 61%N :: ws2)
               ++ lit ++ term ++ rest')
        with ((before ++ h) ++ s
              ++ (ws1 ++ 61%N :: ws2 ++ lit ++ term ++ rest'))
        by (repeat (cbn [app]; rewrite <- ?app_assoc); reflexivity).
      rewrite slice_at by (rewrite ?length_app; lia).
      destruct s; [contradiction | reflexivity].
    - rewrite Hname. reflexivity. }
  assert (Hwhole : group text m 0 = Some w).
  { unfold group. rewrite Hend, Hi, Ht. f_equal. apply slice_at; reflexivity. }
  assert (Hidx : indexOf w lit 0 = Some (length head)).
  { rewrite Hw. apply indexOf_first. exact Hn. }
  unfold recordMatch. rewrite Hjson, Hchosen, Hwhole, Hidx.
  destruct (parseTree lit) as [t|]; [|left; reflexivity].
  right. eexists. split; [reflexivity|].
  split; [|split].
  - exists before, head, body, (term ++ rest'), chosen.
    split; [rewrite Htext, <- !app_assoc; reflexivity|].
    split; [exact Hn|].
    split.
    { destruct Hterm as [->|(-> & ->)];
        [right; exists rest'; reflexivity | left; reflexivity]. }
    split; [exact (exec_first_close _ _ _ _ He Hjson)|].
    split.
    { destruct chosen as [s|]; [|exact I].
      destruct Hname as (Hs & Hw1 & h & ws1 & ws2 & Hh & H1 & H2 & _).
      split; [exact Hs|]. split; [exact Hw1|].
      exists h, ws1, ws2. repeat split; assumption. }
    unfold candidateOf. rewrite Hi. f_equal; unfold lit; lia.
  - cbn [jsonStart]. lia.
  - cbn [jsonEnd]. rewrite Hend, Hw, !length_app. lia.
Qed.

End LocatedFacts.

(** * The list of candidates *)

Lemma sliceFrom_at (pre post : jsstring) a :
  a = length pre -> sliceFrom (pre ++ post) (Z.of_nat a) = post.
Proof.
  intros ->. unfold sliceFrom.
  rewrite relIndex_nat by (rewrite length_app; lia).
  rewrite skipn_app, skipn_all, Nat.sub_diag. reflexivity.
Qed.

Lemma slice_head (pre post : jsstring) a :
  a = length pre -> slice (pre ++ post) 0 (Z.of_nat a) = pre.
Proof.
  intros ->. change 0%Z with (Z.of_nat (length (@nil N))).
  change (pre ++ post) with ([] ++ pre ++ post). apply slice_at; reflexivity.
Qed.

(** An occurrence found is an occurrence. *)
Lemma indexOfAux_occurs (p : jsstring) :
  forall (s : jsstring) k, indexOfAux p s k = None ->
                           forall u v, s <> u ++ p ++ v.
Proof.
  induction s as [|x s IH]; intros k H u v E; cbn [indexOfAux] in H.
  - destruct u; [|discriminate E]. cbn [app] in E. rewrite E in H.
    rewrite isPrefix_here in H. discriminate.
  - destruct (isPrefix p (x :: s)) eqn:Ep; [discriminate|].
    destruct u as [|y u].
    + cbn [app] in E. rewrite E, isPrefix_here in Ep. discriminate.
    + injection E as _ E. exact (IH _ H u v E).
Qed.

Section CandidateFacts.

Variable tree : Type.
Variable parseTree : jsstring -> option tree.
Variable text : jsstring.

Lemma scanned_step lastIndex m variables :
  scanned text lastIndex variables ->
  exec jsonVariablePattern text lastIndex = Some m ->
  scanned text (matchEnd m) (recordMatch parseTree text m variables).
Proof.
  intros (Hloc & Hend & Hord) He.
  pose proof (exec_advance _ _ _ He) as [_ Hadv].
  destruct (recordMatch_located _ parseTree text _ _ variables He)
    as [->|(v & -> & Hv & Hs & Hv')].
  - split; [exact Hloc|]. split; [|exact Hord].
    intros v Hin. specialize (Hend v Hin). lia.
  - split; [|split].
    + intros i u Hu.
      destruct (Nat.lt_ge_cases i (length variables)) as [Hi|Hi].
      * rewrite nth_error_app1 in Hu by exact Hi. exact (Hloc _ _ Hu).
      * rewrite nth_error_app2 in Hu by exact Hi.
        destruct (i - length variables) as [|d] eqn:Ed.
        -- injection Hu as <-. replace i with (length variables) by lia.
           exact Hv.
        -- destruct d; discriminate Hu.
    + intros u Hin. apply in_app_iff in Hin. destruct Hin as [Hin|[<-|[]]].
      * specialize (Hend u Hin). lia.
      * exact Hv'.
    + intros i j vi vj Hij Hvi Hvj.
      destruct (Nat.lt_ge_cases j (length variables)) as [Hj|Hj].
      * rewrite nth_error_app1 in Hvi by lia.
        rewrite nth_error_app1 in Hvj by exact Hj.
        exact (Hord _ _ _ _ Hij Hvi Hvj).
      * rewrite nth_error_app2 in Hvj by exact Hj.
        destruct (j - length variables) as [|d] eqn:Ed;
          [|destruct d; discriminate Hvj].
        injection Hvj as <-.
        rewrite nth_error_app1 in Hvi by lia.
        apply nth_error_In in Hvi. specialize (Hend _ Hvi). lia.
Qed.

Lemma findLoop_scanned fuel :
  forall lastIndex variables r,
    findLoop parseTree fuel text lastIndex variables = Some r ->
    scanned text lastIndex variables ->
    exists last, scanned text last r.
Proof.
  induction fuel as [|fuel IH]; intros lastIndex variables r H Hs;
    cbn [findLoop] in H;
    destruct (exec jsonVariablePattern text lastIndex) as [m|] eqn:E.
  - discriminate.
  - injection H as <-. exists lastIndex. exact Hs.
  - exact (IH _ _ _ H (scanned_step _ _ _ Hs E)).
  - injection H as <-. exists lastIndex. exact Hs.
Qed.

Lemma scanned_nil : scanned text 0 [].
Proof.
  split; [|split].
  - intros [|i] v H; discriminate H.
  - intros v [].
  - intros [|i] j vi vj _ H; discriminate H.
Qed.

Lemma findJsonVariables_scanned :
  exists last, scanned text last (findJsonVariables parseTree text).
Proof.
  unfold findJsonVariables.
  destruct (findLoop parseTree (S (length text)) text 0 []) as [r|] eqn:E.
  - exact (findLoop_scanned _ _ _ _ E scanned_nil).
  - exists 0. exact scanned_nil.
Qed.

Lemma findJsonVariables_located i v :
  nth_error (findJsonVariables parseTree text) i = Some v -> located text i v.
Proof.
  destruct findJsonVariables_scanned as (last & Hloc & _). apply Hloc.
Qed.

End CandidateFacts.

(** What lies before and after a located candidate. *)
Lemma located_frame (text : jsstring) i v :
  located text i v ->
  exists before after,
    text = before ++ json v ++ after
    /\ jsonStart v = Z.of_nat (length before)
    /\ jsonEnd v = Z.of_nat (length before + length (json v))
    /\ (after = [] \/ exists after', after = 59%N :: after').
Proof.
  intros (before & head & body & after & chosen & Ht & _ & Ha & _ & _ & ->).
  exists (before ++ head), after. cbn [json jsonStart jsonEnd candidateOf].
  rewrite length_app.
  split; [rewrite Ht, <- app_assoc; reflexivity|].
  split; [reflexivity|]. split; [lia | exact Ha].
Qed.

(** X4: every candidate of [findJsonVariables] carries offsets that lie
    in the text and delimit exactly its literal: the slice of the text
    between them is the literal, and the text is what precedes the start
    offset, the literal, and what follows the end offset. *)
Theorem findJsonVariables_offsets (tree : Type)
        (parse : jsstring -> option tree) (text : jsstring) (v : variable) :
  In v (findJsonVariables parse text) ->
  (0 <= jsonStart v)%Z
  /\ jsonEnd v = (jsonStart v + Z.of_nat (length (json v)))%Z
  /\ (jsonEnd v <= Z.of_nat (length text))%Z
  /\ slice text (jsonStart v) (jsonEnd v) = json v
  /\ slice text 0 (jsonStart v) ++ json v ++ sliceFrom text (jsonEnd v) = text.
Proof.
  intros Hin. apply In_nth_error in Hin. destruct Hin as [i Hi].
  apply findJsonVariables_located in Hi.
  destruct (located_frame _ _ _ Hi) as (before & after & Ht & Hs & He & _).
  rewrite Hs, He.
  split; [lia|]. split; [lia|].
  split; [rewrite Ht at 1; rewrite !length_app; lia|].
  split; [rewrite Ht at 1; apply slice_at; reflexivity|].
  rewrite Ht at 1 2. rewrite slice_head by reflexivity.
  rewrite (app_assoc before (json v) after).
  rewrite sliceFrom_at by (rewrite length_app; reflexivity).
  symmetry. exact Ht.
Qed.

Lemma findJsonVariables_offsets_witness :
  In {| name := js "cfg"; json := jq "{`x`:1}"; jsonStart := 12;
        jsonEnd := 19 |}
     (findJsonVariables parseTree cfgSource)
  /\ slice cfgSource 12 19 = jq "{`x`:1}".
Proof.
  assert (H : In {| name := js "cfg"; json := jq "{`x`:1}"; jsonStart := 12;
                    jsonEnd := 19 |}
                 (findJsonVariables parseTree cfgSource))
    by (vm_compute; left; reflexivity).
  split; [exact H|].
  exact (proj1 (proj2 (proj2 (proj2
           (findJsonVariables_offsets _ parseTree cfgSource _ H))))).
Defined.

(** X5: the literal of every candidate opens with a brace and closes
    with one, is followed in the text by a semicolon or by the end of the
    text, and holds no closing brace followed by a semicolon: it ends at
    the first closing brace after which the statement ends. *)
Theorem findJsonVariables_literal (tree : Type)
        (parse : jsstring -> option tree) (text : jsstring) (v : variable) :
  In v (findJsonVariables parse text) ->
  (exists body, json v = LBRACE :: body ++ [RBRACE])
  /\ indexOf (json v) (js "};") 0 = None
  /\ (sliceFrom text (jsonEnd v) = []
      \/ exists rest, sliceFrom text (jsonEnd v) = 59%N :: rest).
Proof.
  intros Hin. apply In_nth_error in Hin. destruct Hin as [i Hi].
  apply findJsonVariables_located in Hi.
  destruct (located_frame _ _ _ Hi) as (before & after & Ht & _ & He & Ha).
  destruct Hi as (b0 & head & body & a0 & chosen & _ & _ & _ & Hno & _ & ->).
  cbn [json candidateOf] in *.
  split; [exists body; reflexivity|]. split; [exact Hno|].
  cbn [jsonEnd candidateOf] in He |- *. rewrite He, Ht, app_assoc.
  rewrite sliceFrom_at by (rewrite length_app; reflexivity). exact Ha.
Qed.

Lemma findJsonVariables_literal_witness :
  In {| name := js "cfg"; json := jq "{`x`:1}"; jsonStart := 12;
        jsonEnd := 19 |}
     (findJsonVariables parseTree cfgSource)
  /\ exists rest, sliceFrom cfgSource 19 = 59%N :: rest.
Proof.
  assert (H : In {| name := js "cfg"; json := jq "{`x`:1}"; jsonStart := 12;
                    jsonEnd := 19 |}
                 (findJsonVariables parseTree cfgSource))
    by (vm_compute; left; reflexivity).
  split; [exact H|].
  destruct (proj2 (proj2 (findJsonVariables_literal _ parseTree cfgSource _ H)))
    as [E|E]; [vm_compute in E; discriminate E | exact E].
Defined.

(** X6: the name of the candidate at position [i] of the list is the
    run of word characters that stands, with optional white space around
    the [=] sign, right before the literal, or else [Object_] followed by
    [i + 1]: the generated names count the candidates kept, not the
    matches. *)
Theorem findJsonVariables_names (tree : Type)
        (parse : jsstring -> option tree) (text : jsstring) i (v : variable) :
  nth_error (findJsonVariables parse text) i = Some v ->
  name v = js "Object_" ++ decimalOfN (N.of_nat (i + 1))
  \/ (name v <> [] /\ forallb isWordChar (name v) = true
      /\ exists h ws1 ws2,
          slice text 0 (jsonStart v) = h ++ name v ++ ws1 ++ 61%N :: ws2
          /\ forallb isWhiteSpace ws1 = true
          /\ forallb isWhiteSpace ws2 = true).
Proof.
  intros Hi. apply findJsonVariables_located in Hi.
  destruct Hi as (before & head & body & after & chosen & Ht & _ & _ & _
                  & Hname & ->).
  cbn [name jsonStart candidateOf].
  destruct chosen as [s|]; [right | left; reflexivity].
  destruct Hname as (Hs & Hw & h & ws1 & ws2 & Hh & H1 & H2).
  split; [exact Hs|]. split; [exact Hw|].
  exists (before ++ h), ws1, ws2. split; [|split; assumption].
  rewrite Ht, app_assoc, slice_head by (rewrite length_app; reflexivity).
  rewrite Hh, <- app_assoc. reflexivity.
Qed.

Lemma findJsonVariables_names_witness :
  nth_error (findJsonVariables parseTree (jq "a = {}; {`b`:1}")) 1
  = Some {| name := js "Object_2"; json := jq "{`b`:1}"; jsonStart := 8;
            jsonEnd := 15 |}
  /\ js "Object_2" = js "Object_" ++ decimalOfN (N.of_nat (1 + 1)).
Proof.
  assert (H : nth_error (findJsonVariables parseTree (jq "a = {}; {`b`:1}")) 1
              = Some {| name := js "Object_2"; json := jq "{`b`:1}";
                        jsonStart := 8; jsonEnd := 15 |})
    by (vm_compute; reflexivity).
  split; [exact H|].
  destruct (findJsonVariables_names _ parseTree _ _ _ H) as [E|(_ & _ & E)].
  - exact E.
  - vm_compute. reflexivity.
Defined.

(** X7: the candidates come in the order of the text and do not
    overlap: each one ends before the next one starts. *)
Theorem findJsonVariables_ordered (tree : Type)
        (parse : jsstring -> option tree) (text : jsstring) i j
        (vi vj : variable) :
  i < j ->
  nth_error (findJsonVariables parse text) i = Some vi ->
  nth_error (findJsonVariables parse text) j = Some vj ->
  (jsonEnd vi <= jsonStart vj)%Z.
Proof.
  destruct (findJsonVariables_scanned _ parse text) as (last & _ & _ & Hord).
  apply Hord.
Qed.

Lemma findJsonVariables_ordered_witness :
  nth_error (findJsonVariables parseTree (jq "a = {}; {`b`:1}")) 0
  = Some {| name := js "a"; json := js "{}"; jsonStart := 4; jsonEnd := 6 |}
  /\ nth_error (findJsonVariables parseTree (jq "a = {}; {`b`:1}")) 1
     = Some {| name := js "Object_2"; json := jq "{`b`:1}"; jsonStart := 8;
               jsonEnd := 15 |}
  /\ (6 <= 8)%Z.
Proof.
  assert (H0 : nth_error (findJsonVariables parseTree (jq "a = {}; {`b`:1}")) 0
               = Some {| name := js "a"; json := js "{}"; jsonStart := 4;
                         jsonEnd := 6 |})
    by (vm_compute; reflexivity).
  assert (H1 : nth_error (findJsonVariables parseTree (jq "a = {}; {`b`:1}")) 1
               = Some {| name := js "Object_2"; json := jq "{`b`:1}";
                         jsonStart := 8; jsonEnd := 15 |})
    by (vm_compute; reflexivity).
  split; [exact H0|]. split; [exact H1|].
  exact (findJsonVariables_ordered _ parseTree _ 0 1 _ _ (Nat.lt_0_succ 0)
                                   H0 H1).
Defined.

(** X8: a text without an opening brace has no candidate, and neither
    has a text in which no closing brace is followed by a semicolon or
    ends the text; the first question of the command on such a program
    source is never asked. *)
Theorem findJsonVariables_none (tree : Type)
        (parse : jsstring -> option tree) (text : jsstring) :
  existsb (N.eqb LBRACE) text = false
  \/ (indexOf text (js "};") 0 = None /\ endsWith text (js "}") = false) ->
  findJsonVariables parse text = []
  /\ forall a fmt,
      insertPathAndValue LangJavascript text a fmt
      = ErrorMessage (js "No valid JSON object variables found in the file.")
      /\ insertPathAndValue LangTypescript text a fmt
         = ErrorMessage
             (js "No valid JSON object variables found in the file.").
Proof.
  intros H.
  assert (Hnil : forall (T : Type) (p : jsstring -> option T),
             findJsonVariables p text = []).
  { intros T p.
    destruct (findJsonVariables p text) as [|v l] eqn:E; [reflexivity|].
    exfalso.
    assert (Hv : nth_error (findJsonVariables p text) 0 = Some v)
      by (rewrite E; reflexivity).
    apply findJsonVariables_located in Hv.
    destruct Hv as (before & head & body & after & chosen & Ht & _ & Ha & _).
    destruct H as [H|[H1 H2]].
    - assert (Hin : In LBRACE text)
        by (rewrite Ht, !in_app_iff; right; right; left; left; reflexivity).
      assert (existsb (N.eqb LBRACE) text = true)
        by (apply existsb_exists; exists LBRACE; split;
            [exact Hin | apply N.eqb_refl]).
      congruence.
    - destruct Ha as [->|(after' & ->)].
      + assert (Hend : endsWith text (js "}") = true).
        { apply endsWith_single. rewrite Ht, app_nil_r.
          change (LBRACE :: body ++ [RBRACE])
            with ((LBRACE :: body) ++ [RBRACE]).
          rewrite !app_assoc, rev_app_distr. reflexivity. }
        congruence.
      + unfold indexOf in H1. cbn [Nat.min skipn] in H1.
        apply (indexOfAux_occurs _ _ _ H1
                 (before ++ head ++ LBRACE :: body) after').
        rewrite Ht. repeat (cbn [app]; rewrite <- ?app_assoc). reflexivity. }
  split; [apply Hnil|].
  intros a fmt. unfold insertPathAndValue, selectTarget.
  cbn [isProgramSource negb]. rewrite Hnil. split; reflexivity.
Qed.

Lemma findJsonVariables_none_witness :
  (indexOf (js "f({a:1})") (js "};") 0 = None
   /\ endsWith (js "f({a:1})") (js "}") = false)
  /\ findJsonVariables parseTree (js "f({a:1})") = [].
Proof.
  assert (H : indexOf (js "f({a:1})") (js "};") 0 = None
              /\ endsWith (js "f({a:1})") (js "}") = false)
    by (split; vm_compute; reflexivity).
  split; [exact H|].
  exact (proj1 (findJsonVariables_none _ parseTree _ (or_intror H))).
Defined.

(** * The command as a whole *)








(** X11: the callback against the earlier one of [part_000], by how
    they end (silently, with a message, or with the replacement text
    handed to the editor).
    With an active editor on a document that is not JavaScript or
    TypeScript, whose text is the same when the one callback reads it
    (before the path and value prompts) and when the other does (after
    them), both end alike, whatever the answers and the formatting.
    They do differ without an active editor, where each shows a message
    of its own, and on a document edited while the prompts are open:
    there each edits the text it has read. *)
Theorem callback_agrees_with_part000 :
  (forall (doc : document) (a : answers) fmt,
      isProgramSource (docLanguage doc) = false ->
      docText doc (promptsBeforeRead (docLanguage doc))
      = docText doc (promptsBeforeRead_part000 (docLanguage doc)) ->
      callback (Some doc) a fmt = callback_part000 (Some doc) a fmt)
  /\ (forall (a : answers) fmt,
        callback None a fmt
        = ErrorMessage (js "Open a JSON/JSONC/JS/TS file first.")
        /\ callback_part000 None a fmt
           = ErrorMessage (js "Open a JSON/JSONC file first.")
        /\ callback None a fmt <> callback_part000 None a fmt)
  /\ (forall fmt,
        let doc := {| docLanguage := LangJson;
                      docText := fun k => match k with
                                          | 0 => jq "{`a`:1}"
                                          | _ => jq "{`a`:1,`b`:3}"
                                          end |} in
        callback (Some doc) (typed [] (js "a") (js "2")) fmt
        = Replaced (jq "{`a`:2}")
        /\ callback_part000 (Some doc) (typed [] (js "a") (js "2")) fmt
           = Replaced (jq "{`a`:2,`b`:3}")).
Proof.
  split; [|split].
  - intros doc a fmt Hlang Htext.
    unfold callback, callback_part000, insertPathAndValue, selectTarget.
    rewrite Hlang, Htext.
    destruct (docLanguage doc); try discriminate Hlang;
      cbn [negb text isWrapped];
      try (destruct (proceed a) as [p|]; [|reflexivity];
           destruct (list_eq_dec N.eq_dec p (js "Yes")); [|reflexivity];
           cbn [negb]);
      destruct (orElse (pathInput a) None); try reflexivity;
      destruct (valueInput a); try reflexivity;
      destruct (parsePath j); try reflexivity;
      destruct (modify _ _ _ _); reflexivity.
  - intros a fmt. split; [reflexivity|]. split; [reflexivity|].
    cbn [callback callback_part000]. intros E.
    apply (f_equal (fun r => match r with
                             | ErrorMessage m => length m
                             | _ => 0
                             end)) in E.
    vm_compute in E. discriminate E.
  - intros fmt doc. split; vm_compute; reflexivity.
Qed.

Lemma callback_agrees_with_part000_witness :
  let doc := {| docLanguage := LangOther;
                docText := fun k => match k with
                                    | 0 => jq "{}"
                                    | _ => keepDocument
                                    end |} in
  let a := {| proceed := Some (js "Yes"); variableName := None;
              pathInput := Some (js "a.b"); valueInput := Some (js "7") |} in
  isProgramSource (docLanguage doc) = false
  /\ docText doc (promptsBeforeRead (docLanguage doc))
     = docText doc (promptsBeforeRead_part000 (docLanguage doc))
  /\ callback (Some doc) a (detectFormattingOptions None)
     = callback_part000 (Some doc) a (detectFormattingOptions None).
Proof.
  intros doc a.
  split; [reflexivity|]. split; [reflexivity|].
  exact (proj1 callback_agrees_with_part000 doc a
               (detectFormattingOptions None) eq_refl eq_refl).
Defined.

(** * The reveal after the edit *)

(** X12: after a pass that settles, [tryRevealPath] finds the node of
    the path in the new text, and the range it reveals holds exactly the
    text the value was written as. *)
Theorem reveal_after_edit (text : jsstring) root path v fmt :
  parseTree (match trim text with
             | [] => [LBRACE; RBRACE]
             | _ => text
             end) = Some root ->
  settles root path = true ->
  wellFormed v = true ->
  exists newText first last,
    editPass text path v fmt = Some newText
    /\ tryRevealPath newText path = Some (first, last)
    /\ slice newText (Z.of_nat first) (Z.of_nat last)
       = stringify fmt (length path) v.
Proof.
  intros Hp Hs Hwf.
  assert (He : exists pre post,
             editPass text path v fmt
             = Some (pre ++ stringify fmt (length path) v ++ post)
             /\ DocContext jsonWithComments path pre post).
  { destruct (trim text) as [|c t] eqn:Et.
    - rewrite (editPass_blank text path v fmt Et).
      exact (editPass_settles _ _ _ _ _ Hp Hs).
    - exact (editPass_settles _ _ _ _ _ Hp Hs). }
  destruct He as (pre & post & He & Hctx).
  destruct (stringify_Val jsonWithComments fmt v (length path) Hwf)
    as (ns & Hns).
  destruct (Hctx _ _ Hns) as (root' & Hdoc & Hfind).
  apply parseDocument_complete in Hdoc.
  destruct (Val_extent _ _ _ Hns) as [Hoff Hlen].
  exists (pre ++ stringify fmt (length path) v ++ post),
    (length pre), (length pre + length (stringify fmt (length path) v)).
  split; [exact He|]. split.
  - unfold tryRevealPath, parseTree. rewrite Hdoc, Hfind.
    rewrite nodeOffset_shift, nodeLength_shift, Hoff, Hlen.
    rewrite Nat.add_0_r. reflexivity.
  - apply slice_middle.
Qed.

Lemma reveal_after_edit_witness :
  exists newText first last,
    editPass keepDocument (parsePath (js "a.b")) (coerceValue (js "7"))
             (detectFormattingOptions None) = Some newText
    /\ tryRevealPath newText (parsePath (js "a.b")) = Some (first, last)
    /\ slice newText (Z.of_nat first) (Z.of_nat last) = js "7".
Proof.
  destruct (parseTree keepDocument) as [root|] eqn:E;
    [|vm_compute in E; discriminate E].
  assert (Hs : settles root (parsePath (js "a.b")) = true)
    by (vm_compute in E; injection E as <-; vm_compute; reflexivity).
  exact (reveal_after_edit keepDocument root (parsePath (js "a.b"))
           (coerceValue (js "7")) (detectFormattingOptions None)
           E Hs eq_refl).
Defined.

(** * What is written is read back *)

(** ** Numbers *)

(** The number that a sign, digits without a leading zero, a fraction
    and an exponent are read as. *)
Lemma parseNumber_value (neg : bool) (ip r1 fp r2 r3 : jsstring) e :
  forallb isDigit ip = true -> 1 <= length ip ->
  ip = [ZERO] \/ headIs (N.eqb ZERO) ip = false ->
  headIs isDigit r1 = false ->
  fracPart r1 = Some (fp, r2) -> expPart r2 = Some (e, r3) ->
  parseNumber ((if neg then [MINUS] else []) ++ ip ++ r1)
  = Some (mkNum (if neg then (- digitsValue (ip ++ fp))%Z
                 else digitsValue (ip ++ fp))
                (e - Z.of_nat (length fp)), r3).
Proof.
  intros Hd Hlen Hz Hr1 Hf He.
  destruct ip as [|d ds]; [simpl in Hlen; lia|].
  assert (Hdm : N.eqb d MINUS = false).
  { apply digit_not_minus. cbn [forallb] in Hd.
    apply andb_true_iff in Hd. apply Hd. }
  assert (Hlead : N.eqb d ZERO
                  && negb (match ds with [] => true | _ => false end) = false).
  { destruct Hz as [Hz|Hz].
    - injection Hz as -> ->. reflexivity.
    - cbn [headIs] in Hz. rewrite N.eqb_sym, Hz. reflexivity. }
  unfold parseNumber.
  destruct neg; cbn [app].
  - change (N.eqb MINUS MINUS) with true. cbv iota.
    change (d :: ds ++ r1) with ((d :: ds) ++ r1).
    rewrite (spanDigits_app _ _ Hd Hr1). rewrite Hlead, Hf, He.
    reflexivity.
  - rewrite Hdm. change (d :: ds ++ r1) with ((d :: ds) ++ r1).
    rewrite (spanDigits_app _ _ Hd Hr1). rewrite Hlead, Hf, He.
    reflexivity.
Qed.

Lemma digitsValue_zeros n (ds : jsstring) :
  digitsValue (repeat ZERO n ++ ds) = digitsValue ds.
Proof.
  unfold digitsValue. rewrite fold_left_app.
  replace (fold_left (fun acc c => (10 * acc + (Z.of_N c - 48))%Z)
                     (repeat ZERO n) 0%Z) with 0%Z; [reflexivity|].
  induction n as [|n IH]; [reflexivity|]. cbn [repeat fold_left].
  exact IH.
Qed.

(** A canonical number is read back from its text. *)
Lemma numberText_reads (x : jnum) :
  canonical (VNumber x) = true ->
  parseNumber (numberText x) = Some (x, []).
Proof.
  intros Hc. destruct x as [z|m k]; unfold numberText.
  - destruct (Z.ltb_spec z 0) as [Hneg|Hpos].
    + pose proof (parseNumber_value true (decimalOfN (Z.to_N (- z)))
                    [] [] [] [] 0%Z) as H.
      rewrite !app_nil_r in H. cbn [app] in H. rewrite H; try reflexivity.
      * rewrite digitsValue_decimalOfN. unfold mkNum. cbn [length].
        change (0 <=? 0 - Z.of_nat 0)%Z with true. cbv iota.
        change (10 ^ (0 - Z.of_nat 0))%Z with 1%Z.
        repeat (f_equal; try lia).
      * apply decimalOfN_digits.
      * apply decimalOfN_nonempty.
      * apply decimalOfN_head.
    + pose proof (parseNumber_value false (decimalOfN (Z.to_N z))
                    [] [] [] [] 0%Z) as H.
      rewrite !app_nil_r in H. cbn [app] in H. rewrite H; try reflexivity.
      * rewrite digitsValue_decimalOfN. unfold mkNum. cbn [length].
        change (0 <=? 0 - Z.of_nat 0)%Z with true. cbv iota.
        change (10 ^ (0 - Z.of_nat 0))%Z with 1%Z.
        repeat (f_equal; try lia).
      * apply decimalOfN_digits.
      * apply decimalOfN_nonempty.
      * apply decimalOfN_head.
  - cbn [canonical] in Hc. apply andb_true_iff in Hc.
    destruct Hc as [Hk Hm].
    apply negb_true_iff, Nat.eqb_neq in Hk.
    apply negb_true_iff, Z.eqb_neq in Hm.
    cbv zeta.
    remember (decimalOfN (Z.to_N (Z.abs m))) as ds eqn:Eds.
    remember (repeat ZERO (S k - length ds) ++ ds) as ds' eqn:Eds'.
    remember (firstn (length ds' - k) ds') as whole eqn:Ewhole.
    remember (skipn (length ds' - k) ds') as frac eqn:Efrac.
    pose proof (decimalOfN_digits (Z.to_N (Z.abs m))) as Hds.
    pose proof (decimalOfN_nonempty (Z.to_N (Z.abs m))) as Hlen.
    pose proof (decimalOfN_head (Z.to_N (Z.abs m))) as Hhead.
    rewrite <- Eds in Hds, Hlen, Hhead.
    assert (Hds' : forallb isDigit ds' = true).
    { rewrite Eds', forallb_app, Hds.
      rewrite forallb_repeat by reflexivity. reflexivity. }
    assert (Hlen' : length ds' = Nat.max (S k) (length ds)).
    { rewrite Eds', length_app, repeat_length. lia. }
    assert (Hfrac : length frac = k).
    { rewrite Efrac, length_skipn. lia. }
    assert (Hwhole : length whole = length ds' - k).
    { rewrite Ewhole, length_firstn. lia. }
    assert (Hz : whole = [ZERO] \/ headIs (N.eqb ZERO) whole = false).
    { destruct (Nat.le_gt_cases (S k) (length ds)) as [Hle|Hgt].
      - right. replace (S k - length ds) with 0 in Eds' by lia.
        cbn [repeat app] in Eds'. subst ds'.
        destruct Hhead as [Hone|Hnz].
        + rewrite Hone in Hle. simpl in Hle. lia.
        + destruct ds as [|d ds0]; [simpl in Hlen; lia|].
          rewrite Ewhole.
          destruct (length (d :: ds0) - k) as [|a] eqn:Ea;
            [cbn [length] in Ea, Hle; lia|].
          exact Hnz.
      - left. replace (S k - length ds) with (S (k - length ds)) in Eds'
          by lia.
        rewrite Ewhole, Hlen'.
        replace (Nat.max (S k) (length ds) - k) with 1 by lia.
        rewrite Eds'. reflexivity. }
    assert (Hfr : fracPart (DOT :: frac) = Some (frac, [])).
    { unfold fracPart. change (N.eqb DOT DOT) with true. cbv iota.
      rewrite <- (app_nil_r frac) at 1.
      rewrite spanDigits_app;
        [| rewrite Efrac; apply forallb_skipn, Hds' | reflexivity].
      destruct frac; [simpl in Hfrac; lia | reflexivity]. }
    assert (Hval : digitsValue (whole ++ frac) = Z.abs m).
    { rewrite Ewhole, Efrac, firstn_skipn, Eds', digitsValue_zeros, Eds.
      rewrite digitsValue_decimalOfN. lia. }
    rewrite (parseNumber_value (m <? 0)%Z whole (DOT :: frac) frac [] []
               0%Z); try reflexivity; try assumption.
    + rewrite Hval, Hfrac. do 2 f_equal.
      assert (Hm' : (if (m <? 0)%Z then (- Z.abs m)%Z else Z.abs m) = m)
        by (destruct (Z.ltb_spec m 0); lia).
      rewrite Hm'. unfold mkNum.
      destruct (Z.leb_spec 0 (0 - Z.of_nat k)) as [|_]; [lia|].
      destruct (Z.eqb_spec m 0) as [->|_]; [exfalso; apply Hm; reflexivity|].
      replace (Z.to_nat (- (0 - Z.of_nat k))) with k by lia.
      destruct k as [|k']; [contradiction|]. cbn [cancelZeros].
      destruct (Z.eqb_spec (m mod 10) 0); [contradiction | reflexivity].
    + rewrite Ewhole. apply forallb_firstn, Hds'.
    + lia.
Qed.

(** ** Objects *)

Lemma distinct_NoDup (keys : list jsstring) :
  distinct keys = true <-> NoDup keys.
Proof.
  induction keys as [|k keys IH]; cbn [distinct].
  - split; [constructor | reflexivity].
  - rewrite andb_true_iff, negb_true_iff, IH. split.
    + intros [Hk Hn]. constructor; [|exact Hn]. intros Hin.
      assert (existsb (fun k' => if list_eq_dec N.eq_dec k k'
                                 then true else false) keys = true).
      { apply existsb_exists. exists k. split; [exact Hin|].
        destruct (list_eq_dec N.eq_dec k k); [reflexivity | contradiction]. }
      congruence.
    + intros H. inversion H as [|? ? Hk Hn]; subst. split; [|exact Hn].
      match goal with
      | |- existsb ?f keys = false => destruct (existsb f keys) eqn:E
      end; [|reflexivity].
      apply existsb_exists in E. destruct E as (k' & Hin & E).
      destruct (list_eq_dec N.eq_dec k k') as [->|]; [contradiction|].
      discriminate E.
Qed.

Lemma setMember_fresh k v (ms : list (jsstring * value)) :
  ~ In k (List.map fst ms) -> setMember k v ms = ms ++ [(k, v)].
Proof.
  induction ms as [|[k' v'] ms IH]; intros Hn; [reflexivity|].
  cbn [setMember]. destruct (list_eq_dec N.eq_dec k k') as [->|_].
  - exfalso. apply Hn. left. reflexivity.
  - cbn [app]. f_equal. apply IH. intros Hin. apply Hn. right. exact Hin.
Qed.

Lemma setMember_keys k v (ms : list (jsstring * value)) :
  In k (List.map fst ms) ->
  List.map fst (setMember k v ms) = List.map fst ms.
Proof.
  induction ms as [|[k' v'] ms IH]; intros Hin; [destruct Hin|].
  cbn [setMember]. destruct (list_eq_dec N.eq_dec k k') as [->|Hne].
  - reflexivity.
  - cbn [List.map fst]. f_equal. apply IH. destruct Hin as [E|Hin];
      [cbn [fst] in E; congruence | exact Hin].
Qed.

(** The members of distinct keys are kept as they come. *)
Lemma members_value (ms : list (jsstring * node)) :
  forall acc,
    NoDup (List.map fst acc ++ List.map fst ms) ->
    fold_left (fun a kv => setMember (fst kv) (nodeValue (snd kv)) a) ms acc
    = acc ++ List.map (fun kv => (fst kv, nodeValue (snd kv))) ms.
Proof.
  induction ms as [|[k n] ms IH]; intros acc Hn.
  - cbn [fold_left List.map]. rewrite app_nil_r. reflexivity.
  - cbn [fold_left List.map fst snd] in *.
    rewrite setMember_fresh.
    + rewrite IH.
      * rewrite <- app_assoc. reflexivity.
      * rewrite map_app. cbn [List.map fst]. rewrite <- app_assoc. exact Hn.
    + intros Hin. apply NoDup_remove_2 in Hn. apply Hn.
      apply in_or_app. left. exact Hin.
Qed.

(** ** Values *)

Lemma joinWith_Elems_values opts sep c (parts : list (jsstring * value)) :
  Separator opts sep -> Closer opts RBRACKET c ->
  parts <> [] ->
  Forall (fun p => exists n, Val opts (fst p) n /\ nodeValue n = snd p)
         parts ->
  exists ns,
    Elems opts (joinWith sep (List.map fst parts) ++ c) ns
    /\ List.map nodeValue ns = List.map snd parts.
Proof.
  intros Hsep Hc Hne F.
  induction F as [|[t v] parts (n & Hp & Hv) F IH]; [contradiction|].
  cbn [fst snd] in Hp, Hv.
  destruct parts as [|q parts].
  - exists [n]. cbn [joinWith List.map fst snd]. rewrite Hv.
    split; [constructor; assumption | reflexivity].
  - destruct (IH ltac:(discriminate)) as (ns & Hns & Hvs).
    eexists. split.
    + cbn [List.map fst]. rewrite joinWith_more, <- !app_assoc.
      apply (Elems_cons opts t n sep _ ns Hp Hsep Hns).
    + change (List.map snd ((t, v) :: q :: parts))
        with (v :: List.map snd (q :: parts)).
      rewrite <- Hvs. cbn [List.map]. rewrite Hv, map_map. f_equal.
      apply map_ext. intros x. apply nodeValue_shift.
Qed.

Lemma joinWith_Mems_values opts sep c
      (parts : list (jsstring * jsstring * jsstring * value)) :
  Separator opts sep -> Closer opts RBRACE c ->
  parts <> [] ->
  Forall (fun p => KeyPart opts (fst (fst (fst p))) (snd (fst (fst p)))
                   /\ exists n, Val opts (snd (fst p)) n
                                /\ nodeValue n = snd p) parts ->
  exists ms,
    Mems opts (joinWith sep (List.map (fun p => fst (fst (fst p))
                                                ++ snd (fst p)) parts)
               ++ c) ms
    /\ List.map (fun kn => (fst kn, nodeValue (snd kn))) ms
       = List.map (fun p => (snd (fst (fst p)), snd p)) parts.
Proof.
  intros Hsep Hc Hne F.
  induction F as [|[[[kp k] t] v] parts (Hk & n & Hp & Hv) F IH];
    [contradiction|].
  cbn [fst snd] in Hk, Hp, Hv.
  destruct parts as [|q parts].
  - eexists. split.
    + cbn [joinWith List.map fst snd]. rewrite <- !app_assoc.
      apply (Mems_last opts kp k t n c Hk Hp Hc).
    + cbn [List.map fst snd]. rewrite nodeValue_shift, Hv. reflexivity.
  - destruct (IH ltac:(discriminate)) as (ms & Hms & Hvs).
    eexists. split.
    + cbn [List.map fst snd]. rewrite joinWith_more, <- !app_assoc.
      apply (Mems_cons opts kp k t n sep _ ms Hk Hp Hsep Hms).
    + change (List.map (fun p => (snd (fst (fst p)), snd p))
                       ((kp, k, t, v) :: q :: parts))
        with ((k, v) :: List.map (fun p => (snd (fst (fst p)), snd p))
                                 (q :: parts)).
      rewrite <- Hvs. cbn [List.map fst snd].
      rewrite nodeValue_shift, Hv. f_equal.
      rewrite map_map. apply map_ext. intros [k' x].
      unfold shiftMember. cbn [fst snd]. rewrite nodeValue_shift.
      reflexivity.
Qed.

(** What [stringify] writes for a canonical value is a value of the
    grammar that denotes it. *)
Lemma stringify_reads opts fmt (v : value) :
  forall level,
    canonical v = true ->
    exists n, Val opts (stringify fmt level v) n /\ nodeValue n = v.
Proof.
  induction v as [ |b|x|s|items IH|members IH] using value_nested_ind;
    intros level Hc.
  - eexists. split; [constructor | reflexivity].
  - destruct b; eexists; (split; [constructor | reflexivity]).
  - eexists. split; [constructor; apply numberText_reads; exact Hc|].
    reflexivity.
  - eexists. split; [apply quoteString_Val | reflexivity].
  - destruct items as [|i items].
    { exists (NArray 0 (S (length (@nil N) + 1)) []).
      split; [|reflexivity].
      apply (Val_array_empty opts []). apply Trivia_nil. }
    cbn [canonical] in Hc.
    destruct (joinWith_Elems_values opts (COMMA :: newline fmt (S level))
                (newline fmt level ++ [RBRACKET])
                (List.map (fun w => (stringify fmt (S level) w, w))
                          (i :: items)))
      as (ns & Hns & Hvs).
    + apply newline_Separator.
    + apply newline_Closer.
    + discriminate.
    + rewrite Forall_forall in IH. rewrite forallb_forall in Hc.
      apply Forall_forall. intros p Hp. apply in_map_iff in Hp.
      destruct Hp as (w & <- & Hw). cbn [fst snd].
      apply (IH w Hw), (Hc w Hw).
    + rewrite !map_map in *. cbn [fst snd] in Hns, Hvs.
      rewrite map_id in Hvs.
      eexists. split.
      * change (stringify fmt level (VArray (i :: items)))
          with (LBRACKET :: newline fmt (S level)
                ++ joinWith (COMMA :: newline fmt (S level))
                     (List.map (stringify fmt (S level)) (i :: items))
                ++ newline fmt level ++ [RBRACKET]).
        apply (Val_array opts _ _ ns (newline_Trivia opts fmt (S level)) Hns).
      * cbn [nodeValue]. rewrite map_map. f_equal. rewrite <- Hvs.
        apply map_ext. intros x. apply nodeValue_shift.
  - destruct members as [|kv members].
    { exists (NObject 0 (S (length (@nil N) + 1)) []).
      split; [|reflexivity].
      apply (Val_object_empty opts []). apply Trivia_nil. }
    cbn [canonical] in Hc. apply andb_true_iff in Hc.
    destruct Hc as [Hd Hc]. apply distinct_NoDup in Hd.
    destruct (joinWith_Mems_values opts (COMMA :: newline fmt (S level))
                (newline fmt level ++ [RBRACE])
                (List.map (fun kv => (quoteString (fst kv) ++ [COLON; SPACE],
                                      fst kv,
                                      stringify fmt (S level) (snd kv),
                                      snd kv))
                          (kv :: members)))
      as (ms & Hms & Hvs).
    + apply newline_Separator.
    + apply newline_Closer.
    + discriminate.
    + rewrite Forall_forall in IH. rewrite forallb_forall in Hc.
      apply Forall_forall. intros p Hp. apply in_map_iff in Hp.
      destruct Hp as (w & <- & Hw). cbn [fst snd].
      split; [apply quoteString_KeyPart | apply (IH w Hw), (Hc w Hw)].
    + rewrite !map_map in *. cbn [fst snd] in Hms, Hvs.
      assert (Hid : List.map (fun x : jsstring * value => (fst x, snd x))
                             (kv :: members) = kv :: members).
      { rewrite <- (map_id (kv :: members)) at 2. apply map_ext.
        intros [k x]. reflexivity. }
      rewrite Hid in Hvs.
      eexists. split.
      * change (stringify fmt level (VObject (kv :: members)))
          with (LBRACE :: newline fmt (S level)
                ++ joinWith (COMMA :: newline fmt (S level))
                     (List.map (fun kv => quoteString (fst kv)
                                          ++ [COLON; SPACE]
                                          ++ stringify fmt (S level) (snd kv))
                               (kv :: members))
                ++ newline fmt level ++ [RBRACE]).
        erewrite (map_ext (fun kv => quoteString (fst kv) ++ [COLON; SPACE]
                                     ++ stringify fmt (S level) (snd kv)));
          [ apply (Val_object opts _ _ ms
                     (newline_Trivia opts fmt (S level)) Hms) |].
        intros a. cbv beta. rewrite <- app_assoc. reflexivity.
      * cbn [nodeValue]. f_equal.
        assert (Hsame : List.map (fun kn => (fst kn, nodeValue (snd kn)))
                          (List.map (shiftMember (S (length
                             (newline fmt (S level))))) ms)
                        = kv :: members).
        { rewrite map_map, <- Hvs. apply map_ext. intros [k' x].
          unfold shiftMember. cbn [fst snd]. rewrite nodeValue_shift.
          reflexivity. }
        rewrite (members_value _ []).
        -- cbn [app]. exact Hsame.
        -- cbn [List.map app].
           replace (List.map fst (List.map (shiftMember _) ms))
             with (List.map fst (kv :: members)); [exact Hd|].
           rewrite <- Hsame, !map_map. apply map_ext. intros [k' x].
           reflexivity.
Qed.

(** ** The values of the parser are canonical *)

Lemma cancelZeros_canonical k :
  forall m, canonical (VNumber (cancelZeros m k)) = true.
Proof.
  induction k as [|k IH]; intros m; [reflexivity|].
  cbn [cancelZeros]. destruct (Z.eqb_spec (m mod 10) 0) as [|Hne];
    [apply IH|].
  cbn [canonical Nat.eqb negb andb]. apply negb_true_iff, Z.eqb_neq, Hne.
Qed.

Lemma mkNum_canonical m e : canonical (VNumber (mkNum m e)) = true.
Proof.
  unfold mkNum. destruct (0 <=? e)%Z; [reflexivity|].
  destruct (m =? 0)%Z; [reflexivity | apply cancelZeros_canonical].
Qed.

Lemma parseNumber_canonical (t : jsstring) x r :
  parseNumber t = Some (x, r) -> canonical (VNumber x) = true.
Proof.
  unfold parseNumber. intros H.
  repeat match type of H with
         | context [match ?y with _ => _ end] =>
             destruct y eqn:?; try discriminate
         end;
    injection H as <- _; apply mkNum_canonical.
Qed.

Lemma NoDup_snoc {A} (l : list A) x :
  NoDup l -> ~ In x l -> NoDup (l ++ [x]).
Proof.
  induction l as [|y l IH]; intros Hn Hx.
  - constructor; [intros [] | constructor].
  - inversion Hn as [|? ? Hy Hl]; subst. cbn [app]. constructor.
    + rewrite in_app_iff. intros [Hin|[->|[]]]; [exact (Hy Hin)|].
      apply Hx. left. reflexivity.
    + apply IH; [exact Hl|]. intros Hin. apply Hx. right. exact Hin.
Qed.

Lemma setMember_canonical k v (ms : list (jsstring * value)) :
  canonical v = true ->
  NoDup (List.map fst ms) ->
  forallb (fun kv => canonical (snd kv)) ms = true ->
  NoDup (List.map fst (setMember k v ms))
  /\ forallb (fun kv => canonical (snd kv)) (setMember k v ms) = true.
Proof.
  intros Hv Hn Hc.
  destruct (in_dec (list_eq_dec N.eq_dec) k (List.map fst ms)) as [Hin|Hout].
  - split; [rewrite setMember_keys by exact Hin; exact Hn|].
    clear Hn Hin. induction ms as [|[k' v'] ms IH]; cbn [setMember].
    + cbn [forallb snd]. rewrite Hv. reflexivity.
    + cbn [forallb snd] in Hc. apply andb_true_iff in Hc.
      destruct Hc as [H1 H2].
      destruct (list_eq_dec N.eq_dec k k'); cbn [forallb snd].
      * rewrite Hv, H2. reflexivity.
      * rewrite H1, (IH H2). reflexivity.
  - rewrite setMember_fresh by exact Hout. split.
    + rewrite map_app. cbn [List.map fst]. apply NoDup_snoc; assumption.
    + rewrite forallb_app, Hc. cbn [forallb snd]. rewrite Hv. reflexivity.
Qed.

Lemma members_canonical (members : list (jsstring * node)) :
  forallb (fun kv => canonical (nodeValue (snd kv))) members = true ->
  forall acc,
    NoDup (List.map fst acc) ->
    forallb (fun kv => canonical (snd kv)) acc = true ->
    NoDup (List.map fst
             (fold_left (fun ms kv =>
                           setMember (fst kv) (nodeValue (snd kv)) ms)
                        members acc))
    /\ forallb (fun kv => canonical (snd kv))
               (fold_left (fun ms kv =>
                             setMember (fst kv) (nodeValue (snd kv)) ms)
                          members acc) = true.
Proof.
  induction members as [|[k n] members IH]; intros H acc Hn Hacc;
    [split; assumption|].
  cbn [forallb snd] in H. apply andb_true_iff in H. destruct H as [H1 H2].
  cbn [fold_left fst snd].
  destruct (setMember_canonical k (nodeValue n) acc H1 Hn Hacc) as [Hn' Hc'].
  exact (IH H2 _ Hn' Hc').
Qed.

Lemma Val_canonical opts :
  (forall t n, Val opts t n -> canonical (nodeValue n) = true)
  /\ (forall t items, Elems opts t items ->
        forallb (fun n => canonical (nodeValue n)) items = true)
  /\ (forall t ms, Mems opts t ms ->
        forallb (fun kv => canonical (nodeValue (snd kv))) ms = true).
Proof.
  apply (Grammar_mind opts); try reflexivity.
  - intros t x Hx. exact (parseNumber_canonical _ _ _ Hx).
  - intros tr t items _ _ IH. cbn [nodeValue canonical].
    rewrite map_map. clear - IH.
    induction items as [|i items IHl]; [reflexivity|].
    cbn [forallb List.map] in *. apply andb_true_iff in IH.
    destruct IH as [H1 H2]. rewrite nodeValue_shift, H1, (IHl H2).
    reflexivity.
  - intros tr t ms _ _ IH. cbn [nodeValue canonical].
    destruct (members_canonical
                (List.map (shiftMember (S (length tr))) ms)) with (acc := @nil (jsstring * value))
      as [Hn Hc].
    + rewrite forallb_shifted; [exact IH|].
      intros [k n]. unfold shiftMember. cbn [fst snd].
      rewrite nodeValue_shift. reflexivity.
    + constructor.
    + reflexivity.
    + apply andb_true_iff. split; [apply distinct_NoDup; exact Hn | exact Hc].
  - intros t n c _ IH _. cbn [forallb]. rewrite IH. reflexivity.
  - intros t n sp t' ns _ IHv _ _ IHe. cbn [forallb]. rewrite IHv.
    rewrite forallb_shifted; [exact IHe|].
    intros x. rewrite nodeValue_shift. reflexivity.
  - intros kp k t n c _ _ IH _. cbn [forallb snd].
    rewrite nodeValue_shift, IH. reflexivity.
  - intros kp k t n sp t' ms _ _ IHv _ _ IHm. cbn [forallb snd].
    rewrite nodeValue_shift, IHv.
    rewrite forallb_shifted; [exact IHm|].
    intros [k' x]. unfold shiftMember. cbn [fst snd].
    rewrite nodeValue_shift. reflexivity.
Qed.

(** Whatever is typed as the value, [coerceValue] makes a canonical
    value of it. *)
Lemma coerceValue_canonical (raw : jsstring) :
  canonical (coerceValue raw) = true.
Proof.
  unfold coerceValue, JSON_parse.
  destruct (parseDocument strictJson raw) as [n|] eqn:E; [|reflexivity].
  cbn [option_map].
  destruct (parseDocument_sound _ _ _ E)
    as (tr & t & n0 & post & p & _ & _ & Hv & _ & ->).
  rewrite nodeValue_shift.
  destruct (Val_canonical strictJson) as (H & _ & _). exact (H _ _ Hv).
Qed.

Lemma JSON_parse_stringify fmt level (v : value) :
  canonical v = true -> JSON_parse (stringify fmt level v) = Some v.
Proof.
  intros Hc. destruct (stringify_reads strictJson fmt v level Hc)
    as (n & Hn & Hv).
  unfold JSON_parse. rewrite (Val_Document _ _ _ Hn). cbn [option_map].
  rewrite Hv. reflexivity.
Qed.

(** A portable value is canonical. *)
Lemma portable_canonical (v : value) :
  portable v = true -> canonical v = true.
Proof.
  induction v as [ |b|x|s|items IH|members IH] using value_nested_ind;
    intros Hp; try reflexivity.
  - destruct x as [z|m k]; [reflexivity | discriminate Hp].
  - cbn [portable] in Hp. cbn [canonical].
    rewrite Forall_forall in IH. rewrite forallb_forall in Hp |- *.
    intros w Hw. exact (IH w Hw (Hp w Hw)).
  - cbn [portable] in Hp. cbn [canonical].
    apply andb_true_iff in Hp. destruct Hp as [Hd Hp].
    rewrite Hd. cbn [andb].
    rewrite Forall_forall in IH. rewrite forallb_forall in Hp |- *.
    intros kv Hkv. specialize (Hp kv Hkv).
    apply andb_true_iff in Hp. exact (IH kv Hkv (proj2 Hp)).
Qed.

(** X13: the value input reads back what was written.  Take a value
    whose numbers are integers other than zero of magnitude at most
    [2^53] and whose object keys are distinct and not runs of digits (a
    value that the platform holds as the model does).  The text it is
    serialized as, with any formatting and at any indentation level, is
    coerced to that value. *)
Theorem coerceValue_reads_back fmt level (v : value) :
  portable v = true -> coerceValue (stringify fmt level v) = v.
Proof.
  intros Hp. unfold coerceValue.
  rewrite (JSON_parse_stringify fmt level v (portable_canonical v Hp)).
  reflexivity.
Qed.

Lemma coerceValue_reads_back_witness :
  portable (VObject [(js "a", VArray [VNumber (JInt (-125)); VNull]);
                     (js "b", VString (jq "x`y"))]) = true
  /\ coerceValue
       (stringify (detectFormattingOptions None) 0
          (VObject [(js "a", VArray [VNumber (JInt (-125)); VNull]);
                    (js "b", VString (jq "x`y"))]))
     = VObject [(js "a", VArray [VNumber (JInt (-125)); VNull]);
                (js "b", VString (jq "x`y"))].
Proof.
  split; [reflexivity|].
  apply (coerceValue_reads_back (detectFormattingOptions None) 0).
  reflexivity.
Defined.

(** X14: what the command writes at a path is what is found there
    afterwards.  Let the input be no JSON text, so that it is taken as a
    string, or let it coerce to a value whose numbers are integers other
    than zero of magnitude at most [2^53] and whose object keys are
    distinct and not runs of digits.  After a pass that settles, the new
    text parses, the path resolves in its tree, and the node found
    denotes the coerced value. *)
Theorem edit_then_read (text : jsstring) root path (raw : jsstring) fmt :
  parseTree (match trim text with
             | [] => [LBRACE; RBRACE]
             | _ => text
             end) = Some root ->
  settles root path = true ->
  JSON_parse raw = None \/ portable (coerceValue raw) = true ->
  exists newText root' n,
    editPass text path (coerceValue raw) fmt = Some newText
    /\ parseTree newText = Some root'
    /\ findNodeAtLocation root' path = Some n
    /\ nodeValue n = coerceValue raw.
Proof.
  intros Hp Hs Hraw.
  assert (Hport : portable (coerceValue raw) = true).
  { destruct Hraw as [Hnone|Hport]; [|exact Hport].
    unfold coerceValue. rewrite Hnone. reflexivity. }
  assert (He : exists pre post,
             editPass text path (coerceValue raw) fmt
             = Some (pre ++ stringify fmt (length path) (coerceValue raw)
                         ++ post)
             /\ DocContext jsonWithComments path pre post).
  { destruct (trim text) as [|c t] eqn:Et.
    - rewrite (editPass_blank text path _ fmt Et).
      exact (editPass_settles _ _ _ _ _ Hp Hs).
    - exact (editPass_settles _ _ _ _ _ Hp Hs). }
  destruct He as (pre & post & He & Hctx).
  destruct (stringify_reads jsonWithComments fmt (coerceValue raw)
              (length path) (portable_canonical _ Hport))
    as (ns & Hns & Hv).
  destruct (Hctx _ _ Hns) as (root' & Hdoc & Hfind).
  apply parseDocument_complete in Hdoc.
  exists (pre ++ stringify fmt (length path) (coerceValue raw) ++ post),
    root', (shiftNode (length pre) ns).
  split; [exact He|]. split; [exact Hdoc|]. split; [exact Hfind|].
  rewrite nodeValue_shift. exact Hv.
Qed.

Lemma edit_then_read_witness :
  portable (coerceValue (jq "[1, {`k`: 250}, `text`]")) = true
  /\ exists newText root' n,
       editPass [] (parsePath (js "a[0].b"))
                (coerceValue (jq "[1, {`k`: 250}, `text`]"))
                (detectFormattingOptions None) = Some newText
       /\ parseTree newText = Some root'
       /\ findNodeAtLocation root' (parsePath (js "a[0].b")) = Some n
       /\ nodeValue n
          = VArray [VNumber (JInt 1);
                    VObject [(js "k", VNumber (JInt 250))];
                    VString (js "text")].
Proof.
  assert (Hport : portable (coerceValue (jq "[1, {`k`: 250}, `text`]"))
                  = true) by (vm_compute; reflexivity).
  split; [exact Hport|].
  destruct (parseTree [LBRACE; RBRACE]) as [root|] eqn:E;
    [|vm_compute in E; discriminate E].
  assert (Hs : settles root (parsePath (js "a[0].b")) = true)
    by (vm_compute in E; injection E as <-; vm_compute; reflexivity).
  exact (edit_then_read [] root (parsePath (js "a[0].b"))
                        (jq "[1, {`k`: 250}, `text`]")
                        (detectFormattingOptions None)
                        E Hs (or_intror Hport)).
Defined.

(** * What the matcher finds when there is a match *)

Section MatcherComplete.

Variable A : Type.

(** The greedy quantifier takes the whole run when what follows it
    matches after the run. *)
Lemma greedy_complete cls (k : jsstring -> nat -> option A)
      (w R : jsstring) y :
  forall pos,
    forallb cls w = true -> headIs cls R = false ->
    k R (pos + length w) = Some y ->
    greedy cls k (w ++ R) pos = Some y.
Proof.
  induction w as [|c w IH]; intros pos Hw HR Hk.
  - cbn [app length] in *. rewrite Nat.add_0_r in Hk.
    destruct R as [|c t]; cbn [greedy]; [exact Hk|].
    cbn [headIs] in HR. rewrite HR. exact Hk.
  - cbn [forallb] in Hw. apply andb_true_iff in Hw. destruct Hw as [Hc Hw].
    cbn [app greedy]. rewrite Hc.
    rewrite (IH (S pos) Hw HR); [reflexivity|].
    rewrite <- Hk. f_equal. cbn [length]. lia.
Qed.

(** The lazy quantifier takes a run when what follows it matches after
    the run and nowhere before. *)
Lemma lazy_complete cls (k : jsstring -> nat -> option A)
      (w R : jsstring) y :
  forall pos,
    forallb cls w = true ->
    (forall w1 c w2, w = w1 ++ c :: w2 ->
                     k (c :: w2 ++ R) (pos + length w1) = None) ->
    k R (pos + length w) = Some y ->
    lazy cls k (w ++ R) pos = Some y.
Proof.
  induction w as [|c w IH]; intros pos Hw Hmin Hk.
  - cbn [app length] in *. rewrite Nat.add_0_r in Hk.
    destruct R; cbn [lazy]; rewrite Hk; reflexivity.
  - cbn [forallb] in Hw. apply andb_true_iff in Hw. destruct Hw as [Hc Hw].
    pose proof (Hmin [] c w eq_refl) as H0. cbn [app length] in H0.
    rewrite Nat.add_0_r in H0.
    cbn [app lazy]. rewrite H0, Hc. apply IH.
    + exact Hw.
    + intros w1 c' w2 E. rewrite <- (Hmin (c :: w1) c' w2).
      * f_equal. cbn [length]. lia.
      * rewrite E. reflexivity.
    + rewrite <- Hk. f_equal. cbn [length]. lia.
Qed.

Variable k : jsstring -> nat -> captures -> option A.

Lemma Seq_complete r1 r2 (rest : jsstring) pos caps y :
  rmatch r1 rest pos caps (fun rest' pos' caps' => rmatch r2 rest' pos' caps' k)
  = Some y ->
  rmatch (Seq r1 r2) rest pos caps k = Some y.
Proof. intros H. exact H. Qed.

Lemma Alt_left r1 r2 (rest : jsstring) pos caps y :
  rmatch r1 rest pos caps k = Some y ->
  rmatch (Alt r1 r2) rest pos caps k = Some y.
Proof. intros H. cbn [rmatch]. rewrite H. reflexivity. Qed.

Lemma Alt_right r1 r2 (rest : jsstring) pos caps y :
  rmatch r1 rest pos caps k = None ->
  rmatch r2 rest pos caps k = Some y ->
  rmatch (Alt r1 r2) rest pos caps k = Some y.
Proof. intros H1 H2. cbn [rmatch]. rewrite H1. exact H2. Qed.

Lemma Opt_take r1 (rest : jsstring) pos caps y :
  rmatch r1 rest pos caps
         (fun rest' pos' caps' =>
            if Nat.eqb pos' pos then None else k rest' pos' caps')
  = Some y ->
  rmatch (Opt r1) rest pos caps k = Some y.
Proof. intros H. cbn [rmatch]. rewrite H. reflexivity. Qed.

Lemma Opt_skip r1 (rest : jsstring) pos caps y :
  rmatch r1 rest pos caps
         (fun rest' pos' caps' =>
            if Nat.eqb pos' pos then None else k rest' pos' caps')
  = None ->
  k rest pos caps = Some y ->
  rmatch (Opt r1) rest pos caps k = Some y.
Proof. intros H1 H2. cbn [rmatch]. rewrite H1. exact H2. Qed.

Lemma Group_complete n r1 (rest : jsstring) pos caps y :
  rmatch r1 rest pos caps
         (fun rest' pos' caps' => k rest' pos' ((n, (pos, pos')) :: caps'))
  = Some y ->
  rmatch (Group n r1) rest pos caps k = Some y.
Proof. intros H. exact H. Qed.

Lemma Chr_complete c (R : jsstring) pos caps y :
  k R (S pos) caps = Some y ->
  rmatch (Chr c) (c :: R) pos caps k = Some y.
Proof. intros H. cbn [rmatch]. rewrite N.eqb_refl. exact H. Qed.

Lemma Star_complete cls (w R : jsstring) pos caps y :
  forallb cls w = true -> headIs cls R = false ->
  k R (pos + length w) caps = Some y ->
  rmatch (Star cls) (w ++ R) pos caps k = Some y.
Proof.
  intros Hw HR Hk. cbn [rmatch].
  apply (greedy_complete cls (fun rest' pos' => k rest' pos' caps));
    assumption.
Qed.

Lemma Plus_complete cls (w R : jsstring) pos caps y :
  w <> [] -> forallb cls w = true -> headIs cls R = false ->
  k R (pos + length w) caps = Some y ->
  rmatch (Plus cls) (w ++ R) pos caps k = Some y.
Proof.
  intros Hne Hw HR Hk. destruct w as [|c w]; [contradiction|].
  cbn [forallb] in Hw. apply andb_true_iff in Hw. destruct Hw as [Hc Hw].
  cbn [rmatch app]. rewrite Hc.
  apply (greedy_complete cls (fun rest' pos' => k rest' pos' caps));
    [exact Hw | exact HR |].
  rewrite <- Hk. f_equal. cbn [length]. lia.
Qed.

Lemma Lit_complete (l R : jsstring) pos caps y :
  k R (pos + length l) caps = Some y ->
  rmatch (Lit l) (l ++ R) pos caps k = Some y.
Proof.
  intros H. cbn [rmatch]. rewrite isPrefix_here.
  rewrite skipn_app, skipn_all, Nat.sub_diag. exact H.
Qed.

Lemma Lit_fails (l rest : jsstring) pos caps :
  isPrefix l rest = false -> rmatch (Lit l) rest pos caps k = None.
Proof. intros H. cbn [rmatch]. rewrite H. reflexivity. Qed.

Lemma anyUnit_all (w : jsstring) : forallb anyUnit w = true.
Proof. induction w as [|c w IH]; [reflexivity | exact IH]. Qed.

(** [{[\s\S]*?}(?:;|$)] takes a literal in braces that holds no closing
    brace followed by a semicolon, before a semicolon or the end of the
    text. *)
Lemma tail_complete n (body term after : jsstring) pos caps y :
  indexOf (LBRACE :: body ++ [RBRACE]) [RBRACE; 59%N] 0 = None ->
  term = [59%N] \/ (term = [] /\ after = []) ->
  k after (pos + length (LBRACE :: body ++ [RBRACE]) + length term)
    ((n, (pos, pos + length (LBRACE :: body ++ [RBRACE]))) :: caps) = Some y ->
  rmatch (Seq (Group n braces) terminator)
         ((LBRACE :: body ++ [RBRACE]) ++ term ++ after) pos caps k = Some y.
Proof.
  intros Hno Hterm Hk.
  assert (Hlen : length (LBRACE :: body ++ [RBRACE]) = S (length body + 1))
    by (cbn [length]; rewrite length_app; reflexivity).
  rewrite Hlen in Hk.
  cbn [rmatch braces terminator app].
  change (N.eqb LBRACE LBRACE) with true. cbv iota.
  rewrite <- app_assoc. cbn [app].
  apply lazy_complete.
  - apply anyUnit_all.
  - intros w1 c w2 E.
    destruct (N.eqb_spec c RBRACE) as [->|]; [|reflexivity].
    destruct w2 as [|z w2]; cbn [app].
    + change (N.eqb RBRACE 59) with false. reflexivity.
    + destruct (N.eqb_spec z 59) as [->|]; [|reflexivity].
      exfalso. unfold indexOf in Hno. cbn [Nat.min skipn] in Hno.
      apply (indexOfAux_occurs _ _ _ Hno (LBRACE :: w1) (w2 ++ [RBRACE])).
      rewrite E. repeat (cbn [app]; rewrite <- ?app_assoc). reflexivity.
  - change (N.eqb RBRACE RBRACE) with true. cbv iota.
    destruct Hterm as [->|[-> ->]]; cbn [app length] in *.
    + change (N.eqb 59 59) with true. cbv iota.
      match goal with
      | |- match k ?r ?p ?c with _ => _ end = _ =>
          replace (k r p c) with (Some y); [reflexivity|]
      end.
      rewrite <- Hk. f_equal; [lia|]. do 3 f_equal. lia.
    + rewrite <- Hk. f_equal; [lia|]. do 3 f_equal. lia.
Qed.

End MatcherComplete.

(** * The match at a name *)

Lemma word_range c :
  isWordChar c = true ->
  (97 <= c <= 122 \/ 65 <= c <= 90 \/ 48 <= c <= 57 \/ c = 95)%N.
Proof.
  unfold isWordChar, isDigit.
  rewrite !orb_true_iff, !andb_true_iff, !N.leb_le, N.eqb_eq. tauto.
Qed.

Lemma space_range c :
  isWhiteSpace c = true -> (9 <= c <= 13 \/ c = 32 \/ 160 <= c)%N.
Proof.
  unfold isWhiteSpace.
  rewrite !orb_true_iff, !andb_true_iff, !N.leb_le, !N.eqb_eq. lia.
Qed.

Lemma word_not_space c : isWordChar c = true -> isWhiteSpace c = false.
Proof.
  intros Hw. destruct (isWhiteSpace c) eqn:Hs; [|reflexivity].
  apply word_range in Hw. apply space_range in Hs. lia.
Qed.

Lemma space_not_word c : isWhiteSpace c = true -> isWordChar c = false.
Proof.
  intros Hs. destruct (isWordChar c) eqn:Hw; [|reflexivity].
  apply word_range in Hw. apply space_range in Hs. lia.
Qed.

Lemma spaces_then (ws : jsstring) c (R : jsstring) :
  forallb isWhiteSpace ws = true -> isWordChar c = false ->
  headIs isWordChar (ws ++ c :: R) = false.
Proof.
  intros Hws Hc. destruct ws as [|x ws]; cbn [app headIs]; [exact Hc|].
  cbn [forallb] in Hws. apply andb_true_iff in Hws.
  apply space_not_word, Hws.
Qed.

Section NameMatch.

Variable i : nat.
Variables s ws1 ws2 body term after : jsstring.

Hypothesis Hs : s <> [].
Hypothesis Hword : forallb isWordChar s = true.
Hypothesis Hws1 : forallb isWhiteSpace ws1 = true.
Hypothesis Hws2 : forallb isWhiteSpace ws2 = true.
Hypothesis Hno :
  indexOf (LBRACE :: body ++ [RBRACE]) [RBRACE; 59%N] 0 = None.
Hypothesis Hterm : term = [59%N] \/ (term = [] /\ after = []).

(** [(\w+)?\s*=\s*({[\s\S]*?})(?:;|$)] on a name, an [=] sign and a
    literal. *)
Lemma name_matches p caps :
  exists m,
    rmatch (Seq (Opt (Group 1 (Plus isWordChar)))
           (Seq (Star isWhiteSpace)
           (Seq (Chr 61)
           (Seq (Star isWhiteSpace)
           (Seq (Group 2 braces) terminator)))))
           (assignment s ws1 ws2 (LBRACE :: body ++ [RBRACE])
            ++ term ++ after)
           p caps
           (fun _ e caps' =>
              Some {| index := i; matchEnd := e; groups := caps' |})
    = Some m
    /\ index m = i
    /\ matchEnd m
       = p + length (assignment s ws1 ws2 (LBRACE :: body ++ [RBRACE])
                     ++ term)
    /\ groups m
       = (2, (p + length (s ++ ws1 ++ 61%N :: ws2),
              p + length (s ++ ws1 ++ 61%N :: ws2)
              + length (LBRACE :: body ++ [RBRACE])))
         :: (1, (p, p + length s)) :: caps.
Proof.
  eexists. split.
  - replace (assignment s ws1 ws2 (LBRACE :: body ++ [RBRACE])
             ++ term ++ after)
      with (s ++ ws1 ++ 61%N :: ws2 ++ (LBRACE :: body ++ [RBRACE])
            ++ term ++ after)
      by (unfold assignment; repeat (cbn [app]; rewrite <- ?app_assoc);
          reflexivity).
    apply Seq_complete, Opt_take, Group_complete, Plus_complete;
      [exact Hs | exact Hword | apply spaces_then; [exact Hws1 | reflexivity] |].
    cbv beta.
    rewrite (proj2 (Nat.eqb_neq (p + length s) p))
      by (destruct s; [contradiction | cbn [length]; lia]).
    apply Seq_complete, Star_complete;
      [exact Hws1 | reflexivity |].
    cbv beta. apply Seq_complete, Chr_complete. cbv beta.
    apply Seq_complete, Star_complete; [exact Hws2 | reflexivity |].
    cbv beta. apply tail_complete; [exact Hno | exact Hterm |].
    reflexivity.
  - cbn [index matchEnd groups]. split; [reflexivity|]. unfold assignment.
    split.
    + repeat (rewrite ?length_app; cbn [length]). lia.
    + f_equal. f_equal. repeat (rewrite ?length_app; cbn [length]).
      f_equal; lia.
Qed.

Lemma isPrefix_word (kw R : jsstring) :
  forallb isWordChar kw = true -> headIs isWordChar R = false ->
  forall name, isPrefix kw name = false -> isPrefix kw (name ++ R) = false.
Proof.
  intros Hkw HR. induction kw as [|x kw IH]; intros name H; [discriminate H|].
  cbn [forallb] in Hkw. apply andb_true_iff in Hkw. destruct Hkw as [Hx Hkw].
  destruct name as [|y name]; cbn [app].
  - destruct R as [|c R']; [reflexivity|]. cbn [isPrefix headIs] in *.
    destruct (N.eqb_spec x c) as [->|]; [congruence | reflexivity].
  - cbn [isPrefix] in *. destruct (N.eqb x y); [|reflexivity].
    cbn [andb] in *. apply (IH Hkw). exact H.
Qed.

Lemma text_name :
  (assignment s ws1 ws2 (LBRACE :: body ++ [RBRACE]) ++ term ++ after) = s ++ ws1 ++ 61%N :: ws2 ++ (LBRACE :: body ++ [RBRACE]) ++ term ++ after.
Proof.
  unfold assignment. repeat (cbn [app]; rewrite <- ?app_assoc).
  reflexivity.
Qed.

(** The pattern on a name that starts with none of its keywords: the
    name is the first group. *)
Lemma named_matches p :
  startsWithKeyword s = false ->
  exists m,
    rmatch jsonVariablePattern (assignment s ws1 ws2 (LBRACE :: body ++ [RBRACE]) ++ term ++ after) p []
           (fun _ e caps' =>
              Some {| index := i; matchEnd := e; groups := caps' |})
    = Some m
    /\ index m = i
    /\ matchEnd m = p + length (assignment s ws1 ws2 (LBRACE :: body ++ [RBRACE]) ++ term)
    /\ groups m
       = [(2, (p + length (s ++ ws1 ++ 61%N :: ws2),
               p + length (s ++ ws1 ++ 61%N :: ws2) + length (LBRACE :: body ++ [RBRACE])));
          (1, (p, p + length s))].
Proof.
  intros Hkw. unfold startsWithKeyword, patternKeywords in Hkw.
  cbn [existsb] in Hkw. rewrite !orb_false_iff in Hkw.
  destruct Hkw as (He & Hc & Hl & Hv & _).
  assert (HR : headIs isWordChar
                      (ws1 ++ 61%N :: ws2 ++ (LBRACE :: body ++ [RBRACE]) ++ term ++ after)
               = false) by (apply spaces_then; [exact Hws1 | reflexivity]).
  destruct (name_matches p []) as (m & Hm & Hfacts).
  exists m. split; [|exact Hfacts].
  unfold jsonVariablePattern. apply Alt_left, Seq_complete, Opt_skip.
  - cbn [rmatch]. rewrite text_name.
    rewrite (isPrefix_word (js "export") _ eq_refl HR _ He). reflexivity.
  - cbv beta. apply Seq_complete, Opt_skip.
    + cbn [rmatch]. rewrite text_name.
      rewrite (isPrefix_word (js "const") _ eq_refl HR _ Hc).
      rewrite (isPrefix_word (js "let") _ eq_refl HR _ Hl).
      rewrite (isPrefix_word (js "var") _ eq_refl HR _ Hv). reflexivity.
    + cbv beta. exact Hm.
Qed.

(** The pattern on a name that follows [const] or [let] at once: the
    keyword is taken as such, and the first group is the rest. *)
Lemma truncated_matches (kw : jsstring) p :
  kw = js "const" \/ kw = js "let" ->
  exists m,
    rmatch jsonVariablePattern (kw ++ (assignment s ws1 ws2 (LBRACE :: body ++ [RBRACE]) ++ term ++ after)) p []
           (fun _ e caps' =>
              Some {| index := i; matchEnd := e; groups := caps' |})
    = Some m
    /\ index m = i
    /\ matchEnd m
       = p + length kw + length (assignment s ws1 ws2 (LBRACE :: body ++ [RBRACE]) ++ term)
    /\ groups m
       = [(2, (p + length kw + length (s ++ ws1 ++ 61%N :: ws2),
               p + length kw + length (s ++ ws1 ++ 61%N :: ws2)
               + length (LBRACE :: body ++ [RBRACE])));
          (1, (p + length kw, p + length kw + length s))].
Proof.
  intros Hkw.
  destruct (name_matches (p + length kw) []) as (m & Hm & Hfacts).
  exists m. split; [|exact Hfacts].
  unfold jsonVariablePattern. apply Alt_left, Seq_complete, Opt_skip.
  - destruct Hkw as [->| ->]; reflexivity.
  - cbv beta. apply Seq_complete, Opt_take.
    destruct Hkw as [->| ->].
    + apply Alt_left, Lit_complete.
      rewrite (proj2 (Nat.eqb_neq _ _))
        by (change (length (js "const")) with 5; lia).
      exact Hm.
    + apply Alt_right; [reflexivity|].
      apply Alt_left, Lit_complete.
      rewrite (proj2 (Nat.eqb_neq _ _))
        by (change (length (js "let")) with 3; lia).
      exact Hm.
Qed.

End NameMatch.

(** * No match before the name *)

(** The first element that fails a test splits a list in one way. *)
Lemma split_first_p (p : N -> bool) :
  forall (A B : jsstring) a b E F,
    forallb p A = true -> p a = false ->
    forallb p B = true -> p b = false ->
    A ++ a :: E = B ++ b :: F -> A = B /\ a = b /\ E = F.
Proof.
  induction A as [|x A IH]; intros [|y B] a b E F HA Ha HB Hb H;
    cbn [app forallb] in *.
  - injection H as -> ->. repeat split.
  - injection H as -> _. apply andb_true_iff in HB. destruct HB as [HB _].
    congruence.
  - injection H as -> _. apply andb_true_iff in HA. destruct HA as [HA _].
    congruence.
  - injection H as -> H. apply andb_true_iff in HA, HB.
    destruct (IH B a b E F (proj2 HA) Ha (proj2 HB) Hb H) as (-> & -> & ->).
    repeat split.
Qed.

Lemma split_last_p (p : N -> bool) (A B : jsstring) a b E F :
  forallb p E = true -> p a = false ->
  forallb p F = true -> p b = false ->
  A ++ a :: E = B ++ b :: F -> A = B /\ a = b /\ E = F.
Proof.
  intros HE Ha HF Hb H. apply (f_equal (@rev N)) in H.
  rewrite !rev_app_distr in H. cbn [rev] in H. rewrite <- !app_assoc in H.
  cbn [app] in H.
  assert (Hrev : forall l, forallb p l = true -> forallb p (rev l) = true).
  { intros l Hl. apply forallb_forall. intros x Hx. apply in_rev in Hx.
    rewrite forallb_forall in Hl. exact (Hl x Hx). }
  destruct (split_first_p p _ _ _ _ _ _ (Hrev _ HE) Ha (Hrev _ HF) Hb H)
    as (H1 & H2 & H3).
  apply (f_equal (@rev N)) in H1, H3. rewrite !rev_involutive in H1, H3.
  repeat split; assumption.
Qed.

Lemma all_but (c : N) (l : jsstring) :
  ~ In c l -> forallb (fun x => negb (N.eqb x c)) l = true.
Proof.
  intros Hn. apply forallb_forall. intros x Hx. apply negb_true_iff.
  apply N.eqb_neq. intros ->. exact (Hn Hx).
Qed.

Lemma split_first c (A B E F : jsstring) :
  ~ In c A -> ~ In c B -> A ++ c :: E = B ++ c :: F -> A = B /\ E = F.
Proof.
  intros HA HB H.
  destruct (split_first_p (fun x => negb (N.eqb x c)) A B c c E F)
    as (H1 & _ & H2); try (apply all_but; assumption);
    try (rewrite N.eqb_refl; reflexivity); [exact H|].
  split; assumption.
Qed.

Lemma split_last c (A B E F : jsstring) :
  ~ In c E -> ~ In c F -> A ++ c :: E = B ++ c :: F -> A = B /\ E = F.
Proof.
  intros HE HF H.
  destruct (split_last_p (fun x => negb (N.eqb x c)) A B c c E F)
    as (H1 & _ & H2); try (apply all_but; assumption);
    try (rewrite N.eqb_refl; reflexivity); [exact H|].
  split; assumption.
Qed.

(** Where two neighbours of a concatenation lie. *)
Lemma pair_in_app (w c : N) :
  forall (X Z A B : jsstring),
    X ++ Z = A ++ w :: c :: B ->
    (exists B1, X = A ++ w :: c :: B1)
    \/ (X = A ++ [w] /\ Z = c :: B)
    \/ (exists A2, A = X ++ A2 /\ Z = A2 ++ w :: c :: B).
Proof.
  induction X as [|x X IH]; intros Z A B H.
  - right. right. exists A. split; [reflexivity | exact H].
  - destruct A as [|a A]; cbn [app] in H; injection H as -> H.
    + destruct X as [|x' X]; cbn [app] in H.
      * right. left. split; [reflexivity | exact H].
      * injection H as -> H. left. exists X. reflexivity.
    + destruct (IH Z A B H) as [(B1 & ->)|[(-> & ->)|(A2 & -> & ->)]].
      * left. exists B1. reflexivity.
      * right. left. split; reflexivity.
      * right. right. exists A2. split; reflexivity.
Qed.

Lemma member_word (X A B : jsstring) w :
  forallb isWordChar X = true -> X = A ++ w :: B -> isWhiteSpace w = false.
Proof.
  intros HX ->. rewrite forallb_app in HX. apply andb_true_iff in HX.
  destruct HX as [_ HX]. cbn [forallb] in HX. apply andb_true_iff in HX.
  apply word_not_space, HX.
Qed.

Lemma member_space (X A B : jsstring) c :
  forallb isWhiteSpace X = true -> X = A ++ c :: B -> isWordChar c = false.
Proof.
  intros HX ->. rewrite forallb_app in HX. apply andb_true_iff in HX.
  destruct HX as [_ HX]. cbn [forallb] in HX. apply andb_true_iff in HX.
  apply space_not_word, HX.
Qed.

(** Words followed by white space hold no white space followed by a
    word character. *)
Lemma no_transition (kw e A B : jsstring) w c :
  forallb isWordChar kw = true -> forallb isWhiteSpace e = true ->
  kw ++ e = A ++ w :: c :: B ->
  isWhiteSpace w = true -> isWordChar c = true -> False.
Proof.
  intros Hkw He H Hw Hc.
  destruct (pair_in_app _ _ _ _ _ _ H) as [(B1 & E)|[(E & _)|(A2 & _ & E)]].
  - rewrite (member_word _ _ _ _ Hkw E) in Hw. discriminate.
  - rewrite (member_word kw A [] w Hkw E) in Hw. discriminate.
  - change (A2 ++ w :: c :: B) with (A2 ++ [w] ++ c :: B) in E.
    rewrite app_assoc in E.
    rewrite (member_space _ _ _ _ He E) in Hc. discriminate.
Qed.

(** What the optional parts of the pattern take. *)
Lemma export_shape (w rest : jsstring) pos caps caps' :
  Matches (Opt (Seq (Lit (js "export")) (Plus isWhiteSpace)))
          w rest pos caps caps' ->
  w = [] \/ exists e, w = js "export" ++ e /\ forallb isWhiteSpace e = true.
Proof.
  cbn [Matches].
  intros [(-> & _)|(_ & w1 & w2 & c1 & -> & (-> & _) & (_ & H & _))];
    [left; reflexivity | right; exists w2; split; [reflexivity | exact H]].
Qed.

Lemma keyword_shape (w rest : jsstring) pos caps caps' :
  Matches (Opt (Alt (Lit (js "const"))
                    (Alt (Lit (js "let"))
                         (Seq (Lit (js "var")) (Plus isWhiteSpace)))))
          w rest pos caps caps' ->
  w = [] \/ w = js "const" \/ w = js "let"
  \/ exists e, w = js "var" ++ e /\ forallb isWhiteSpace e = true.
Proof.
  cbn [Matches].
  intros [(-> & _)
         |(_ & [(-> & _)
               |[(-> & _)
                |(w1 & w2 & c1 & -> & (-> & _) & (_ & H & _))]])].
  - left. reflexivity.
  - right. left. reflexivity.
  - right. right. left. reflexivity.
  - right. right. right. exists w2. split; [reflexivity | exact H].
Qed.

Lemma name_shape (w rest : jsstring) pos caps caps' :
  Matches (Opt (Group 1 (Plus isWordChar))) w rest pos caps caps' ->
  forallb isWordChar w = true.
Proof.
  cbn [Matches].
  intros [(-> & _)|(_ & c1 & (_ & H & _) & _)]; [reflexivity | exact H].
Qed.

(** In what the pattern takes before the [=] sign, white space is
    followed by a word character only after [export] or [var]. *)
Lemma head_transition (wa wb wc wd A B : jsstring) w c :
  (wa = [] \/ exists e, wa = js "export" ++ e
                         /\ forallb isWhiteSpace e = true) ->
  (wb = [] \/ wb = js "const" \/ wb = js "let"
   \/ exists e, wb = js "var" ++ e /\ forallb isWhiteSpace e = true) ->
  forallb isWordChar wc = true -> forallb isWhiteSpace wd = true ->
  wa ++ wb ++ wc ++ wd = A ++ w :: c :: B ->
  isWhiteSpace w = true -> isWordChar c = true ->
  exists y kw e,
    (kw = js "export" \/ kw = js "var")
    /\ forallb isWhiteSpace e = true
    /\ A ++ [w] = y ++ kw ++ e.
Proof.
  intros Ha Hb Hc Hd H Hw Hcw.
  assert (Hnil : forall A' B', [] = A' ++ w :: B' -> False)
    by (intros [|? ?] ? E; discriminate E).
  assert (Hkw : forall kw, kw = js "const" \/ kw = js "let" ->
                           forallb isWordChar kw = true)
    by (intros kw [->| ->]; reflexivity).
  destruct (pair_in_app _ _ _ _ _ _ H) as [(B1 & E)|[(E & _)|(A2 & -> & E)]].
  - exfalso. destruct Ha as [->|(e & -> & He)]; [exact (Hnil _ _ E)|].
    exact (no_transition (js "export") e _ _ _ _ eq_refl He E Hw Hcw).
  - destruct Ha as [->|(e & -> & He)]; [exfalso; exact (Hnil _ _ E)|].
    exists [], (js "export"), e.
    split; [left; reflexivity|]. split; [exact He|]. symmetry. exact E.
  - clear H.
    destruct (pair_in_app _ _ _ _ _ _ E) as [(B1 & E')|[(E' & _)|(A3 & -> & E')]].
    + exfalso.
      destruct Hb as [->|[->|[->|(e & -> & He)]]].
      * exact (Hnil _ _ E').
      * rewrite (member_word (js "const") _ _ _ eq_refl E') in Hw.
        discriminate.
      * rewrite (member_word (js "let") _ _ _ eq_refl E') in Hw.
        discriminate.
      * exact (no_transition (js "var") e _ _ _ _ eq_refl He E' Hw Hcw).
    + destruct Hb as [->|[->|[->|(e & -> & He)]]].
      * exfalso. exact (Hnil _ _ E').
      * exfalso.
        rewrite (member_word (js "const") A2 [] w eq_refl E') in Hw.
        discriminate.
      * exfalso.
        rewrite (member_word (js "let") A2 [] w eq_refl E') in Hw.
        discriminate.
      * exists wa, (js "var"), e.
        split; [right; reflexivity|]. split; [exact He|].
        rewrite <- app_assoc, <- E'. reflexivity.
    + exfalso. clear E.
      destruct (pair_in_app _ _ _ _ _ _ E')
        as [(B1 & E)|[(E & _)|(A4 & _ & E)]].
      * rewrite (member_word _ _ _ _ Hc E) in Hw. discriminate.
      * rewrite (member_word wc A3 [] w Hc E) in Hw. discriminate.
      * change (A4 ++ w :: c :: B) with (A4 ++ [w] ++ c :: B) in E.
        rewrite app_assoc in E.
        rewrite (member_space _ _ _ _ Hd E) in Hcw. discriminate.
Qed.

Lemma word_free (c : N) (s : jsstring) :
  isWordChar c = false -> forallb isWordChar s = true -> ~ In c s.
Proof.
  intros Hc Hs Hin. rewrite forallb_forall in Hs. rewrite (Hs c Hin) in Hc.
  discriminate.
Qed.

Lemma space_free (c : N) (s : jsstring) :
  isWhiteSpace c = false -> forallb isWhiteSpace s = true -> ~ In c s.
Proof.
  intros Hc Hs Hin. rewrite forallb_forall in Hs. rewrite (Hs c Hin) in Hc.
  discriminate.
Qed.

(** No match of the pattern starts in a text that ends with white space
    and stands before a name, unless the text ends with [export] or
    [var] and white space. *)
Lemma no_match_before (A : Type) (U0 : jsstring) w (s ws1 ws2 X : jsstring)
      pos (k : jsstring -> nat -> captures -> option A) :
  ~ In LBRACE (U0 ++ [w]) -> isWhiteSpace w = true ->
  s <> [] -> forallb isWordChar s = true ->
  forallb isWhiteSpace ws1 = true -> forallb isWhiteSpace ws2 = true ->
  (forall y kw e,
      kw = js "export" \/ kw = js "var" ->
      forallb isWhiteSpace e = true -> U0 ++ [w] <> y ++ kw ++ e) ->
  rmatch jsonVariablePattern
         ((U0 ++ [w]) ++ s ++ ws1 ++ 61%N :: ws2 ++ LBRACE :: X) pos [] k
  = None.
Proof.
  intros HU Hw Hs Hword Hws1 Hws2 Hkey.
  destruct (rmatch jsonVariablePattern _ pos [] k) as [m|] eqn:E;
    [exfalso | reflexivity].
  destruct (rmatch_sound _ _ _ _ _ _ _ E) as (wm & rest' & caps' & Ht & M & _).
  clear E. unfold jsonVariablePattern in M.
  set (a := Opt (Seq (Lit (js "export")) (Plus isWhiteSpace))) in M.
  set (b := Opt (Alt (Lit (js "const"))
                     (Alt (Lit (js "let"))
                          (Seq (Lit (js "var")) (Plus isWhiteSpace))))) in M.
  set (c := Opt (Group 1 (Plus isWordChar))) in M.
  cbn [Matches] in M.
  destruct M as [(wa & w1 & ca & -> & Ma & wb & w2 & cb & -> & Mb
                  & wc & w3 & cc & -> & Mc & wd & w4 & cd & -> & (Hd & ->)
                  & we & w5 & ce & -> & (-> & ->) & wf & w6 & cf & ->
                  & (Hf & ->) & wj & wt & cj & -> & (cj' & Mj & ->) & Mt)
                | (wj & wt & cj & -> & (cj' & Mj & ->) & Mt)].
  - destruct (braces_shape _ _ _ _ _ Mj) as (_ & body & ->).
    pose proof (Matches_avoids LBRACE a eq_refl _ _ _ _ _ Ma) as Na.
    pose proof (Matches_avoids LBRACE b eq_refl _ _ _ _ _ Mb) as Nb.
    pose proof (Matches_avoids LBRACE c eq_refl _ _ _ _ _ Mc) as Nc.
    pose proof (space_free LBRACE _ eq_refl Hd) as Nd.
    pose proof (space_free LBRACE _ eq_refl Hf) as Nf.
    assert (H1 : ((U0 ++ [w]) ++ s ++ ws1 ++ 61%N :: ws2) ++ LBRACE :: X
                 = (wa ++ wb ++ wc ++ wd ++ 61%N :: wf)
                   ++ LBRACE :: (body ++ [RBRACE]) ++ wt ++ rest').
    { transitivity ((U0 ++ [w]) ++ s ++ ws1 ++ 61%N :: ws2 ++ LBRACE :: X).
      - repeat (cbn [app]; rewrite <- ?app_assoc). reflexivity.
      - rewrite Ht. repeat (cbn [app]; rewrite <- ?app_assoc).
        reflexivity. }
    apply split_first in H1.
    + destruct H1 as [H1 _].
      assert (H2 : ((U0 ++ [w]) ++ s ++ ws1) ++ 61%N :: ws2
                   = (wa ++ wb ++ wc ++ wd) ++ 61%N :: wf).
      { rewrite <- !app_assoc. rewrite <- !app_assoc in H1. exact H1. }
      apply split_last in H2;
        [|apply space_free; [reflexivity | assumption]
         |apply space_free; [reflexivity | assumption]].
      destruct H2 as [H2 _].
      destruct s as [|c0 s']; [contradiction|].
      cbn [forallb] in Hword. apply andb_true_iff in Hword.
      destruct Hword as [Hc0 Hs'].
      assert (H3 : wa ++ wb ++ wc ++ wd = U0 ++ w :: c0 :: (s' ++ ws1)).
      { rewrite <- !app_assoc in H2. cbn [app] in H2.
        symmetry. exact H2. }
      destruct (head_transition _ _ _ _ _ _ _ _
                  (export_shape _ _ _ _ _ Ma) (keyword_shape _ _ _ _ _ Mb)
                  (name_shape _ _ _ _ _ Mc) Hd H3 Hw Hc0)
        as (y & kw & e & Hkw & He & Hy).
      exact (Hkey y kw e Hkw He Hy).
    + rewrite !in_app_iff. cbn [In].
      intros [H|[H|[H|[H|H]]]].
      * apply HU. rewrite in_app_iff. exact H.
      * exact (word_free LBRACE _ eq_refl Hword H).
      * exact (space_free LBRACE _ eq_refl Hws1 H).
      * discriminate H.
      * exact (space_free LBRACE _ eq_refl Hws2 H).
    + rewrite !in_app_iff. cbn [In].
      intros [H|[H|[H|[H|[H|H]]]]]; try contradiction. discriminate H.
  - destruct (braces_shape _ _ _ _ _ Mj) as (_ & body & ->).
    destruct U0 as [|u0 U0]; cbn [app] in Ht; injection Ht as -> _;
      apply HU; left; reflexivity.
Qed.

(** What stands before the name of a [const] or [let] declaration, up
    to any place in it, does not end with [export] or [var] and white
    space. *)
Lemma before_name (pre kw W u1 U : jsstring) :
  kw = js "const" \/ kw = js "let" ->
  W <> [] -> forallb isWhiteSpace W = true ->
  pre ++ kw ++ W = u1 ++ U -> U <> [] ->
  (exists U0 w, U = U0 ++ [w] /\ isWhiteSpace w = true)
  /\ forall y kw' e,
      kw' = js "export" \/ kw' = js "var" ->
      forallb isWhiteSpace e = true -> U <> y ++ kw' ++ e.
Proof.
  intros Hkw HW Hws H HU. split.
  - destruct (exists_last HU) as (U0 & w & ->).
    destruct (exists_last HW) as (W0 & w' & ->).
    exists U0, w. split; [reflexivity|].
    rewrite !app_assoc in H. apply app_inj_tail in H. destruct H as [_ <-].
    rewrite forallb_app in Hws. apply andb_true_iff in Hws.
    destruct Hws as [_ Hws]. cbn [forallb] in Hws.
    apply andb_true_iff in Hws. apply Hws.
  - intros y kw' e Hkw' He ->.
    assert (Hsplit : forall k0 b kx0 a,
               kw = k0 ++ [b] -> kw' = kx0 ++ [a] ->
               isWhiteSpace a = false -> isWhiteSpace b = false ->
               u1 ++ y ++ kx0 = pre ++ k0 /\ a = b).
    { intros k0 b kx0 a -> -> Ha Hb.
      assert (E : (u1 ++ y ++ kx0) ++ a :: e = (pre ++ k0) ++ b :: W).
      { rewrite <- !app_assoc in H. cbn [app] in H.
        rewrite <- !app_assoc. cbn [app]. symmetry. exact H. }
      destruct (split_last_p isWhiteSpace _ _ _ _ _ _ He Ha Hws Hb E)
        as (E1 & E2 & _).
      split; assumption. }
    destruct Hkw' as [-> | ->].
    + destruct Hkw as [-> | ->].
      * destruct (Hsplit (js "cons") 116%N (js "expor") 116%N
                    eq_refl eq_refl eq_refl eq_refl) as [E _].
        change (js "expor") with (js "expo" ++ [114%N]) in E.
        change (js "cons") with (js "con" ++ [115%N]) in E.
        rewrite !app_assoc in E. apply app_inj_tail in E.
        destruct E as [_ E]. discriminate E.
      * destruct (Hsplit (js "le") 116%N (js "expor") 116%N
                    eq_refl eq_refl eq_refl eq_refl) as [E _].
        change (js "expor") with (js "expo" ++ [114%N]) in E.
        change (js "le") with (js "l" ++ [101%N]) in E.
        rewrite !app_assoc in E. apply app_inj_tail in E.
        destruct E as [_ E]. discriminate E.
    + destruct Hkw as [-> | ->].
      * destruct (Hsplit (js "cons") 116%N (js "va") 114%N
                    eq_refl eq_refl eq_refl eq_refl) as [_ E].
        discriminate E.
      * destruct (Hsplit (js "le") 116%N (js "va") 114%N
                    eq_refl eq_refl eq_refl eq_refl) as [_ E].
        discriminate E.
Qed.

(** The search passes over a text in which no match starts. *)
Lemma search_skip r (U R : jsstring) :
  forall pos,
    (forall u1 u2,
        U = u1 ++ u2 -> u2 <> [] ->
        rmatch r (u2 ++ R) (pos + length u1) []
               (fun _ e caps =>
                  Some {| index := pos + length u1; matchEnd := e;
                          groups := caps |}) = None) ->
    search r (U ++ R) pos = search r R (pos + length U).
Proof.
  induction U as [|c U IH]; intros pos H.
  - cbn [app length]. rewrite Nat.add_0_r. reflexivity.
  - pose proof (H [] (c :: U) eq_refl ltac:(discriminate)) as H0.
    cbn [app length] in H0. rewrite Nat.add_0_r in H0.
    cbn [app search]. rewrite H0.
    rewrite (IH (S pos)).
    + f_equal. cbn [length]. lia.
    + intros u1 u2 E Hne. specialize (H (c :: u1) u2).
      cbn [length] in H. rewrite Nat.add_succ_r in H. apply H;
        [rewrite E; reflexivity | exact Hne].
Qed.

(** * The first candidate *)

Lemma search_here r (rest : jsstring) pos m :
  rmatch r rest pos []
         (fun _ e caps => Some {| index := pos; matchEnd := e; groups := caps |})
  = Some m ->
  search r rest pos = Some m.
Proof. intros H. destruct rest; cbn [search]; rewrite H; reflexivity. Qed.

Lemma exec_start r (text : jsstring) : exec r text 0 = search r text 0.
Proof. reflexivity. Qed.

Section FirstCandidate.

Variable tree : Type.
Variable parse : jsstring -> option tree.

(** The candidate recorded for a match whose groups are known. *)
Lemma recordMatch_at (before h1 nm h2 lit term after : jsstring) m
      (variables : list variable) t :
  index m = length before ->
  matchEnd m = length before + length ((h1 ++ nm ++ h2) ++ lit ++ term) ->
  capture 1 (groups m)
  = Some (length before + length h1, length before + length h1 + length nm) ->
  capture 2 (groups m)
  = Some (length before + length (h1 ++ nm ++ h2),
          length before + length (h1 ++ nm ++ h2) + length lit) ->
  nm <> [] -> hd_error lit = Some LBRACE -> ~ In LBRACE (h1 ++ nm ++ h2) ->
  parse lit = Some t ->
  recordMatch parse (before ++ (h1 ++ nm ++ h2) ++ lit ++ term ++ after)
              m variables
  = variables
    ++ [{| name := nm; json := lit;
           jsonStart := Z.of_nat (length (before ++ h1 ++ nm ++ h2));
           jsonEnd := (Z.of_nat (length (before ++ h1 ++ nm ++ h2))
                       + Z.of_nat (length lit))%Z |}].
Proof.
  intros Hi He H1 H2 Hnm Hlit Hn Hp.
  set (text := before ++ (h1 ++ nm ++ h2) ++ lit ++ term ++ after).
  destruct lit as [|l0 lit']; [discriminate Hlit|].
  injection Hlit as ->.
  assert (G2 : group text m 2 = Some (LBRACE :: lit')).
  { unfold group. rewrite H2. f_equal. unfold text.
    rewrite (app_assoc before). apply slice_at; rewrite ?length_app; lia. }
  assert (G1 : group text m 1 = Some nm).
  { unfold group. rewrite H1. f_equal. unfold text.
    replace (before ++ (h1 ++ nm ++ h2) ++ (LBRACE :: lit') ++ term ++ after)
      with ((before ++ h1) ++ nm
            ++ (h2 ++ (LBRACE :: lit') ++ term ++ after))
      by (repeat (cbn [app]; rewrite <- ?app_assoc); reflexivity).
    apply slice_at; rewrite ?length_app; lia. }
  assert (G0 : group text m 0
               = Some ((h1 ++ nm ++ h2) ++ (LBRACE :: lit') ++ term)).
  { unfold group. rewrite Hi, He. f_equal. unfold text.
    replace (before ++ (h1 ++ nm ++ h2) ++ (LBRACE :: lit') ++ term ++ after)
      with (before ++ ((h1 ++ nm ++ h2) ++ (LBRACE :: lit') ++ term) ++ after)
      by (repeat (cbn [app]; rewrite <- ?app_assoc); reflexivity).
    apply slice_at; reflexivity. }
  unfold recordMatch. rewrite G1, G2, G0.
  destruct nm as [|n0 nm']; [contradiction|].
  cbn [orElse]. rewrite Hp.
  rewrite (indexOf_first LBRACE lit' (h1 ++ (n0 :: nm') ++ h2) term Hn).
  rewrite Hi. f_equal. f_equal. f_equal.
  - rewrite !length_app. lia.
  - rewrite !length_app. lia.
Qed.

Lemma findLoop_prefix (text : jsstring) fuel :
  forall lastIndex variables r,
    findLoop parse fuel text lastIndex variables = Some r ->
    exists more, r = variables ++ more.
Proof.
  induction fuel as [|fuel IH]; intros lastIndex variables r H;
    cbn [findLoop] in H;
    destruct (exec jsonVariablePattern text lastIndex) as [m|] eqn:E;
    try discriminate;
    try (injection H as <-; exists []; rewrite app_nil_r; reflexivity).
  destruct (IH _ _ _ H) as (more & ->).
  destruct (recordMatch_cases _ parse text m variables)
    as [->|(v & t & -> & _)].
  - exists more. reflexivity.
  - exists (v :: more). rewrite <- app_assoc. reflexivity.
Qed.

(** The first candidate is the one of the first match that is kept. *)
Lemma first_candidate (text : jsstring) m v :
  exec jsonVariablePattern text 0 = Some m ->
  recordMatch parse text m [] = [v] ->
  nth_error (findJsonVariables parse text) 0 = Some v.
Proof.
  intros He Hr.
  remember (S (length text)) as fuel eqn:Ef.
  pose proof (findJsonVariables_loop _ parse text (S fuel) ltac:(lia)) as H.
  cbn [findLoop] in H. rewrite He, Hr in H.
  destruct (findLoop_prefix _ _ _ _ _ H) as (more & ->). reflexivity.
Qed.

Variables pre kw W ws1 ws2 body after : jsstring.

Hypothesis Hpre : existsb (N.eqb LBRACE) pre = false.
Hypothesis Hkw : kw = js "const" \/ kw = js "let".
Hypothesis HW : W <> [].
Hypothesis HWs : forallb isWhiteSpace W = true.
Hypothesis Hws1 : forallb isWhiteSpace ws1 = true.
Hypothesis Hws2 : forallb isWhiteSpace ws2 = true.
Hypothesis Hno :
  indexOf (LBRACE :: body ++ [RBRACE]) [RBRACE; 59%N] 0 = None.
Hypothesis Hafter : endsStatement after = true.

Lemma after_cases :
  exists term after',
    after = term ++ after' /\ (term = [59%N] \/ (term = [] /\ after' = [])).
Proof.
  destruct after as [|c r]; cbn [endsStatement] in Hafter.
  - exists [], []. split; [reflexivity | right; split; reflexivity].
  - apply N.eqb_eq in Hafter. subst c. exists [59%N], r.
    split; [reflexivity | left; reflexivity].
Qed.

Lemma before_free : ~ In LBRACE (pre ++ kw ++ W).
Proof.
  rewrite !in_app_iff. intros [H|[H|H]].
  - assert (existsb (N.eqb LBRACE) pre = true)
      by (apply existsb_exists; exists LBRACE; split;
          [exact H | apply N.eqb_refl]).
    congruence.
  - destruct Hkw as [-> | ->]; vm_compute in H; repeat destruct H as [H|H];
      try discriminate H; exact H.
  - exact (space_free LBRACE _ eq_refl HWs H).
Qed.

(** The search reaches the name: no match starts before it. *)
Lemma search_reaches (name X : jsstring) :
  name <> [] -> forallb isWordChar name = true ->
  search jsonVariablePattern
         ((pre ++ kw ++ W) ++ name ++ ws1 ++ 61%N :: ws2 ++ LBRACE :: X) 0
  = search jsonVariablePattern
           (name ++ ws1 ++ 61%N :: ws2 ++ LBRACE :: X)
           (length (pre ++ kw ++ W)).
Proof.
  intros Hname Hword.
  rewrite (search_skip jsonVariablePattern (pre ++ kw ++ W) _ 0);
    [reflexivity|].
  intros u1 u2 E Hne.
  destruct (before_name pre kw W u1 u2 Hkw HW HWs E Hne)
    as ((U0 & w & -> & Hw) & Hkey).
  apply no_match_before; try assumption.
  intros Hin. apply before_free. rewrite E. apply in_or_app. right.
  exact Hin.
Qed.

End FirstCandidate.

Section Declaration.

Variable tree : Type.
Variable parse : jsstring -> option tree.
Variables pre kw W ws1 ws2 body after : jsstring.

Hypothesis Hpre : existsb (N.eqb LBRACE) pre = false.
Hypothesis Hkw : kw = js "const" \/ kw = js "let".
Hypothesis HW : W <> [].
Hypothesis HWs : forallb isWhiteSpace W = true.
Hypothesis Hws1 : forallb isWhiteSpace ws1 = true.
Hypothesis Hws2 : forallb isWhiteSpace ws2 = true.
Hypothesis Hno :
  indexOf (LBRACE :: body ++ [RBRACE]) [RBRACE; 59%N] 0 = None.
Hypothesis Hafter : endsStatement after = true.

(** The first candidate of a text whose first match starts at the name
    [h1 ++ nm] and has [nm] as its first group. *)
Lemma declaration_first (h1 nm : jsstring) t :
  h1 ++ nm <> [] -> forallb isWordChar (h1 ++ nm) = true -> nm <> [] ->
  parse (LBRACE :: body ++ [RBRACE]) = Some t ->
  (forall term after',
      after = term ++ after' ->
      term = [59%N] \/ (term = [] /\ after' = []) ->
      exists m,
        rmatch jsonVariablePattern
               (h1 ++ assignment nm ws1 ws2 (LBRACE :: body ++ [RBRACE]) ++ term ++ after')
               (length (pre ++ kw ++ W)) []
               (fun _ e caps =>
                  Some {| index := length (pre ++ kw ++ W); matchEnd := e;
                          groups := caps |})
        = Some m
        /\ index m = length (pre ++ kw ++ W)
        /\ matchEnd m
           = length (pre ++ kw ++ W) + length h1
             + length (assignment nm ws1 ws2 (LBRACE :: body ++ [RBRACE]) ++ term)
        /\ groups m
           = [(2, (length (pre ++ kw ++ W) + length h1
                   + length (nm ++ ws1 ++ 61%N :: ws2),
                   length (pre ++ kw ++ W) + length h1
                   + length (nm ++ ws1 ++ 61%N :: ws2) + length (LBRACE :: body ++ [RBRACE])));
              (1, (length (pre ++ kw ++ W) + length h1,
                   length (pre ++ kw ++ W) + length h1 + length nm))]) ->
  nth_error
    (findJsonVariables parse
       (pre ++ kw ++ W ++ assignment (h1 ++ nm) ws1 ws2 (LBRACE :: body ++ [RBRACE]) ++ after)) 0
  = Some {| name := nm; json := (LBRACE :: body ++ [RBRACE]);
            jsonStart :=
              Z.of_nat (length (pre ++ kw ++ W ++ h1 ++ nm ++ ws1
                                ++ 61%N :: ws2));
            jsonEnd :=
              (Z.of_nat (length (pre ++ kw ++ W ++ h1 ++ nm ++ ws1
                                 ++ 61%N :: ws2))
               + Z.of_nat (length (LBRACE :: body ++ [RBRACE])))%Z |}.
Proof.
  intros Hname Hword Hnm Hp Hmatch.
  destruct (after_cases after Hafter) as (term & after' & Ea & Hterm).
  destruct (Hmatch term after' Ea Hterm) as (m & Hm & Hi & He & Hg).
  subst after.
  set (U := pre ++ kw ++ W) in *.
  assert (Etext : pre ++ kw ++ W
                  ++ assignment (h1 ++ nm) ws1 ws2 (LBRACE :: body ++ [RBRACE]) ++ term ++ after'
                  = U ++ (h1 ++ nm ++ ws1 ++ 61%N :: ws2)
                      ++ (LBRACE :: body ++ [RBRACE]) ++ term ++ after').
  { unfold U, assignment. repeat (cbn [app]; rewrite <- ?app_assoc).
    reflexivity. }
  assert (Estart : pre ++ kw ++ W ++ h1 ++ nm ++ ws1 ++ 61%N :: ws2
                   = U ++ h1 ++ nm ++ ws1 ++ 61%N :: ws2).
  { unfold U. rewrite <- !app_assoc. reflexivity. }
  rewrite Etext, Estart.
  apply (first_candidate _ parse _ m).
  - rewrite exec_start.
    replace (U ++ (h1 ++ nm ++ ws1 ++ 61%N :: ws2)
               ++ (LBRACE :: body ++ [RBRACE]) ++ term ++ after')
      with (U ++ (h1 ++ nm) ++ ws1 ++ 61%N :: ws2
              ++ LBRACE :: (body ++ [RBRACE]) ++ term ++ after')
      by (repeat (cbn [app]; rewrite <- ?app_assoc);
          reflexivity).
    unfold U.
    rewrite (search_reaches pre kw W ws1 ws2 Hpre Hkw HW HWs Hws1 Hws2
               (h1 ++ nm) _ Hname Hword).
    apply search_here. rewrite <- Hm. f_equal.
    unfold assignment. repeat (cbn [app]; rewrite <- ?app_assoc).
    reflexivity.
  - apply (recordMatch_at _ parse U h1 nm (ws1 ++ 61%N :: ws2) (LBRACE :: body ++ [RBRACE]) term
             after' m [] t).
    + exact Hi.
    + rewrite He. unfold assignment.
      repeat (rewrite ?length_app; cbn [length]). lia.
    + rewrite Hg. cbn [capture Nat.eqb]. reflexivity.
    + rewrite Hg. cbn [capture Nat.eqb]. f_equal.
      repeat (rewrite ?length_app; cbn [length]). f_equal; lia.
    + exact Hnm.
    + reflexivity.
    + rewrite !in_app_iff. cbn [In]. intros [H|[H|[H|[H|H]]]].
      * apply (word_free LBRACE (h1 ++ nm) eq_refl Hword).
        apply in_or_app. left. exact H.
      * apply (word_free LBRACE (h1 ++ nm) eq_refl Hword).
        apply in_or_app. right. exact H.
      * exact (space_free LBRACE _ eq_refl Hws1 H).
      * discriminate H.
      * exact (space_free LBRACE _ eq_refl Hws2 H).
    + exact Hp.
Qed.

End Declaration.

(** X15: the first declaration of a file is found under its name.  In
    a text where no opening brace stands before it, a declaration
    [const NAME = {...}] or [let NAME = {...}] that ends its statement,
    whose literal holds no closing brace followed by a semicolon and
    passes [parseTree], is the first candidate of [findJsonVariables]; it
    is named [NAME] and its offsets are those of the literal, provided
    [NAME] does not itself begin with one of the keywords of the
    pattern. *)
Theorem first_declaration_found (tree : Type)
        (parse : jsstring -> option tree)
        (pre kw W name ws1 ws2 body after : jsstring) (t : tree) :
  existsb (N.eqb LBRACE) pre = false ->
  kw = js "const" \/ kw = js "let" ->
  W <> [] -> forallb isWhiteSpace W = true ->
  name <> [] -> forallb isWordChar name = true ->
  startsWithKeyword name = false ->
  forallb isWhiteSpace ws1 = true -> forallb isWhiteSpace ws2 = true ->
  indexOf (LBRACE :: body ++ [RBRACE]) (js "};") 0 = None ->
  endsStatement after = true ->
  parse (LBRACE :: body ++ [RBRACE]) = Some t ->
  nth_error
    (findJsonVariables parse
       (pre ++ kw ++ W
        ++ assignment name ws1 ws2 (LBRACE :: body ++ [RBRACE]) ++ after)) 0
  = Some {| name := name; json := LBRACE :: body ++ [RBRACE];
            jsonStart :=
              Z.of_nat (length (pre ++ kw ++ W ++ name ++ ws1
                                ++ 61%N :: ws2));
            jsonEnd :=
              (Z.of_nat (length (pre ++ kw ++ W ++ name ++ ws1
                                 ++ 61%N :: ws2))
               + Z.of_nat (length (LBRACE :: body ++ [RBRACE])))%Z |}.
Proof.
  intros Hpre Hkw HW HWs Hname Hword Hstart Hws1 Hws2 Hno Hafter Hp.
  apply (declaration_first tree parse pre kw W ws1 ws2 body after
           Hpre Hkw HW HWs Hws1 Hws2 Hafter [] name t);
    try assumption.
  intros term after' _ Hterm. cbn [app length]. 
  destruct (named_matches (length (pre ++ kw ++ W)) name ws1 ws2 body term
              after' Hname Hword Hws1 Hws2 Hno Hterm
              (length (pre ++ kw ++ W)) Hstart)
    as (m & Hm & Hi & He & Hg).
  exists m. rewrite !Nat.add_0_r. repeat split; assumption.
Qed.

Lemma first_declaration_found_witness :
  nth_error
    (findJsonVariables parseTree
       (js "import x from 'y';" ++ [LF] ++ js "const" ++ js " "
        ++ assignment (js "cfg") (js " ") (js " ") (jq "{`a`:{`b`:1}}")
        ++ js ";")) 0
  = Some {| name := js "cfg"; json := jq "{`a`:{`b`:1}}";
            jsonStart := 31; jsonEnd := 44 |}.
Proof.
  destruct (parseTree (jq "{`a`:{`b`:1}}")) as [t|] eqn:E;
    [|vm_compute in E; discriminate E].
  exact (first_declaration_found _ parseTree
           (js "import x from 'y';" ++ [LF]) (js "const") (js " ")
           (js "cfg") (js " ") (js " ") (jq "`a`:{`b`:1}") (js ";") t
           eq_refl (or_introl eq_refl) ltac:(discriminate) eq_refl
           ltac:(discriminate) eq_refl eq_refl eq_refl eq_refl eq_refl
           eq_refl E).
Defined.

(** X16: a name that begins with [const] or [let] loses that beginning.
    In the same setting, when the declared name is [const] or [let]
    followed at once by more word characters, the pattern takes the
    keyword inside the name as the keyword of a declaration: the first
    candidate is named by the rest of the name alone. *)
Theorem keyword_prefix_cut_from_name (tree : Type)
        (parse : jsstring -> option tree)
        (pre kw W kw' rest ws1 ws2 body after : jsstring) (t : tree) :
  existsb (N.eqb LBRACE) pre = false ->
  kw = js "const" \/ kw = js "let" ->
  W <> [] -> forallb isWhiteSpace W = true ->
  kw' = js "const" \/ kw' = js "let" ->
  rest <> [] -> forallb isWordChar rest = true ->
  forallb isWhiteSpace ws1 = true -> forallb isWhiteSpace ws2 = true ->
  indexOf (LBRACE :: body ++ [RBRACE]) (js "};") 0 = None ->
  endsStatement after = true ->
  parse (LBRACE :: body ++ [RBRACE]) = Some t ->
  nth_error
    (findJsonVariables parse
       (pre ++ kw ++ W
        ++ assignment (kw' ++ rest) ws1 ws2 (LBRACE :: body ++ [RBRACE])
        ++ after)) 0
  = Some {| name := rest; json := LBRACE :: body ++ [RBRACE];
            jsonStart :=
              Z.of_nat (length (pre ++ kw ++ W ++ kw' ++ rest ++ ws1
                                ++ 61%N :: ws2));
            jsonEnd :=
              (Z.of_nat (length (pre ++ kw ++ W ++ kw' ++ rest ++ ws1
                                 ++ 61%N :: ws2))
               + Z.of_nat (length (LBRACE :: body ++ [RBRACE])))%Z |}.
Proof.
  intros Hpre Hkw HW HWs Hkw' Hrest Hword Hws1 Hws2 Hno Hafter Hp.
  apply (declaration_first tree parse pre kw W ws1 ws2 body after
           Hpre Hkw HW HWs Hws1 Hws2 Hafter kw' rest t);
    try assumption.
  - destruct Hkw' as [-> | ->]; discriminate.
  - rewrite forallb_app, Hword.
    destruct Hkw' as [-> | ->]; reflexivity.
  - intros term after' _ Hterm.
    exact (truncated_matches (length (pre ++ kw ++ W)) rest ws1 ws2 body
             term after' Hrest Hword Hws1 Hws2 Hno Hterm kw'
             (length (pre ++ kw ++ W)) Hkw').
Qed.

Lemma keyword_prefix_cut_from_name_witness :
  nth_error
    (findJsonVariables parseTree
       (js "const" ++ js " "
        ++ assignment (js "let" ++ js "ter") (js " ") (js " ")
                      (jq "{`a`:1}")
        ++ js ";")) 0
  = Some {| name := js "ter"; json := jq "{`a`:1}";
            jsonStart := 15; jsonEnd := 22 |}.
Proof.
  destruct (parseTree (jq "{`a`:1}")) as [t|] eqn:E;
    [|vm_compute in E; discriminate E].
  exact (keyword_prefix_cut_from_name _ parseTree
           [] (js "const") (js " ") (js "let") (js "ter") (js " ") (js " ")
           (jq "`a`:1") (js ";") t
           eq_refl (or_introl eq_refl) ltac:(discriminate) eq_refl
           (or_intror eq_refl) ltac:(discriminate) eq_refl eq_refl eq_refl
           eq_refl eq_refl E).
Defined.

(** * The paths that cannot be parsed *)

Lemma trimStart_blank (s : jsstring) :
  forallb isWhiteSpace s = true -> trimStart s = [].
Proof.
  induction s as [|c s IH]; [reflexivity|]. cbn [forallb trimStart].
  intros H. apply andb_true_iff in H. destruct H as [Hc Hs].
  rewrite Hc. exact (IH Hs).
Qed.

Lemma trim_blank (s : jsstring) : forallb isWhiteSpace s = true -> trim s = [].
Proof.
  intros H. unfold trim, trimEnd. rewrite (trimStart_blank s H). reflexivity.
Qed.

Lemma closed_before (a b : jsstring) :
  existsb (N.eqb RBRACKET) b = true -> closed (a ++ b) = closed b.
Proof.
  intros Hb. induction a as [|c a IH]; [reflexivity|].
  cbn [app closed]. rewrite IH, existsb_app, Hb, !orb_true_r. reflexivity.
Qed.

Lemma closed_bare (a b : jsstring) :
  bareSegment a = true -> closed (a ++ b) = closed b.
Proof.
  induction a as [|c a IH]; [reflexivity|].
  unfold bareSegment. cbn [forallb app closed]. intros H.
  apply andb_true_iff in H. destruct H as [Hc Ha].
  apply negb_true_iff, orb_false_iff in Hc. destruct Hc as [_ Hb].
  rewrite Hb. cbn [negb orb andb]. apply IH. exact Ha.
Qed.

Lemma closed_afterBracket_eq (s : jsstring) :
  closed (afterBracket s) = closed s.
Proof.
  destruct s as [|d u]; [reflexivity|]. cbn [afterBracket].
  destruct (N.eqb_spec d DOT) as [->|]; reflexivity.
Qed.

(** A bracket that is never closed empties the result, wherever it
    stands. *)
Lemma Parses_unclosed_nil (rest : jsstring) parts r :
  Parses rest parts r -> closed rest = false -> r = [].
Proof.
  intros H. induction H as [parts | t parts r H IH | t parts E
                           | t k parts r E H IH | c t parts r Ed Eb H IH];
    intros Hc.
  - discriminate Hc.
  - apply IH. exact Hc.
  - reflexivity.
  - apply IH. rewrite closed_afterBracket_eq.
    destruct (indexOfAux_Some _ _ _ _ E) as (a & b & -> & Hn & ->).
    cbn [Nat.add]. 
    replace (skipn (S (length a)) (a ++ RBRACKET :: b)) with b
      by (change (a ++ RBRACKET :: b) with (a ++ [RBRACKET] ++ b);
          rewrite app_assoc, skipn_app, skipn_all2, length_app
            by (rewrite length_app; cbn [length]; lia);
          cbn [length app];
          replace (S (length a) - (length a + 1)) with 0 by lia;
          reflexivity).
    cbn [closed] in Hc. change (N.eqb LBRACKET LBRACKET) with true in Hc.
    cbn [negb orb] in Hc.
    assert (Hex : existsb (N.eqb RBRACKET) (RBRACKET :: b) = true)
      by (cbn [existsb]; rewrite N.eqb_refl; reflexivity).
    rewrite existsb_app, Hex, orb_true_r in Hc. cbn [andb] in Hc.
    rewrite (closed_before a _ Hex) in Hc. exact Hc.
  - apply IH.
    destruct (bareRun_split (c :: t)) as (Es & Hb & _).
    rewrite Es in Hc. rewrite (closed_bare _ _ Hb) in Hc. exact Hc.
Qed.

Lemma blankPath_app (a b : jsstring) :
  blankPath (a ++ b) = blankPath a && blankPath b.
Proof. apply forallb_app. Qed.

(** A bare run of dots and white space is blank. *)
Lemma bare_blank (run : jsstring) :
  bareSegment run = true -> blankPath run = true ->
  forallb isWhiteSpace run = true.
Proof.
  unfold bareSegment, blankPath. induction run as [|c run IH];
    [reflexivity|].
  cbn [forallb]. intros Hb Hp.
  apply andb_true_iff in Hb, Hp. destruct Hb as [Hc Hb], Hp as [Hd Hp].
  apply negb_true_iff, orb_false_iff in Hc. destruct Hc as [Hc _].
  rewrite Hc in Hd. cbn [orb] in Hd. rewrite Hd, (IH Hb Hp). reflexivity.
Qed.

Lemma pushToken_some (parts : list accessor) token :
  parts <> [] \/ token <> [] -> pushToken parts token <> [].
Proof.
  unfold pushToken. intros H.
  destruct token as [|c token]; cbn [length Nat.ltb Nat.leb].
  - destruct H as [H|H]; [exact H | contradiction].
  - intros E. destruct parts; discriminate E.
Qed.

(** With every bracket closed, something other than dots and white
    space gives an accessor. *)
Lemma Parses_nonempty (rest : jsstring) parts r :
  Parses rest parts r -> closed rest = true ->
  parts <> [] \/ blankPath rest = false -> r <> [].
Proof.
  intros H. induction H as [parts | t parts r H IH | t parts E
                           | t k parts r E H IH | c t parts r Ed Eb H IH];
    intros Hc Hsome.
  - destruct Hsome as [Hp|Hb]; [exact Hp | discriminate Hb].
  - apply IH; [exact (closed_app_r [DOT] t Hc)|].
    destruct Hsome as [Hp|Hb]; [left; exact Hp | right].
    unfold blankPath in Hb. cbn [forallb] in Hb.
    rewrite N.eqb_refl in Hb. exact Hb.
  - destruct (closed_bracket t Hc) as (k & Hk). congruence.
  - apply IH.
    + apply closed_afterBracket, closed_skipn.
      exact (closed_app_r [LBRACKET] t Hc).
    + left. intros E'. destruct parts; discriminate E'.
  - destruct (bareRun_split (c :: t)) as (Es & Hb & _).
    apply IH.
    + rewrite Es in Hc. exact (closed_app_r _ _ Hc).
    + destruct Hsome as [Hp|Hblank].
      * left. apply pushToken_some. left. exact Hp.
      * rewrite Es, blankPath_app in Hblank.
        apply andb_false_iff in Hblank. destruct Hblank as [Hrun|Hafter];
          [left | right; exact Hafter].
        apply pushToken_some. right. intros Et.
        apply trim_nil in Et.
        assert (Hall : blankPath (fst (bareRun (c :: t))) = true).
        { unfold blankPath. apply forallb_forall. intros x Hx.
          rewrite forallb_forall in Et. rewrite (Et x Hx).
          apply orb_true_r. }
        congruence.
Qed.

(** Dots and white space give nothing. *)
Lemma Parses_blank :
  forall n (rest : jsstring) parts,
    length rest <= n -> blankPath rest = true -> Parses rest parts parts.
Proof.
  induction n as [|n IH]; intros rest parts Hn Hb.
  - destruct rest; [constructor | cbn [length] in Hn; lia].
  - destruct rest as [|c t]; [constructor|].
    unfold blankPath in Hb. cbn [forallb] in Hb.
    apply andb_true_iff in Hb. destruct Hb as [Hc Ht].
    destruct (N.eqb_spec c DOT) as [->|Hd].
    + constructor. apply IH; [cbn [length] in Hn; lia | exact Ht].
    + cbn [orb] in Hc.
      assert (Hbr : N.eqb c LBRACKET = false).
      { destruct (N.eqb_spec c LBRACKET) as [->|]; [discriminate Hc|].
        reflexivity. }
      assert (Hdot : N.eqb c DOT = false) by (apply N.eqb_neq; exact Hd).
      destruct (bareRun_split (c :: t)) as (Es & Hbare & _).
      assert (Hblank : blankPath (c :: t) = true).
      { unfold blankPath. cbn [forallb]. rewrite Hc, orb_true_r. exact Ht. }
      rewrite Es, blankPath_app in Hblank.
      apply andb_true_iff in Hblank. destruct Hblank as [Hrun Hafter].
      apply Parses_bare; [exact Hdot | exact Hbr |].
      rewrite (trim_blank _ (bare_blank _ Hbare Hrun)).
      change (pushToken parts []) with parts.
      apply IH; [|exact Hafter].
      assert (Hlen : length (c :: t)
                     = length (fst (bareRun (c :: t)))
                       + length (snd (bareRun (c :: t))))
        by (rewrite Es at 1; apply length_app).
      assert (Hpos : 1 <= length (fst (bareRun (c :: t)))).
      { cbn [bareRun]. rewrite Hdot, Hbr. cbn [orb].
        destruct (bareRun t). cbn [fst length]. lia. }
      cbn [length] in Hn, Hlen. lia.
Qed.

(** X17: the paths that cannot be parsed.  [parsePath] returns no
    accessor exactly when some opening bracket has no closing bracket
    after it, or the text holds nothing but dots and white space; so the
    command, once the path and the value are given, reports that the path
    could not be parsed on exactly these paths. *)
Theorem parsePath_empty_iff (input : jsstring) :
  (parsePath input = [] <-> closed input = false \/ blankPath input = true)
  /\ forall languageId (doc : jsstring) a raw fmt,
      languageId = LangJson \/ languageId = LangJsonc ->
      pathInput a = Some input -> input <> [] -> valueInput a = Some raw ->
      (insertPathAndValue languageId doc a fmt
       = ErrorMessage (js "Path could not be parsed.")
       <-> parsePath input = []).
Proof.
  split.
  - split.
    + intros E. destruct (closed input) eqn:Hc; [right | left; reflexivity].
      destruct (blankPath input) eqn:Hb; [reflexivity|]. exfalso.
      apply (Parses_nonempty input [] (parsePath input)
               (parsePath_Parses input) Hc (or_intror Hb)).
      exact E.
    + intros [Hc|Hb].
      * exact (Parses_unclosed_nil _ _ _ (parsePath_Parses input) Hc).
      * apply Parses_parsePath.
        exact (Parses_blank (length input) input [] (le_n _) Hb).
  - intros languageId doc a raw fmt Hlang Hp Hne Hv.
    unfold insertPathAndValue, selectTarget.
    replace (isProgramSource languageId) with false
      by (destruct Hlang as [-> | ->]; reflexivity).
    replace (negb match languageId with
                  | LangOther =>
                      match proceed a with
                      | Some p =>
                          if list_eq_dec N.eq_dec p (js "Yes") then true
                          else false
                      | None => false
                      end
                  | _ => true
                  end) with false
      by (destruct Hlang as [-> | ->]; reflexivity).
    rewrite Hp, Hv. destruct input as [|c0 input']; [contradiction|].
    cbn [orElse text isWrapped].
    destruct (parsePath (c0 :: input')) as [|p0 ps].
    + split; reflexivity.
    + split; [|discriminate].
      destruct (modify _ (p0 :: ps) (coerceValue raw) fmt); discriminate.
Qed.

Lemma parsePath_empty_iff_witness :
  blankPath (js " . ") = true /\ parsePath (js " . ") = []
  /\ closed (js "a[0].b[") = false /\ parsePath (js "a[0].b[") = [].
Proof.
  split; [reflexivity|].
  split; [exact (proj2 (proj1 (parsePath_empty_iff (js " . ")))
                   (or_intror eq_refl))|].
  split; [reflexivity|].
  exact (proj2 (proj1 (parsePath_empty_iff (js "a[0].b[")))
           (or_introl eq_refl)).
Defined.
